(** * Arbitrary-precision integers of the Koka C runtime (cruntime/src/integer.c)

    A shallow embedding of the big-integer core and of the generic
    [integer_*] entry points, followed by the properties established for
    them.

    Conventions of the embedding.
    - A [bigint_t] is its sign flag and the list of its live digits,
      least significant first; [count] is the length of that list.  The
      [extra] slack of the C record and the reference counts are storage
      matters: they are modelled separately, in module [Buf], for the one
      function whose bounds are examined there.
    - [digit_t] (32 bits) and [ddigit_t] (64 bits) values are integers of
      [Z]; C's [/] and [%] on them are [Z.quot] and [Z.rem].
    - A digit slot past the live digits reads as [0] ([digit_at]); this is
      what the slots hold after [bigint_trim] has dropped them.
    - Functions consume their arguments; releasing a reference
      ([bigint_decref], [integer_decref]) has no counterpart here. *)

From Stdlib Require Import Ascii String ZArith List Lia Bool.
Import ListNotations.
Local Open Scope Z_scope.

(* ====================================================================== *)
(** * Part I: the embedding *)
(* ====================================================================== *)

(** ** Digits *)

Definition BASE : Z := 1000000000.
Definition LOG_BASE : Z := 9.

Record bigint_t : Type := mk_bigint {
  is_neg : bool;        (* negative *)
  digits : list Z       (* digits from least-significant to most significant *)
}.

Definition bigint_is_neg_ (b : bigint_t) : bool := is_neg b.

Definition bigint_sign_ (b : bigint_t) : Z := if bigint_is_neg_ b then -1 else 1.

Definition count (b : bigint_t) : nat := length (digits b).

Definition bigint_count_ (b : bigint_t) : Z := Z.of_nat (count b).

(** [x->digits[i]] *)
Definition digit_at (ds : list Z) (i : nat) : Z := nth i ds 0.

(** [x->digits[i] = d], for [i] below the length of the buffer *)
Fixpoint set_digit (ds : list Z) (i : nat) (d : Z) : list Z :=
  match ds, i with
  | [], _ => []
  | _ :: r, O => d :: r
  | x :: r, S i' => x :: set_digit r i' d
  end.

(** [b->digits[b->count-1]]; the index wraps around when [count] is zero,
    the slot read then lies before the digits and is taken as [0].  The
    read as one that has no result there is [Checked.bigint_last_digit_]
    below. *)
Definition bigint_last_digit_ (b : bigint_t) : Z := last (digits b) 0.

(** The number a digit sequence stands for:
    [digits[0]*BASE^0 + digits[1]*BASE^1 + ...]. *)
Fixpoint eval (ds : list Z) : Z :=
  match ds with
  | [] => 0
  | d :: r => d + BASE * eval r
  end.

Definition bigint_value (b : bigint_t) : Z := bigint_sign_ b * eval (digits b).

(** ** Allocation and trimming (value part) *)

(** [bigint_alloc_zero(count, is_neg)] *)
Definition bigint_alloc_zero (n : nat) (neg : bool) : bigint_t :=
  mk_bigint neg (repeat 0 n).

(** [bigint_trim_to(x, count, _)] for a [count] within the digits of [x]:
    the live digits become the first [count] ones.  With a larger
    [count], up to [count + extra], the source makes spare slots live;
    that case is in [Buf.bigint_trim_to] below. *)
Definition bigint_trim_to (x : bigint_t) (n : nat) : bigint_t :=
  mk_bigint (is_neg x) (firstn n (digits x)).

(** The scan of [bigint_trim]:
    [while ((i > 0) && (x->digits[i-1] == 0)) { i--; }] *)
Fixpoint trim_count (ds : list Z) (i : nat) : nat :=
  match i with
  | O => O
  | S i' => if digit_at ds i' =? 0 then trim_count ds i' else i
  end.

Definition bigint_trim (x : bigint_t) : bigint_t :=
  bigint_trim_to x (trim_count (digits x) (count x)).

(** [bigint_push(x, d)] *)
Definition bigint_push (x : bigint_t) (d : Z) : bigint_t :=
  mk_bigint (is_neg x) (digits x ++ [d]).

(** ** Conversion from machine integers *)

(** The loop of [bigint_from_int]:
    [do { b = bigint_push(b, i%BASE); i /= BASE; } while (i > 0);]
    [fuel] bounds the number of rounds. *)
Fixpoint from_int_digits (fuel : nat) (i : Z) : list Z :=
  Z.rem i BASE ::
  match fuel with
  | O => []
  | S f => if 0 <? Z.quot i BASE then from_int_digits f (Z.quot i BASE) else []
  end.

(** [bigint_from_int] over the integers; with the range of [intptr_t],
    where [i = -i] overflows at the smallest one, it is
    [Checked.bigint_from_int] below. *)
Definition bigint_from_int (i : Z) : bigint_t :=
  let neg := i <? 0 in
  let i := if neg then - i else i in
  mk_bigint neg (from_int_digits (Z.to_nat (Z.log2 i)) i).

(** ** Comparison *)

(** The digit loop of [bigint_compare_abs_], from index [i-1] down. *)
Fixpoint compare_digits (xs ys : list Z) (i : nat) : Z :=
  match i with
  | O => 0
  | S i' =>
      if negb (digit_at xs i' =? digit_at ys i')
      then (if digit_at xs i' >? digit_at ys i' then 1 else -1)
      else compare_digits xs ys i'
  end.

Definition bigint_compare_abs_ (x y : bigint_t) : Z :=
  let cx := count x in
  let cy := count y in
  if (cy <? cx)%nat then 1
  else if (cx <? cy)%nat then -1
  else compare_digits (digits x) (digits y) cx.

Definition bigint_compare_ (x y : bigint_t) : Z :=
  if negb (Bool.eqb (is_neg x) (is_neg y))
  then (if is_neg y then 1 else -1)
  else bigint_sign_ x * bigint_compare_abs_ x y.

(** ** Addition and subtraction of magnitudes *)

(** Second loop of [bigint_add_abs]: propagate the carry through the rest
    of [x]; once the carry is gone the remaining digits of [x] are the
    result's (copied, or already in place when [x] is reused).  A carry
    left at the end flows into one more digit. *)
Fixpoint add_abs_carry (xs : list Z) (carry : Z) : list Z :=
  match xs with
  | [] => if negb (carry =? 0) then [carry] else []
  | x :: xs' =>
      if carry =? 0 then xs
      else
        let sum := x + carry in
        if BASE <=? sum then (sum - BASE) :: add_abs_carry xs' carry
        else sum :: add_abs_carry xs' 0
  end.

(** First loop of [bigint_add_abs]: add the digits of [y].  The source
    asserts [cx >= cy]; its caller [bigint_add] orders the operands. *)
Fixpoint add_abs_digits (xs ys : list Z) (carry : Z) : list Z :=
  match ys with
  | [] => add_abs_carry xs carry
  | y :: ys' =>
      match xs with
      | [] => add_abs_carry [] carry
      | x :: xs' =>
          let sum := x + y + carry in
          if BASE <=? sum then (sum - BASE) :: add_abs_digits xs' ys' 1
          else sum :: add_abs_digits xs' ys' 0
      end
  end.

(** The digits that [bigint_add_abs] writes.  Before its loops the
    source reads the top digit of each operand to size the result; those
    reads, which have no result on a bigint without digits, are in
    [Checked.bigint_add_abs] and [BufOps.bigint_add_abs] below. *)
Definition bigint_add_abs (x y : bigint_t) : bigint_t :=
  mk_bigint (is_neg x) (add_abs_digits (digits x) (digits y) 0).

(** Second loop of [bigint_sub_abs]: propagate the borrow. *)
Fixpoint sub_abs_borrow (xs : list Z) (borrow : Z) : list Z :=
  match xs with
  | [] => []
  | x :: xs' =>
      if borrow =? 0 then xs
      else
        let diff := x - borrow in
        if diff <? 0 then (diff + BASE) :: sub_abs_borrow xs' borrow
        else diff :: sub_abs_borrow xs' 0
  end.

(** First loop of [bigint_sub_abs]: subtract the digits of [y]. *)
Fixpoint sub_abs_digits (xs ys : list Z) (borrow : Z) : list Z :=
  match ys with
  | [] => sub_abs_borrow xs borrow
  | y :: ys' =>
      match xs with
      | [] => []
      | x :: xs' =>
          let diff := x - borrow - y in
          if diff <? 0 then (diff + BASE) :: sub_abs_digits xs' ys' 1
          else diff :: sub_abs_digits xs' ys' 0
      end
  end.

(** [bigint_sub_abs(x, y)], for [|x| >= |y|]; the result is trimmed. *)
Definition bigint_sub_abs (x y : bigint_t) : bigint_t :=
  bigint_trim (mk_bigint (is_neg x) (sub_abs_digits (digits x) (digits y) 0)).

(** ** Signed addition and subtraction

    [bigint_add] and [bigint_sub] call each other when the signs disagree;
    the callee's own sign test then succeeds, so the two bodies below,
    entered with agreeing signs, are all that runs. *)

Definition bigint_add_same (x y : bigint_t) (yneg : bool) : bigint_t :=
  let z := if (count x <? count y)%nat then bigint_add_abs y x
           else bigint_add_abs x y in
  mk_bigint yneg (digits z).

Definition bigint_sub_same (x y : bigint_t) (yneg : bool) : bigint_t :=
  if bigint_compare_abs_ x y >=? 0 then bigint_sub_abs x y
  else
    let z := bigint_sub_abs y x in
    mk_bigint (negb yneg) (digits z).

Definition bigint_add (x y : bigint_t) (yneg : bool) : bigint_t :=
  if negb (Bool.eqb (bigint_is_neg_ x) yneg)
  then bigint_sub_same x y (negb yneg)
  else bigint_add_same x y yneg.

Definition bigint_sub (x y : bigint_t) (yneg : bool) : bigint_t :=
  if negb (Bool.eqb (bigint_is_neg_ x) yneg)
  then bigint_add_same x y (negb yneg)
  else bigint_sub_same x y yneg.

Definition bigint_neg (x : bigint_t) : bigint_t :=
  mk_bigint (negb (is_neg x)) (digits x).

(** ** Multiplication *)

(** Inner loop of [bigint_mul], at row [i] and column [j]; [k] is [i+j]. *)
Fixpoint mul_row (dx : Z) (ys : list Z) (k : nat) (z : list Z) : list Z :=
  match ys with
  | [] => z
  | dy :: ys' =>
      let prod := dx * dy + digit_at z k in
      let carry := Z.quot prod BASE in
      let z := set_digit z k (prod - carry * BASE) in
      let z := set_digit z (S k) (digit_at z (S k) + carry) in
      mul_row dx ys' (S k) z
  end.

(** Outer loop of [bigint_mul]. *)
Fixpoint mul_rows (xs ys : list Z) (i : nat) (z : list Z) : list Z :=
  match xs with
  | [] => z
  | dx :: xs' => mul_rows xs' ys (S i) (mul_row dx ys i z)
  end.

(** Schoolbook multiplication. *)
Definition bigint_mul (x y : bigint_t) : bigint_t :=
  let cx := count x in
  let cy := count y in
  let neg := negb (Bool.eqb (bigint_is_neg_ x) (bigint_is_neg_ y)) in
  let cz := (cx + cy)%nat in
  let z := bigint_alloc_zero cz neg in
  bigint_trim (mk_bigint (is_neg z) (mul_rows (digits x) (digits y) 0 (digits z))).

(** [while (carry > 0) { z->digits[i++] = carry % BASE; carry /= BASE; }] *)
Fixpoint carry_digits (fuel : nat) (carry : Z) : list Z :=
  match fuel with
  | O => []
  | S f =>
      if 0 <? carry
      then Z.rem carry BASE :: carry_digits f (Z.quot carry BASE)
      else []
  end.

(** Main loop of [bigint_mul_small], followed by the carry digits. *)
Fixpoint mul_small_digits (xs : list Z) (y carry : Z) : list Z :=
  match xs with
  | [] => carry_digits (S (Z.to_nat (Z.log2 carry))) carry
  | x :: xs' =>
      let prod := x * y + carry in
      let carry := Z.quot prod BASE in
      (prod - carry * BASE) :: mul_small_digits xs' y carry
  end.

Definition bigint_mul_small (x : bigint_t) (y : Z) : bigint_t :=
  let neg := bigint_is_neg_ x && (y <? 0) in
  let y := if y <? 0 then - y else y in
  let z := mk_bigint (is_neg x) (mul_small_digits (digits x) y 0) in
  if neg && negb (bigint_is_neg_ z) then bigint_neg z else z.

Definition bigint_sqr (x : bigint_t) : bigint_t := bigint_mul x x.

(** [bigint_shift_left(x, digits)] *)
Definition bigint_shift_left (x : bigint_t) (n : Z) : bigint_t :=
  if n <=? 0 then x
  else mk_bigint (is_neg x) (repeat 0 (Z.to_nat n) ++ digits x).

(** [bigint_slice(x, lo, hi)]; [unique] is [bigint_is_unique_(x)].  The
    callers pass [lo <= hi] once both are clipped to the count. *)
Definition bigint_slice (unique : bool) (x : bigint_t) (lo hi : nat) : bigint_t :=
  if (lo =? 0)%nat && unique then bigint_trim_to x hi
  else
    let lo := if (count x <=? lo)%nat then count x else lo in
    let hi := if (count x <? hi)%nat then count x else hi in
    let cz := (hi - lo)%nat in
    if (cz =? 0)%nat then mk_bigint (is_neg x) [0]
    else mk_bigint (is_neg x) (firstn cz (skipn lo (digits x))).

(** [bigint_mul_karatsuba]; each level of the recursion uses one unit of
    [fuel].  In the source [x] and [y] are shared while they are sliced
    (they were duplicated on the line before and [bigint_slice] keeps the
    reference), so both slices of each operand are copies. *)
Fixpoint mul_karatsuba (fuel : nat) (x y : bigint_t) : option bigint_t :=
  let n := if (count y <=? count x)%nat then count x else count y in
  if (n <=? 25)%nat then Some (bigint_mul x y)
  else
    match fuel with
    | O => None
    | S fuel' =>
        let n := ((n + 1) / 2)%nat in
        let b := bigint_slice false x n (count x) in
        let a := bigint_slice false x 0 n in
        let d := bigint_slice false y n (count y) in
        let c := bigint_slice false y 0 n in
        match mul_karatsuba fuel' a c,
              mul_karatsuba fuel' b d,
              mul_karatsuba fuel' (bigint_add a b (is_neg b))
                                  (bigint_add c d (is_neg d)) with
        | Some ac, Some bd, Some abcd =>
            let p1 := bigint_shift_left
                        (bigint_sub (bigint_sub abcd ac (is_neg ac))
                                    bd (is_neg bd))
                        (Z.of_nat n) in
            let p2 := bigint_shift_left bd (2 * Z.of_nat n) in
            let prod := bigint_add (bigint_add ac p1 (is_neg p1))
                                   p2 (is_neg p2) in
            Some (bigint_trim prod)
        | _, _, _ => None
        end
    end.

(** The recursion halves the larger count, so as many levels as that count
    are more than enough. *)
Definition bigint_mul_karatsuba (x y : bigint_t) : option bigint_t :=
  mul_karatsuba (Nat.max (count x) (count y)) x y.

(** ** Division *)

(** Loop of [bigint_div_mod_small], from the top digit down; returns the
    quotient digits and the final [mod]. *)
Fixpoint div_mod_small_digits (xs : list Z) (y : Z) : list Z * Z :=
  match xs with
  | [] => ([], 0)
  | d :: r =>
      let (q, m) := div_mod_small_digits r y in
      let div := m * BASE + d in
      let q0 := Z.quot div y in
      (q0 :: q, div - q0 * y)
  end.

(** [bigint_div_mod_small(x, y, &mod)] as the pair (result, [mod]). *)
Definition bigint_div_mod_small (x : bigint_t) (y : Z) : bigint_t * Z :=
  let (q, m) := div_mod_small_digits (digits x) y in
  (bigint_trim (mk_bigint (is_neg x) q), m).

(** First inner loop of [bigint_div_mod]: subtract [qd*div] from the window
    of [rem] that starts at [shift]; [k] is [shift + i]. *)
Fixpoint div_mul_sub (ds : list Z) (qd : Z) (k : nat) (carry borrow : Z)
    (rem : list Z) : list Z * Z :=
  match ds with
  | [] => (rem, borrow)
  | d :: ds' =>
      let carry := carry + qd * d in
      let q := Z.quot carry BASE in
      let borrow := borrow + (digit_at rem k - (carry - q * BASE)) in
      let carry := q in
      if borrow <? 0
      then div_mul_sub ds' qd (S k) carry (-1) (set_digit rem k (borrow + BASE))
      else div_mul_sub ds' qd (S k) carry 0 (set_digit rem k borrow)
  end.

(** Inner loop of the correction: add [div] back into the window. *)
Fixpoint div_add_back (ds : list Z) (k : nat) (carry : Z) (rem : list Z)
    : list Z * Z :=
  match ds with
  | [] => (rem, carry)
  | d :: ds' =>
      let carry := carry + (digit_at rem k - BASE + d) in
      if carry <? 0
      then div_add_back ds' (S k) 0 (set_digit rem k (carry + BASE))
      else div_add_back ds' (S k) 1 (set_digit rem k carry)
  end.

(** [while (borrow != 0) { qd--; ...; borrow += carry; }], at most [fuel]
    rounds; [None] when the borrow has not cleared by then. *)
Fixpoint div_correct (fuel : nat) (ds : list Z) (shift : nat) (qd borrow : Z)
    (rem : list Z) : option (Z * list Z) :=
  if borrow =? 0 then Some (qd, rem)
  else
    match fuel with
    | O => None
    | S fuel' =>
        let qd := qd - 1 in
        let (rem, carry) := div_add_back ds shift 0 rem in
        div_correct fuel' ds shift qd (borrow + carry) rem
    end.

(** One round of the main loop of [bigint_div_mod]. *)
Definition div_step (fuel : nat) (div : list Z) (cy : nat) (divisorHi : Z)
    (shift : nat) (rem z : list Z) : option (list Z * list Z) :=
  let qd :=
    if negb (digit_at rem (shift + cy) =? divisorHi)
    then
      let rem_hi := digit_at rem (shift + cy) * BASE
                    + digit_at rem (shift + cy - 1) in
      Z.quot rem_hi divisorHi
    else BASE - 1 in
  let (rem, borrow) := div_mul_sub div qd shift 0 0 rem in
  match div_correct fuel div shift qd borrow rem with
  | None => None
  | Some (qd, rem) => Some (rem, set_digit z shift qd)
  end.

(** [for (shift = cx - cy; shift >= 0; shift--)], entered with
    [n = shift + 1]. *)
Fixpoint div_loop (fuel : nat) (div : list Z) (cy : nat) (divisorHi : Z)
    (n : nat) (rem z : list Z) : option (list Z * list Z) :=
  match n with
  | O => Some (rem, z)
  | S shift =>
      match div_step fuel div cy divisorHi shift rem z with
      | None => None
      | Some (rem, z) => div_loop fuel div cy divisorHi shift rem z
      end
  end.

(** Rounds granted to the correction loop of each quotient digit; the
    trial digit is never more than two too large (lemma
    [trial_digit_upper]). *)
Definition correction_rounds : nat := 2.

(** [bigint_div_mod(x, y, &mod)] as the pair (quotient, [mod]), for
    [count x >= count y]. *)
Definition bigint_div_mod (x y : bigint_t) : option (bigint_t * bigint_t) :=
  let cx := count x in
  let cy := count y in
  let neg := negb (Bool.eqb (bigint_is_neg_ x) (bigint_is_neg_ y)) in
  let z := bigint_alloc_zero (cx - cy + 1) neg in
  let divisorHi := bigint_last_digit_ y in
  let lambda := Z.quot (BASE + 2 * divisorHi - 1) (2 * divisorHi) in
  let rem := bigint_mul_small x lambda in
  let rem := if (count rem <=? cx)%nat then bigint_push rem 0 else rem in
  let div := bigint_mul_small y lambda in
  let divisorHi := bigint_last_digit_ div in
  let div := bigint_push div 0 in
  match div_loop correction_rounds (digits div) cy divisorHi (cx - cy + 1)
                 (digits rem) (digits z) with
  | None => None
  | Some (rem', z') =>
      let pmod := fst (bigint_div_mod_small (mk_bigint (is_neg rem) rem') lambda) in
      Some (bigint_trim (mk_bigint (is_neg z) z'), pmod)
  end.

(** ** The [integer_t] value *)

(** A boxed integer: a small integer or a pointer to a big one.  These are
    the values for which [is_integer] holds. *)
Inductive integer_t : Type :=
| Small (i : Z)            (* integer_from_small(i) *)
| Big (b : bigint_t).      (* box_ptr(bigint_ptr_(b)) *)

(** What a function declared to return [integer_t] hands back: a boxed
    integer, or one of the two words the source uses when it has no
    integer to return.

    Modelled from the spec: the boxing scheme of runtime.h is not among
    the sources.  Following section 7 of the specification, [box_cptr(NULL)]
    and the literal word [0] are results distinct from every integer (the
    core reports the condition rather than producing a value). *)
Inductive result_t : Type :=
| Integer (x : integer_t)
| Box_cptr_NULL            (* box_cptr(NULL) *)
| Word_0.                  (* the literal 0 *)

Definition is_integer (r : result_t) : bool :=
  match r with Integer _ => true | _ => false end.

(** Modelled from the spec: the constants [SMALLINT_MIN] and [SMALLINT_MAX]
    of runtime/integer.h, which is not among the sources (section 3.1: the
    range of a small integer is chosen by the host). *)
Class smallint_range : Type := {
  SMALLINT_MIN : Z;
  SMALLINT_MAX : Z
}.

Section Integer.
Context {range : smallint_range}.

Definition is_smallint (x : integer_t) : bool :=
  match x with Small _ => true | Big _ => false end.

Definition integer_eqb_small (x : integer_t) (i : Z) : bool :=
  match x with Small j => j =? i | Big _ => false end.

(** Bigint to integer. Possibly converting to a small int. *)
Definition integer_bigint (x : bigint_t) : integer_t :=
  if (count x =? 1)%nat && (digit_at (digits x) 0 <=? SMALLINT_MAX) then
    let i := digit_at (digits x) 0 in
    let i := if is_neg x then - i else i in
    Small i
  else Big x.

(** unpack to a bigint always *)
Definition integer_to_bigint (x : integer_t) : bigint_t :=
  match x with
  | Big b => b
  | Small i => bigint_from_int i
  end.

Definition integer_from_big (i : Z) : integer_t := Big (bigint_from_int i).

(** Modelled from the spec: [integer_from_int] of runtime/integer.h, which
    is not among the sources (section 6.1, [from_int]: routes to Small if
    in range). *)
Definition integer_from_int (i : Z) : integer_t :=
  if (SMALLINT_MIN <=? i) && (i <=? SMALLINT_MAX) then Small i
  else integer_from_big i.

Definition integer_value (x : integer_t) : Z :=
  match x with
  | Small i => i
  | Big b => bigint_value b
  end.

(** ** Generic entry points *)

Definition integer_neg_generic (x : integer_t) : integer_t :=
  let bx := integer_to_bigint x in
  integer_bigint (bigint_neg bx).

Definition integer_sqr_generic (x : integer_t) : integer_t :=
  let bx := integer_to_bigint x in
  integer_bigint (bigint_sqr bx).

Definition integer_signum_generic (x : integer_t) : Z :=
  let bx := integer_to_bigint x in
  if is_neg bx then -1
  else if (count bx =? 0)%nat && (digit_at (digits bx) 0 =? 0) then 0
  else 1.

Definition integer_cmp_generic (x y : integer_t) : Z :=
  let bx := integer_to_bigint x in
  let by_ := integer_to_bigint y in
  bigint_compare_ bx by_.

Definition integer_add_generic (x y : integer_t) : integer_t :=
  let bx := integer_to_bigint x in
  let by_ := integer_to_bigint y in
  integer_bigint (bigint_add bx by_ (is_neg by_)).

Definition integer_sub_generic (x y : integer_t) : integer_t :=
  let bx := integer_to_bigint x in
  let by_ := integer_to_bigint y in
  integer_bigint (bigint_sub bx by_ (is_neg by_)).

(** [(0.000012*(i*j) - 0.0025*(i+j)) >= 0], evaluated in double precision
    in the source; here in exact arithmetic, scaled by [10^6]. *)
Definition use_karatsuba (i j : nat) : bool :=
  12 * (Z.of_nat i * Z.of_nat j) - 2500 * (Z.of_nat i + Z.of_nat j) >=? 0.

(** [None]: the recursion of [bigint_mul_karatsuba] ran out of fuel. *)
Definition integer_mul_generic (x y : integer_t) : option integer_t :=
  let bx := integer_to_bigint x in
  let by_ := integer_to_bigint y in
  let usek := use_karatsuba (count bx) (count by_) in
  option_map integer_bigint
    (if usek then bigint_mul_karatsuba bx by_ else Some (bigint_mul bx by_)).

(** Modelled from the spec: the inline [integer_neg] of runtime/integer.h
    is not among the sources; it is taken to agree with
    [integer_neg_generic] (section 4.5: [neg] flips the sign). *)
Definition integer_neg (x : integer_t) : integer_t := integer_neg_generic x.

(** ** Division and modulus *)

(** [integer_div_mod_generic(x, y, mod)].  [want_mod] is [mod != NULL]; the
    second component is the integer stored through [mod], if any.  [None]:
    the correction loop of [bigint_div_mod] did not finish. *)
Definition integer_div_mod_full (x y : integer_t) (want_mod : bool)
    : option (result_t * option integer_t) :=
  let store (m : integer_t) := if want_mod then Some m else None in
  let bx := integer_to_bigint x in
  let by_ := integer_to_bigint y in
  let cmp := bigint_compare_abs_ bx by_ in
  if cmp <? 0 then Some (Integer (Small 0), store x)
  else if cmp =? 0 then
    let i := if Bool.eqb (bigint_is_neg_ bx) (bigint_is_neg_ by_) then 1 else -1 in
    Some (Integer (Small i), store (Small 0))
  else
    let qneg := negb (Bool.eqb (bigint_is_neg_ bx) (bigint_is_neg_ by_)) in
    let mneg := bigint_is_neg_ bx in
    match bigint_div_mod bx by_ with
    | None => None
    | Some (bz, bmod) =>
        let bz := mk_bigint qneg (digits bz) in
        let bmod := mk_bigint mneg (digits bmod) in
        Some (Integer (integer_bigint bz), store (integer_bigint bmod))
    end.

Definition integer_div_mod_generic (x y : integer_t) (want_mod : bool)
    : option (result_t * option integer_t) :=
  let store (m : integer_t) := if want_mod then Some m else None in
  match y with
  | Small yi =>
      if yi =? 0 then Some (Word_0, None) (* raise div-by-zero *)
      else if yi =? 1 then Some (Integer x, store (Small 0))
      else if yi =? -1 then Some (Integer (integer_neg x), store (Small 0))
      else
        let ay := yi in
        let ay_neg := ay <? 0 in
        let ay := if ay_neg then - ay else ay in
        if ay <? BASE then
          (* small division *)
          let bx := integer_to_bigint x in
          let xneg := bigint_is_neg_ bx in
          let (bz, imod) := bigint_div_mod_small bx ay in
          let imod := if xneg then - imod else imod in
          let bz := mk_bigint (negb (Bool.eqb xneg ay_neg)) (digits bz) in
          Some (Integer (integer_bigint bz), store (integer_from_int imod))
        else integer_div_mod_full x y want_mod
  | Big _ => integer_div_mod_full x y want_mod
  end.

Definition integer_div_generic (x y : integer_t) : option result_t :=
  option_map fst (integer_div_mod_generic x y false).

(** [mod] starts as the word [0] and is returned as the call left it. *)
Definition integer_mod_generic (x y : integer_t) : option result_t :=
  option_map
    (fun r => match snd r with Some m => Integer m | None => Word_0 end)
    (integer_div_mod_generic x y true).

(** ** Decimal scaling *)

Definition powers_of_10 : list Z :=
  [1; 10; 100; 1000; 10000; 100000; 1000000; 10000000; 100000000; 1000000000].

Definition power_of_10 (i : Z) : Z := nth (Z.to_nat i) powers_of_10 0.

(** Modelled from the spec: the inline [integer_mul] and [integer_div] of
    runtime/integer.h are not among the sources; they are taken to agree
    with their generic versions (section 4.5: the fast path on small
    operands gives the same integer). *)
Definition integer_mul (x y : integer_t) : option result_t :=
  option_map Integer (integer_mul_generic x y).

Definition integer_div (x y : integer_t) : option result_t :=
  integer_div_generic x y.

(** [integer_mul_pow10] from "small multiply?" on, with [i >= 0]. *)
Definition mul_pow10_from (x : integer_t) (i : Z) : option result_t :=
  if is_smallint x && (i <? LOG_BASE) then
    integer_mul x (integer_from_int (power_of_10 i))
  else
    let large := Z.quot i LOG_BASE in
    let small := Z.rem i LOG_BASE in
    let b := integer_to_bigint x in
    let b := if 0 <? small then bigint_mul_small b (power_of_10 small) else b in
    let b := if 0 <? large
             then mk_bigint (is_neg b) (repeat 0 (Z.to_nat large) ++ digits b)
             else b in
    Some (Integer (integer_bigint b)).

(** [integer_div_pow10] from "small divide?" on, with [i >= 0]. *)
Definition div_pow10_from (x : integer_t) (i : Z) : option result_t :=
  if is_smallint x && (i <? LOG_BASE) then
    integer_div x (integer_from_int (power_of_10 i))
  else
    let large := Z.quot i LOG_BASE in
    let small := Z.rem i LOG_BASE in
    let b := integer_to_bigint x in
    let bcount := bigint_count_ b in
    if (0 <? large) && (bcount <=? large) then Some (Integer (Small 0))
    else
      let b := if 0 <? large
               then mk_bigint (is_neg b) (skipn (Z.to_nat large) (digits b))
               else b in
      let b := if 0 <? small
               then fst (bigint_div_mod_small b (power_of_10 small))
               else b in
      Some (Integer (integer_bigint b)).

(** [integer_mul_pow10] and [integer_div_pow10] call each other on a
    negative exponent; the callee, entered with the exponent negated,
    passes its first three tests and goes on from its fourth. *)
Definition integer_mul_pow10 (x p : integer_t) : option result_t :=
  if integer_eqb_small p 0 then Some (Integer x)
  else if integer_eqb_small x 0 then Some (Integer (Small 0))
  else
    match p with
    | Big _ => Some (Integer (Small 0))   (* TODO: raise error *)
    | Small i =>
        if i <? 0 then div_pow10_from x (- i) else mul_pow10_from x i
    end.

Definition integer_div_pow10 (x p : integer_t) : option result_t :=
  if integer_eqb_small p 0 then Some (Integer x)
  else if integer_eqb_small x 0 then Some (Integer (Small 0))
  else
    match p with
    | Big _ => Some (Integer (Small 0))   (* TODO: raise error *)
    | Small i =>
        if i <? 0 then mul_pow10_from x (- i) else div_pow10_from x i
    end.

End Integer.

(** ** To string *)

(** ['0' + d] *)
Definition digit_char (d : Z) : ascii := ascii_of_N (Z.to_N (48 + d)).

(** [for (i = LOG_BASE - 1; i >= 0; i--, d /= 10) buf[i] = '0' + (d % 10);]
    with [n] characters still to write, in front of [acc]. *)
Fixpoint digit_chars (n : nat) (d : Z) (acc : list ascii) : list ascii :=
  match n with
  | O => acc
  | S n' => digit_chars n' (Z.quot d 10) (digit_char (Z.rem d 10) :: acc)
  end.

(** Convert a digit to LOG_BASE characters. *)
Definition digit_to_str_full (d : Z) : list ascii :=
  digit_chars (Z.to_nat LOG_BASE) d [].

(** [while (i < LOG_BASE && tmp[i]=='0') { i++; }] and the copy that follows *)
Fixpoint skip_zero_chars (tmp : list ascii) : list ascii :=
  match tmp with
  | [] => []
  | c :: r => if Ascii.eqb c "0" then skip_zero_chars r else tmp
  end.

(** convert digit to characters but skip leading zeros. No output if [d==0]. *)
Definition digit_to_str_partial (d : Z) : list ascii :=
  if d =? 0 then [] else skip_zero_chars (digit_to_str_full d).

(** [while (i > 0 && b->digits[i]==0) { i--; }] *)
Fixpoint skip_zero_digits (ds : list Z) (i : nat) : nat :=
  match i with
  | O => O
  | S i' => if digit_at ds i =? 0 then skip_zero_digits ds i' else i
  end.

(** [while (i >= 0) { j += digit_to_str_full(b->digits[i], &buf[j]); i--; }]
    entered with [n = i + 1]. *)
Fixpoint full_digits (ds : list Z) (n : nat) : list ascii :=
  match n with
  | O => []
  | S i => digit_to_str_full (digit_at ds i) ++ full_digits ds i
  end.

(** The characters [bigint_to_buf_] writes before the terminator. *)
Definition bigint_to_buf_ (b : bigint_t) : list ascii :=
  let sign := if bigint_is_neg_ b then ["-"%char] else [] in
  match count b with
  | O => sign
  | S top =>
      let i := skip_zero_digits (digits b) top in
      sign ++ digit_to_str_partial (digit_at (digits b) i)
           ++ full_digits (digits b) i
  end.

Definition bigint_to_string (b : bigint_t) : string :=
  string_of_list_ascii (bigint_to_buf_ b).

(** [for (; i < 63 && n != 0; i++, n /= 10) buf[i] = '0' + n%10;] *)
Fixpoint int_chars_rev (fuel : nat) (n : Z) : list ascii :=
  match fuel with
  | O => []
  | S f =>
      if negb (n =? 0)
      then digit_char (Z.rem n 10) :: int_chars_rev f (Z.quot n 10)
      else []
  end.

Definition int_to_string (n : Z) : string :=
  let neg := n <? 0 in
  let n := if neg then - n else n in
  (* output to buf in reverse order *)
  let buf :=
    if n =? 0 then ["0"%char]
    else int_chars_rev 63 n ++ (if neg then ["-"%char] else []) in
  string_of_list_ascii (rev buf).

Definition integer_to_string (x : integer_t) : string :=
  match x with
  | Small i => int_to_string i
  | Big b => bigint_to_string b
  end.

(** ** Parse an integer *)

(** The characters of a C string: those before the first NUL. *)
Fixpoint c_str (s : string) : list ascii :=
  match s with
  | EmptyString => []
  | String c r => if Ascii.eqb c Ascii.zero then [] else c :: c_str r
  end.

(** [*p], where the list holds the characters from [p] to the terminator. *)
Definition peek (p : list ascii) : ascii :=
  match p with
  | [] => Ascii.zero
  | c :: _ => c
  end.

Definition char_code (c : ascii) : Z := Z.of_N (N_of_ascii c).

Definition isdigit (c : ascii) : bool :=
  (48 <=? char_code c) && (char_code c <=? 57).

(** [c - '0'] *)
Definition digit_val (c : ascii) : Z := char_code c - 48.

(** The loop over the significant digits; returns [sig_digits] and the
    position where the loop stopped, [None] on "return box_cptr(NULL)". *)
Fixpoint parse_significant (p : list ascii) (sig_digits : Z)
    : option (Z * list ascii) :=
  match p with
  | [] => Some (sig_digits, [])
  | c :: p' =>
      if isdigit c then parse_significant p' (sig_digits + 1)
      else if Ascii.eqb c "_" && isdigit (peek p') then
        parse_significant p' sig_digits
      else if (Ascii.eqb c "." || Ascii.eqb c "e" || Ascii.eqb c "E")
              && isdigit (peek p') then Some (sig_digits, p)
      else None
  end.

(** The loop over the fraction digits. *)
Fixpoint parse_fraction (p : list ascii) (frac_digits : Z)
    : option (Z * list ascii) :=
  match p with
  | [] => Some (frac_digits, [])
  | c :: p' =>
      if isdigit c then parse_fraction p' (frac_digits + 1)
      else if Ascii.eqb c "_" && isdigit (peek p') then
        parse_fraction p' frac_digits
      else if (Ascii.eqb c "e" || Ascii.eqb c "E")
              && isdigit (peek p') && negb (Ascii.eqb (peek p') "0")
      then Some (frac_digits, p)
      else None
  end.

(** The loop over the exponent digits. *)
Fixpoint parse_exponent (p : list ascii) (exp : Z) : option Z :=
  match p with
  | [] => Some exp
  | c :: p' =>
      if isdigit c then
        let exp := 10 * exp + digit_val c in
        if exp >? BASE then None (* exponents must be < 10^9 *)
        else parse_exponent p' exp
      else None
  end.

(** [for (const char* p = s; p < end; p++)] of the small case. *)
Fixpoint parse_small (p : list ascii) (d : Z) : Z :=
  match p with
  | [] => d
  | c :: p' =>
      if isdigit c then parse_small p' (10 * d + digit_val c)
      else parse_small p' d
  end.

(** Read a full digit: [n] decimal characters are still wanted; past [end]
    the characters are ['0']. *)
Fixpoint read_chunk (p : list ascii) (n : nat) (d : Z) : Z * list ascii :=
  match n with
  | O => (d, p)
  | S n' =>
      match p with
      | [] => (Nat.iter n (fun d => 10 * d + digit_val "0") d, [])
      | c :: p' =>
          if isdigit c then read_chunk p' n' (10 * d + digit_val c)
          else read_chunk p' n d
      end
  end.

(** [while (p < end)]: read the digits from the top one down; each round
    takes at least one character, [fuel] is their number. *)
Fixpoint parse_chunks (fuel : nat) (p : list ascii) (chunk k : nat)
    (ds : list Z) : nat * list Z :=
  match fuel with
  | O => (k, ds)
  | S f =>
      match p with
      | [] => (k, ds)
      | _ :: _ =>
          let (d, p') := read_chunk p chunk 0 in
          let (k, ds) :=
            if (0 <? k)%nat then (pred k, set_digit ds (pred k) d)
            else (k, ds) in
          parse_chunks f p' (Z.to_nat LOG_BASE) k ds
      end
  end.

(** [for (size_t j = 0; j < k; j++) { b->digits[j] = 0; }] *)
Fixpoint zero_fill (k : nat) (ds : list Z) : list Z :=
  match k with
  | O => ds
  | S j => set_digit (zero_fill j ds) j 0
  end.

Section Parse.
Context {range : smallint_range}.

(** [integer_parse] from the test "must start with a digit" on; [s] is the
    whole string, [p] the position after the sign. *)
Definition parse_number (s p : list ascii) (neg : bool) : result_t :=
  if negb (isdigit (peek p)) then Box_cptr_NULL else
  match parse_significant p 0 with
  | None => Box_cptr_NULL
  | Some (sig_digits, p) =>
      match (if Ascii.eqb (peek p) "." then parse_fraction (tl p) 0
             else Some (0, p)) with
      | None => Box_cptr_NULL
      | Some (frac_digits, p) =>
          (* the characters from [s] up to [end] *)
          let body := firstn (length s - length p) s in
          match (if Ascii.eqb (peek p) "e" || Ascii.eqb (peek p) "E"
                 then parse_exponent (tl p) 0 else Some 0) with
          | None => Box_cptr_NULL
          | Some exp =>
              if exp <? frac_digits then Box_cptr_NULL (* fractional number *)
              else
                let zero_digits := exp - frac_digits in
                let dec_digits := sig_digits + frac_digits + zero_digits in
                if dec_digits <? LOG_BASE then
                  let d := parse_small body 0 in
                  let d := Nat.iter (Z.to_nat zero_digits) (fun d => d * 10) d in
                  let d := if neg then - d else d in
                  Integer (integer_from_int d)
                else
                  let count := Z.to_nat (Z.quot (dec_digits + (LOG_BASE - 1)) LOG_BASE) in
                  let chunk := Z.rem dec_digits LOG_BASE in
                  let chunk := if chunk =? 0 then LOG_BASE else chunk in
                  let (k, ds) := parse_chunks (length body) body (Z.to_nat chunk)
                                              count (repeat 0 count) in
                  Integer (integer_bigint (mk_bigint neg (zero_fill k ds)))
          end
      end
  end.

Definition integer_parse (s : string) : result_t :=
  let s := c_str s in
  if Ascii.eqb (peek s) "+" then parse_number s (tl s) false
  else if Ascii.eqb (peek s) "-" then parse_number s (tl s) true
  else parse_number s s false.

End Parse.

(** ** Storage: [bigint_sub_abs] over buffers with their capacity

    Here a bigint is the C record: [count] live digits and [extra] spare
    ones in a buffer of digit slots; [bigint_available_] is their sum.
    Every access [b->digits[i]] is checked against it, and an access at an
    index that is not strictly below it ends the run with a [fault]. *)

Module Buf.

Definition MAX_EXTRA : nat := Z.to_nat 32767.   (* UINT16_MAX / 2 *)

Record bigint_s : Type := mk_bigint_s {
  is_neg : bool;
  extra : nat;          (* extra digits available *)
  count : nat;          (* count of digits in the number *)
  digits : list Z       (* the digit slots *)
}.

Definition bigint_count_ (b : bigint_s) : nat := count b.

Definition bigint_available_ (b : bigint_s) : nat := (count b + extra b)%nat.

Inductive buffer : Type := buf_x | buf_y | buf_z.

(** An access to slot [index] of a buffer with [available] slots,
    [available <= index]. *)
Inductive fault : Type :=
| Out_of_bounds (which : buffer) (index available : nat).

Definition run (A : Type) : Type := (fault + A)%type.

Definition ret {A : Type} (a : A) : run A := inr a.

Definition bind {A B : Type} (m : run A) (f : A -> run B) : run B :=
  match m with
  | inl e => inl e
  | inr a => f a
  end.

Notation "x <- m ;; f" := (bind m (fun x => f))
  (at level 61, m at next level, right associativity).

(** [b->digits[i]] as a read *)
Definition load (which : buffer) (b : bigint_s) (i : nat) : run Z :=
  if (i <? bigint_available_ b)%nat then ret (nth i (digits b) 0)
  else inl (Out_of_bounds which i (bigint_available_ b)).

(** [b->digits[i] = d] *)
Definition store (which : buffer) (b : bigint_s) (i : nat) (d : Z) : run bigint_s :=
  if (i <? bigint_available_ b)%nat
  then ret (mk_bigint_s (is_neg b) (extra b) (count b) (set_digit (digits b) i d))
  else inl (Out_of_bounds which i (bigint_available_ b)).

Definition bigint_roundup_count (count : nat) : nat :=
  if (count <? 4)%nat then 4%nat          (* minimal size of 4 digits (128-bit) *)
  else if Nat.odd count then (count + 1)%nat   (* always even *)
  else count.

(** The digits of a fresh buffer are not initialised; they are shown as
    [0] and overwritten before they are read. *)
Definition bigint_alloc (count : nat) (is_neg : bool) : bigint_s :=
  let dcount := bigint_roundup_count count in
  mk_bigint_s is_neg (dcount - count) count (repeat 0 dcount).

(** [ptr_realloc] to [n] slots *)
Definition resize (ds : list Z) (n : nat) : list Z :=
  firstn n ds ++ repeat 0 (n - length ds).

Definition bigint_trim_realloc_ (x : bigint_s) (count : nat) : bigint_s :=
  let dcount := bigint_roundup_count count in
  let xcount := bigint_available_ x in
  if (dcount <=? xcount)%nat && (xcount - dcount <? 4)%nat
  then mk_bigint_s (is_neg x) (xcount - count) count (digits x)
  else mk_bigint_s (is_neg x) (dcount - count) count (resize (digits x) dcount).

Definition bigint_trim_to (x : bigint_s) (count : nat) (allow_realloc : bool)
    : bigint_s :=
  if (bigint_available_ x <? count)%nat then x        (* d < 0 *)
  else
    let d := (bigint_available_ x - count)%nat in
    if (MAX_EXTRA <? d)%nat then
      if allow_realloc then bigint_trim_realloc_ x count
      else mk_bigint_s (is_neg x) MAX_EXTRA count (digits x)
    else mk_bigint_s (is_neg x) d count (digits x).

Definition bigint_trim (x : bigint_s) (allow_realloc : bool) : bigint_s :=
  bigint_trim_to x (trim_count (digits x) (bigint_count_ x)) allow_realloc.

(** [bigint_alloc_reuse_(x, count)]; [unique] is [bigint_is_unique_(x)].
    The second component tells whether the result is [x] itself. *)
Definition bigint_alloc_reuse_ (unique : bool) (x : bigint_s) (count : nat)
    : bigint_s * bool :=
  if (count <=? bigint_available_ x)%nat
     && (bigint_available_ x - count <=? MAX_EXTRA)%nat && unique
  then (bigint_trim_to x count false, true)
  else (bigint_alloc count (is_neg x), false).

(** The state of [bigint_sub_abs]: the operand [x], the result [z], and
    whether they are one and the same buffer. *)
Record sub_state : Type := mk_state {
  st_x : bigint_s;
  st_z : bigint_s;
  st_same : bool       (* z == x *)
}.

(** A write to [z]; it is a write to [x] as well when [z == x]. *)
Definition store_z (s : sub_state) (i : nat) (d : Z) : run sub_state :=
  z <- store buf_z (st_z s) i d ;;
  ret (mk_state (if st_same s then z else st_x s) z (st_same s)).

(** [for (i = 0; i < cy; i++)], with [n] rounds to go *)
Fixpoint sub_digits (n i : nat) (y : bigint_s) (borrow : Z) (s : sub_state)
    : run (nat * Z * sub_state) :=
  match n with
  | O => ret (i, borrow, s)
  | S n' =>
      xi <- load buf_x (st_x s) i ;;
      yi <- load buf_y y i ;;
      let diff := xi - borrow - yi in
      if diff <? 0 then
        s <- store_z s i (diff + BASE) ;;
        sub_digits n' (S i) y 1 s
      else
        s <- store_z s i diff ;;
        sub_digits n' (S i) y 0 s
  end.

(** [for (; borrow != 0 && i < cx; i++)], with [n = cx - i] *)
Fixpoint sub_borrow (n i : nat) (borrow : Z) (s : sub_state)
    : run (nat * Z * sub_state) :=
  match n with
  | O => ret (i, borrow, s)
  | S n' =>
      if borrow =? 0 then ret (i, borrow, s)
      else
        xi <- load buf_x (st_x s) i ;;
        let diff := xi - borrow in
        if diff <? 0 then
          s <- store_z s i (diff + BASE) ;;
          sub_borrow n' (S i) borrow s
        else
          s <- store_z s i diff ;;
          sub_borrow n' (S i) 0 s
  end.

(** copy the tail: [for (; i <= cx; i++) { z->digits[i] = x->digits[i]; }]
    with [n = cx + 1 - i] *)
Fixpoint sub_copy_tail (n i : nat) (s : sub_state) : run sub_state :=
  match n with
  | O => ret s
  | S n' =>
      xi <- load buf_x (st_x s) i ;;
      s <- store_z s i xi ;;
      sub_copy_tail n' (S i) s
  end.

Definition bigint_sub_abs (unique : bool) (x y : bigint_s) : run bigint_s :=
  let cx := bigint_count_ x in
  let cy := bigint_count_ y in
  let (z, same) := bigint_alloc_reuse_ unique x cx in
  let s := mk_state (if same then z else x) z same in
  r <- sub_digits cy 0 y 0 s ;;
  let '(i, borrow, s) := r in
  r <- sub_borrow (cx - i) i borrow s ;;
  let '(i, borrow, s) := r in
  s <- (if negb (st_same s) then sub_copy_tail (cx + 1 - i) i s else ret s) ;;
  ret (bigint_trim (st_z s) true).

End Buf.


(** ** Counting trailing zeros and digits *)

(** count trailing decimal zeros:
    [for (; x != 0 && (x%10) == 0; x /= 10) { count++; }].
    [None] when [fuel] rounds did not end the loop. *)
Fixpoint int_ctz_loop (fuel : nat) (x count : Z) : option Z :=
  if negb (x =? 0) && (Z.rem x 10 =? 0) then
    match fuel with
    | O => None
    | S f => int_ctz_loop f (Z.quot x 10) (count + 1)
    end
  else Some count.

(** Each round divides [x] by ten: as many rounds as [x] has binary digits
    are more than enough. *)
Definition int_ctz (x : Z) : option Z :=
  int_ctz_loop (Z.to_nat (Z.log2 (Z.abs x))) x 0.

(** [for (i = 0; i < (x->count-1); i++) { if (x->digits[i] != 0) break; }]
    with [n] rounds to go. *)
Fixpoint ctz_scan (ds : list Z) (i n : nat) : nat :=
  match n with
  | O => i
  | S n' => if negb (digit_at ds i =? 0) then i else ctz_scan ds (S i) n'
  end.

(** [bigint_ctz].  When [x] has no digit at all, [x->count-1] wraps around
    and the scan runs past the digits: no result is modelled for that. *)
Definition bigint_ctz (x : bigint_t) : option Z :=
  match count x with
  | O => None
  | S top =>
      let i := ctz_scan (digits x) O top in
      option_map (fun c => c + LOG_BASE * Z.of_nat i)
                 (int_ctz (digit_at (digits x) i))
  end.

(** [count_digits32], for an argument in the range of [uint32_t]. *)
Definition count_digits32 (x : Z) : Z :=
  if x <? 10000 then (* 1 - 4 *)
    if x <? 100 then (if x <? 10 then 1 else 2)
    else (if x <? 1000 then 3 else 4)
  else (* 5 - 9 *)
    if x <? 1000000 then (if x <? 100000 then 5 else 6)
    else if x <? 100000000 then (if x <? 10000000 then 7 else 8)
    else (if x <? 1000000000 then 9 else 10).

(** [do { count += count_digits32(u % BASE); u /= BASE; } while (u > 0);]
    [None] when [fuel] further rounds did not end the loop. *)
Fixpoint count_digits_loop (fuel : nat) (u count : Z) : option Z :=
  let count := count + count_digits32 (Z.rem u BASE) in (* count up to 9 digits at a time *)
  let u := Z.quot u BASE in
  if 0 <? u then
    match fuel with
    | O => None
    | S f => count_digits_loop f u count
    end
  else Some count.

(** [bigint_count_digits]; with no digit at all the index [x->count-1]
    wraps around: no result is modelled for that. *)
Definition bigint_count_digits (x : bigint_t) : option Z :=
  match count x with
  | O => None
  | S top =>
      Some (count_digits32 (digit_at (digits x) top) + LOG_BASE * Z.of_nat top)
  end.

Section Counting.
Context {range : smallint_range}.

(** The largest [intptr_t] of the host (stdint.h); the smallest one is
    [- INTPTR_MAX - 1]. *)
Variable INTPTR_MAX : Z.

Definition int_count_digits (x : Z) : option Z :=
  (* make positive *)
  let u := if x <? 0
           then (if x =? - INTPTR_MAX - 1 then INTPTR_MAX else - x) (* careful for overflow *)
           else x in
  count_digits_loop (Z.to_nat (Z.log2 u)) u 0.

Definition integer_ctz (x : integer_t) : option integer_t :=
  match x with
  | Small i => option_map Small (int_ctz i)
  | Big b => option_map integer_from_int (bigint_ctz b)
  end.

Definition integer_count_digits (x : integer_t) : option integer_t :=
  match x with
  | Small i => option_map Small (int_count_digits i)
  | Big b => option_map integer_from_int (bigint_count_digits b)
  end.

End Counting.

(** ** Storage: block copies, [bigint_copy], [bigint_push], the digit
    shifts and [bigint_add_abs] over buffers

    [memcpy] and [memmove] are a run of reads followed by a run of
    writes, each checked like a single access of [Buf]; for [memmove]
    this is the copy through a temporary that the C standard describes,
    and for [memcpy] the accesses are the same ones. *)

Module BufOps.
Import Buf.

(** The reads of a block copy: [n] slots of [b] from index [from] on. *)
Fixpoint read_block (w : buffer) (b : bigint_s) (from n : nat) : run (list Z) :=
  match n with
  | O => ret []
  | S n' =>
      d <- load w b from ;;
      r <- read_block w b (S from) n' ;;
      ret (d :: r)
  end.

(** The writes of a block copy: the slots of [b] from index [to] on. *)
Fixpoint write_block (w : buffer) (b : bigint_s) (to : nat) (ds : list Z)
    : run bigint_s :=
  match ds with
  | [] => ret b
  | d :: r =>
      b <- store w b to d ;;
      write_block w b (S to) r
  end.

(** [bigint_copy(x, extra)] *)
Definition bigint_copy (x : bigint_s) (extra : nat) : run bigint_s :=
  let extra := if (MAX_EXTRA <? extra)%nat then MAX_EXTRA else extra in
  let z := bigint_alloc (count x + extra) (is_neg x) in
  let z := bigint_trim_to z (count x) false in
  ds <- read_block buf_x x 0 (count x) ;;
  write_block buf_z z 0 ds.

(** [bigint_ensure_unique(x)]; [unique] is [bigint_is_unique_(x)]. *)
Definition bigint_ensure_unique (unique : bool) (x : bigint_s) : run bigint_s :=
  if unique then ret x else bigint_copy x 0.

(** [bigint_push(x, d)] *)
Definition bigint_push (x : bigint_s) (d : Z) : run bigint_s :=
  x <- (if (extra x =? 0)%nat then bigint_copy x MAX_EXTRA else ret x) ;;
  x <- store buf_x x (count x) d ;;
  ret (mk_bigint_s (is_neg x) (extra x - 1) (count x + 1) (digits x)).

(** [bigint_shift_left(x, digits)], which is also the shift at the end of
    [integer_mul_pow10]; [unique] is [bigint_is_unique_(x)].  When the
    result is [x] itself the digits are read from it after its count has
    been raised. *)
Definition bigint_shift_left (unique : bool) (x : bigint_s) (n : Z) : run bigint_s :=
  if n <=? 0 then ret x
  else
    let cx := count x in
    let (z, same) := bigint_alloc_reuse_ unique x (cx + Z.to_nat n) in
    ds <- read_block buf_x (if same then z else x) 0 cx ;;
    z <- write_block buf_z z (Z.to_nat n) ds ;;
    write_block buf_z z 0 (repeat 0 (Z.to_nat n)).

(** The block [if (large > 0) { ... }] of [integer_div_pow10], which
    shifts [large] digits out; [unique] is [bigint_is_unique_(b)], and
    [None] is the return of the small integer zero. *)
Definition div_pow10_shift (unique : bool) (b : bigint_s) (large : Z)
    : run (option bigint_s) :=
  let bcount := count b in
  if 0 <? large then
    if Z.of_nat bcount <=? large then ret None
    else
      let ccount := (bcount - Z.to_nat large)%nat in
      if unique then
        ds <- read_block buf_x b (Z.to_nat large) ccount ;;
        b <- write_block buf_x b 0 ds ;;
        ret (Some (bigint_trim_to b ccount true))
      else
        let c := bigint_alloc ccount (is_neg b) in
        ds <- read_block buf_x b (Z.to_nat large) bcount ;;
        c <- write_block buf_z c 0 ds ;;
        ret (Some c)
  else ret (Some b).

(** [bigint_last_digit_(b)]: the read of [b->digits[b->count-1]]; with
    no digits the index wraps around and the slot read, which lies before
    the digits, is taken as [0] as in [bigint_last_digit_] above. *)
Definition last_digit (w : buffer) (b : bigint_s) : run Z :=
  match count b with
  | O => ret 0
  | S top => load w b top
  end.

(** First loop of [bigint_add_abs], with [n] rounds to go *)
Fixpoint add_digits (n i : nat) (y : bigint_s) (carry : Z) (s : sub_state)
    : run (nat * Z * sub_state) :=
  match n with
  | O => ret (i, carry, s)
  | S n' =>
      xi <- load buf_x (st_x s) i ;;
      yi <- load buf_y y i ;;
      let sum := xi + yi + carry in
      if BASE <=? sum then
        s <- store_z s i (sum - BASE) ;;
        add_digits n' (S i) y 1 s
      else
        s <- store_z s i sum ;;
        add_digits n' (S i) y 0 s
  end.

(** [for (; carry != 0 && i < cx; i++)], with [n = cx - i] *)
Fixpoint add_carry (n i : nat) (carry : Z) (s : sub_state)
    : run (nat * Z * sub_state) :=
  match n with
  | O => ret (i, carry, s)
  | S n' =>
      if carry =? 0 then ret (i, carry, s)
      else
        xi <- load buf_x (st_x s) i ;;
        let sum := xi + carry in
        if BASE <=? sum then
          s <- store_z s i (sum - BASE) ;;
          add_carry n' (S i) carry s
        else
          s <- store_z s i sum ;;
          add_carry n' (S i) 0 s
  end.

(** copy the tail: [for (; i < cx; i++) { z->digits[i] = x->digits[i]; }]
    with [n = cx - i] *)
Fixpoint add_copy_tail (n i : nat) (s : sub_state) : run sub_state :=
  match n with
  | O => ret s
  | S n' =>
      xi <- load buf_x (st_x s) i ;;
      s <- store_z s i xi ;;
      add_copy_tail n' (S i) s
  end.

Definition bigint_add_abs (unique : bool) (x y : bigint_s) : run bigint_s :=
  let cx := bigint_count_ x in
  let cy := bigint_count_ y in
  lx <- last_digit buf_x x ;;
  ly <- last_digit buf_y y ;;
  let cz := if BASE <=? lx + ly + 1 then (cx + 1)%nat else cx in
  let (z, same) := bigint_alloc_reuse_ unique x cz in
  let s := mk_state (if same then z else x) z same in
  r <- add_digits cy 0 y 0 s ;;
  let '(i, carry, s) := r in
  r <- add_carry (cx - i) i carry s ;;
  let '(i, carry, s) := r in
  s <- (if (i <? cx)%nat && negb (st_same s) then add_copy_tail (cx - i) i s
        else ret s) ;;
  let i := cx in
  r <- (if negb (carry =? 0)
        then s <- store_z s i carry ;; ret ((i + 1)%nat, s)
        else ret (i, s)) ;;
  let '(i, s) := r in
  ret (bigint_trim_to (st_z s) i true).

End BufOps.

(** ** Machine arithmetic of [bigint_mul]

    The loops of [bigint_mul] with the integer types of the source:
    [digit_t] is [int32_t], the products are [int64_t].  A step gives
    [None] when a signed operation overflows, when a conversion to
    [digit_t] does not keep the value, or when a digit is accessed at an
    index that is not below the count [cz] of the result. *)

Module Machine.

Definition INT32_MAX : Z := 2147483647.
Definition INT64_MAX : Z := 9223372036854775807.

Definition fits (max v : Z) : option Z :=
  if (- max - 1 <=? v) && (v <=? max) then Some v else None.

Definition bind {A B : Type} (m : option A) (f : A -> option B) : option B :=
  match m with
  | None => None
  | Some a => f a
  end.

Notation "x <- m ;; f" := (bind m (fun x => f))
  (at level 61, m at next level, right associativity).

(** [z->digits[k]] *)
Definition load (z : list Z) (k : nat) : option Z :=
  if (k <? length z)%nat then Some (digit_at z k) else None.

(** [z->digits[k] = v] *)
Definition store (z : list Z) (k : nat) (v : Z) : option (list Z) :=
  if (k <? length z)%nat then Some (set_digit z k v) else None.

(** Inner loop of [bigint_mul], at row [i] and column [j]; [k] is [i+j]. *)
Fixpoint mul_row (dx : Z) (ys : list Z) (k : nat) (z : list Z) : option (list Z) :=
  match ys with
  | [] => Some z
  | dy :: ys' =>
      zk <- load z k ;;
      p <- fits INT64_MAX (dx * dy) ;;
      prod <- fits INT64_MAX (p + zk) ;;
      let carry := Z.quot prod BASE in
      cb <- fits INT64_MAX (carry * BASE) ;;
      lo <- fits INT64_MAX (prod - cb) ;;
      lo <- fits INT32_MAX lo ;;
      z <- store z k lo ;;
      c <- fits INT32_MAX carry ;;
      zk1 <- load z (S k) ;;
      hi <- fits INT32_MAX (zk1 + c) ;;
      z <- store z (S k) hi ;;
      mul_row dx ys' (S k) z
  end.

(** Outer loop of [bigint_mul]. *)
Fixpoint mul_rows (xs ys : list Z) (i : nat) (z : list Z) : option (list Z) :=
  match xs with
  | [] => Some z
  | dx :: xs' =>
      z <- mul_row dx ys i z ;;
      mul_rows xs' ys (S i) z
  end.

Definition bigint_mul (x y : bigint_t) : option bigint_t :=
  let cx := count x in
  let cy := count y in
  let neg := negb (Bool.eqb (bigint_is_neg_ x) (bigint_is_neg_ y)) in
  let cz := (cx + cy)%nat in
  let z := bigint_alloc_zero cz neg in
  ds <- mul_rows (digits x) (digits y) 0 (digits z) ;;
  Some (bigint_trim (mk_bigint (is_neg z) ds)).

End Machine.

(** ** Parity *)

Section Parity.

(** The boxed word of a small integer; the boxing is defined in runtime.h,
    which is not among these sources. *)
Variable word_of_small : Z -> Z.


End Parity.

(** ** Reads before the digits, and the negation of [bigint_from_int]

    [bigint_add_abs] sizes its result from the top digits of both
    operands, [b->digits[b->count-1]], before its loops run.  In a bigint
    without digits the index [count-1] wraps around and the read lies
    outside the buffer, and [bigint_trim] leaves every zero it trims
    without digits.  This module gives the functions of the source that
    reach [bigint_add_abs] together with that read: a run stops with
    [Read_before_digits] where the source reads [digits[count-1]] at
    [count = 0].  The digits written do not depend on the two digits read
    (they size the buffer, see [BufOps.bigint_add_abs]), so a run that
    does not stop computes what the functions of the same name above
    compute.  [bigint_from_int] is given with the range of [intptr_t]. *)

Module Checked.

Inductive stop : Type :=
| Read_before_digits   (* [b->digits[b->count-1]] with [count = 0] *)
| Signed_overflow      (* [i = -i] at the smallest [intptr_t] *)
| No_fuel.             (* the recursion was cut short by the fuel *)

Definition run (A : Type) : Type := (stop + A)%type.

Definition ret {A : Type} (a : A) : run A := inr a.

Definition bind {A B : Type} (m : run A) (f : A -> run B) : run B :=
  match m with
  | inl e => inl e
  | inr a => f a
  end.

Notation "x <- m ;; f" := (bind m (fun x => f))
  (at level 61, m at next level, right associativity).

(** [bigint_last_digit_(b)] *)
Definition bigint_last_digit_ (b : bigint_t) : run Z :=
  match count b with
  | O => inl Read_before_digits
  | S top => ret (digit_at (digits b) top)
  end.

(** [bigint_add_abs(x, y)]: the two reads of
    [cz = (last(x) + last(y) + 1 >= BASE ? cx + 1 : cx)], then the loops. *)
Definition bigint_add_abs (x y : bigint_t) : run bigint_t :=
  lx <- bigint_last_digit_ x ;;
  ly <- bigint_last_digit_ y ;;
  ret (mk_bigint (is_neg x) (add_abs_digits (digits x) (digits y) 0)).

(** The bodies of [bigint_add] and [bigint_sub] entered with agreeing
    signs, as above; only the first reaches [bigint_add_abs]. *)
Definition bigint_add_same (x y : bigint_t) (yneg : bool) : run bigint_t :=
  z <- (if (count x <? count y)%nat then bigint_add_abs y x
        else bigint_add_abs x y) ;;
  ret (mk_bigint yneg (digits z)).

Definition bigint_add (x y : bigint_t) (yneg : bool) : run bigint_t :=
  if negb (Bool.eqb (bigint_is_neg_ x) yneg)
  then ret (bigint_sub_same x y (negb yneg))
  else bigint_add_same x y yneg.

Definition bigint_sub (x y : bigint_t) (yneg : bool) : run bigint_t :=
  if negb (Bool.eqb (bigint_is_neg_ x) yneg)
  then bigint_add_same x y (negb yneg)
  else ret (bigint_sub_same x y yneg).

(** [bigint_mul_karatsuba]; each level of the recursion uses one unit of
    [fuel], and both slices of each operand are copies, as above. *)
Fixpoint mul_karatsuba (fuel : nat) (x y : bigint_t) : run bigint_t :=
  let n := if (count y <=? count x)%nat then count x else count y in
  if (n <=? 25)%nat then ret (bigint_mul x y)
  else
    match fuel with
    | O => inl No_fuel
    | S fuel' =>
        let n := ((n + 1) / 2)%nat in
        let b := bigint_slice false x n (count x) in
        let a := bigint_slice false x 0 n in
        let d := bigint_slice false y n (count y) in
        let c := bigint_slice false y 0 n in
        ac <- mul_karatsuba fuel' a c ;;
        bd <- mul_karatsuba fuel' b d ;;
        ab <- bigint_add a b (is_neg b) ;;
        cd <- bigint_add c d (is_neg d) ;;
        abcd <- mul_karatsuba fuel' ab cd ;;
        s1 <- bigint_sub abcd ac (is_neg ac) ;;
        s2 <- bigint_sub s1 bd (is_neg bd) ;;
        let p1 := bigint_shift_left s2 (Z.of_nat n) in
        let p2 := bigint_shift_left bd (2 * Z.of_nat n) in
        t <- bigint_add ac p1 (is_neg p1) ;;
        prod <- bigint_add t p2 (is_neg p2) ;;
        ret (bigint_trim prod)
    end.

Definition bigint_mul_karatsuba (x y : bigint_t) : run bigint_t :=
  mul_karatsuba (Nat.max (count x) (count y)) x y.

(** [bigint_from_int(i)] for an [intptr_t] [i]; [INTPTR_MAX] is the
    largest one (stdint.h) and [- INTPTR_MAX - 1] the smallest, the one
    value whose negation is not an [intptr_t]. *)
Definition bigint_from_int (INTPTR_MAX i : Z) : run bigint_t :=
  let neg := i <? 0 in
  i <- (if neg
        then (if - i <=? INTPTR_MAX then ret (- i) else inl Signed_overflow)
        else ret i) ;;
  ret (mk_bigint neg (from_int_digits (Z.to_nat (Z.log2 i)) i)).

Section Generic.
Context {range : smallint_range}.

Definition integer_add_generic (x y : integer_t) : run integer_t :=
  let bx := integer_to_bigint x in
  let by_ := integer_to_bigint y in
  z <- bigint_add bx by_ (is_neg by_) ;;
  ret (integer_bigint z).

Definition integer_sub_generic (x y : integer_t) : run integer_t :=
  let bx := integer_to_bigint x in
  let by_ := integer_to_bigint y in
  z <- bigint_sub bx by_ (is_neg by_) ;;
  ret (integer_bigint z).

Definition integer_mul_generic (x y : integer_t) : run integer_t :=
  let bx := integer_to_bigint x in
  let by_ := integer_to_bigint y in
  let usek := use_karatsuba (count bx) (count by_) in
  z <- (if usek then bigint_mul_karatsuba bx by_ else ret (bigint_mul bx by_)) ;;
  ret (integer_bigint z).

End Generic.

End Checked.
(* ====================================================================== *)
(** * Part II: well-formed values and the vocabulary of the statements *)
(* ====================================================================== *)

(** Every digit lies in [[0, BASE)]. *)
Definition digits_ok (ds : list Z) : Prop := Forall (fun d => 0 <= d < BASE) ds.

(** "For any [count>0], we have [digits[count-1] != 0]." *)
Definition trimmed (ds : list Z) : Prop := last ds 1 <> 0.

(** The invariant of the source for a bigint. *)
Definition bigint_ok (b : bigint_t) : Prop :=
  digits_ok (digits b) /\ trimmed (digits b).

(** The canonical form of the specification (section 3.2) for a bigint
    behind a Big integer: well-formed, and not zero. *)
Definition canonical (b : bigint_t) : Prop :=
  bigint_ok b /\ digits b <> [].

(** Small integer ranges: [bits] value bits and a sign. *)
Definition small_range (bits : Z) : smallint_range :=
  {| SMALLINT_MIN := - 2 ^ bits; SMALLINT_MAX := 2 ^ bits - 1 |}.

Section Wellformed.
Context {range : smallint_range}.

(** An integer as it appears at a public boundary. *)
Definition integer_ok (x : integer_t) : Prop :=
  match x with
  | Small i => SMALLINT_MIN <= i <= SMALLINT_MAX
  | Big b => canonical b
  end.

End Wellformed.

(** What the arithmetic needs of an operand: proper digits, trimmed, or
    the one digit [0] that [bigint_from_int] writes for zero. *)
Definition bigint_wf (b : bigint_t) : Prop :=
  digits_ok (digits b) /\ (trimmed (digits b) \/ digits b = [0]).

Definition integer_wf (x : integer_t) : Prop := bigint_wf (integer_to_bigint x).

(** ** The grammar of decimal literals (section 4.6 of the specification) *)

(** Decimal digits with optional ['_'] separators, each flanked by digits;
    [prev] is the character in front of [l]. *)
Fixpoint digit_run (prev : ascii) (l : list ascii) : bool :=
  match l with
  | [] => true
  | c :: r =>
      if isdigit c then digit_run c r
      else if Ascii.eqb c "_" then
        isdigit prev && isdigit (peek r) && digit_run c r
      else false
  end.

(** One or more decimal digits with optional internal separators. *)
Definition digit_group (l : list ascii) : bool :=
  match l with
  | [] => false
  | c :: r => isdigit c && digit_run c r
  end.

(** The number of decimal digits among the characters of [l]. *)
Fixpoint count_digit_chars (l : list ascii) : Z :=
  match l with
  | [] => 0
  | c :: r => (if isdigit c then 1 else 0) + count_digit_chars r
  end.

(** The number written by the decimal digits of [l], read after [acc]. *)
Definition decimal_from (acc : Z) (l : list ascii) : Z :=
  fold_left (fun a c => 10 * a + digit_val c) l acc.

Definition decimal (l : list ascii) : Z := decimal_from 0 l.

(** A literal, cut into the parts the grammar names. *)
Record literal : Type := mk_literal {
  lit_sign : list ascii;                    (* nothing, "+" or "-" *)
  lit_int : list ascii;                     (* the digits before the fraction *)
  lit_frac : option (list ascii);           (* the digits after "." *)
  lit_exp : option (ascii * list ascii)     (* "e" or "E" and the exponent digits *)
}.

Definition literal_chars (l : literal) : list ascii :=
  lit_sign l ++ lit_int l
    ++ match lit_frac l with None => [] | Some f => "."%char :: f end
    ++ match lit_exp l with None => [] | Some (e, ds) => e :: ds end.

Definition sign_ok (s : list ascii) : bool :=
  match s with
  | [] => true
  | [c] => Ascii.eqb c "+" || Ascii.eqb c "-"
  | _ => false
  end.

Definition frac_ok (f : option (list ascii)) : bool :=
  match f with
  | None => true
  | Some f => digit_group f
  end.

(** Unsigned decimal digits bounded by [BASE]. *)
Definition exp_ok (e : option (ascii * list ascii)) : bool :=
  match e with
  | None => true
  | Some (e, ds) =>
      (Ascii.eqb e "e" || Ascii.eqb e "E")
      && negb (length ds =? 0)%nat && forallb isdigit ds
      && (decimal ds <=? BASE)
  end.

Definition frac_digits_of (l : literal) : Z :=
  match lit_frac l with
  | None => 0
  | Some f => count_digit_chars f
  end.

Definition exp_of (l : literal) : Z :=
  match lit_exp l with
  | None => 0
  | Some (_, ds) => decimal ds
  end.

(** The grammar as the specification words it. *)
Definition spec_literal (l : literal) : bool :=
  sign_ok (lit_sign l) && digit_group (lit_int l) && frac_ok (lit_frac l)
  && exp_ok (lit_exp l) && (frac_digits_of l <=? exp_of l).

(** What [integer_parse] asks in addition: after a fraction, the exponent
    does not start with the digit zero. *)
Definition exp_starts_nonzero (l : literal) : bool :=
  match lit_frac l, lit_exp l with
  | Some _, Some (_, d :: _) => negb (Ascii.eqb d "0")
  | _, _ => true
  end.

Definition accepted_literal (l : literal) : bool :=
  spec_literal l && exp_starts_nonzero l.

(** Where the loop over the significant digits may stop: at the end, or in
    front of a fraction or an exponent that starts with a digit. *)
Definition sig_stop (rest : list ascii) : bool :=
  match rest with
  | [] => true
  | c :: r =>
      (Ascii.eqb c "." || Ascii.eqb c "e" || Ascii.eqb c "E") && isdigit (peek r)
  end.

(** Where the loop over the fraction digits may stop. *)
Definition frac_stop (rest : list ascii) : bool :=
  match rest with
  | [] => true
  | c :: r =>
      (Ascii.eqb c "e" || Ascii.eqb c "E") && isdigit (peek r)
      && negb (Ascii.eqb (peek r) "0")
  end.



(** [BASE^n] *)
Definition Bpow (n : nat) : Z := BASE ^ Z.of_nat n.

(** [10^n] *)
Definition Dpow (n : nat) : Z := 10 ^ Z.of_nat n.

(** ** Buffers used to exercise [Buf.bigint_sub_abs] *)

Module BufData.
Import Buf.

(** A four-digit number in a buffer of exactly four slots, held by more
    than one owner, and the number one as [bigint_from_int] builds it. *)
Definition x4 : bigint_s := mk_bigint_s false 0 4 [1; 1; 1; 1].
Definition y1 : bigint_s := mk_bigint_s false 3 1 [1; 0; 0; 0].

(** The same number with two spare slots. *)
Definition x4' : bigint_s := mk_bigint_s false 2 4 [1; 1; 1; 1; 0; 0].

Definition avail_kept (s s' : sub_state) : Prop :=
  bigint_available_ (st_x s') = bigint_available_ (st_x s)
  /\ bigint_available_ (st_z s') = bigint_available_ (st_z s)
  /\ st_same s' = st_same s.

End BufData.

(** ** Decimal numerals *)

(** One or more decimal digits, of which the first is ['0'] only when it
    is the only one. *)
Definition plain_numeral (D : list ascii) : Prop :=
  D <> [] /\ forallb isdigit D = true
  /\ (Ascii.eqb (peek D) "0" = true -> D = ["0"%char]).

(** ** More vocabulary *)

(** A run of characters that is empty or ends with a decimal digit. *)
Definition ends_with_digit (p : list ascii) : Prop :=
  p <> [] -> isdigit (last p Ascii.zero) = true.

(** The digits after the decimal point of a literal, if any. *)
Definition lit_frac_chars (l : literal) : list ascii :=
  match lit_frac l with Some f => f | None => [] end.

(** The number a literal of the grammar stands for: its digits, read
    without the separators and the decimal point, scaled by the power of
    ten that the exponent leaves after the fraction digits, with the sign. *)
Definition literal_value (l : literal) : Z :=
  let m := decimal (filter isdigit (lit_int l ++ lit_frac_chars l))
           * 10 ^ (exp_of l - frac_digits_of l) in
  if Ascii.eqb (peek (lit_sign l)) "-" then - m else m.

(** ** Buffers and the bigints they hold *)

(** The live digits of a buffer: its first [count] slots. *)
Definition live (b : Buf.bigint_s) : list Z :=
  firstn (Buf.count b) (Buf.digits b).

(** The bigint that a buffer holds. *)
Definition abstract (b : Buf.bigint_s) : bigint_t :=
  mk_bigint (Buf.is_neg b) (live b).

(** Every slot that the header counts is a slot of the allocation. *)
Definition buf_ok (b : Buf.bigint_s) : Prop :=
  (Buf.bigint_available_ b <= length (Buf.digits b))%nat.

(** The slots [i], ..., [n - 1]. *)
Definition seg (ds : list Z) (i n : nat) : list Z := firstn (n - i) (skipn i ds).

(** The same header over as many slots. *)
Definition same_shape (b b' : Buf.bigint_s) : Prop :=
  Buf.is_neg b' = Buf.is_neg b /\ Buf.extra b' = Buf.extra b
  /\ Buf.count b' = Buf.count b
  /\ length (Buf.digits b') = length (Buf.digits b).

(** What the loops of [Buf.bigint_sub_abs] keep when they stand at index
    [i] with [borrow]: the headers, that [z] is [x] when it was, and the
    digits [r] that the digits written so far and the subtraction of the
    slots still to visit make together. *)
Definition sub_inv (x0 z0 y : Buf.bigint_s) (same : bool) (r : list Z)
    (i : nat) (borrow : Z) (s : Buf.sub_state) : Prop :=
  same_shape x0 (Buf.st_x s) /\ same_shape z0 (Buf.st_z s)
  /\ Buf.st_same s = same
  /\ (same = true -> Buf.st_x s = Buf.st_z s)
  /\ firstn i (Buf.digits (Buf.st_z s))
     ++ sub_abs_digits (seg (Buf.digits (Buf.st_x s)) i (Buf.count x0))
                       (seg (Buf.digits y) i (Buf.count y)) borrow = r.

(** What the loops of [BufOps.bigint_add_abs] keep when they stand at
    index [i] with [carry], for an [x] of [cx] digits. *)
Definition add_inv (x0 z0 y : Buf.bigint_s) (cx : nat) (same : bool)
    (r : list Z) (i : nat) (carry : Z) (s : Buf.sub_state) : Prop :=
  same_shape x0 (Buf.st_x s) /\ same_shape z0 (Buf.st_z s)
  /\ Buf.st_same s = same
  /\ (same = true -> Buf.st_x s = Buf.st_z s)
  /\ firstn i (Buf.digits (Buf.st_z s))
     ++ add_abs_digits (seg (Buf.digits (Buf.st_x s)) i cx)
                       (seg (Buf.digits y) i (Buf.count y)) carry = r.

(* ====================================================================== *)
(** * Part III: properties *)
(* ====================================================================== *)

(** ** Digit sequences and their values *)

Lemma BASE_eq : BASE = 1000000000.
Proof. reflexivity. Qed.

Lemma BASE_pos : 0 < BASE.
Proof. rewrite BASE_eq; lia. Qed.

#[global] Opaque BASE.

Lemma Bpow_0 : Bpow 0 = 1.
Proof. reflexivity. Qed.

Lemma Bpow_S n : Bpow (S n) = BASE * Bpow n.
Proof.
  unfold Bpow. rewrite Nat2Z.inj_succ, Z.pow_succ_r by lia. reflexivity.
Qed.

Lemma Bpow_pos n : 0 < Bpow n.
Proof. unfold Bpow. apply Z.pow_pos_nonneg; [apply BASE_pos | lia]. Qed.

Lemma Bpow_add n m : Bpow (n + m) = Bpow n * Bpow m.
Proof.
  unfold Bpow. rewrite Nat2Z.inj_add, Z.pow_add_r by lia. reflexivity.
Qed.

Lemma Bpow_le n m : (n <= m)%nat -> Bpow n <= Bpow m.
Proof.
  intros H. unfold Bpow. apply Z.pow_le_mono_r; [apply BASE_pos | lia].
Qed.

Lemma eval_cons d r : eval (d :: r) = d + BASE * eval r.
Proof. reflexivity. Qed.

Lemma eval_app a b : eval (a ++ b) = eval a + Bpow (length a) * eval b.
Proof.
  induction a as [|d a IH]; simpl length.
  - rewrite Bpow_0. cbn [app eval]. lia.
  - simpl app. rewrite !eval_cons, IH, Bpow_S. ring.
Qed.

Lemma eval_repeat_0 n : eval (repeat 0 n) = 0.
Proof. induction n; simpl; [reflexivity | rewrite IHn; lia]. Qed.

Lemma digits_ok_cons d r :
  digits_ok (d :: r) <-> 0 <= d < BASE /\ digits_ok r.
Proof.
  unfold digits_ok. split.
  - intros H. inversion H; subst. auto.
  - intros [H1 H2]. constructor; assumption.
Qed.

Lemma digits_ok_nil : digits_ok [].
Proof. constructor. Qed.

Lemma digits_ok_app a b : digits_ok (a ++ b) <-> digits_ok a /\ digits_ok b.
Proof. unfold digits_ok. apply Forall_app. Qed.

Lemma digits_ok_repeat_0 n : digits_ok (repeat 0 n).
Proof.
  unfold digits_ok. apply Forall_forall. intros x Hx.
  apply repeat_spec in Hx. subst. pose proof BASE_pos. lia.
Qed.

Lemma digits_ok_firstn n ds : digits_ok ds -> digits_ok (firstn n ds).
Proof.
  unfold digits_ok. intros H. apply Forall_forall. intros x Hx.
  rewrite Forall_forall in H. apply H.
  rewrite <- (firstn_skipn n ds). apply in_or_app. left. exact Hx.
Qed.

Lemma digits_ok_skipn n ds : digits_ok ds -> digits_ok (skipn n ds).
Proof.
  unfold digits_ok. intros H. apply Forall_forall. intros x Hx.
  rewrite Forall_forall in H. apply H.
  rewrite <- (firstn_skipn n ds). apply in_or_app. right. exact Hx.
Qed.

Lemma digit_at_ok ds i : digits_ok ds -> 0 <= digit_at ds i < BASE.
Proof.
  unfold digit_at. revert i. induction ds as [|d r IH]; intros i H.
  - destruct i; simpl; pose proof BASE_pos; lia.
  - apply digits_ok_cons in H. destruct H as [Hd Hr].
    destruct i; simpl; [exact Hd | apply IH; exact Hr].
Qed.

Lemma eval_bound ds : digits_ok ds -> 0 <= eval ds < Bpow (length ds).
Proof.
  induction ds as [|d r IH]; intros H.
  - simpl. rewrite Bpow_0. lia.
  - apply digits_ok_cons in H. destruct H as [Hd Hr].
    specialize (IH Hr). simpl length. rewrite eval_cons, Bpow_S.
    pose proof BASE_pos. nia.
Qed.

Lemma eval_nonneg ds : digits_ok ds -> 0 <= eval ds.
Proof. intros H. apply (eval_bound ds H). Qed.

(** Two digit sequences of one length with one value are equal. *)
Lemma eval_inj a : forall b,
  digits_ok a -> digits_ok b -> length a = length b -> eval a = eval b -> a = b.
Proof.
  induction a as [|x a IH]; intros [|y b] Ha Hb Hl He; simpl in Hl; try lia.
  - reflexivity.
  - apply digits_ok_cons in Ha. apply digits_ok_cons in Hb.
    destruct Ha as [Hx Ha]. destruct Hb as [Hy Hb].
    rewrite !eval_cons in He.
    assert (eval a = eval b) as He'.
    { pose proof BASE_pos.
      destruct (Z.lt_trichotomy (eval a) (eval b)) as [L|[E|G]]; [nia|exact E|nia]. }
    assert (x = y) as -> by (rewrite He' in He; lia).
    f_equal. apply IH; auto.
Qed.

Lemma last_cons_cons {A} (x y : A) r d : last (x :: y :: r) d = last (y :: r) d.
Proof. reflexivity. Qed.

Lemma trimmed_cons d r : r <> [] -> trimmed (d :: r) <-> trimmed r.
Proof.
  unfold trimmed. destruct r as [|y r]; [congruence|].
  intros _. rewrite last_cons_cons. tauto.
Qed.

Lemma trimmed_nil : trimmed [].
Proof. unfold trimmed. simpl. lia. Qed.

(** A trimmed sequence of [n+1] digits is worth at least [BASE^n]. *)
Lemma eval_trimmed_lower ds :
  digits_ok ds -> trimmed ds -> ds <> [] -> Bpow (length ds - 1) <= eval ds.
Proof.
  induction ds as [|d r IH]; intros Hok Ht Hne; [congruence|].
  apply digits_ok_cons in Hok. destruct Hok as [Hd Hr].
  destruct r as [|y r].
  - unfold trimmed in Ht. simpl in *. rewrite Bpow_0. lia.
  - apply trimmed_cons in Ht; [|congruence].
    specialize (IH Hr Ht ltac:(congruence)).
    rewrite eval_cons. simpl length in *.
    replace (S (S (length r)) - 1)%nat with (S (S (length r) - 1)) by lia.
    rewrite Bpow_S. pose proof BASE_pos. nia.
Qed.

Lemma eval_trimmed_pos ds :
  digits_ok ds -> trimmed ds -> ds <> [] -> 0 < eval ds.
Proof.
  intros H1 H2 H3. pose proof (eval_trimmed_lower ds H1 H2 H3).
  pose proof (Bpow_pos (length ds - 1)). lia.
Qed.

(** Trimmed sequences with one value have one length, hence are equal. *)
Lemma eval_trimmed_length a b :
  digits_ok a -> digits_ok b -> trimmed a -> trimmed b ->
  eval a <= eval b -> (length a <= length b)%nat.
Proof.
  intros Ha Hb Ta Tb Hle.
  destruct a as [|x a]; [simpl; lia|].
  pose proof (eval_trimmed_lower _ Ha Ta ltac:(congruence)) as L.
  pose proof (eval_bound _ Hb) as [_ U].
  destruct (Nat.le_gt_cases (length (x :: a)) (length b)) as [|G]; [assumption|].
  assert (Bpow (length b) <= Bpow (length (x :: a) - 1)) by (apply Bpow_le; lia).
  lia.
Qed.

Lemma eval_trimmed_inj a b :
  digits_ok a -> digits_ok b -> trimmed a -> trimmed b ->
  eval a = eval b -> a = b.
Proof.
  intros Ha Hb Ta Tb He.
  apply eval_inj; auto.
  apply Nat.le_antisymm; apply eval_trimmed_length; auto; lia.
Qed.

(** ** Reading and writing digits *)

Lemma digit_at_app_l a b i : (i < length a)%nat -> digit_at (a ++ b) i = digit_at a i.
Proof. intros H. unfold digit_at. apply app_nth1. exact H. Qed.

Lemma digit_at_app_r a b i :
  (length a <= i)%nat -> digit_at (a ++ b) i = digit_at b (i - length a).
Proof. intros H. unfold digit_at. apply app_nth2. exact H. Qed.

Lemma digit_at_beyond ds i : (length ds <= i)%nat -> digit_at ds i = 0.
Proof. intros H. unfold digit_at. apply nth_overflow. exact H. Qed.

Lemma firstn_S_digit ds i :
  (i < length ds)%nat -> firstn (S i) ds = firstn i ds ++ [digit_at ds i].
Proof.
  revert i. induction ds as [|d r IH]; intros i H; simpl in H; [lia|].
  destruct i; [reflexivity|].
  simpl. f_equal. apply IH. lia.
Qed.

Lemma set_digit_length ds i d : length (set_digit ds i d) = length ds.
Proof.
  revert i. induction ds as [|x r IH]; intros [|i]; simpl; auto.
Qed.

Lemma set_digit_same ds i d :
  (i < length ds)%nat -> digit_at (set_digit ds i d) i = d.
Proof.
  revert i. induction ds as [|x r IH]; intros [|i] H; simpl in *; try lia.
  - reflexivity.
  - apply IH. lia.
Qed.

Lemma set_digit_other ds i j d :
  i <> j -> digit_at (set_digit ds i d) j = digit_at ds j.
Proof.
  revert i j. induction ds as [|x r IH]; intros [|i] [|j] H; simpl; auto; try lia.
  apply IH. lia.
Qed.

Lemma set_digit_eval ds i d :
  (i < length ds)%nat ->
  eval (set_digit ds i d) = eval ds + (d - digit_at ds i) * Bpow i.
Proof.
  revert i. induction ds as [|x r IH]; intros [|i] H; simpl in H; try lia.
  - simpl set_digit. rewrite !eval_cons, Bpow_0. unfold digit_at. simpl. ring.
  - simpl set_digit. rewrite !eval_cons, IH, Bpow_S by lia.
    unfold digit_at. simpl. ring.
Qed.

Lemma set_digit_split ds i d :
  (i < length ds)%nat ->
  set_digit ds i d = firstn i ds ++ d :: skipn (S i) ds.
Proof.
  revert i. induction ds as [|x r IH]; intros [|i] H; simpl in H; try lia.
  - reflexivity.
  - simpl. f_equal. apply IH. lia.
Qed.

Lemma set_digit_ok ds i d :
  digits_ok ds -> 0 <= d < BASE -> digits_ok (set_digit ds i d).
Proof.
  revert i. induction ds as [|x r IH]; intros [|i] H Hd; simpl; auto.
  - apply digits_ok_cons in H. apply digits_ok_cons. tauto.
  - apply digits_ok_cons in H. apply digits_ok_cons. split; [tauto|].
    apply IH; tauto.
Qed.

(** ** Trimming *)

Lemma trim_count_le ds i : (trim_count ds i <= i)%nat.
Proof.
  induction i; simpl; [lia|].
  destruct (digit_at ds i =? 0); lia.
Qed.

Lemma trim_count_eval ds i :
  (i <= length ds)%nat ->
  eval (firstn (trim_count ds i) ds) = eval (firstn i ds).
Proof.
  induction i; intros H; [reflexivity|].
  simpl trim_count. destruct (digit_at ds i =? 0) eqn:E; [|reflexivity].
  rewrite IHi by lia. rewrite firstn_S_digit by lia.
  rewrite eval_app. apply Z.eqb_eq in E. rewrite E. simpl. lia.
Qed.

Lemma last_app_single {A} (l : list A) x d : last (l ++ [x]) d = x.
Proof. apply last_last. Qed.

Lemma trim_count_trimmed ds i :
  (i <= length ds)%nat -> trimmed (firstn (trim_count ds i) ds).
Proof.
  induction i; intros H; [apply trimmed_nil|].
  simpl trim_count. destruct (digit_at ds i =? 0) eqn:E; [apply IHi; lia|].
  rewrite firstn_S_digit by lia. unfold trimmed.
  rewrite last_app_single. apply Z.eqb_neq in E. exact E.
Qed.

Lemma trim_count_fix ds :
  trimmed ds -> trim_count ds (length ds) = length ds.
Proof.
  intros H. destruct (length ds) eqn:L; [reflexivity|].
  simpl. destruct (digit_at ds n =? 0) eqn:E; [|reflexivity].
  exfalso. apply H. apply Z.eqb_eq in E.
  assert (ds = firstn n ds ++ [digit_at ds n]) as Hs.
  { rewrite <- firstn_S_digit by lia. rewrite <- L. symmetry. apply firstn_all. }
  rewrite Hs, last_app_single. exact E.
Qed.

Lemma bigint_trim_eval x :
  eval (digits (bigint_trim x)) = eval (digits x).
Proof.
  unfold bigint_trim, bigint_trim_to, count. simpl.
  rewrite trim_count_eval by lia. rewrite firstn_all. reflexivity.
Qed.

Lemma bigint_trim_trimmed x : trimmed (digits (bigint_trim x)).
Proof.
  unfold bigint_trim, bigint_trim_to, count. simpl.
  apply trim_count_trimmed. lia.
Qed.

Lemma bigint_trim_digits_ok x :
  digits_ok (digits x) -> digits_ok (digits (bigint_trim x)).
Proof.
  intros H. unfold bigint_trim, bigint_trim_to. simpl.
  apply digits_ok_firstn. exact H.
Qed.

Lemma bigint_trim_is_neg x : is_neg (bigint_trim x) = is_neg x.
Proof. reflexivity. Qed.

Lemma bigint_trim_id x : trimmed (digits x) -> bigint_trim x = x.
Proof.
  intros H. unfold bigint_trim, bigint_trim_to, count.
  rewrite trim_count_fix by exact H. rewrite firstn_all. destruct x; reflexivity.
Qed.

Lemma bigint_trim_ok x : digits_ok (digits x) -> bigint_ok (bigint_trim x).
Proof.
  intros H. split; [apply bigint_trim_digits_ok; exact H | apply bigint_trim_trimmed].
Qed.

Lemma trim_count_repeat_0 n i : trim_count (repeat 0 n) i = O.
Proof.
  induction i; [reflexivity|]. simpl.
  replace (digit_at (repeat 0 n) i) with 0; [exact IHi|].
  unfold digit_at. symmetry.
  destruct (Nat.lt_ge_cases i n) as [L|G].
  - apply nth_repeat_lt. exact L.
  - apply nth_overflow. rewrite repeat_length. exact G.
Qed.

(** ** Addition and subtraction of magnitudes *)

Lemma add_abs_carry_spec xs : forall carry,
  digits_ok xs -> 0 <= carry <= 1 ->
  eval (add_abs_carry xs carry) = eval xs + carry
  /\ digits_ok (add_abs_carry xs carry)
  /\ (length xs <= length (add_abs_carry xs carry) <= length xs + 1)%nat.
Proof.
  induction xs as [|x r IH]; intros carry Hok Hc.
  - cbn [add_abs_carry]. destruct (carry =? 0) eqn:E.
    + apply Z.eqb_eq in E. subst. cbn. repeat split; try lia. apply digits_ok_nil.
    + apply Z.eqb_neq in E. cbn [negb eval length]. repeat split; try lia.
      apply digits_ok_cons. split; [pose proof BASE_eq; lia | apply digits_ok_nil].
  - apply digits_ok_cons in Hok. destruct Hok as [Hx Hr].
    cbn [add_abs_carry]. destruct (carry =? 0) eqn:E.
    + apply Z.eqb_eq in E. subst. repeat split; try lia.
      apply digits_ok_cons; auto.
    + apply Z.eqb_neq in E. assert (carry = 1) by lia. subst carry.
      destruct (BASE <=? x + 1) eqn:L.
      * apply Z.leb_le in L. destruct (IH 1 Hr ltac:(lia)) as (A & B & C).
        rewrite !eval_cons, A. cbn [length]. repeat split; try lia.
        apply digits_ok_cons. split; [lia | exact B].
      * apply Z.leb_gt in L. destruct (IH 0 Hr ltac:(lia)) as (A & B & C).
        rewrite !eval_cons, A. cbn [length]. repeat split; try lia.
        apply digits_ok_cons. split; [lia | exact B].
Qed.

Lemma add_abs_digits_spec xs : forall ys carry,
  digits_ok xs -> digits_ok ys -> (length ys <= length xs)%nat ->
  0 <= carry <= 1 ->
  eval (add_abs_digits xs ys carry) = eval xs + eval ys + carry
  /\ digits_ok (add_abs_digits xs ys carry)
  /\ (length xs <= length (add_abs_digits xs ys carry) <= length xs + 1)%nat.
Proof.
  induction xs as [|x r IH]; intros ys carry Hx Hy Hl Hc.
  - destruct ys as [|y ys]; [|simpl in Hl; lia].
    cbn [add_abs_digits]. destruct (add_abs_carry_spec [] carry Hx Hc) as (A & B & C).
    rewrite A. cbn [eval]. repeat split; try assumption; lia.
  - destruct ys as [|y ys].
    + cbn [add_abs_digits]. destruct (add_abs_carry_spec (x :: r) carry Hx Hc) as (A & B & C).
      rewrite A. cbn [eval]. repeat split; try assumption; lia.
    + apply digits_ok_cons in Hx. destruct Hx as [Hx Hr].
      apply digits_ok_cons in Hy. destruct Hy as [Hy Hys].
      cbn [length] in Hl. cbn [add_abs_digits].
      destruct (BASE <=? x + y + carry) eqn:L.
      * apply Z.leb_le in L.
        destruct (IH ys 1 Hr Hys ltac:(lia) ltac:(lia)) as (A & B & C).
        rewrite !eval_cons, A. cbn [length]. repeat split; try lia.
        apply digits_ok_cons. split; [lia | exact B].
      * apply Z.leb_gt in L.
        destruct (IH ys 0 Hr Hys ltac:(lia) ltac:(lia)) as (A & B & C).
        rewrite !eval_cons, A. cbn [length]. repeat split; try lia.
        apply digits_ok_cons. split; [lia | exact B].
Qed.

Lemma sub_abs_borrow_spec xs : forall borrow,
  digits_ok xs -> 0 <= borrow <= 1 -> borrow <= eval xs ->
  eval (sub_abs_borrow xs borrow) = eval xs - borrow
  /\ digits_ok (sub_abs_borrow xs borrow)
  /\ length (sub_abs_borrow xs borrow) = length xs.
Proof.
  induction xs as [|x r IH]; intros borrow Hok Hb Hle.
  - cbn [eval] in Hle. assert (borrow = 0) by lia. subst.
    cbn. repeat split; try lia. apply digits_ok_nil.
  - apply digits_ok_cons in Hok. destruct Hok as [Hx Hr].
    cbn [sub_abs_borrow]. destruct (borrow =? 0) eqn:E.
    + apply Z.eqb_eq in E. subst. repeat split; try lia.
      apply digits_ok_cons; auto.
    + apply Z.eqb_neq in E. assert (borrow = 1) by lia. subst borrow.
      rewrite eval_cons in Hle. pose proof (eval_nonneg r Hr) as Hr0.
      destruct (x - 1 <? 0) eqn:L.
      * apply Z.ltb_lt in L.
        assert (1 <= eval r) by (pose proof BASE_pos; nia).
        destruct (IH 1 Hr ltac:(lia) ltac:(lia)) as (A & B & C).
        rewrite !eval_cons, A. cbn [length]. repeat split; try lia.
        apply digits_ok_cons. split; [lia | exact B].
      * apply Z.ltb_ge in L.
        destruct (IH 0 Hr ltac:(lia) ltac:(lia)) as (A & B & C).
        rewrite !eval_cons, A. cbn [length]. repeat split; try lia.
        apply digits_ok_cons. split; [lia | exact B].
Qed.

Lemma sub_abs_digits_spec xs : forall ys borrow,
  digits_ok xs -> digits_ok ys -> (length ys <= length xs)%nat ->
  0 <= borrow <= 1 -> eval ys + borrow <= eval xs ->
  eval (sub_abs_digits xs ys borrow) = eval xs - eval ys - borrow
  /\ digits_ok (sub_abs_digits xs ys borrow)
  /\ length (sub_abs_digits xs ys borrow) = length xs.
Proof.
  induction xs as [|x r IH]; intros ys borrow Hx Hy Hl Hb Hle.
  - destruct ys as [|y ys]; [|simpl in Hl; lia].
    cbn [sub_abs_digits]. cbn [eval] in *.
    destruct (sub_abs_borrow_spec [] borrow Hx Hb ltac:(cbn [eval]; lia)) as (A & B & C).
    rewrite A. cbn [eval]. repeat split; try assumption; lia.
  - destruct ys as [|y ys].
    + cbn [sub_abs_digits].
      assert (borrow <= eval (x :: r)) as Hle' by (change (eval []) with 0 in Hle; lia).
      destruct (sub_abs_borrow_spec (x :: r) borrow Hx Hb Hle') as (A & B & C).
      rewrite A. cbn [eval]. repeat split; try assumption; lia.
    + apply digits_ok_cons in Hx. destruct Hx as [Hx Hr].
      apply digits_ok_cons in Hy. destruct Hy as [Hy Hys].
      cbn [length] in Hl. cbn [sub_abs_digits]. rewrite !eval_cons in Hle.
      pose proof BASE_pos as HB.
      destruct (x - borrow - y <? 0) eqn:L.
      * apply Z.ltb_lt in L.
        assert (eval ys + 1 <= eval r) by nia.
        destruct (IH ys 1 Hr Hys ltac:(lia) ltac:(lia) ltac:(lia)) as (A & B & C).
        rewrite !eval_cons, A. cbn [length]. repeat split; try lia.
        apply digits_ok_cons. split; [lia | exact B].
      * apply Z.ltb_ge in L.
        assert (eval ys + 0 <= eval r) by nia.
        destruct (IH ys 0 Hr Hys ltac:(lia) ltac:(lia) ltac:(lia)) as (A & B & C).
        rewrite !eval_cons, A. cbn [length]. repeat split; try lia.
        apply digits_ok_cons. split; [lia | exact B].
Qed.

(** ** Comparison of magnitudes *)

Lemma firstn_length_le' (ds : list Z) i : (i <= length ds)%nat -> length (firstn i ds) = i.
Proof. intros H. rewrite length_firstn. lia. Qed.

(** The digit loop compares the numbers made of the [i] low digits. *)
Lemma compare_digits_spec xs ys i :
  digits_ok xs -> digits_ok ys ->
  (i <= length xs)%nat -> (i <= length ys)%nat ->
  compare_digits xs ys i = Z.sgn (eval (firstn i xs) - eval (firstn i ys)).
Proof.
  intros Hx Hy. induction i as [|i IH]; intros Lx Ly.
  - reflexivity.
  - cbn [compare_digits]. rewrite !firstn_S_digit by lia. rewrite !eval_app.
    rewrite !firstn_length_le' by lia. cbn [eval].
    pose proof (digit_at_ok xs i Hx) as Dx. pose proof (digit_at_ok ys i Hy) as Dy.
    pose proof (eval_bound (firstn i xs) (digits_ok_firstn i xs Hx)) as Bx.
    pose proof (eval_bound (firstn i ys) (digits_ok_firstn i ys Hy)) as By.
    rewrite !firstn_length_le' in * by lia.
    pose proof (Bpow_pos i) as Bp.
    destruct (digit_at xs i =? digit_at ys i) eqn:E.
    + apply Z.eqb_eq in E. cbn [negb]. rewrite IH by lia. rewrite E. f_equal. ring.
    + apply Z.eqb_neq in E. cbn [negb].
      destruct (digit_at xs i >? digit_at ys i) eqn:G.
      * apply Z.gtb_lt in G. symmetry. apply Z.sgn_pos. nia.
      * assert (digit_at xs i < digit_at ys i) by
          (pose proof (Zgt_cases (digit_at xs i) (digit_at ys i)) as Q;
           rewrite G in Q; lia).
        symmetry. apply Z.sgn_neg. nia.
Qed.

(** The first operand may also be the one digit [0] that
    [bigint_from_int] makes of zero. *)
Lemma bigint_compare_abs_spec x y :
  digits_ok (digits x) -> (trimmed (digits x) \/ digits x = [0]) ->
  digits_ok (digits y) -> trimmed (digits y) ->
  (digits y = [] -> trimmed (digits x)) ->
  bigint_compare_abs_ x y = Z.sgn (eval (digits x) - eval (digits y)).
Proof.
  intros Hx Tx Hy Ty Hy0. unfold bigint_compare_abs_, count.
  destruct (length (digits y) <? length (digits x))%nat eqn:E1.
  - apply Nat.ltb_lt in E1. symmetry. apply Z.sgn_pos.
    destruct Tx as [Tx|Tx].
    + assert (digits x <> []) as Nx by (intros C; rewrite C in E1; simpl in E1; lia).
      pose proof (eval_trimmed_lower _ Hx Tx Nx) as L.
      pose proof (eval_bound _ Hy) as [_ U].
      assert (Bpow (length (digits y)) <= Bpow (length (digits x) - 1))
        by (apply Bpow_le; lia).
      lia.
    + rewrite Tx in E1. simpl in E1.
      assert (digits y = []) as Ey by (destruct (digits y); [reflexivity|simpl in E1; lia]).
      specialize (Hy0 Ey). rewrite Tx in Hy0. unfold trimmed in Hy0. simpl in Hy0. lia.
  - apply Nat.ltb_ge in E1.
    destruct (length (digits x) <? length (digits y))%nat eqn:E2.
    + apply Nat.ltb_lt in E2. symmetry. apply Z.sgn_neg.
      assert (digits y <> []) as Ny by (intros C; rewrite C in E2; simpl in E2; lia).
      pose proof (eval_trimmed_lower _ Hy Ty Ny) as L.
      pose proof (eval_bound _ Hx) as [_ U].
      assert (Bpow (length (digits x)) <= Bpow (length (digits y) - 1))
        by (apply Bpow_le; lia).
      lia.
    + apply Nat.ltb_ge in E2.
      rewrite compare_digits_spec by (auto; lia).
      rewrite firstn_all.
      replace (length (digits x)) with (length (digits y)) by lia.
      rewrite firstn_all. reflexivity.
Qed.

(** ** Signed addition and subtraction *)

Lemma bigint_add_same_spec x y yneg :
  digits_ok (digits x) -> digits_ok (digits y) ->
  eval (digits (bigint_add_same x y yneg)) = eval (digits x) + eval (digits y)
  /\ digits_ok (digits (bigint_add_same x y yneg))
  /\ is_neg (bigint_add_same x y yneg) = yneg
  /\ (length (digits (bigint_add_same x y yneg))
      <= Nat.max (count x) (count y) + 1)%nat.
Proof.
  intros Hx Hy. unfold bigint_add_same, bigint_add_abs, count.
  destruct (length (digits x) <? length (digits y))%nat eqn:E.
  - apply Nat.ltb_lt in E.
    destruct (add_abs_digits_spec (digits y) (digits x) 0 Hy Hx ltac:(lia) ltac:(lia))
      as (A & B & C).
    cbn [digits is_neg]. rewrite A. repeat split; try assumption; lia.
  - apply Nat.ltb_ge in E.
    destruct (add_abs_digits_spec (digits x) (digits y) 0 Hx Hy ltac:(lia) ltac:(lia))
      as (A & B & C).
    cbn [digits is_neg]. rewrite A. repeat split; try assumption; lia.
Qed.

Lemma bigint_sub_abs_spec x y :
  digits_ok (digits x) -> digits_ok (digits y) ->
  (count y <= count x)%nat -> eval (digits y) <= eval (digits x) ->
  eval (digits (bigint_sub_abs x y)) = eval (digits x) - eval (digits y)
  /\ bigint_ok (bigint_sub_abs x y)
  /\ is_neg (bigint_sub_abs x y) = is_neg x.
Proof.
  intros Hx Hy Hl Hle. unfold bigint_sub_abs, count in *.
  destruct (sub_abs_digits_spec (digits x) (digits y) 0 Hx Hy Hl ltac:(lia) ltac:(lia))
    as (A & B & C).
  rewrite bigint_trim_eval. cbn [digits]. rewrite A.
  repeat split; try lia.
  - apply bigint_trim_digits_ok. exact B.
  - apply bigint_trim_trimmed.
Qed.

(** The count of a trimmed magnitude does not exceed that of a larger one. *)
Lemma count_le_of_eval_le x y :
  bigint_ok x -> bigint_ok y -> eval (digits x) <= eval (digits y) ->
  (count x <= count y)%nat.
Proof.
  intros [Hx Tx] [Hy Ty] H. unfold count. apply eval_trimmed_length; auto.
Qed.

Lemma bigint_sub_same_ge x y yneg :
  bigint_ok x -> bigint_ok y -> eval (digits y) <= eval (digits x) ->
  eval (digits (bigint_sub_same x y yneg)) = eval (digits x) - eval (digits y)
  /\ bigint_ok (bigint_sub_same x y yneg)
  /\ is_neg (bigint_sub_same x y yneg) = is_neg x.
Proof.
  intros Ox Oy Hle. unfold bigint_sub_same.
  destruct Ox as [Hx Tx]. destruct Oy as [Hy Ty].
  rewrite bigint_compare_abs_spec by auto.
  assert ((Z.sgn (eval (digits x) - eval (digits y)) >=? 0) = true) as G.
  { apply Z.geb_le. apply Z.sgn_nonneg. lia. }
  rewrite G. apply bigint_sub_abs_spec; auto.
  apply count_le_of_eval_le; [split|split|]; auto.
Qed.

Lemma bigint_sub_same_lt x y yneg :
  bigint_ok x -> bigint_ok y -> eval (digits x) < eval (digits y) ->
  eval (digits (bigint_sub_same x y yneg)) = eval (digits y) - eval (digits x)
  /\ bigint_ok (bigint_sub_same x y yneg)
  /\ is_neg (bigint_sub_same x y yneg) = negb yneg.
Proof.
  intros Ox Oy Hlt. unfold bigint_sub_same.
  destruct Ox as [Hx Tx]. destruct Oy as [Hy Ty].
  rewrite bigint_compare_abs_spec by auto.
  assert ((Z.sgn (eval (digits x) - eval (digits y)) >=? 0) = false) as G.
  { rewrite Z.sgn_neg by lia. reflexivity. }
  rewrite G.
  destruct (bigint_sub_abs_spec y x Hy Hx) as (A & [B T] & C).
  { apply count_le_of_eval_le; [split|split|]; auto. lia. }
  { lia. }
  cbn [digits is_neg]. repeat split; assumption.
Qed.

Lemma compare_digits_refl xs i : compare_digits xs xs i = 0.
Proof.
  induction i; simpl; [reflexivity|].
  rewrite Z.eqb_refl. simpl. exact IHi.
Qed.

Lemma bigint_compare_abs_refl x : bigint_compare_abs_ x x = 0.
Proof.
  unfold bigint_compare_abs_. rewrite Nat.ltb_irrefl. apply compare_digits_refl.
Qed.

Lemma bigint_compare_refl x : bigint_compare_ x x = 0.
Proof.
  unfold bigint_compare_. rewrite Bool.eqb_reflx, bigint_compare_abs_refl.
  cbn [negb]. lia.
Qed.

(** ** Conversions between machine integers, bigints and integers *)

Lemma from_int_digits_small fuel i :
  0 <= i < BASE -> from_int_digits fuel i = [i].
Proof.
  intros Hi.
  assert (Z.quot i BASE = 0) as Q by (apply Z.quot_small; lia).
  assert (Z.rem i BASE = i) as R by (apply Z.rem_small; lia).
  destruct fuel; cbn [from_int_digits]; rewrite ?Q, R; reflexivity.
Qed.

Lemma log2_quot_BASE i :
  BASE <= i -> Z.log2 (Z.quot i BASE) < Z.log2 i.
Proof.
  intros Hi. pose proof BASE_eq as HB.
  rewrite Z.quot_div_nonneg by lia.
  assert (0 < i / BASE) as Hq by (apply Z.div_str_pos; lia).
  assert (2 * (i / BASE) <= i) as H2.
  { pose proof (Z.div_mod i BASE ltac:(lia)).
    pose proof (Z.mod_pos_bound i BASE ltac:(lia)). nia. }
  pose proof (Z.log2_double (i / BASE) Hq) as D.
  pose proof (Z.log2_le_mono _ _ H2). lia.
Qed.

Lemma from_int_digits_spec fuel : forall i,
  0 <= i -> Z.log2 i <= Z.of_nat fuel ->
  eval (from_int_digits fuel i) = i
  /\ digits_ok (from_int_digits fuel i)
  /\ (0 < i -> trimmed (from_int_digits fuel i))
  /\ (i = 0 -> from_int_digits fuel i = [0]).
Proof.
  pose proof BASE_eq as HB.
  induction fuel as [|fuel IH]; intros i Hi Hl.
  - assert (i < BASE) as Hlt.
    { destruct (Z_lt_ge_dec i BASE) as [|G]; [assumption|].
      pose proof (Z.log2_le_mono BASE i ltac:(lia)) as M.
      rewrite HB in M at 1. change (Z.log2 1000000000) with 29 in M. lia. }
    rewrite from_int_digits_small by lia. cbn [eval].
    repeat split; try lia.
    + apply digits_ok_cons. split; [lia | apply digits_ok_nil].
    + intros P. unfold trimmed. cbn [last]. lia.
    + intros ->. reflexivity.
  - destruct (Z_lt_ge_dec i BASE) as [Hlt|Hge].
    + rewrite from_int_digits_small by lia. cbn [eval].
      repeat split; try lia.
      * apply digits_ok_cons. split; [lia | apply digits_ok_nil].
      * intros P. unfold trimmed. cbn [last]. lia.
      * intros ->. reflexivity.
    + cbn [from_int_digits].
      pose proof (log2_quot_BASE i ltac:(lia)) as Hlog.
      assert (0 < Z.quot i BASE) as Hq.
      { rewrite Z.quot_div_nonneg by lia. apply Z.div_str_pos; lia. }
      replace (0 <? Z.quot i BASE) with true by (symmetry; apply Z.ltb_lt; exact Hq).
      destruct (IH (Z.quot i BASE) ltac:(lia) ltac:(lia)) as (A & B & C & _).
      rewrite eval_cons, A.
      pose proof (Z.quot_rem' i BASE) as QR.
      pose proof (Z.rem_bound_pos i BASE ltac:(lia) ltac:(lia)) as RB.
      repeat split; try lia.
      * apply digits_ok_cons. split; [lia | exact B].
      * intros _. apply trimmed_cons; [|apply C; exact Hq].
        destruct fuel; cbn [from_int_digits]; congruence.
Qed.

Lemma bigint_from_int_spec i :
  is_neg (bigint_from_int i) = (i <? 0)
  /\ digits_ok (digits (bigint_from_int i))
  /\ eval (digits (bigint_from_int i)) = Z.abs i
  /\ (i <> 0 -> trimmed (digits (bigint_from_int i)) /\ digits (bigint_from_int i) <> [])
  /\ (i = 0 -> digits (bigint_from_int i) = [0]).
Proof.
  unfold bigint_from_int. cbn [is_neg digits].
  split; [reflexivity|].
  set (a := if i <? 0 then - i else i).
  assert (a = Z.abs i) as Ea.
  { unfold a. destruct (i <? 0) eqn:E;
      [apply Z.ltb_lt in E | apply Z.ltb_ge in E]; lia. }
  destruct (from_int_digits_spec (Z.to_nat (Z.log2 a)) a) as (A & B & C & D).
  { lia. }
  { pose proof (Z.log2_nonneg a). lia. }
  rewrite A. repeat split; try assumption.
  - apply C. lia.
  - destruct (Z.to_nat (Z.log2 a)); cbn [from_int_digits]; congruence.
  - intros ->. apply D. reflexivity.
Qed.

Lemma bigint_from_int_value i : bigint_value (bigint_from_int i) = i.
Proof.
  destruct (bigint_from_int_spec i) as (N & _ & E & _).
  unfold bigint_value, bigint_sign_, bigint_is_neg_. rewrite N, E.
  destruct (i <? 0) eqn:L; [apply Z.ltb_lt in L | apply Z.ltb_ge in L]; lia.
Qed.

Lemma integer_bigint_value `{smallint_range} (x : bigint_t) :
  integer_value (integer_bigint x) = bigint_value x.
Proof.
  unfold integer_bigint.
  destruct ((count x =? 1)%nat && (digit_at (digits x) 0 <=? SMALLINT_MAX)) eqn:E;
    [|reflexivity].
  apply andb_prop in E. destruct E as [E _]. apply Nat.eqb_eq in E.
  unfold count in E. destruct x as [neg ds].
  destruct ds as [|d [|d' r]]; simpl in E; try lia.
  unfold integer_value, bigint_value, bigint_sign_, bigint_is_neg_, digit_at.
  cbn [digits is_neg nth eval]. destruct neg; lia.
Qed.

Lemma integer_from_int_value `{smallint_range} i :
  integer_value (integer_from_int i) = i.
Proof.
  unfold integer_from_int.
  destruct ((SMALLINT_MIN <=? i) && (i <=? SMALLINT_MAX)); [reflexivity|].
  apply bigint_from_int_value.
Qed.

Lemma integer_to_bigint_value `{smallint_range} (x : integer_t) :
  bigint_value (integer_to_bigint x) = integer_value x.
Proof. destruct x as [i|b]; [apply bigint_from_int_value | reflexivity]. Qed.

(** The bigint behind a well-formed integer: proper digits, trimmed unless
    it is the one digit [0] of the small integer zero. *)
Lemma integer_to_bigint_ok `{smallint_range} (x : integer_t) :
  integer_ok x ->
  digits_ok (digits (integer_to_bigint x))
  /\ (trimmed (digits (integer_to_bigint x)) \/ digits (integer_to_bigint x) = [0])
  /\ (integer_value x <> 0 ->
      trimmed (digits (integer_to_bigint x)) /\ digits (integer_to_bigint x) <> []).
Proof.
  destruct x as [i|b]; cbn [integer_ok integer_to_bigint integer_value].
  - intros _. destruct (bigint_from_int_spec i) as (_ & O & _ & T & Z0).
    split; [exact O|]. split; [|exact T].
    destruct (Z.eq_dec i 0) as [E|N]; [right; apply Z0; exact E | left; apply T; exact N].
  - intros [[O T] N]. split; [exact O|]. split; [left; exact T|]. intros _. auto.
Qed.

(** ** Schoolbook multiplication *)

Lemma digits_ok_pointwise z :
  (forall j, 0 <= digit_at z j < BASE) -> digits_ok z.
Proof.
  intros H. unfold digits_ok. apply Forall_forall. intros d Hd.
  destruct (In_nth z d 0 Hd) as (j & _ & E). rewrite <- E. apply (H j).
Qed.

Lemma quot_BASE_nonneg p :
  0 <= p -> Z.quot p BASE = p / BASE.
Proof. intros H. apply Z.quot_div_nonneg; [exact H | apply BASE_pos]. Qed.

Lemma mul_row_length dx ys : forall k z, length (mul_row dx ys k z) = length z.
Proof.
  induction ys as [|dy ys IH]; intros k z; [reflexivity|].
  cbn [mul_row]. rewrite IH, !set_digit_length. reflexivity.
Qed.

(** A row adds [dx * ys * BASE^k] to the value of [z]. *)
Lemma mul_row_eval dx ys : forall k z,
  (k + length ys < length z)%nat \/ ys = [] ->
  eval (mul_row dx ys k z) = eval z + dx * eval ys * Bpow k.
Proof.
  induction ys as [|dy ys IH]; intros k z Hk.
  - cbn [mul_row eval]. ring.
  - destruct Hk as [Hk|Hk]; [|discriminate]. cbn [length] in Hk.
    cbn [mul_row]. rewrite IH.
    2:{ rewrite !set_digit_length. destruct ys; [right; reflexivity|left].
        cbn [length] in *. lia. }
    rewrite set_digit_eval by (rewrite set_digit_length; lia).
    rewrite set_digit_eval by lia.
    rewrite set_digit_other by lia.
    rewrite eval_cons, Bpow_S. ring.
Qed.

(** The digits stay in range along a row: the digit under the cursor holds
    a pending carry, all others are proper digits, and nothing has been
    written above the end of the row. *)
Lemma mul_row_range dx ys : forall k z,
  0 <= dx < BASE -> digits_ok ys ->
  (forall j, j <> k -> 0 <= digit_at z j < BASE) ->
  (forall j, (k + length ys <= j)%nat -> j <> k -> digit_at z j = 0) ->
  0 <= digit_at z k <= 2 * BASE - 2 ->
  (ys = [] -> digit_at z k < BASE) ->
  (k + length ys < length z)%nat ->
  (forall j, 0 <= digit_at (mul_row dx ys k z) j < BASE)
  /\ (forall j, (k + length ys < j)%nat -> digit_at (mul_row dx ys k z) j = 0).
Proof.
  induction ys as [|dy ys IH]; intros k z Hdx Hys Hj Hz Hk Hk0 Hlen.
  - cbn [mul_row length] in *. split.
    + intros j. destruct (Nat.eq_dec j k) as [->|N]; [|apply Hj; exact N].
      specialize (Hk0 eq_refl). lia.
    + intros j Hjk. apply Hz; lia.
  - apply digits_ok_cons in Hys. destruct Hys as [Hdy Hys].
    cbn [length] in *. cbn [mul_row].
    set (prod := dx * dy + digit_at z k).
    assert (0 <= prod <= BASE * BASE - 1) as Hp by (unfold prod; nia).
    rewrite (quot_BASE_nonneg prod) by lia.
    pose proof BASE_pos as HB.
    assert (0 <= prod / BASE <= BASE - 1) as Hc.
    { split; [apply Z.div_pos; lia|].
      assert (prod / BASE < BASE); [|lia].
      apply Z.div_lt_upper_bound; lia. }
    assert (0 <= prod - prod / BASE * BASE < BASE) as Hlo.
    { pose proof (Z.div_mod prod BASE ltac:(lia)).
      pose proof (Z.mod_pos_bound prod BASE ltac:(lia)). lia. }
    set (z1 := set_digit z k (prod - prod / BASE * BASE)).
    set (z2 := set_digit z1 (S k) (digit_at z1 (S k) + prod / BASE)).
    assert (digit_at z1 (S k) = digit_at z (S k)) as E1
      by (unfold z1; apply set_digit_other; lia).
    assert (digit_at z2 (S k) = digit_at z (S k) + prod / BASE) as E2.
    { unfold z2. rewrite set_digit_same, E1; [reflexivity|].
      unfold z1. rewrite set_digit_length. lia. }
    assert (forall j, j <> S k -> j <> k -> digit_at z2 j = digit_at z j) as E3.
    { intros j N1 N2. unfold z2, z1. rewrite !set_digit_other by lia. reflexivity. }
    assert (digit_at z2 k = prod - prod / BASE * BASE) as E4.
    { unfold z2. rewrite set_digit_other by lia. unfold z1.
      apply set_digit_same. lia. }
    pose proof (Hj (S k) ltac:(lia)) as HSk.
    destruct (IH (S k) z2) as [R Z0]; auto.
    + intros j N. destruct (Nat.eq_dec j k) as [->|N2].
      * rewrite E4. exact Hlo.
      * rewrite E3 by assumption. apply Hj. exact N2.
    + intros j G N. rewrite E3 by lia. apply Hz; lia.
    + rewrite E2. lia.
    + intros ->. rewrite E2. cbn [length] in Hz.
      rewrite (Hz (S k)) by lia. lia.
    + unfold z2, z1. rewrite !set_digit_length. lia.
    + split; [exact R|]. intros j G. apply Z0. lia.
Qed.

Lemma mul_rows_spec xs ys : forall i z,
  digits_ok xs -> digits_ok ys ->
  (forall j, 0 <= digit_at z j < BASE) ->
  (forall j, (i + length ys <= j)%nat -> digit_at z j = 0) ->
  (i + length xs + length ys <= length z)%nat ->
  eval (mul_rows xs ys i z) = eval z + eval xs * eval ys * Bpow i
  /\ (forall j, 0 <= digit_at (mul_rows xs ys i z) j < BASE)
  /\ length (mul_rows xs ys i z) = length z.
Proof.
  induction xs as [|dx xs IH]; intros i z Hx Hy Hr Hz Hlen.
  - cbn [mul_rows eval]. repeat split; try apply Hr. ring.
  - apply digits_ok_cons in Hx. destruct Hx as [Hdx Hx].
    cbn [length] in Hlen. cbn [mul_rows].
    assert (forall j, j <> i -> 0 <= digit_at z j < BASE) as H1
      by (intros j _; apply Hr).
    assert (forall j, (i + length ys <= j)%nat -> j <> i -> digit_at z j = 0) as H2
      by (intros j G _; apply Hz; exact G).
    assert (0 <= digit_at z i <= 2 * BASE - 2) as H3
      by (pose proof (Hr i); lia).
    assert (ys = [] -> digit_at z i < BASE) as H4 by (intros _; apply Hr).
    destruct (mul_row_range dx ys i z Hdx Hy H1 H2 H3 H4 ltac:(lia)) as [R Z0].
    assert (forall j, (S i + length ys <= j)%nat ->
                      digit_at (mul_row dx ys i z) j = 0) as H5
      by (intros j G; apply Z0; lia).
    destruct (IH (S i) (mul_row dx ys i z) Hx Hy R H5
                ltac:(rewrite mul_row_length; lia)) as (A & B & C).
    rewrite A. rewrite mul_row_eval by (left; lia).
    rewrite C, mul_row_length.
    split; [rewrite eval_cons, Bpow_S; ring|].
    split; [exact B | reflexivity].
Qed.

Lemma digit_at_repeat_0 n j : digit_at (repeat 0 n) j = 0.
Proof.
  unfold digit_at. destruct (Nat.lt_ge_cases j n) as [L|G].
  - apply nth_repeat_lt. exact L.
  - apply nth_overflow. rewrite repeat_length. exact G.
Qed.

(** [bigint_mul] computes the product, in canonical digits. *)
Lemma bigint_mul_spec x y :
  digits_ok (digits x) -> digits_ok (digits y) ->
  eval (digits (bigint_mul x y)) = eval (digits x) * eval (digits y)
  /\ bigint_ok (bigint_mul x y)
  /\ is_neg (bigint_mul x y) = negb (Bool.eqb (is_neg x) (is_neg y)).
Proof.
  intros Hx Hy. unfold bigint_mul, bigint_alloc_zero, bigint_is_neg_, count.
  cbn [digits is_neg].
  assert (forall j, 0 <= digit_at (repeat 0 (length (digits x) + length (digits y))) j
                    < BASE) as H1
    by (intros j; rewrite digit_at_repeat_0; pose proof BASE_pos; lia).
  destruct (mul_rows_spec (digits x) (digits y) 0
              (repeat 0 (length (digits x) + length (digits y))) Hx Hy H1
              ltac:(intros j _; apply digit_at_repeat_0)
              ltac:(rewrite repeat_length; lia)) as (A & B & C).
  rewrite bigint_trim_eval. cbn [digits]. rewrite A, eval_repeat_0, Bpow_0.
  split; [ring|]. split; [|reflexivity].
  apply bigint_trim_ok. cbn [digits]. apply digits_ok_pointwise. exact B.
Qed.

(** ** Karatsuba multiplication *)

Lemma eval_firstn_skipn n ds :
  eval ds = eval (firstn n ds) + Bpow n * eval (skipn n ds).
Proof.
  rewrite <- (firstn_skipn n ds) at 1. rewrite eval_app.
  destruct (Nat.le_gt_cases n (length ds)) as [L|G].
  - rewrite firstn_length_le' by exact L. reflexivity.
  - rewrite skipn_all2 by lia. cbn [eval]. ring.
Qed.

Lemma bigint_slice_low x n :
  (1 <= n)%nat -> digits_ok (digits x) ->
  eval (digits (bigint_slice false x 0 n)) = eval (firstn n (digits x))
  /\ digits_ok (digits (bigint_slice false x 0 n))
  /\ is_neg (bigint_slice false x 0 n) = is_neg x
  /\ (count (bigint_slice false x 0 n) <= n)%nat.
Proof.
  intros Hn Hx. unfold bigint_slice, count. cbn [Nat.eqb andb].
  destruct (length (digits x) <=? 0)%nat eqn:E0.
  - apply Nat.leb_le in E0.
    assert (digits x = []) as Ex by (destruct (digits x); [reflexivity|simpl in E0; lia]).
    rewrite Ex. cbn [length].
    replace (0 <? n)%nat with true by (symmetry; apply Nat.ltb_lt; lia).
    cbn [Nat.sub Nat.eqb digits is_neg length]. rewrite firstn_nil. cbn [eval].
    repeat split; try lia.
    apply digits_ok_cons. split; [pose proof BASE_pos; lia | apply digits_ok_nil].
  - apply Nat.leb_gt in E0. rewrite Nat.sub_0_r. cbn [skipn].
    destruct (length (digits x) <? n)%nat eqn:E1.
    + apply Nat.ltb_lt in E1.
      replace (length (digits x) =? 0)%nat with false by (symmetry; apply Nat.eqb_neq; lia).
      cbn [digits is_neg]. rewrite firstn_all.
      rewrite (firstn_all2 (n := n)) by lia.
      repeat split; try assumption; lia.
    + apply Nat.ltb_ge in E1.
      replace (n =? 0)%nat with false by (symmetry; apply Nat.eqb_neq; lia).
      cbn [digits is_neg]. rewrite firstn_length_le' by lia.
      repeat split; try lia. apply digits_ok_firstn. exact Hx.
Qed.

Lemma bigint_slice_high x n :
  (1 <= n)%nat -> digits_ok (digits x) ->
  eval (digits (bigint_slice false x n (count x))) = eval (skipn n (digits x))
  /\ digits_ok (digits (bigint_slice false x n (count x)))
  /\ is_neg (bigint_slice false x n (count x)) = is_neg x
  /\ (count (bigint_slice false x n (count x)) <= Nat.max 1 (count x - n))%nat.
Proof.
  intros Hn Hx. unfold bigint_slice, count.
  replace (n =? 0)%nat with false by (symmetry; apply Nat.eqb_neq; lia).
  cbn [andb]. rewrite Nat.ltb_irrefl.
  destruct (length (digits x) <=? n)%nat eqn:E0.
  - apply Nat.leb_le in E0. rewrite Nat.sub_diag. cbn [Nat.eqb digits is_neg length].
    rewrite skipn_all2 by lia. cbn [eval]. repeat split; try lia.
    apply digits_ok_cons. split; [pose proof BASE_pos; lia | apply digits_ok_nil].
  - apply Nat.leb_gt in E0.
    replace (length (digits x) - n =? 0)%nat with false
      by (symmetry; apply Nat.eqb_neq; lia).
    cbn [digits is_neg].
    rewrite firstn_all2 by (rewrite length_skipn; lia).
    rewrite length_skipn. repeat split; try lia. apply digits_ok_skipn. exact Hx.
Qed.

Lemma bigint_shift_left_spec x n :
  (1 <= n)%nat -> digits_ok (digits x) ->
  eval (digits (bigint_shift_left x (Z.of_nat n))) = Bpow n * eval (digits x)
  /\ digits_ok (digits (bigint_shift_left x (Z.of_nat n)))
  /\ is_neg (bigint_shift_left x (Z.of_nat n)) = is_neg x.
Proof.
  intros Hn Hx. unfold bigint_shift_left.
  replace (Z.of_nat n <=? 0) with false by (symmetry; apply Z.leb_gt; lia).
  cbn [digits is_neg]. rewrite Nat2Z.id, eval_app, eval_repeat_0, repeat_length.
  repeat split; try lia.
  apply digits_ok_app. split; [apply digits_ok_repeat_0 | exact Hx].
Qed.

Lemma bigint_add_agree x y yneg :
  is_neg x = yneg -> bigint_add x y yneg = bigint_add_same x y yneg.
Proof.
  intros <-. unfold bigint_add, bigint_is_neg_. rewrite Bool.eqb_reflx. reflexivity.
Qed.

Lemma bigint_sub_agree x y yneg :
  is_neg x = yneg -> bigint_sub x y yneg = bigint_sub_same x y yneg.
Proof.
  intros <-. unfold bigint_sub, bigint_is_neg_. rewrite Bool.eqb_reflx. reflexivity.
Qed.

(** Canonical bigints with one sign flag and one value are equal. *)
Lemma bigint_eq x y :
  bigint_ok x -> bigint_ok y -> is_neg x = is_neg y ->
  eval (digits x) = eval (digits y) -> x = y.
Proof.
  intros [Hx Tx] [Hy Ty] Hn He. destruct x as [nx dx], y as [ny dy].
  cbn [digits is_neg] in *. subst ny. f_equal.
  apply eval_trimmed_inj; assumption.
Qed.

Lemma mul_karatsuba_unfold fuel x y :
  mul_karatsuba fuel x y =
  let n := if (count y <=? count x)%nat then count x else count y in
  if (n <=? 25)%nat then Some (bigint_mul x y)
  else
    match fuel with
    | O => None
    | S fuel' =>
        let n := ((n + 1) / 2)%nat in
        let b := bigint_slice false x n (count x) in
        let a := bigint_slice false x 0 n in
        let d := bigint_slice false y n (count y) in
        let c := bigint_slice false y 0 n in
        match mul_karatsuba fuel' a c,
              mul_karatsuba fuel' b d,
              mul_karatsuba fuel' (bigint_add a b (is_neg b))
                                  (bigint_add c d (is_neg d)) with
        | Some ac, Some bd, Some abcd =>
            let p1 := bigint_shift_left
                        (bigint_sub (bigint_sub abcd ac (is_neg ac))
                                    bd (is_neg bd))
                        (Z.of_nat n) in
            let p2 := bigint_shift_left bd (2 * Z.of_nat n) in
            let prod := bigint_add (bigint_add ac p1 (is_neg p1))
                                   p2 (is_neg p2) in
            Some (bigint_trim prod)
        | _, _, _ => None
        end
    end.
Proof. destruct fuel; reflexivity. Qed.

(** One level of the recursion, the three inner products being the
    schoolbook ones: the recombination is the schoolbook product. *)
Lemma karatsuba_recombine x y n :
  (1 <= n)%nat -> digits_ok (digits x) -> digits_ok (digits y) ->
  let b := bigint_slice false x n (count x) in
  let a := bigint_slice false x 0 n in
  let d := bigint_slice false y n (count y) in
  let c := bigint_slice false y 0 n in
  let ac := bigint_mul a c in
  let bd := bigint_mul b d in
  let abcd := bigint_mul (bigint_add a b (is_neg b)) (bigint_add c d (is_neg d)) in
  let p1 := bigint_shift_left
              (bigint_sub (bigint_sub abcd ac (is_neg ac)) bd (is_neg bd))
              (Z.of_nat n) in
  let p2 := bigint_shift_left bd (2 * Z.of_nat n) in
  let prod := bigint_add (bigint_add ac p1 (is_neg p1)) p2 (is_neg p2) in
  bigint_trim prod = bigint_mul x y.
Proof.
  intros Hn Hx Hy. cbv zeta.
  set (b := bigint_slice false x n (count x)).
  set (a := bigint_slice false x 0 n).
  set (d := bigint_slice false y n (count y)).
  set (c := bigint_slice false y 0 n).
  destruct (bigint_slice_low x n Hn Hx) as (Ea & Oa & Na & _).
  destruct (bigint_slice_high x n Hn Hx) as (Eb & Ob & Nb & _).
  destruct (bigint_slice_low y n Hn Hy) as (Ec & Oc & Nc & _).
  destruct (bigint_slice_high y n Hn Hy) as (Ed & Od & Nd & _).
  fold a in Ea, Oa, Na. fold b in Eb, Ob, Nb.
  fold c in Ec, Oc, Nc. fold d in Ed, Od, Nd.
  pose proof (eval_firstn_skipn n (digits x)) as Sx.
  pose proof (eval_firstn_skipn n (digits y)) as Sy.
  rewrite <- Ea, <- Eb in Sx. rewrite <- Ec, <- Ed in Sy.
  set (s := negb (Bool.eqb (is_neg x) (is_neg y))).
  (* the three products *)
  rewrite (bigint_add_agree a b) by congruence.
  rewrite (bigint_add_agree c d) by congruence.
  set (ac := bigint_mul a c). set (bd := bigint_mul b d).
  set (abcd := bigint_mul (bigint_add_same a b (is_neg b))
                          (bigint_add_same c d (is_neg d))).
  destruct (bigint_mul_spec a c Oa Oc) as (Eac & Oac & Nac). fold ac in Eac, Oac, Nac.
  destruct (bigint_mul_spec b d Ob Od) as (Ebd & Obd & Nbd). fold bd in Ebd, Obd, Nbd.
  rewrite Na, Nc in Nac. rewrite Nb, Nd in Nbd. fold s in Nac, Nbd.
  destruct (bigint_add_same_spec a b (is_neg b) Oa Ob) as (Eab & Oab & Nab & _).
  destruct (bigint_add_same_spec c d (is_neg d) Oc Od) as (Ecd & Ocd & Ncd & _).
  destruct (bigint_mul_spec _ _ Oab Ocd) as (Eabcd & Oabcd & Nabcd).
  fold abcd in Eabcd, Oabcd, Nabcd.
  rewrite Nab, Ncd, Nb, Nd in Nabcd. fold s in Nabcd.
  rewrite Eab, Ecd in Eabcd.
  pose proof (eval_nonneg _ Oa) as Pa. pose proof (eval_nonneg _ Ob) as Pb.
  pose proof (eval_nonneg _ Oc) as Pc. pose proof (eval_nonneg _ Od) as Pd.
  (* abcd - ac - bd *)
  set (s1 := bigint_sub abcd ac (is_neg ac)).
  assert (eval (digits s1) = eval (digits abcd) - eval (digits ac)
          /\ bigint_ok s1 /\ is_neg s1 = s) as (Es1 & Os1 & Ns1).
  { unfold s1. rewrite bigint_sub_agree by congruence.
    destruct (bigint_sub_same_ge abcd ac (is_neg ac) Oabcd Oac) as (A & B & C).
    { rewrite Eabcd, Eac. nia. }
    rewrite C. auto. }
  set (s2 := bigint_sub s1 bd (is_neg bd)).
  assert (eval (digits s2) = eval (digits s1) - eval (digits bd)
          /\ bigint_ok s2 /\ is_neg s2 = s) as (Es2 & Os2 & Ns2).
  { unfold s2. rewrite bigint_sub_agree by congruence.
    destruct (bigint_sub_same_ge s1 bd (is_neg bd) Os1 Obd) as (A & B & C).
    { rewrite Es1, Eabcd, Eac, Ebd. nia. }
    rewrite C. auto. }
  set (p1 := bigint_shift_left s2 (Z.of_nat n)).
  destruct (bigint_shift_left_spec s2 n Hn (proj1 Os2)) as (Ep1 & Op1 & Np1).
  fold p1 in Ep1, Op1, Np1.
  replace (2 * Z.of_nat n) with (Z.of_nat (2 * n)) by lia.
  set (p2 := bigint_shift_left bd (Z.of_nat (2 * n))).
  destruct (bigint_shift_left_spec bd (2 * n) ltac:(lia) (proj1 Obd)) as (Ep2 & Op2 & Np2).
  fold p2 in Ep2, Op2, Np2.
  (* the two additions *)
  set (t1 := bigint_add ac p1 (is_neg p1)).
  assert (eval (digits t1) = eval (digits ac) + eval (digits p1)
          /\ digits_ok (digits t1) /\ is_neg t1 = s) as (Et1 & Ot1 & Nt1).
  { unfold t1. rewrite bigint_add_agree by congruence.
    destruct (bigint_add_same_spec ac p1 (is_neg p1) (proj1 Oac) Op1) as (A & B & C & _).
    rewrite C. repeat split; auto. congruence. }
  set (prod := bigint_add t1 p2 (is_neg p2)).
  assert (eval (digits prod) = eval (digits t1) + eval (digits p2)
          /\ digits_ok (digits prod) /\ is_neg prod = s) as (Ep & Op & Np).
  { unfold prod. rewrite bigint_add_agree by congruence.
    destruct (bigint_add_same_spec t1 p2 (is_neg p2) Ot1 Op2) as (A & B & C & _).
    rewrite C. repeat split; auto. congruence. }
  destruct (bigint_mul_spec x y Hx Hy) as (Exy & Oxy & Nxy).
  apply bigint_eq.
  - apply bigint_trim_ok. exact Op.
  - exact Oxy.
  - rewrite bigint_trim_is_neg, Np, Nxy. reflexivity.
  - rewrite bigint_trim_eval, Exy, Ep, Et1, Ep1, Ep2, Es2, Es1, Eabcd, Eac, Ebd, Sx, Sy.
    replace (2 * n)%nat with (n + n)%nat by lia. rewrite Bpow_add. ring.
Qed.

Lemma mul_karatsuba_spec fuel : forall x y,
  digits_ok (digits x) -> digits_ok (digits y) ->
  (Nat.max (count x) (count y) <= fuel + 25)%nat ->
  mul_karatsuba fuel x y = Some (bigint_mul x y).
Proof.
  induction fuel as [|fuel IH]; intros x y Hx Hy Hm;
    rewrite mul_karatsuba_unfold; cbv zeta.
  - replace ((if (count y <=? count x)%nat then count x else count y) <=? 25)%nat
      with true; [reflexivity|].
    symmetry. apply Nat.leb_le. destruct (count y <=? count x)%nat; lia.
  - set (n0 := if (count y <=? count x)%nat then count x else count y).
    assert (n0 = Nat.max (count x) (count y)) as En0.
    { unfold n0. destruct (count y <=? count x)%nat eqn:E.
      - apply Nat.leb_le in E. lia.
      - apply Nat.leb_gt in E. lia. }
    destruct (n0 <=? 25)%nat eqn:E25; [reflexivity|].
    apply Nat.leb_gt in E25.
    set (n := ((n0 + 1) / 2)%nat).
    assert (13 <= n /\ n + 1 <= fuel + 25 /\ n0 <= 2 * n)%nat as (Hn13 & Hnf & Hn2).
    { unfold n.
      pose proof (Nat.div_mod_eq (n0 + 1) 2) as D.
      pose proof (Nat.mod_upper_bound (n0 + 1) 2 ltac:(lia)). lia. }
    assert (1 <= n)%nat as Hn1 by lia.
    destruct (bigint_slice_low x n Hn1 Hx) as (_ & Oa & Na & La).
    destruct (bigint_slice_high x n Hn1 Hx) as (_ & Ob & Nb & Lb).
    destruct (bigint_slice_low y n Hn1 Hy) as (_ & Oc & Nc & Lc).
    destruct (bigint_slice_high y n Hn1 Hy) as (_ & Od & Nd & Ld).
    rewrite (IH _ _ Oa Oc) by lia.
    rewrite (IH _ _ Ob Od) by lia.
    rewrite (bigint_add_agree (bigint_slice false x 0 n)) by congruence.
    rewrite (bigint_add_agree (bigint_slice false y 0 n)) by congruence.
    destruct (bigint_add_same_spec _ _ (is_neg (bigint_slice false x n (count x))) Oa Ob)
      as (_ & Oab & _ & Lab).
    destruct (bigint_add_same_spec _ _ (is_neg (bigint_slice false y n (count y))) Oc Od)
      as (_ & Ocd & _ & Lcd).
    rewrite (IH _ _ Oab Ocd) by (unfold count in *; lia).
    f_equal.
    rewrite <- (bigint_add_agree (bigint_slice false x 0 n)) by congruence.
    rewrite <- (bigint_add_agree (bigint_slice false y 0 n)) by congruence.
    apply (karatsuba_recombine x y n Hn1 Hx Hy).
Qed.

(** ** Multiplication and division by one digit *)

Lemma carry_digits_small fuel c :
  0 <= c < BASE ->
  carry_digits (S fuel) c = if c =? 0 then [] else [c].
Proof.
  intros Hc. cbn [carry_digits].
  destruct (c =? 0) eqn:E.
  - apply Z.eqb_eq in E. subst. reflexivity.
  - apply Z.eqb_neq in E.
    replace (0 <? c) with true by (symmetry; apply Z.ltb_lt; lia).
    rewrite Z.rem_small, Z.quot_small by lia.
    destruct fuel; reflexivity.
Qed.

Lemma mul_small_digits_spec xs : forall y c,
  digits_ok xs -> 0 <= y < BASE -> 0 <= c < BASE ->
  exists ds' c',
    mul_small_digits xs y c = ds' ++ (if c' =? 0 then [] else [c'])
    /\ length ds' = length xs /\ digits_ok ds' /\ 0 <= c' < BASE
    /\ eval ds' + Bpow (length xs) * c' = eval xs * y + c.
Proof.
  induction xs as [|x r IH]; intros y c Hx Hy Hc.
  - exists [], c. cbn [mul_small_digits]. rewrite carry_digits_small by exact Hc.
    cbn [app length eval]. rewrite Bpow_0.
    repeat split; try lia. apply digits_ok_nil.
  - apply digits_ok_cons in Hx. destruct Hx as [Hx Hr].
    cbn [mul_small_digits].
    set (prod := x * y + c).
    pose proof BASE_pos as HB.
    assert (0 <= prod <= BASE * BASE - 1) as Hp by (unfold prod; nia).
    rewrite (quot_BASE_nonneg prod) by lia.
    assert (0 <= prod / BASE < BASE) as Hq.
    { split; [apply Z.div_pos; lia|]. apply Z.div_lt_upper_bound; lia. }
    assert (0 <= prod - prod / BASE * BASE < BASE) as Hlo.
    { pose proof (Z.div_mod prod BASE ltac:(lia)).
      pose proof (Z.mod_pos_bound prod BASE ltac:(lia)). lia. }
    destruct (IH y (prod / BASE) Hr Hy Hq) as (ds' & c' & E & L & O & C & V).
    exists ((prod - prod / BASE * BASE) :: ds'), c'.
    rewrite E. cbn [app length]. rewrite !eval_cons, Bpow_S.
    repeat split; try lia;
      try (apply digits_ok_cons; split; assumption);
      try (unfold prod in *; nia).
Qed.

Lemma eval_app_carry ds c :
  eval (ds ++ (if c =? 0 then [] else [c])) = eval ds + Bpow (length ds) * c.
Proof.
  rewrite eval_app. destruct (c =? 0) eqn:E.
  - apply Z.eqb_eq in E. subst. cbn [eval]. ring.
  - cbn [eval]. ring.
Qed.

Lemma bigint_mul_small_spec x y :
  digits_ok (digits x) -> 0 <= y < BASE ->
  eval (digits (bigint_mul_small x y)) = eval (digits x) * y
  /\ digits_ok (digits (bigint_mul_small x y))
  /\ is_neg (bigint_mul_small x y) = is_neg x
  /\ (count x <= count (bigint_mul_small x y) <= count x + 1)%nat.
Proof.
  intros Hx Hy. unfold bigint_mul_small, bigint_is_neg_, count.
  replace (y <? 0) with false by (symmetry; apply Z.ltb_ge; lia).
  rewrite andb_false_r. cbn [andb digits is_neg].
  destruct (mul_small_digits_spec (digits x) y 0 Hx Hy ltac:(pose proof BASE_pos; lia))
    as (ds' & c' & E & L & O & C & V).
  rewrite E, eval_app_carry, L, length_app.
  repeat split; try lia.
  - apply digits_ok_app. split; [exact O|].
    destruct (c' =? 0); [apply digits_ok_nil|].
    apply digits_ok_cons. split; [exact C | apply digits_ok_nil].
  - destruct (c' =? 0); cbn [length]; lia.
Qed.

Lemma div_mod_small_digits_spec xs y :
  digits_ok xs -> 1 <= y ->
  eval xs = eval (fst (div_mod_small_digits xs y)) * y
            + snd (div_mod_small_digits xs y)
  /\ 0 <= snd (div_mod_small_digits xs y) < y
  /\ digits_ok (fst (div_mod_small_digits xs y))
  /\ length (fst (div_mod_small_digits xs y)) = length xs.
Proof.
  intros Hx Hy. induction xs as [|d r IH].
  - cbn. repeat split; try lia. apply digits_ok_nil.
  - apply digits_ok_cons in Hx. destruct Hx as [Hd Hr].
    specialize (IH Hr). cbn [div_mod_small_digits].
    destruct (div_mod_small_digits r y) as [q m]. cbn [fst snd] in *.
    destruct IH as (E & M & O & L).
    pose proof BASE_pos as HB.
    set (dv := m * BASE + d).
    assert (0 <= dv < y * BASE) as Hdv by (unfold dv; nia).
    rewrite Z.quot_div_nonneg by lia.
    assert (0 <= dv / y < BASE) as Hq.
    { split; [apply Z.div_pos; lia|]. apply Z.div_lt_upper_bound; lia. }
    pose proof (Z.div_mod dv y ltac:(lia)) as DM.
    pose proof (Z.mod_pos_bound dv y ltac:(lia)) as MB.
    rewrite !eval_cons. cbn [length]. repeat split; try lia;
      try (apply digits_ok_cons; split; assumption);
      try (rewrite E; unfold dv in *; nia).
Qed.

Lemma bigint_div_mod_small_spec x y :
  digits_ok (digits x) -> 1 <= y ->
  eval (digits x) = eval (digits (fst (bigint_div_mod_small x y))) * y
                    + snd (bigint_div_mod_small x y)
  /\ 0 <= snd (bigint_div_mod_small x y) < y
  /\ bigint_ok (fst (bigint_div_mod_small x y))
  /\ is_neg (fst (bigint_div_mod_small x y)) = is_neg x.
Proof.
  intros Hx Hy. unfold bigint_div_mod_small.
  pose proof (div_mod_small_digits_spec (digits x) y Hx Hy) as (E & M & O & L).
  destruct (div_mod_small_digits (digits x) y) as [q m]. cbn [fst snd] in *.
  rewrite bigint_trim_eval. cbn [digits].
  repeat split; try lia; try assumption.
  - apply bigint_trim_digits_ok. exact O.
  - apply bigint_trim_trimmed.
Qed.

(** ** Long division: one quotient digit *)

Lemma digit_at_middle pre r rest : digit_at (pre ++ r :: rest) (length pre) = r.
Proof.
  rewrite digit_at_app_r by lia. rewrite Nat.sub_diag. reflexivity.
Qed.

Lemma set_digit_middle pre r rest v :
  set_digit (pre ++ r :: rest) (length pre) v = pre ++ v :: rest.
Proof.
  induction pre as [|p pre IH]; [reflexivity|].
  cbn [app length set_digit]. rewrite IH. reflexivity.
Qed.

Lemma app_cons_assoc {A} (pre : list A) v rest : pre ++ v :: rest = (pre ++ [v]) ++ rest.
Proof. rewrite <- app_assoc. reflexivity. Qed.

Lemma length_app_single {A} (pre : list A) v : length (pre ++ [v]) = S (length pre).
Proof. rewrite length_app. cbn [length]. lia. Qed.

(** The first inner loop turns the window into the window minus
    [qd * ds], modulo a power of the base; the borrow tells which. *)
Lemma div_mul_sub_spec ds : forall win pre hi qd c b,
  length ds = length win -> digits_ok ds -> digits_ok win ->
  0 <= qd < BASE -> 0 <= c < BASE -> -1 <= b <= 0 ->
  exists win' b' c',
    div_mul_sub ds qd (length pre) c b (pre ++ win ++ hi) = (pre ++ win' ++ hi, b')
    /\ length win' = length win /\ digits_ok win'
    /\ -1 <= b' <= 0 /\ 0 <= c' < BASE
    /\ eval win' = eval win + b - (qd * eval ds + c) + (c' - b') * Bpow (length ds)
    /\ (ds <> [] -> last ds 1 = 0 -> c' = 0).
Proof.
  induction ds as [|d dt IH]; intros win pre hi qd c b Hl Hds Hwin Hqd Hc Hb.
  - destruct win; [|simpl in Hl; lia].
    exists [], b, c. cbn [div_mul_sub length eval]. rewrite Bpow_0.
    repeat split; try lia; try apply digits_ok_nil. congruence.
  - destruct win as [|r wt]; [simpl in Hl; lia|].
    apply digits_ok_cons in Hds. destruct Hds as [Hd Hdt].
    apply digits_ok_cons in Hwin. destruct Hwin as [Hr Hwt].
    cbn [length] in Hl. cbn [div_mul_sub].
    cbn [app]. rewrite digit_at_middle.
    pose proof BASE_pos as HB.
    set (carry := c + qd * d).
    assert (0 <= carry <= BASE * BASE - 1) as Hcarry by (unfold carry; nia).
    rewrite (quot_BASE_nonneg carry) by lia.
    assert (0 <= carry / BASE < BASE) as Hq.
    { split; [apply Z.div_pos; lia|]. apply Z.div_lt_upper_bound; lia. }
    assert (0 <= carry - carry / BASE * BASE < BASE) as Hlo.
    { pose proof (Z.div_mod carry BASE ltac:(lia)).
      pose proof (Z.mod_pos_bound carry BASE ltac:(lia)). lia. }
    set (q := carry / BASE) in *.
    set (borrow := b + (r - (carry - q * BASE))).
    assert (forall v bn, v = borrow - bn * BASE -> -1 <= bn <= 0 -> 0 <= v < BASE ->
              exists win' b' c',
                div_mul_sub dt qd (S (length pre)) q bn
                  (set_digit (pre ++ r :: wt ++ hi) (length pre) v)
                = (pre ++ win' ++ hi, b')
                /\ length win' = length (r :: wt) /\ digits_ok win'
                /\ -1 <= b' <= 0 /\ 0 <= c' < BASE
                /\ eval win' = eval (r :: wt) + b - (qd * eval (d :: dt) + c)
                               + (c' - b') * Bpow (length (d :: dt))
                /\ (d :: dt <> [] -> last (d :: dt) 1 = 0 -> c' = 0)) as Step.
    { intros v bn Ev Hbn Hv. rewrite set_digit_middle.
      rewrite app_cons_assoc. rewrite <- (length_app_single pre v).
      destruct (IH wt (pre ++ [v]) hi qd q bn ltac:(lia) Hdt Hwt Hqd Hq Hbn)
        as (wt' & b' & c' & E & L & O & B' & C' & V & Last).
      exists (v :: wt'), b', c'. rewrite E. rewrite <- app_assoc. cbn [app length].
      repeat split; try lia.
      - apply digits_ok_cons. split; assumption.
      - rewrite !eval_cons, V, Bpow_S. unfold borrow, carry, q in *. nia.
      - intros _ HL. destruct dt as [|d' dt'].
        + cbn [last] in HL. subst d.
          destruct wt; [|simpl in Hl; lia].
          cbn [div_mul_sub] in E.
          assert (wt' = [] /\ b' = bn) as [-> ->].
          { injection E as E1 E2. split; [|congruence].
            apply app_inv_head in E1. destruct wt'; [reflexivity|].
            simpl in L. lia. }
          cbn [eval length] in V. rewrite Bpow_0 in V.
          assert (c' = q) by lia. subst c'.
          unfold q, carry. rewrite Z.mul_0_r, Z.add_0_r.
          apply Z.div_small. lia.
        + apply Last; [congruence|]. exact HL. }
    destruct (borrow <? 0) eqn:E.
    + apply Z.ltb_lt in E.
      apply (Step (borrow + BASE) (-1)); unfold borrow in *; lia.
    + apply Z.ltb_ge in E.
      apply (Step borrow 0); unfold borrow in *; lia.
Qed.

Lemma div_add_back_spec ds : forall win pre hi cin,
  length ds = length win -> digits_ok ds -> digits_ok win -> 0 <= cin <= 1 ->
  exists win' cout,
    div_add_back ds (length pre) cin (pre ++ win ++ hi) = (pre ++ win' ++ hi, cout)
    /\ length win' = length win /\ digits_ok win' /\ 0 <= cout <= 1
    /\ eval win' + cout * Bpow (length ds) = eval win + eval ds + cin.
Proof.
  induction ds as [|d dt IH]; intros win pre hi cin Hl Hds Hwin Hc.
  - destruct win; [|simpl in Hl; lia].
    exists [], cin. cbn [div_add_back length eval]. rewrite Bpow_0.
    repeat split; try lia. apply digits_ok_nil.
  - destruct win as [|r wt]; [simpl in Hl; lia|].
    apply digits_ok_cons in Hds. destruct Hds as [Hd Hdt].
    apply digits_ok_cons in Hwin. destruct Hwin as [Hr Hwt].
    cbn [length] in Hl. cbn [div_add_back].
    cbn [app]. rewrite digit_at_middle.
    pose proof BASE_pos as HB.
    set (carry := cin + (r - BASE + d)).
    assert (forall v cn, v = carry + BASE - cn * BASE -> 0 <= cn <= 1 -> 0 <= v < BASE ->
              exists win' cout,
                div_add_back dt (S (length pre)) cn
                  (set_digit (pre ++ r :: wt ++ hi) (length pre) v)
                = (pre ++ win' ++ hi, cout)
                /\ length win' = length (r :: wt) /\ digits_ok win'
                /\ 0 <= cout <= 1
                /\ eval win' + cout * Bpow (length (d :: dt))
                   = eval (r :: wt) + eval (d :: dt) + cin) as Step.
    { intros v cn Ev Hcn Hv. rewrite set_digit_middle.
      rewrite app_cons_assoc. rewrite <- (length_app_single pre v).
      destruct (IH wt (pre ++ [v]) hi cn ltac:(lia) Hdt Hwt Hcn)
        as (wt' & cout & E & L & O & C & V).
      exists (v :: wt'), cout. rewrite E. rewrite <- app_assoc. cbn [app length].
      repeat split; try lia.
      - apply digits_ok_cons. split; assumption.
      - rewrite !eval_cons, Bpow_S. unfold carry in *. nia. }
    destruct (carry <? 0) eqn:E.
    + apply Z.ltb_lt in E. apply (Step (carry + BASE) 0); unfold carry in *; lia.
    + apply Z.ltb_ge in E. apply (Step carry 1); unfold carry in *; lia.
Qed.

(** The correction loop: [T] is the window minus [qd] times the divisor as
    an integer, the window holds it modulo a power of the base.  Each
    round adds the divisor once; the loop ends as soon as the value is no
    longer negative. *)
Lemma div_correct_spec fuel : forall ds win pre hi qd b T,
  length ds = length win -> digits_ok ds -> digits_ok win -> -1 <= b <= 0 ->
  eval win = T - b * Bpow (length ds) ->
  0 < eval ds ->
  - Z.of_nat fuel * eval ds <= T ->
  exists k win',
    0 <= k <= Z.of_nat fuel
    /\ div_correct fuel ds (length pre) qd b (pre ++ win ++ hi)
       = Some (qd - k, pre ++ win' ++ hi)
    /\ length win' = length win /\ digits_ok win'
    /\ eval win' = T + k * eval ds
    /\ (k = 0 \/ T + k * eval ds < eval ds).
Proof.
  induction fuel as [|fuel IH]; intros ds win pre hi qd b T Hl Hds Hwin Hb Ev Hv Hf.
  - pose proof (eval_bound win Hwin) as [W0 W1]. rewrite <- Hl in W1.
    assert (b = 0) as -> by (cbn in Hf; nia).
    exists 0, win. cbn [div_correct Z.eqb]. rewrite Z.sub_0_r.
    repeat split; try lia; try assumption.
  - pose proof (eval_bound win Hwin) as [W0 W1]. rewrite <- Hl in W1.
    destruct (Z.eq_dec b 0) as [->|Nb].
    + exists 0, win. cbn [div_correct Z.eqb]. rewrite Z.sub_0_r.
      repeat split; try lia; try assumption.
    + assert (b = -1) as -> by lia.
      cbn [div_correct]. cbn [Z.eqb].
      destruct (div_add_back_spec ds win pre hi 0 Hl Hds Hwin ltac:(lia))
        as (win1 & cout & E & L1 & O1 & C1 & V1).
      rewrite E.
      destruct (IH ds win1 pre hi (qd - 1) (-1 + cout) (T + eval ds)
                  ltac:(lia) Hds O1 ltac:(lia) ltac:(nia) Hv ltac:(nia))
        as (k & win' & K & E' & L' & O' & V' & M').
      exists (k + 1), win'. rewrite E'.
      replace (qd - 1 - k) with (qd - (k + 1)) by ring.
      repeat split; try lia; try assumption;
        try (right; destruct M' as [->|M']; nia).
Qed.

(** ** Long division: the trial digit *)

(** Bounds of the trial digit.  [v] is the divisor, of top digit [vt] at
    least half the base, [W] the window, of top digits [w2] and [w1], below
    [v * BASE].  The trial digit [qd] is not below the quotient of [W] by
    [v], and not more than two above it. *)
Lemma trial_digit_upper Bn1 vl vt wl w1 w2 :
  0 < Bn1 -> 0 <= vl < Bn1 -> 0 <= wl < Bn1 ->
  0 <= w1 < BASE -> 0 <= w2 < BASE -> BASE <= 2 * vt -> vt < BASE ->
  wl + Bn1 * (w1 + BASE * w2) < (vl + Bn1 * vt) * BASE ->
  let qd := if negb (w2 =? vt) then Z.quot (w2 * BASE + w1) vt else BASE - 1 in
  0 <= qd < BASE
  /\ wl + Bn1 * (w1 + BASE * w2) < (qd + 1) * (vl + Bn1 * vt)
  /\ (qd - 2) * (vl + Bn1 * vt) <= wl + Bn1 * (w1 + BASE * w2).
Proof.
  intros HBn Hvl Hwl Hw1 Hw2 Hvt Hvt' HW qd.
  pose proof BASE_pos as HB. pose proof BASE_eq as HBe.
  assert (w2 <= vt) as Hle.
  { destruct (Z_le_gt_dec w2 vt) as [|G]; [assumption|]. exfalso.
    assert (Bn1 * (BASE * (vt + 1)) <= Bn1 * (w1 + BASE * w2)) by
      (apply Z.mul_le_mono_nonneg_l; nia).
    nia. }
  assert (vl + Bn1 * vt <= Bn1 * (vt + 1)) as Hv1 by nia.
  unfold qd. destruct (w2 =? vt) eqn:E; cbn [negb].
  - apply Z.eqb_eq in E. subst w2.
    split; [lia|]. split; [lia|].
    assert ((BASE - 3) * (vt + 1) <= BASE * vt) as H1 by nia.
    assert ((BASE - 1 - 2) * (vl + Bn1 * vt) <= (BASE - 3) * (Bn1 * (vt + 1))) as H2
      by (apply Z.mul_le_mono_nonneg; nia).
    assert (Bn1 * ((BASE - 3) * (vt + 1)) <= Bn1 * (BASE * vt)) as H3
      by (apply Z.mul_le_mono_nonneg_l; lia).
    nia.
  - apply Z.eqb_neq in E. assert (w2 < vt) as Hlt by lia.
    set (n := w2 * BASE + w1).
    assert (0 <= n <= vt * BASE - 1) as Hn by (unfold n; nia).
    rewrite Z.quot_div_nonneg by lia.
    pose proof (Z.div_mod n vt ltac:(lia)) as DM.
    pose proof (Z.mod_pos_bound n vt ltac:(lia)) as MB.
    set (q := n / vt) in *.
    assert (0 <= q) as Hq0 by (apply Z.div_pos; lia).
    assert (q < BASE) as HqB by (apply Z.div_lt_upper_bound; lia).
    split; [lia|].
    assert (n + 1 <= (q + 1) * vt) as HA by nia.
    assert (q * vt <= n) as HBq by nia.
    replace (w1 + BASE * w2) with n by (unfold n; ring).
    split.
    + assert (Bn1 * (n + 1) <= Bn1 * ((q + 1) * vt)) as H1
        by (apply Z.mul_le_mono_nonneg_l; lia).
      assert (0 <= (q + 1) * vl) by nia.
      nia.
    + destruct (Z_le_gt_dec q 2) as [L|G].
      * assert ((q - 2) * (vl + Bn1 * vt) <= 0) by nia. nia.
      * assert ((q - 2) * (vl + Bn1 * vt) <= (q - 2) * (Bn1 * (vt + 1))) as H1
          by (apply Z.mul_le_mono_nonneg_l; lia).
        assert ((q - 2) * (vt + 1) <= n) as H2 by nia.
        assert (Bn1 * ((q - 2) * (vt + 1)) <= Bn1 * n) as H3
          by (apply Z.mul_le_mono_nonneg_l; lia).
        nia.
Qed.

(** ** Long division: the main loop *)

Lemma list_last_exists {A} (l : list A) :
  l <> [] -> exists l' x, l = l' ++ [x].
Proof.
  intros H. destruct (exists_last H) as (l' & x & E). exists l', x. exact E.
Qed.

(** A sequence of [n+1] digits worth less than [BASE^n] ends in [0]. *)
Lemma top_digit_zero win n :
  digits_ok win -> length win = S n -> eval win < Bpow n ->
  exists mid, win = mid ++ [0] /\ length mid = n /\ digits_ok mid.
Proof.
  intros Hok Hl He.
  destruct (list_last_exists win) as (mid & t & E).
  { destruct win; [simpl in Hl; lia | congruence]. }
  subst win. rewrite length_app_single in Hl.
  apply digits_ok_app in Hok. destruct Hok as [Hm Ht].
  apply digits_ok_cons in Ht. destruct Ht as [Ht _].
  rewrite eval_app in He. cbn [eval] in He.
  assert (length mid = n) as Ln by lia. rewrite Ln in He.
  pose proof (eval_nonneg mid Hm). pose proof (Bpow_pos n).
  assert (t = 0) as -> by nia.
  exists mid. auto.
Qed.

Lemma div_step_spec dv lo l mid zeros z :
  (1 <= length dv)%nat -> length mid = length dv ->
  digits_ok dv -> digits_ok mid -> 0 <= l < BASE ->
  BASE <= 2 * last dv 0 -> eval mid < eval dv ->
  exists q mid',
    div_step correction_rounds (dv ++ [0]) (length dv) (last dv 0) (length lo)
             (lo ++ (l :: mid) ++ zeros) z
    = Some (lo ++ (mid' ++ [0]) ++ zeros, set_digit z (length lo) q)
    /\ 0 <= q < BASE /\ length mid' = length dv /\ digits_ok mid'
    /\ eval mid' < eval dv
    /\ l + BASE * eval mid = q * eval dv + eval mid'.
Proof.
  intros Hn Hlm Hdv Hmid Hl Hnorm Hlt.
  pose proof BASE_pos as HB.
  (* the divisor and the window, split at their top digits *)
  destruct (list_last_exists dv) as (vlow & vt & Edv).
  { destruct dv; [simpl in Hn; lia | congruence]. }
  destruct (list_last_exists mid) as (mlow & w2 & Emid).
  { destruct mid; [simpl in Hlm; lia | congruence]. }
  assert (length vlow = length mlow) as Lvm.
  { rewrite Edv, Emid, !length_app_single in Hlm. lia. }
  destruct (list_last_exists (l :: mlow)) as (wlow & w1 & Ewl); [congruence|].
  assert (length wlow = length mlow) as Lwm.
  { apply (f_equal (@length Z)) in Ewl. rewrite length_app_single in Ewl.
    cbn [length] in Ewl. lia. }
  assert (l :: mid = wlow ++ [w1; w2]) as Ewin.
  { rewrite Emid. change (l :: mlow ++ [w2]) with ((l :: mlow) ++ [w2]).
    rewrite Ewl, <- app_assoc. reflexivity. }
  assert (digits_ok (l :: mid)) as Hwin by (apply digits_ok_cons; split; assumption).
  assert (digits_ok wlow /\ 0 <= w1 < BASE /\ 0 <= w2 < BASE) as (Hwl & Hw1 & Hw2).
  { rewrite Ewin in Hwin. apply digits_ok_app in Hwin. destruct Hwin as [A B].
    apply digits_ok_cons in B. destruct B as [B C].
    apply digits_ok_cons in C. destruct C as [C _]. auto. }
  assert (digits_ok vlow /\ 0 <= vt < BASE) as (Hvl & Hvt).
  { rewrite Edv in Hdv. apply digits_ok_app in Hdv. destruct Hdv as [A B].
    apply digits_ok_cons in B. destruct B as [B _]. auto. }
  assert (last dv 0 = vt) as Elast by (rewrite Edv; apply last_last).
  rewrite Elast in *.
  assert (eval dv = eval vlow + Bpow (length vlow) * vt) as Ev
    by (rewrite Edv, eval_app; cbn [eval]; ring).
  assert (eval (l :: mid) = eval wlow + Bpow (length vlow) * (w1 + BASE * w2)) as Ew.
  { rewrite Ewin, eval_app, Lvm, <- Lwm. cbn [eval]. ring. }
  pose proof (eval_bound vlow Hvl) as Bvl.
  pose proof (eval_bound wlow Hwl) as Bwl. rewrite Lwm, <- Lvm in Bwl.
  pose proof (Bpow_pos (length vlow)) as Bp.
  assert (0 < eval dv) as Hv by nia.
  assert (eval (l :: mid) < eval dv * BASE) as HW by (rewrite eval_cons; nia).
  (* the trial digit *)
  unfold div_step.
  assert (digit_at (lo ++ (l :: mid) ++ zeros) (length lo + length dv) = w2) as D2.
  { rewrite Ewin. replace (lo ++ (wlow ++ [w1; w2]) ++ zeros)
      with ((lo ++ wlow ++ [w1]) ++ w2 :: zeros)
      by (rewrite <- !app_assoc; reflexivity).
    replace (length lo + length dv)%nat with (length (lo ++ wlow ++ [w1])).
    - apply digit_at_middle.
    - rewrite !length_app, Edv, length_app_single. cbn [length]. lia. }
  assert (digit_at (lo ++ (l :: mid) ++ zeros) (length lo + length dv - 1) = w1) as D1.
  { rewrite Ewin. replace (lo ++ (wlow ++ [w1; w2]) ++ zeros)
      with ((lo ++ wlow) ++ w1 :: w2 :: zeros)
      by (rewrite <- !app_assoc; reflexivity).
    replace (length lo + length dv - 1)%nat with (length (lo ++ wlow)).
    - apply digit_at_middle.
    - rewrite !length_app, Edv, length_app_single. lia. }
  rewrite D2, D1.
  destruct (trial_digit_upper (Bpow (length vlow)) (eval vlow) vt (eval wlow) w1 w2
              Bp Bvl Bwl Hw1 Hw2 Hnorm ltac:(lia) ltac:(rewrite <- Ew, <- Ev; exact HW))
    as (Hqd & HA & HBd).
  rewrite <- Ew, <- Ev in HA, HBd.
  set (qd := if negb (w2 =? vt) then Z.quot (w2 * BASE + w1) vt else BASE - 1) in *.
  (* multiply and subtract *)
  assert (length (dv ++ [0]) = length (l :: mid)) as Lds
    by (rewrite length_app_single; cbn [length]; lia).
  assert (digits_ok (dv ++ [0])) as Hds.
  { apply digits_ok_app. split; [exact Hdv|].
    apply digits_ok_cons. split; [lia | apply digits_ok_nil]. }
  assert (eval (dv ++ [0]) = eval dv) as Eds by (rewrite eval_app; cbn [eval]; ring).
  destruct (div_mul_sub_spec (dv ++ [0]) (l :: mid) lo zeros qd 0 0
              Lds Hds Hwin Hqd ltac:(lia) ltac:(lia))
    as (win1 & b1 & c1 & E1 & L1 & O1 & B1 & C1 & V1 & Z1).
  rewrite E1.
  assert (c1 = 0) as ->.
  { apply Z1; [destruct dv; discriminate | apply last_last]. }
  rewrite Eds in V1.
  (* correct *)
  destruct (div_correct_spec correction_rounds (dv ++ [0]) win1 lo zeros qd b1
              (eval (l :: mid) - qd * eval dv)
              ltac:(lia) Hds O1 B1 ltac:(lia) ltac:(lia)
              ltac:(rewrite Eds; unfold correction_rounds; lia))
    as (k & win2 & K & E2 & L2 & O2 & V2 & M2).
  rewrite E2. rewrite Eds in V2, M2.
  pose proof (eval_nonneg win2 O2) as P2.
  assert (eval win2 < eval dv) as Hr by (destruct M2 as [->|M2]; lia).
  pose proof (eval_bound dv Hdv) as [_ Udv].
  destruct (top_digit_zero win2 (length dv) O2 ltac:(cbn [length] in *; lia) ltac:(lia))
    as (mid' & Ewin2 & Lm' & Om').
  exists (qd - k), mid'. rewrite <- Ewin2.
  split; [reflexivity|].
  assert (eval mid' = eval win2) as Em'
    by (rewrite Ewin2, eval_app; cbn [eval]; ring).
  rewrite Em'. rewrite eval_cons in *.
  repeat split; try lia; try assumption; nia.
Qed.

(** The main loop, entered with [m] digits of the dividend still to bring
    down: [lo] holds them, [mid] is the running remainder, below the
    divisor, and the quotient digits found so far sit above index [m]. *)
Lemma div_loop_spec dv : forall m lo mid k qs,
  (1 <= length dv)%nat -> digits_ok dv -> BASE <= 2 * last dv 0 ->
  length lo = m -> length mid = length dv ->
  digits_ok lo -> digits_ok mid -> eval mid < eval dv ->
  exists ql mid',
    div_loop correction_rounds (dv ++ [0]) (length dv) (last dv 0) m
             (lo ++ mid ++ repeat 0 k) (repeat 0 m ++ qs)
    = Some (mid' ++ repeat 0 (m + k), ql ++ qs)
    /\ length ql = m /\ digits_ok ql
    /\ length mid' = length dv /\ digits_ok mid' /\ eval mid' < eval dv
    /\ eval (lo ++ mid) = eval dv * eval ql + eval mid'.
Proof.
  induction m as [|m IH]; intros lo mid k qs Hn Hdv Hnorm Hlo Hlm Olo Omid Hlt.
  - destruct lo; [|simpl in Hlo; lia].
    exists [], mid. cbn [div_loop app repeat Nat.add length eval].
    repeat split; try lia; try assumption; try apply digits_ok_nil.
  - destruct (list_last_exists lo) as (lo' & l & Elo).
    { destruct lo; [simpl in Hlo; lia | congruence]. }
    subst lo. rewrite length_app_single in Hlo.
    apply digits_ok_app in Olo. destruct Olo as [Olo' Ol].
    apply digits_ok_cons in Ol. destruct Ol as [Ol _].
    assert (length lo' = m) as Lm by lia.
    cbn [div_loop].
    replace ((lo' ++ [l]) ++ mid ++ repeat 0 k)
      with (lo' ++ (l :: mid) ++ repeat 0 k)
      by (rewrite <- !app_assoc; reflexivity).
    destruct (div_step_spec dv lo' l mid (repeat 0 k) (repeat 0 (S m) ++ qs)
                Hn Hlm Hdv Omid Ol Hnorm Hlt)
      as (q & mid1 & E & Hq & L1 & O1 & Lt1 & V1).
    assert (set_digit (repeat 0 (S m) ++ qs) (length lo') q = repeat 0 m ++ q :: qs) as Ez.
    { replace (repeat 0 (S m) ++ qs) with (repeat 0 m ++ 0 :: qs).
      - rewrite Lm. rewrite <- (repeat_length 0 m) at 2. apply set_digit_middle.
      - replace (S m) with (m + 1)%nat by lia.
        rewrite repeat_app, <- app_assoc. reflexivity. }
    rewrite Ez in E. rewrite Lm in E. rewrite E.
    replace (lo' ++ (mid1 ++ [0]) ++ repeat 0 k)
      with (lo' ++ mid1 ++ repeat 0 (S k))
      by (cbn [repeat]; rewrite <- !app_assoc; reflexivity).
    destruct (IH lo' mid1 (S k) (q :: qs) Hn Hdv Hnorm Lm L1 Olo' O1 Lt1)
      as (ql & mid' & E' & Lq & Oq & Lm' & Om' & Lt' & V').
    rewrite E'. exists (ql ++ [q]), mid'.
    replace (m + S k)%nat with (S m + k)%nat by lia.
    rewrite <- app_assoc. cbn [app].
    split; [reflexivity|].
    rewrite length_app_single.
    repeat split; try lia; try assumption.
    + apply digits_ok_app. split; [exact Oq|].
      apply digits_ok_cons. split; [exact Hq | apply digits_ok_nil].
    + rewrite <- app_assoc. cbn [app].
      rewrite !eval_app in *. rewrite eval_cons. rewrite Lq, Lm. cbn [eval].
      rewrite Lm in V'. rewrite V1.
      replace (eval lo' + Bpow m * (q * eval dv + eval mid1))
        with (eval lo' + Bpow m * eval mid1 + Bpow m * q * eval dv) by ring.
      rewrite V'. ring.
Qed.

(** ** Long division: normalisation and the whole of [bigint_div_mod] *)

(** The factor [lambda] brings the top digit of the divisor into the upper
    half of the base without making the divisor any longer. *)
Lemma lambda_bounds dH :
  1 <= dH < BASE ->
  let lambda := Z.quot (BASE + 2 * dH - 1) (2 * dH) in
  1 <= lambda < BASE /\ BASE <= 2 * dH * lambda /\ (dH + 1) * lambda <= BASE.
Proof.
  intros HdH lambda. pose proof BASE_eq as HB.
  unfold lambda. rewrite Z.quot_div_nonneg by lia.
  pose proof (Z.div_mod (BASE + 2 * dH - 1) (2 * dH) ltac:(lia)) as DM.
  pose proof (Z.mod_pos_bound (BASE + 2 * dH - 1) (2 * dH) ltac:(lia)) as MB.
  set (lam := (BASE + 2 * dH - 1) / (2 * dH)) in *.
  assert (1 <= lam) as H1 by nia.
  assert (lam < BASE) as H2 by nia.
  assert (BASE <= 2 * dH * lam) as H3 by nia.
  repeat split; try assumption.
  destruct (Z.eq_dec lam 1) as [->|N]; [lia|].
  assert (2 * (dH * lam - dH) <= BASE - 1) as H4 by nia.
  assert (0 <= dH * lam - 2 * dH - lam + 2) as H5 by nia.
  nia.
Qed.

Lemma last_nonempty_default (ds : list Z) d d' : ds <> [] -> last ds d = last ds d'.
Proof.
  induction ds as [|x r IH]; [congruence|]. intros _.
  destruct r as [|y r]; [reflexivity|].
  rewrite !last_cons_cons. apply IH. congruence.
Qed.

Lemma bigint_mul_small_digits x y :
  0 <= y -> digits (bigint_mul_small x y) = mul_small_digits (digits x) y 0.
Proof.
  intros Hy. unfold bigint_mul_small, bigint_is_neg_.
  replace (y <? 0) with false by (symmetry; apply Z.ltb_ge; lia).
  rewrite andb_false_r. reflexivity.
Qed.

(** The normalised divisor keeps its length, and its top digit is at least
    half the base. *)
Lemma normalised_divisor ys :
  digits_ok ys -> ys <> [] -> last ys 0 <> 0 ->
  let lambda := Z.quot (BASE + 2 * last ys 0 - 1) (2 * last ys 0) in
  exists dv,
    mul_small_digits ys lambda 0 = dv
    /\ length dv = length ys /\ digits_ok dv
    /\ eval dv = eval ys * lambda /\ BASE <= 2 * last dv 0.
Proof.
  intros Hok Hne Hlast lambda.
  destruct (list_last_exists ys Hne) as (ylow & dH & Ey).
  assert (last ys 0 = dH) as El by (rewrite Ey; apply last_last).
  unfold lambda. rewrite El in *. clear lambda.
  assert (digits_ok ylow /\ 0 <= dH < BASE) as (Hyl & HdH).
  { rewrite Ey in Hok. apply digits_ok_app in Hok. destruct Hok as [A B].
    apply digits_ok_cons in B. tauto. }
  destruct (lambda_bounds dH ltac:(lia)) as (L1 & L2 & L3).
  set (lambda := Z.quot (BASE + 2 * dH - 1) (2 * dH)) in *.
  pose proof BASE_pos as HB.
  destruct (mul_small_digits_spec ys lambda 0 Hok ltac:(lia) ltac:(lia))
    as (dv & c' & E & L & O & C & V).
  assert (eval ys = eval ylow + Bpow (length ylow) * dH) as Ev
    by (rewrite Ey, eval_app; cbn [eval]; ring).
  pose proof (eval_bound ylow Hyl) as Byl.
  pose proof (Bpow_pos (length ylow)) as Bp.
  assert (length ys = S (length ylow)) as Ly by (rewrite Ey; apply length_app_single).
  pose proof (eval_bound dv O) as Bdv. rewrite L, Ly, Bpow_S in Bdv.
  rewrite Ly, Bpow_S in V.
  assert (eval ys * lambda < BASE * Bpow (length ylow)) as Hlt.
  { assert (eval ys * lambda <= (Bpow (length ylow) * (dH + 1) - 1) * lambda)
      by (apply Z.mul_le_mono_nonneg_r; nia).
    assert (Bpow (length ylow) * ((dH + 1) * lambda) <= Bpow (length ylow) * BASE)
      by (apply Z.mul_le_mono_nonneg_l; lia).
    nia. }
  assert (c' = 0) as -> by nia.
  exists dv. cbn [Z.eqb] in E. rewrite app_nil_r in E.
  split; [exact E|]. split; [lia|]. split; [exact O|]. split; [lia|].
  (* the top digit *)
  destruct (list_last_exists dv) as (dvlow & vt & Edv).
  { destruct dv; [simpl in L; lia | congruence]. }
  rewrite Edv, last_last.
  assert (length dvlow = length ylow) as Ldl
    by (rewrite Edv, length_app_single in L; lia).
  assert (digits_ok dvlow) as Odl
    by (rewrite Edv in O; apply digits_ok_app in O; tauto).
  pose proof (eval_bound dvlow Odl) as Bdl. rewrite Ldl in Bdl.
  assert (eval dv = eval dvlow + Bpow (length ylow) * vt) as Edv'
    by (rewrite Edv, eval_app, Ldl; cbn [eval]; ring).
  assert (Bpow (length ylow) * (dH * lambda) <= eval dv) as Hge by nia.
  assert (dH * lambda < vt + 1) as Hvt by nia.
  nia.
Qed.

Lemma bigint_div_mod_spec x y :
  digits_ok (digits x) -> bigint_ok y -> digits y <> [] ->
  (count y <= count x)%nat ->
  exists q r,
    bigint_div_mod x y = Some (q, r)
    /\ bigint_ok q /\ bigint_ok r
    /\ is_neg q = negb (Bool.eqb (is_neg x) (is_neg y))
    /\ is_neg r = is_neg x
    /\ eval (digits x) = eval (digits q) * eval (digits y) + eval (digits r)
    /\ 0 <= eval (digits r) < eval (digits y).
Proof.
  intros Hx [Hy Ty] Ny Hc. unfold count in Hc.
  pose proof BASE_pos as HB.
  assert (1 <= length (digits y))%nat as Ly1
    by (destruct (digits y); [congruence | simpl; lia]).
  assert (last (digits y) 0 <> 0) as Hlast.
  { rewrite (last_nonempty_default _ 0 1 Ny). exact Ty. }
  assert (1 <= last (digits y) 0 < BASE) as HdH.
  { destruct (list_last_exists _ Ny) as (yl & dH & Ey).
    rewrite Ey in Hy, Hlast |- *. rewrite last_last in *.
    apply digits_ok_app in Hy. destruct Hy as [_ B].
    apply digits_ok_cons in B. lia. }
  destruct (lambda_bounds _ HdH) as (L1 & L2 & L3).
  destruct (normalised_divisor (digits y) Hy Ny Hlast)
    as (dv & Edv & Ldv & Odv & Vdv & Ndv).
  unfold bigint_div_mod, bigint_last_digit_, bigint_is_neg_, bigint_push,
    bigint_alloc_zero, count.
  set (lambda := Z.quot (BASE + 2 * last (digits y) 0 - 1) (2 * last (digits y) 0)) in *.
  rewrite (bigint_mul_small_digits y lambda) by lia. rewrite Edv.
  cbn [digits is_neg].
  (* the normalised dividend, one digit longer than [x] *)
  destruct (bigint_mul_small_spec x lambda Hx ltac:(lia)) as (Vr & Or & Nr & Lr).
  unfold count in Lr.
  set (rem0 := bigint_mul_small x lambda) in *.
  set (R := digits (if (length (digits rem0) <=? length (digits x))%nat
                    then mk_bigint (is_neg rem0) (digits rem0 ++ [0]) else rem0)).
  assert (length R = S (length (digits x)) /\ digits_ok R
          /\ eval R = eval (digits x) * lambda) as (LR & OR & VR).
  { unfold R. destruct (length (digits rem0) <=? length (digits x))%nat eqn:E.
    - apply Nat.leb_le in E. cbn [digits]. rewrite length_app_single, eval_app.
      cbn [eval]. repeat split; try lia.
      apply digits_ok_app. split; [exact Or|].
      apply digits_ok_cons. split; [lia | apply digits_ok_nil].
    - apply Nat.leb_gt in E. repeat split; try lia; assumption. }
  assert (is_neg (if (length (digits rem0) <=? length (digits x))%nat
                  then mk_bigint (is_neg rem0) (digits rem0 ++ [0]) else rem0)
          = is_neg x) as NR.
  { destruct (length (digits rem0) <=? length (digits x))%nat; exact Nr. }
  rewrite NR.
  set (m := (length (digits x) - length (digits y) + 1)%nat).
  assert (R = firstn m R ++ skipn m R ++ repeat 0 0) as ER.
  { cbn [repeat]. rewrite app_nil_r. symmetry. apply firstn_skipn. }
  assert (length (firstn m R) = m) as Llo by (apply firstn_length_le'; lia).
  assert (length (skipn m R) = length dv) as Lmid by (rewrite length_skipn; lia).
  assert (eval (skipn m R) < eval dv) as Hlt.
  { pose proof (eval_firstn_skipn m R) as Sp.
    pose proof (eval_nonneg _ (digits_ok_firstn m R OR)) as P.
    pose proof (eval_bound _ Hx) as [_ Ux].
    pose proof (eval_trimmed_lower _ Hy Ty Ny) as Ly.
    pose proof (Bpow_pos m) as Pm.
    pose proof (Bpow_pos (length (digits y) - 1)) as Py.
    assert (Bpow (length (digits x)) = Bpow m * Bpow (length (digits y) - 1)) as EB.
    { rewrite <- Bpow_add. f_equal. unfold m. lia. }
    assert (Bpow m * eval (skipn m R) < Bpow m * (lambda * Bpow (length (digits y) - 1)))
      by nia.
    assert (eval (skipn m R) < lambda * Bpow (length (digits y) - 1))
      by (apply (Z.mul_lt_mono_pos_l (Bpow m)); assumption).
    nia. }
  destruct (div_loop_spec dv m (firstn m R) (skipn m R) 0 []
              ltac:(lia) Odv Ndv Llo Lmid
              (digits_ok_firstn m R OR) (digits_ok_skipn m R OR) Hlt)
    as (ql & mid' & E & Lq & Oq & Lm' & Om' & Lt' & V).
  rewrite <- ER in E. rewrite !app_nil_r in E. rewrite Ldv in E.
  rewrite E.
  (* denormalise *)
  set (rr := mk_bigint (is_neg x) (mid' ++ repeat 0 (m + 0))).
  assert (digits_ok (digits rr)) as Orr.
  { unfold rr. cbn [digits]. apply digits_ok_app.
    split; [exact Om' | apply digits_ok_repeat_0]. }
  destruct (bigint_div_mod_small_spec rr lambda Orr ltac:(lia)) as (Vp & Mp & Op & Np).
  assert (eval (digits rr) = eval mid') as Err.
  { unfold rr. cbn [digits]. rewrite eval_app, eval_repeat_0. ring. }
  rewrite Err in Vp.
  exists (bigint_trim (mk_bigint (negb (Bool.eqb (is_neg x) (is_neg y))) ql)),
         (fst (bigint_div_mod_small rr lambda)).
  split; [reflexivity|].
  split; [apply bigint_trim_ok; exact Oq|].
  split; [exact Op|].
  split; [reflexivity|].
  split; [exact Np|].
  rewrite bigint_trim_eval. cbn [digits].
  rewrite <- (firstn_skipn m R) in VR. rewrite V, Vdv in VR.
  set (s := snd (bigint_div_mod_small rr lambda)) in *.
  set (pm := eval (digits (fst (bigint_div_mod_small rr lambda)))) in *.
  pose proof (eval_nonneg _ (proj1 Op)) as Ppm. fold pm in Ppm.
  rewrite Vdv in Lt'.
  assert (s = 0) as Hs.
  { assert (s = lambda * (eval (digits x) - eval (digits y) * eval ql - pm)) as Hm by nia.
    destruct (Z.eq_dec (eval (digits x) - eval (digits y) * eval ql - pm) 0) as [Z0|NZ];
      [rewrite Z0 in Hm; lia | nia]. }
  rewrite Hs in *.
  assert (eval (digits x) = eval ql * eval (digits y) + pm) as Hfin by nia.
  split; [exact Hfin|]. nia.
Qed.

(** ** Signed values *)

Lemma bigint_value_flag neg ds :
  bigint_value (mk_bigint neg ds) = if neg then - eval ds else eval ds.
Proof.
  unfold bigint_value, bigint_sign_, bigint_is_neg_. cbn [is_neg digits].
  destruct neg; lia.
Qed.

Lemma bigint_value_flag' b :
  bigint_value b = if is_neg b then - eval (digits b) else eval (digits b).
Proof. destruct b as [neg ds]. apply bigint_value_flag. Qed.


(** ** Addition and multiplication of integers *)

Lemma bigint_ok_wf b : bigint_ok b -> bigint_wf b.
Proof. intros [O T]. split; [exact O | left; exact T]. Qed.

Lemma bigint_from_int_wf i : bigint_wf (bigint_from_int i).
Proof.
  destruct (bigint_from_int_spec i) as (_ & O & _ & T & Z0).
  split; [exact O|].
  destruct (Z.eq_dec i 0) as [E|N]; [right; apply Z0; exact E | left; apply T; exact N].
Qed.

Lemma bigint_wf_flag neg b : bigint_wf b -> bigint_wf (mk_bigint neg (digits b)).
Proof. intros W. exact W. Qed.

Lemma trimmed_eval_zero ds : digits_ok ds -> trimmed ds -> eval ds = 0 -> ds = [].
Proof.
  intros O T E. destruct ds as [|d r]; [reflexivity|].
  pose proof (eval_trimmed_pos (d :: r) O T ltac:(discriminate)). lia.
Qed.

(** The test of [bigint_sub_same] sends each pair of operands to the
    subtraction it can do, also when a zero is written [[0]]. *)
Lemma bigint_compare_abs_order x y :
  bigint_wf x -> bigint_wf y ->
  if bigint_compare_abs_ x y >=? 0
  then eval (digits y) <= eval (digits x) /\ (count y <= count x)%nat
  else eval (digits x) <= eval (digits y) /\ (count x <= count y)%nat.
Proof.
  intros [Ox Tx] [Oy Ty].
  pose proof (eval_nonneg _ Ox) as Px. pose proof (eval_nonneg _ Oy) as Py.
  destruct Ty as [Ty|Ey].
  - destruct Tx as [Tx|Ex].
    + rewrite (bigint_compare_abs_spec x y Ox (or_introl Tx) Oy Ty (fun _ => Tx)).
      destruct (Z.sgn (eval (digits x) - eval (digits y)) >=? 0) eqn:G.
      * apply Z.geb_le in G. apply Z.sgn_nonneg in G.
        split; [lia|]. unfold count. apply eval_trimmed_length; auto. lia.
      * assert (eval (digits x) - eval (digits y) < 0) as L.
        { destruct (Z_lt_ge_dec (eval (digits x) - eval (digits y)) 0) as [L|L];
            [exact L|]. apply Z.ge_le in L. apply Z.sgn_nonneg in L.
          apply Z.geb_le in L. congruence. }
        split; [lia|]. unfold count. apply eval_trimmed_length; auto. lia.
    + assert (digits y = [] \/ digits y <> []) as [Dy|Dy]
        by (destruct (digits y); [left; reflexivity | right; discriminate]).
      * unfold bigint_compare_abs_, count. rewrite Ex, Dy. cbn. lia.
      * pose proof (eval_trimmed_pos _ Oy Ty Dy) as Pos.
        rewrite (bigint_compare_abs_spec x y Ox (or_intror Ex) Oy Ty)
          by (intros C; contradiction).
        assert (1 <= count y)%nat as Cy
          by (unfold count; destruct (digits y); [congruence | cbn [length]; lia]).
        unfold count in *. rewrite Ex in *. cbn [eval length] in *.
        rewrite Z.sgn_neg by lia. cbn. lia.
  - unfold bigint_compare_abs_, count. rewrite Ey in *. cbn [eval length] in *.
    destruct Tx as [Tx|Ex].
    + destruct (digits x) as [|d [|d' r]] eqn:Dx.
      * cbn. lia.
      * cbn [length Nat.ltb Nat.leb compare_digits digit_at nth].
        apply digits_ok_cons in Ox. destruct Ox as [Hd _].
        unfold trimmed in Tx. cbn [last] in Tx.
        replace (d =? 0) with false by (symmetry; apply Z.eqb_neq; exact Tx).
        cbn [negb]. replace (d >? 0) with true by (symmetry; apply Z.gtb_lt; lia).
        cbn. cbn [eval] in *. lia.
      * cbn [length Nat.ltb Nat.leb]. change (1 >=? 0) with true. cbv iota. lia.
    + rewrite Ex. cbn. lia.
Qed.

Lemma bigint_add_value x y :
  bigint_wf x -> bigint_wf y ->
  bigint_value (bigint_add x y (is_neg y)) = bigint_value x + bigint_value y
  /\ digits_ok (digits (bigint_add x y (is_neg y))).
Proof.
  intros Wx Wy. pose proof (bigint_compare_abs_order x y Wx Wy) as Hc.
  destruct Wx as [Ox Tx]. destruct Wy as [Oy Ty].
  rewrite (bigint_value_flag' x), (bigint_value_flag' y).
  unfold bigint_add, bigint_is_neg_.
  destruct (Bool.eqb (is_neg x) (is_neg y)) eqn:S; cbn [negb].
  - apply Bool.eqb_prop in S.
    destruct (bigint_add_same_spec x y (is_neg y) Ox Oy) as (E & O & N & _).
    rewrite bigint_value_flag', E, N, S. split; [|exact O].
    destruct (is_neg y); lia.
  - unfold bigint_sub_same.
    destruct (bigint_compare_abs_ x y >=? 0).
    + destruct Hc as [Hle Hcnt].
      destruct (bigint_sub_abs_spec x y Ox Oy Hcnt Hle) as (E & [O _] & N).
      rewrite bigint_value_flag', E, N. split; [|exact O].
      destruct (is_neg x), (is_neg y); try discriminate; lia.
    + destruct Hc as [Hle Hcnt].
      destruct (bigint_sub_abs_spec y x Oy Ox Hcnt Hle) as (E & [O _] & N).
      rewrite bigint_value_flag. cbn [digits]. rewrite E, Bool.negb_involutive.
      split; [|exact O].
      destruct (is_neg x), (is_neg y); try discriminate; lia.
Qed.

Section IntegerArith.
Context {range : smallint_range}.

Lemma integer_ok_wf (x : integer_t) : integer_ok x -> integer_wf x.
Proof.
  intros H. destruct (integer_to_bigint_ok x H) as (O & T & _). split; assumption.
Qed.

Lemma integer_small_wf i : integer_wf (Small i).
Proof. apply bigint_from_int_wf. Qed.

Lemma integer_bigint_wf b : bigint_wf b -> integer_wf (integer_bigint b).
Proof.
  intros W. unfold integer_bigint.
  destruct ((count b =? 1)%nat && (digit_at (digits b) 0 <=? SMALLINT_MAX));
    [apply integer_small_wf | exact W].
Qed.

Lemma integer_from_int_wf i : integer_wf (integer_from_int i).
Proof.
  unfold integer_from_int.
  destruct ((SMALLINT_MIN <=? i) && (i <=? SMALLINT_MAX));
    [apply integer_small_wf | apply bigint_from_int_wf].
Qed.

(** [integer_add_generic] adds. *)
Lemma integer_add_generic_value (x y : integer_t) :
  integer_wf x -> integer_wf y ->
  integer_value (integer_add_generic x y) = integer_value x + integer_value y.
Proof.
  intros Wx Wy. unfold integer_add_generic.
  rewrite integer_bigint_value.
  destruct (bigint_add_value _ _ Wx Wy) as [V _].
  rewrite V, !integer_to_bigint_value. reflexivity.
Qed.

(** [integer_mul_generic] returns, and multiplies. *)
Lemma integer_mul_generic_spec (x y : integer_t) :
  integer_wf x -> integer_wf y ->
  exists p, integer_mul_generic x y = Some p
            /\ integer_value p = integer_value x * integer_value y
            /\ integer_wf p.
Proof.
  intros [Ox _] [Oy _]. unfold integer_mul_generic.
  set (bx := integer_to_bigint x) in *. set (by_ := integer_to_bigint y) in *.
  assert (bigint_mul_karatsuba bx by_ = Some (bigint_mul bx by_)) as K.
  { unfold bigint_mul_karatsuba. apply mul_karatsuba_spec; auto. lia. }
  rewrite K.
  destruct (bigint_mul_spec bx by_ Ox Oy) as (E & O & N).
  exists (integer_bigint (bigint_mul bx by_)). repeat split.
  - destruct (use_karatsuba (count bx) (count by_)); reflexivity.
  - rewrite integer_bigint_value, bigint_value_flag', E, N.
    rewrite <- (integer_to_bigint_value x), <- (integer_to_bigint_value y).
    fold bx by_. rewrite (bigint_value_flag' bx), (bigint_value_flag' by_).
    destruct (is_neg bx), (is_neg by_); cbn [Bool.eqb negb]; ring.
  - apply integer_bigint_wf, bigint_ok_wf, O.
  - apply integer_bigint_wf, bigint_ok_wf, O.
Qed.

End IntegerArith.

(** ** Division of integers *)

(** Truncated division of signed numbers from the division of their
    magnitudes: the quotient is negative when the signs differ, the
    remainder has the sign of the dividend. *)
Lemma signed_quot_rem (xneg yneg : bool) X Y Q R :
  0 <= X -> 0 < Y -> X = Q * Y + R -> 0 <= R < Y ->
  (if negb (Bool.eqb xneg yneg) then - Q else Q)
    = Z.quot (if xneg then - X else X) (if yneg then - Y else Y)
  /\ (if xneg then - R else R)
    = Z.rem (if xneg then - X else X) (if yneg then - Y else Y).
Proof.
  intros HX HY E HR.
  assert (Q = Z.quot X Y) as EQ by (apply (Z.quot_unique X Y Q R); lia).
  assert (R = Z.rem X Y) as ER by (apply (Z.rem_unique X Y Q R); lia).
  destruct xneg, yneg; cbn [Bool.eqb negb];
    rewrite ?Z.quot_opp_opp, ?Z.quot_opp_l, ?Z.quot_opp_r,
            ?Z.rem_opp_opp, ?Z.rem_opp_l, ?Z.rem_opp_r by lia;
    split; congruence.
Qed.

Section IntegerDivision.
Context {range : smallint_range}.

Lemma integer_div_mod_full_spec (x y : integer_t) (want_mod : bool) :
  integer_ok x -> integer_ok y -> integer_value y <> 0 ->
  exists q r,
    integer_div_mod_full x y want_mod
      = Some (Integer q, if want_mod then Some r else None)
    /\ integer_wf q /\ integer_wf r
    /\ integer_value q = Z.quot (integer_value x) (integer_value y)
    /\ integer_value r = Z.rem (integer_value x) (integer_value y).
Proof.
  intros Hx Hy Hv.
  destruct (integer_to_bigint_ok x Hx) as (Ox & Tx & Tx').
  destruct (integer_to_bigint_ok y Hy) as (Oy & _ & Ty').
  destruct (Ty' Hv) as [Ty Ny].
  pose proof (integer_to_bigint_value x) as Vx.
  pose proof (integer_to_bigint_value y) as Vy.
  rewrite bigint_value_flag' in Vx, Vy.
  unfold integer_div_mod_full, bigint_is_neg_.
  set (bx := integer_to_bigint x) in *. set (by_ := integer_to_bigint y) in *.
  pose proof (eval_nonneg _ Ox) as PX.
  pose proof (eval_trimmed_pos _ Oy Ty Ny) as PY.
  rewrite (bigint_compare_abs_spec bx by_ Ox Tx Oy Ty) by (intros C; congruence).
  rewrite <- Vx, <- Vy.
  destruct (Z.lt_trichotomy (eval (digits bx)) (eval (digits by_))) as [L|[E|G]].
  - rewrite Z.sgn_neg by lia. cbn [Z.ltb Z.compare].
    exists (Small 0), x. split; [reflexivity|].
    split; [apply integer_small_wf|]. split; [apply integer_ok_wf; exact Hx|].
    destruct (signed_quot_rem (is_neg bx) (is_neg by_) (eval (digits bx))
                (eval (digits by_)) 0 (eval (digits bx))) as [A B]; try lia.
    cbn [integer_value]. rewrite <- A, <- B. rewrite Vx.
    split; [destruct (negb _); reflexivity | reflexivity].
  - replace (eval (digits bx) - eval (digits by_)) with 0 by lia.
    cbn [Z.sgn Z.ltb Z.eqb Z.compare].
    exists (Small (if Bool.eqb (is_neg bx) (is_neg by_) then 1 else -1)), (Small 0).
    split; [reflexivity|].
    split; [apply integer_small_wf|]. split; [apply integer_small_wf|].
    destruct (signed_quot_rem (is_neg bx) (is_neg by_) (eval (digits bx))
                (eval (digits by_)) 1 0) as [A B]; try lia.
    cbn [integer_value]. rewrite <- A, <- B.
    split; [destruct (Bool.eqb _ _); reflexivity | destruct (is_neg bx); reflexivity].
  - rewrite Z.sgn_pos by lia. cbn [Z.ltb Z.eqb Z.compare].
    assert (trimmed (digits bx)) as Tx''.
    { destruct Tx as [T|T]; [exact T|]. rewrite T in G. cbn [eval] in G. lia. }
    assert (count by_ <= count bx)%nat as Hc.
    { unfold count. apply eval_trimmed_length; auto. lia. }
    destruct (bigint_div_mod_spec bx by_ Ox (conj Oy Ty) Ny Hc)
      as (q0 & r0 & E & Oq & Or & Nq & Nr & V & B).
    rewrite E.
    exists (integer_bigint
              (mk_bigint (negb (Bool.eqb (is_neg bx) (is_neg by_))) (digits q0))),
           (integer_bigint (mk_bigint (is_neg bx) (digits r0))).
    split; [reflexivity|].
    split; [apply integer_bigint_wf, bigint_ok_wf, Oq|].
    split; [apply integer_bigint_wf, bigint_ok_wf, Or|].
    rewrite !integer_bigint_value, !bigint_value_flag.
    apply signed_quot_rem; lia.
Qed.

(** Whatever the path taken, the quotient and the remainder returned are
    those of truncated division. *)
Lemma integer_div_mod_generic_spec (x y : integer_t) (want_mod : bool) :
  integer_ok x -> integer_ok y -> integer_value y <> 0 ->
  exists q r,
    integer_div_mod_generic x y want_mod
      = Some (Integer q, if want_mod then Some r else None)
    /\ integer_wf q /\ integer_wf r
    /\ integer_value q = Z.quot (integer_value x) (integer_value y)
    /\ integer_value r = Z.rem (integer_value x) (integer_value y).
Proof.
  intros Hx Hy Hv.
  destruct y as [yi|yb]; [|apply integer_div_mod_full_spec; assumption].
  cbn [integer_value] in Hv. unfold integer_div_mod_generic.
  replace (yi =? 0) with false by (symmetry; apply Z.eqb_neq; exact Hv).
  destruct (yi =? 1) eqn:E1.
  { apply Z.eqb_eq in E1. subst yi. exists x, (Small 0).
    split; [reflexivity|].
    split; [apply integer_ok_wf; exact Hx|]. split; [apply integer_small_wf|].
    cbn [integer_value].
    rewrite Z.quot_1_r, Z.rem_1_r. auto. }
  destruct (yi =? -1) eqn:E2.
  { apply Z.eqb_eq in E2. subst yi. exists (integer_neg x), (Small 0).
    split; [reflexivity|].
    split; [apply integer_bigint_wf; exact (integer_ok_wf x Hx)|].
    split; [apply integer_small_wf|].
    cbn [integer_value].
    unfold integer_neg, integer_neg_generic.
    rewrite integer_bigint_value. unfold bigint_neg. rewrite bigint_value_flag.
    pose proof (integer_to_bigint_value x) as Vx. rewrite bigint_value_flag' in Vx.
    change (-1) with (- (1)).
    rewrite Z.quot_opp_r, Z.rem_opp_r, Z.quot_1_r, Z.rem_1_r by lia.
    rewrite <- Vx. split; [destruct (is_neg (integer_to_bigint x)); cbn [negb]; lia|].
    reflexivity. }
  apply Z.eqb_neq in E1. apply Z.eqb_neq in E2.
  set (ay := if yi <? 0 then - yi else yi).
  assert (ay = Z.abs yi /\ 2 <= ay) as [Ea Ha].
  { unfold ay. destruct (yi <? 0) eqn:L;
      [apply Z.ltb_lt in L | apply Z.ltb_ge in L]; lia. }
  destruct (ay <? BASE) eqn:EB;
    [|apply integer_div_mod_full_spec; assumption].
  destruct (integer_to_bigint_ok x Hx) as (Ox & _ & _).
  pose proof (integer_to_bigint_value x) as Vx. rewrite bigint_value_flag' in Vx.
  unfold bigint_is_neg_.
  set (bx := integer_to_bigint x) in *.
  destruct (bigint_div_mod_small_spec bx ay Ox ltac:(lia)) as (V & M & Oz & Nz).
  destruct (bigint_div_mod_small bx ay) as [bz imod]. cbn [fst snd] in *.
  exists (integer_bigint (mk_bigint (negb (Bool.eqb (is_neg bx) (yi <? 0))) (digits bz))),
         (integer_from_int (if is_neg bx then - imod else imod)).
  split; [reflexivity|].
  split; [apply integer_bigint_wf, bigint_ok_wf, Oz|].
  split; [apply integer_from_int_wf|].
  rewrite integer_bigint_value, bigint_value_flag, integer_from_int_value.
  cbn [integer_value]. rewrite <- Vx.
  pose proof (eval_nonneg _ Ox) as PX.
  destruct (signed_quot_rem (is_neg bx) (yi <? 0) (eval (digits bx)) ay
              (eval (digits bz)) imod PX ltac:(lia) V M) as [A B].
  replace (if yi <? 0 then - ay else ay) with yi in A, B
    by (unfold ay; destruct (yi <? 0); lia).
  split; assumption.
Qed.

End IntegerDivision.

(** ** Parsing: the scanning loops and the grammar *)

Lemma isdigit_peek_nonempty p : isdigit (peek p) = true -> exists c r, p = c :: r.
Proof. destruct p as [|c r]; [discriminate|]. intros _. eauto. Qed.

Lemma peek_app p q : p <> [] -> peek (p ++ q) = peek p.
Proof. destruct p; [congruence | reflexivity]. Qed.

Lemma sig_stop_not_digit rest : sig_stop rest = true -> isdigit (peek rest) = false.
Proof.
  destruct rest as [|c r]; [reflexivity|]. cbn [sig_stop peek]. intros H.
  apply andb_prop in H. destruct H as [H _].
  apply orb_prop in H. destruct H as [H|H]; [apply orb_prop in H; destruct H as [H|H]|];
    apply Ascii.eqb_eq in H; subst; reflexivity.
Qed.

Lemma frac_stop_not_digit rest : frac_stop rest = true -> isdigit (peek rest) = false.
Proof.
  destruct rest as [|c r]; [reflexivity|]. cbn [frac_stop peek]. intros H.
  apply andb_prop in H. destruct H as [H _]. apply andb_prop in H. destruct H as [H _].
  apply orb_prop in H. destruct H as [H|H]; apply Ascii.eqb_eq in H; subst; reflexivity.
Qed.


Lemma parse_significant_complete pre : forall prev rest n,
  digit_run prev pre = true -> sig_stop rest = true ->
  parse_significant (pre ++ rest) n = Some (n + count_digit_chars pre, rest).
Proof.
  induction pre as [|c pre IH]; intros prev rest n R S.
  - cbn [app count_digit_chars]. rewrite Z.add_0_r.
    destruct rest as [|c r]; [reflexivity|].
    pose proof (sig_stop_not_digit _ S) as D. cbn [peek] in D.
    cbn [parse_significant]. rewrite D. cbn [sig_stop] in S. rewrite S.
    destruct (Ascii.eqb c "_" && isdigit (peek r)) eqn:U; [|reflexivity].
    apply andb_prop in U. destruct U as [U _]. apply Ascii.eqb_eq in U. subst c.
    discriminate.
  - cbn [digit_run] in R. cbn [app parse_significant count_digit_chars].
    destruct (isdigit c) eqn:Dc.
    + rewrite (IH c rest (n + 1) R S); f_equal; f_equal; lia.
    + destruct (Ascii.eqb c "_") eqn:U; [|discriminate].
      apply andb_prop in R. destruct R as [R R3].
      apply andb_prop in R. destruct R as [R1 R2].
      destruct (isdigit_peek_nonempty _ R2) as (d & r & ->).
      cbn [andb app peek] in *. rewrite R2.
      apply Ascii.eqb_eq in U. subst c.
      rewrite (IH "_"%char rest n R3 S); f_equal; f_equal; lia.
Qed.


Lemma parse_fraction_complete pre : forall prev rest n,
  digit_run prev pre = true -> frac_stop rest = true ->
  parse_fraction (pre ++ rest) n = Some (n + count_digit_chars pre, rest).
Proof.
  induction pre as [|c pre IH]; intros prev rest n R S.
  - cbn [app count_digit_chars]. rewrite Z.add_0_r.
    destruct rest as [|c r]; [reflexivity|].
    pose proof (frac_stop_not_digit _ S) as D. cbn [peek] in D.
    cbn [parse_fraction]. rewrite D. cbn [frac_stop] in S. rewrite S.
    destruct (Ascii.eqb c "_" && isdigit (peek r)) eqn:U; [|reflexivity].
    apply andb_prop in U. destruct U as [U _]. apply Ascii.eqb_eq in U. subst c.
    discriminate.
  - cbn [digit_run] in R. cbn [app parse_fraction count_digit_chars].
    destruct (isdigit c) eqn:Dc.
    + rewrite (IH c rest (n + 1) R S); f_equal; f_equal; lia.
    + destruct (Ascii.eqb c "_") eqn:U; [|discriminate].
      apply andb_prop in R. destruct R as [R R3].
      apply andb_prop in R. destruct R as [R1 R2].
      destruct (isdigit_peek_nonempty _ R2) as (d & r & ->).
      cbn [andb app peek] in *. rewrite R2.
      apply Ascii.eqb_eq in U. subst c.
      rewrite (IH "_"%char rest n R3 S); f_equal; f_equal; lia.
Qed.

Lemma digit_val_range c : isdigit c = true -> 0 <= digit_val c <= 9.
Proof.
  unfold isdigit, digit_val. intros H. apply andb_prop in H. destruct H as [A B].
  apply Z.leb_le in A. apply Z.leb_le in B. lia.
Qed.

Lemma decimal_from_mono l : forall a,
  forallb isdigit l = true -> 0 <= a -> a <= decimal_from a l.
Proof.
  induction l as [|c l IH]; intros a H Ha; [cbn; lia|].
  cbn [forallb] in H. apply andb_prop in H. destruct H as [Dc H].
  pose proof (digit_val_range c Dc). unfold decimal_from in *. cbn [fold_left].
  specialize (IH (10 * a + digit_val c) H ltac:(lia)). lia.
Qed.

(** The exponent loop accepts digits only and fails as soon as the value
    read so far exceeds [BASE]; the values only grow, so it accepts when
    the whole value is at most [BASE]. *)
Lemma parse_exponent_spec p : forall e,
  0 <= e <= BASE ->
  parse_exponent p e =
  if forallb isdigit p && (decimal_from e p <=? BASE)
  then Some (decimal_from e p) else None.
Proof.
  induction p as [|c p IH]; intros e He.
  - cbn [parse_exponent forallb]. unfold decimal_from. cbn [fold_left andb].
    replace (e <=? BASE) with true by (symmetry; apply Z.leb_le; lia). reflexivity.
  - cbn [parse_exponent forallb]. destruct (isdigit c) eqn:Dc; [|reflexivity].
    cbn [andb]. pose proof (digit_val_range c Dc) as Hd.
    change (decimal_from e (c :: p)) with (decimal_from (10 * e + digit_val c) p).
    destruct (10 * e + digit_val c >? BASE) eqn:G.
    + apply Z.gtb_lt in G.
      destruct (forallb isdigit p) eqn:F; [|reflexivity]. cbn [andb].
      pose proof (decimal_from_mono p (10 * e + digit_val c) F ltac:(lia)).
      replace (decimal_from (10 * e + digit_val c) p <=? BASE) with false
        by (symmetry; apply Z.leb_gt; lia).
      reflexivity.
    + assert (10 * e + digit_val c <= BASE)
        by (pose proof (Zgt_cases (10 * e + digit_val c) BASE) as Q; rewrite G in Q; lia).
      apply IH. lia.
Qed.




Lemma digit_group_cons l :
  digit_group l = true ->
  exists c pre, l = c :: pre /\ isdigit c = true /\ digit_run c pre = true.
Proof.
  destruct l as [|c pre]; [discriminate|]. cbn [digit_group]. intros H.
  apply andb_prop in H. destruct H. eauto.
Qed.



Lemma isdigit_not_sign c :
  isdigit c = true -> Ascii.eqb c "+" = false /\ Ascii.eqb c "-" = false.
Proof.
  intros D. split.
  - destruct (Ascii.eqb c "+") eqn:E; [|reflexivity].
    apply Ascii.eqb_eq in E. subst. discriminate.
  - destruct (Ascii.eqb c "-") eqn:E; [|reflexivity].
    apply Ascii.eqb_eq in E. subst. discriminate.
Qed.



(* ---------------------------------------------------------------------- *)
(** ** Decimal strings *)

Lemma Dpow_0 : Dpow 0 = 1.
Proof. reflexivity. Qed.

Lemma Dpow_S n : Dpow (S n) = 10 * Dpow n.
Proof. unfold Dpow. rewrite Nat2Z.inj_succ, Z.pow_succ_r by lia. reflexivity. Qed.

Lemma Dpow_pos n : 0 < Dpow n.
Proof. unfold Dpow. apply Z.pow_pos_nonneg; lia. Qed.

Lemma Dpow_add n m : Dpow (n + m) = Dpow n * Dpow m.
Proof. unfold Dpow. rewrite Nat2Z.inj_add, Z.pow_add_r by lia. reflexivity. Qed.

Lemma Dpow_9 : Dpow 9 = BASE.
Proof. rewrite BASE_eq. reflexivity. Qed.

Lemma Dpow_le n m : (n <= m)%nat -> Dpow n <= Dpow m.
Proof. intros H. unfold Dpow. apply Z.pow_le_mono_r; lia. Qed.

Lemma Dpow_Bpow n : Dpow (9 * n) = Bpow n.
Proof.
  induction n as [|n IH]; [reflexivity|].
  replace (9 * S n)%nat with (9 + 9 * n)%nat by lia.
  rewrite Dpow_add, IH, Dpow_9, Bpow_S. reflexivity.
Qed.

Lemma decimal_from_app a l1 l2 :
  decimal_from a (l1 ++ l2) = decimal_from (decimal_from a l1) l2.
Proof. unfold decimal_from. apply fold_left_app. Qed.

Lemma decimal_from_cons a c l :
  decimal_from a (c :: l) = decimal_from (10 * a + digit_val c) l.
Proof. reflexivity. Qed.

Lemma decimal_from_shift l : forall a,
  decimal_from a l = a * Dpow (length l) + decimal l.
Proof.
  unfold decimal. induction l as [|c l IH]; intros a.
  - cbn [decimal_from fold_left length]. rewrite Dpow_0. lia.
  - rewrite !decimal_from_cons. rewrite (IH (10 * a + digit_val c)).
    rewrite (IH (10 * 0 + digit_val c)). cbn [length]. rewrite Dpow_S. ring.
Qed.

Lemma decimal_app l1 l2 :
  decimal (l1 ++ l2) = decimal l1 * Dpow (length l2) + decimal l2.
Proof.
  unfold decimal at 1. rewrite decimal_from_app.
  rewrite decimal_from_shift. reflexivity.
Qed.

Lemma decimal_bound l :
  forallb isdigit l = true -> 0 <= decimal l < Dpow (length l).
Proof.
  induction l as [|c l IH] using rev_ind; intros H.
  - cbn. lia.
  - rewrite forallb_app in H. apply andb_prop in H. destruct H as [Hl Hc].
    cbn [forallb] in Hc. rewrite andb_true_r in Hc.
    specialize (IH Hl). pose proof (digit_val_range c Hc) as R.
    rewrite decimal_app. rewrite length_app. cbn [length].
    replace (length l + 1)%nat with (S (length l)) by lia.
    rewrite Dpow_S, Dpow_S, Dpow_0.
    change (decimal [c]) with (10 * 0 + digit_val c). lia.
Qed.

(** ** The characters of one digit *)

Lemma char_code_digit_char d :
  0 <= d <= 9 -> char_code (digit_char d) = 48 + d.
Proof.
  intros H. unfold char_code, digit_char.
  rewrite N_ascii_embedding by lia. rewrite Z2N.id; lia.
Qed.

Lemma isdigit_digit_char d : 0 <= d <= 9 -> isdigit (digit_char d) = true.
Proof.
  intros H. unfold isdigit. rewrite char_code_digit_char by exact H.
  apply andb_true_intro. split; apply Z.leb_le; lia.
Qed.

Lemma digit_val_digit_char d : 0 <= d <= 9 -> digit_val (digit_char d) = d.
Proof.
  intros H. unfold digit_val. rewrite char_code_digit_char by exact H. lia.
Qed.

Lemma digit_char_zero d :
  0 <= d <= 9 -> Ascii.eqb (digit_char d) "0" = (d =? 0).
Proof.
  intros H. destruct (Ascii.eqb (digit_char d) "0") eqn:E.
  - apply Ascii.eqb_eq in E. apply (f_equal digit_val) in E.
    rewrite digit_val_digit_char in E by exact H.
    symmetry. apply Z.eqb_eq. exact E.
  - symmetry. apply Z.eqb_neq. intros ->.
    rewrite Ascii.eqb_refl in E. discriminate.
Qed.

Lemma rem_10_range d : 0 <= d -> 0 <= Z.rem d 10 <= 9.
Proof. intros H. rewrite Z.rem_mod_nonneg by lia. pose proof (Z.mod_pos_bound d 10). lia. Qed.

(** [digit_chars] writes the last [n] decimal digits of [d]. *)
Lemma digit_chars_spec n : forall d acc,
  0 <= d ->
  exists D, digit_chars n d acc = D ++ acc /\ length D = n
            /\ forallb isdigit D = true /\ decimal D = d mod Dpow n.
Proof.
  induction n as [|n IH]; intros d acc Hd.
  - exists []. cbn [digit_chars]. repeat split. rewrite Dpow_0, Z.mod_1_r. reflexivity.
  - cbn [digit_chars].
    assert (0 <= Z.quot d 10) as Hq by (apply Z.quot_pos; lia).
    destruct (IH (Z.quot d 10) (digit_char (Z.rem d 10) :: acc) Hq)
      as (D & E & L & A & V).
    pose proof (rem_10_range d Hd) as R.
    exists (D ++ [digit_char (Z.rem d 10)]). repeat split.
    + rewrite E, <- app_assoc. reflexivity.
    + rewrite length_app. cbn [length]. lia.
    + rewrite forallb_app, A. cbn [forallb].
      rewrite isdigit_digit_char by exact R. reflexivity.
    + rewrite decimal_app, V. cbn [length]. rewrite (Dpow_S n), (Dpow_S 0), Dpow_0.
      change (decimal [digit_char (Z.rem d 10)])
        with (10 * 0 + digit_val (digit_char (Z.rem d 10))).
      rewrite digit_val_digit_char by exact R.
      rewrite Z.quot_div_nonneg, Z.rem_mod_nonneg by lia.
      pose proof (Dpow_pos n).
      rewrite (Z.rem_mul_r d 10 (Dpow n)) by lia. lia.
Qed.

Lemma decimal_cons_zero r : decimal ("0"%char :: r) = decimal r.
Proof. reflexivity. Qed.

Lemma skip_zero_chars_spec l :
  forallb isdigit l = true ->
  forallb isdigit (skip_zero_chars l) = true
  /\ decimal (skip_zero_chars l) = decimal l
  /\ Ascii.eqb (peek (skip_zero_chars l)) "0" = false.
Proof.
  induction l as [|c r IH]; intros H.
  - repeat split.
  - cbn [skip_zero_chars]. destruct (Ascii.eqb c "0") eqn:E.
    + apply Ascii.eqb_eq in E. subst c. rewrite decimal_cons_zero.
      cbn [forallb] in H. apply andb_prop in H. apply IH. tauto.
    + repeat split; [exact H | exact E].
Qed.

Lemma digit_to_str_full_spec d :
  0 <= d < BASE ->
  length (digit_to_str_full d) = 9%nat
  /\ forallb isdigit (digit_to_str_full d) = true
  /\ decimal (digit_to_str_full d) = d.
Proof.
  intros H. unfold digit_to_str_full.
  destruct (digit_chars_spec (Z.to_nat LOG_BASE) d [] ltac:(lia)) as (D & E & L & A & V).
  rewrite app_nil_r in E. rewrite E.
  change (Z.to_nat LOG_BASE) with 9%nat in *.
  rewrite Dpow_9, Z.mod_small in V by lia. tauto.
Qed.

Lemma digit_to_str_partial_spec d :
  0 < d < BASE ->
  digit_to_str_partial d <> []
  /\ forallb isdigit (digit_to_str_partial d) = true
  /\ Ascii.eqb (peek (digit_to_str_partial d)) "0" = false
  /\ decimal (digit_to_str_partial d) = d.
Proof.
  intros H. unfold digit_to_str_partial.
  destruct (d =? 0) eqn:Z0; [apply Z.eqb_eq in Z0; lia|].
  destruct (digit_to_str_full_spec d ltac:(lia)) as (_ & A & V).
  destruct (skip_zero_chars_spec _ A) as (A' & V' & P).
  repeat split; [|exact A'|exact P|congruence].
  intros E. rewrite E in V'. change (decimal []) with 0 in V'. lia.
Qed.

Lemma full_digits_spec ds n :
  digits_ok ds -> (n <= length ds)%nat ->
  length (full_digits ds n) = (9 * n)%nat
  /\ forallb isdigit (full_digits ds n) = true
  /\ decimal (full_digits ds n) = eval (firstn n ds).
Proof.
  intros Hok. induction n as [|i IH]; intros Hn.
  - repeat split.
  - destruct (IH ltac:(lia)) as (L & A & V).
    destruct (digit_to_str_full_spec _ (digit_at_ok ds i Hok)) as (L1 & A1 & V1).
    cbn [full_digits]. repeat split.
    + rewrite length_app, L, L1. lia.
    + rewrite forallb_app, A, A1. reflexivity.
    + rewrite decimal_app, V, V1, L, Dpow_Bpow.
      rewrite firstn_S_digit by lia. rewrite eval_app.
      rewrite length_firstn, Nat.min_l by lia. cbn [eval]. ring.
Qed.

Lemma skip_zero_digits_top ds i :
  digit_at ds i <> 0 -> skip_zero_digits ds i = i.
Proof.
  intros H. destruct i; [reflexivity|]. cbn [skip_zero_digits].
  destruct (digit_at ds (S i) =? 0) eqn:E; [apply Z.eqb_eq in E; contradiction|].
  reflexivity.
Qed.

(** What [bigint_to_buf_] writes for a canonical bigint: the sign, and the
    decimal digits of the magnitude, the first of them not ['0']. *)
Lemma bigint_to_buf_spec (b : bigint_t) :
  canonical b ->
  exists D, bigint_to_buf_ b = (if is_neg b then ["-"%char] else []) ++ D
            /\ D <> [] /\ forallb isdigit D = true
            /\ Ascii.eqb (peek D) "0" = false
            /\ decimal D = eval (digits b).
Proof.
  intros ((Hok & Ht) & Hne). unfold bigint_to_buf_, bigint_is_neg_, count.
  destruct (list_last_exists (digits b) Hne) as (pre & t & E).
  rewrite E in *. rewrite length_app. cbn [length].
  rewrite Nat.add_1_r.
  unfold trimmed in Ht. rewrite last_app_single in Ht.
  assert (digit_at (pre ++ [t]) (length pre) = t) as Dt by apply digit_at_middle.
  rewrite skip_zero_digits_top by (rewrite Dt; exact Ht).
  rewrite Dt.
  apply digits_ok_app in Hok. destruct Hok as [Hpre Htop].
  apply digits_ok_cons in Htop. destruct Htop as [Htop _].
  destruct (digit_to_str_partial_spec t ltac:(lia)) as (N & A & P & V).
  destruct (full_digits_spec (pre ++ [t]) (length pre)) as (L' & A' & V').
  { apply digits_ok_app. split; [exact Hpre|]. apply digits_ok_cons.
    split; [exact Htop | apply digits_ok_nil]. }
  { rewrite length_app. lia. }
  exists (digit_to_str_partial t ++ full_digits (pre ++ [t]) (length pre)).
  repeat split.
  - intros E'. apply app_eq_nil in E'. tauto.
  - rewrite forallb_app, A, A'. reflexivity.
  - rewrite peek_app by exact N. exact P.
  - rewrite decimal_app, V, V', L', Dpow_Bpow.
    rewrite firstn_app, Nat.sub_diag, firstn_all. cbn [firstn].
    rewrite app_nil_r, eval_app. cbn [eval]. ring.
Qed.

(** ** Small integers to characters *)

Lemma int_chars_rev_zero f : int_chars_rev f 0 = [].
Proof. destruct f; reflexivity. Qed.

Lemma int_chars_rev_spec f : forall n,
  0 <= n < Dpow f ->
  forallb isdigit (rev (int_chars_rev f n)) = true
  /\ decimal (rev (int_chars_rev f n)) = n
  /\ (0 < n -> rev (int_chars_rev f n) <> []
               /\ Ascii.eqb (peek (rev (int_chars_rev f n))) "0" = false).
Proof.
  induction f as [|f IH]; intros n Hn.
  - rewrite Dpow_0 in Hn. assert (n = 0) by lia. subst. repeat split; lia.
  - cbn [int_chars_rev]. destruct (n =? 0) eqn:Z0.
    + apply Z.eqb_eq in Z0. subst. repeat split; lia.
    + apply Z.eqb_neq in Z0. cbn [negb rev].
      pose proof (rem_10_range n ltac:(lia)) as R.
      rewrite Dpow_S in Hn.
      assert (0 <= Z.quot n 10 < Dpow f) as Hq.
      { rewrite Z.quot_div_nonneg by lia. split.
        - apply Z.div_pos; lia.
        - apply Z.div_lt_upper_bound; lia. }
      assert (n = 10 * Z.quot n 10 + Z.rem n 10) as En
        by (apply Z.quot_rem'; lia).
      destruct (IH _ Hq) as (A & V & P).
      repeat split.
      * rewrite forallb_app, A. cbn [forallb].
        rewrite isdigit_digit_char by exact R. reflexivity.
      * rewrite decimal_app, V. cbn [length]. rewrite (Dpow_S 0), Dpow_0.
        change (decimal [digit_char (Z.rem n 10)])
          with (10 * 0 + digit_val (digit_char (Z.rem n 10))).
        rewrite digit_val_digit_char by exact R. lia.
      * intros E. apply app_eq_nil in E. destruct E as [_ E]. discriminate.
      * destruct (Z.eq_dec (Z.quot n 10) 0) as [Q0|Q0].
        -- rewrite Q0, int_chars_rev_zero. cbn [rev app peek].
           rewrite digit_char_zero by exact R. apply Z.eqb_neq. lia.
        -- destruct (P ltac:(lia)) as [N P']. rewrite peek_app by exact N. exact P'.
Qed.

Lemma c_str_chars l :
  forallb (fun c => negb (Ascii.eqb c Ascii.zero)) l = true ->
  c_str (string_of_list_ascii l) = l.
Proof.
  induction l as [|c l IH]; intros H; [reflexivity|].
  cbn [forallb] in H. apply andb_prop in H. destruct H as [Hc Hl].
  cbn [string_of_list_ascii c_str].
  apply negb_true_iff in Hc. rewrite Hc, (IH Hl). reflexivity.
Qed.

Lemma isdigit_not_nul l :
  forallb isdigit l = true ->
  forallb (fun c => negb (Ascii.eqb c Ascii.zero)) l = true.
Proof.
  induction l as [|c l IH]; intros H; [reflexivity|].
  cbn [forallb] in H |- *. apply andb_prop in H. destruct H as [Hc Hl].
  rewrite (IH Hl), andb_true_r. apply negb_true_iff.
  destruct (Ascii.eqb c Ascii.zero) eqn:E; [|reflexivity].
  apply Ascii.eqb_eq in E. subst. discriminate.
Qed.

(** A printed number, read back as a C string. *)
Lemma c_str_signed (neg : bool) D :
  forallb isdigit D = true ->
  c_str (string_of_list_ascii ((if neg then ["-"%char] else []) ++ D))
  = (if neg then ["-"%char] else []) ++ D.
Proof.
  intros H. apply c_str_chars. rewrite forallb_app.
  rewrite (isdigit_not_nul D H). destruct neg; reflexivity.
Qed.

(** What [int_to_string] returns. *)
Lemma int_to_string_spec n :
  - Dpow 63 < n < Dpow 63 ->
  exists D, int_to_string n
            = string_of_list_ascii ((if n <? 0 then ["-"%char] else []) ++ D)
            /\ plain_numeral D /\ decimal D = Z.abs n.
Proof.
  intros Hn. unfold int_to_string.
  set (m := if n <? 0 then - n else n).
  assert (m = Z.abs n) as Em.
  { unfold m. destruct (n <? 0) eqn:L;
      [apply Z.ltb_lt in L | apply Z.ltb_ge in L]; lia. }
  destruct (m =? 0) eqn:Z0.
  - apply Z.eqb_eq in Z0. exists ["0"%char].
    assert ((n <? 0) = false) as L by (apply Z.ltb_ge; lia). rewrite L.
    repeat split; [discriminate | change (decimal ["0"%char]) with 0; lia].
  - apply Z.eqb_neq in Z0.
    destruct (int_chars_rev_spec 63 m ltac:(lia)) as (A & V & P).
    destruct (P ltac:(lia)) as [N P'].
    exists (rev (int_chars_rev 63 m)). rewrite rev_app_distr.
    repeat split; try assumption; try lia.
    + destruct (n <? 0); reflexivity.
    + intros E. rewrite E in P'. discriminate.
Qed.

(* ---------------------------------------------------------------------- *)
(** ** Parsing a plain decimal numeral *)

Lemma parse_significant_digits D : forall n,
  forallb isdigit D = true ->
  parse_significant D n = Some (n + Z.of_nat (length D), []).
Proof.
  induction D as [|c D IH]; intros n H.
  - cbn [parse_significant length]. do 2 f_equal. lia.
  - cbn [forallb] in H. apply andb_prop in H. destruct H as [Hc HD].
    cbn [parse_significant]. rewrite Hc, (IH _ HD). cbn [length].
    do 2 f_equal. lia.
Qed.

Lemma parse_small_digits D : forall d,
  forallb isdigit D = true -> parse_small D d = decimal_from d D.
Proof.
  induction D as [|c D IH]; intros d H; [reflexivity|].
  cbn [forallb] in H. apply andb_prop in H. destruct H as [Hc HD].
  cbn [parse_small]. rewrite Hc, (IH _ HD). reflexivity.
Qed.

Lemma read_chunk_digits A R : forall n d,
  forallb isdigit A = true -> length A = n ->
  read_chunk (A ++ R) n d = (decimal_from d A, R).
Proof.
  induction A as [|c A IH]; intros n d H L; cbn [length] in L; subst n.
  - destruct R; reflexivity.
  - cbn [forallb] in H. apply andb_prop in H. destruct H as [Hc HA].
    cbn [app read_chunk]. rewrite Hc. apply IH; [exact HA | reflexivity].
Qed.

Lemma read_chunk_skip c p n d :
  isdigit c = false -> read_chunk (c :: p) (S n) d = read_chunk p (S n) d.
Proof. intros H. cbn [read_chunk]. rewrite H. reflexivity. Qed.

Lemma parse_chunks_step f c p chunk k ds :
  parse_chunks (S f) (c :: p) chunk k ds
  = (let (d, p') := read_chunk (c :: p) chunk 0 in
     let (k, ds) :=
       if (0 <? k)%nat then (pred k, set_digit ds (pred k) d) else (k, ds) in
     parse_chunks f p' (Z.to_nat LOG_BASE) k ds).
Proof. reflexivity. Qed.

Lemma decimal_digit_bound A :
  forallb isdigit A = true -> (length A <= 9)%nat -> 0 <= decimal A < BASE.
Proof.
  intros H L. pose proof (decimal_bound A H) as B.
  pose proof (Dpow_le _ _ L) as M. rewrite Dpow_9 in M. lia.
Qed.

(** The rounds of the chunk loop on [m] full groups of nine characters:
    they fill the [m] lowest digits. *)
Lemma parse_chunks_full m : forall fuel p lo hi,
  (m <= fuel)%nat -> length p = (9 * m)%nat -> forallb isdigit p = true ->
  length lo = m ->
  exists lo', parse_chunks fuel p (Z.to_nat LOG_BASE) m (lo ++ hi) = (0%nat, lo' ++ hi)
              /\ length lo' = m /\ digits_ok lo' /\ eval lo' = decimal p.
Proof.
  induction m as [|m IH]; intros fuel p lo hi Hf Lp Hp Ll.
  - destruct p; [|discriminate]. destruct lo; [|discriminate].
    exists []. repeat split; [|apply digits_ok_nil].
    destruct fuel; reflexivity.
  - destruct fuel as [|f]; [lia|].
    rewrite <- (firstn_skipn 9 p) in Hp |- *.
    set (A := firstn 9 p) in *. set (p' := skipn 9 p) in *.
    assert (length A = 9%nat) as LA by (unfold A; rewrite length_firstn; lia).
    assert (length p' = (9 * m)%nat) as Lp' by (unfold p'; rewrite length_skipn; lia).
    rewrite forallb_app in Hp. apply andb_prop in Hp. destruct Hp as [HA Hp'].
    destruct (list_last_exists lo ltac:(intros ->; discriminate)) as (lo1 & x & El).
    subst lo. rewrite length_app in Ll. cbn [length] in Ll.
    assert (length lo1 = m) as Ll1 by lia.
    destruct (IH f p' lo1 (decimal A :: hi) ltac:(lia) Lp' Hp' Ll1)
      as (lo' & E & L' & O' & V').
    exists (lo' ++ [decimal A]).
    pose proof (decimal_digit_bound A HA ltac:(lia)) as BA.
    repeat split.
    + destruct A as [|c A']; [discriminate|]. cbn [app].
      rewrite parse_chunks_step.
      change (c :: A' ++ p') with ((c :: A') ++ p').
      change (Z.to_nat LOG_BASE) with 9%nat at 1.
      rewrite (read_chunk_digits (c :: A') p' 9 0 HA LA).
      cbn [Nat.ltb Nat.leb pred]. rewrite <- app_assoc. cbn [app].
      fold (decimal (c :: A')).
      replace (set_digit (lo1 ++ x :: hi) m (decimal (c :: A')))
        with (lo1 ++ decimal (c :: A') :: hi)
        by (rewrite <- Ll1; symmetry; apply set_digit_middle).
      rewrite E, <- app_assoc. reflexivity.
    + rewrite length_app. cbn [length]. lia.
    + apply digits_ok_app. split; [exact O'|]. apply digits_ok_cons.
      split; [exact BA | apply digits_ok_nil].
    + rewrite eval_app, V', L', decimal_app, Lp', Dpow_Bpow. cbn [eval]. ring.
Qed.

Lemma chunk_count_split (n : nat) :
  (1 <= n)%nat ->
  exists c0 m : nat,
    Z.to_nat (if Z.rem (Z.of_nat n) LOG_BASE =? 0 then LOG_BASE
              else Z.rem (Z.of_nat n) LOG_BASE) = S c0
    /\ (c0 < 9)%nat
    /\ Z.to_nat (Z.quot (Z.of_nat n + (LOG_BASE - 1)) LOG_BASE) = S m
    /\ n = (S c0 + 9 * m)%nat.
Proof.
  intros Hn. unfold LOG_BASE.
  rewrite Z.rem_mod_nonneg, Z.quot_div_nonneg by lia.
  set (chunk := if Z.of_nat n mod 9 =? 0 then 9 else Z.of_nat n mod 9).
  exists (Z.to_nat (chunk - 1)), (Z.to_nat ((Z.of_nat n + (9 - 1)) / 9 - 1)).
  assert (1 <= chunk <= 9 /\ Z.of_nat n = chunk + 9 * ((Z.of_nat n + (9 - 1)) / 9 - 1)) as [C E].
  { unfold chunk. destruct (Z.of_nat n mod 9 =? 0) eqn:R;
      [apply Z.eqb_eq in R | apply Z.eqb_neq in R];
      Z.div_mod_to_equations; lia. }
  repeat split; try lia.
Qed.

Section ParseNumeral.
Context {range : smallint_range}.

(** [parse_number] on a position where only digits follow. *)
Lemma parse_number_plain (s D : list ascii) (neg : bool) :
  D <> [] -> forallb isdigit D = true ->
  parse_number s D neg
  = let n := Z.of_nat (length D) in
    if n <? LOG_BASE then
      Integer (integer_from_int (if neg then - parse_small s 0 else parse_small s 0))
    else
      let count := Z.to_nat (Z.quot (n + (LOG_BASE - 1)) LOG_BASE) in
      let chunk := if Z.rem n LOG_BASE =? 0 then LOG_BASE else Z.rem n LOG_BASE in
      let (k, ds) := parse_chunks (length s) s (Z.to_nat chunk) count (repeat 0 count) in
      Integer (integer_bigint (mk_bigint neg (zero_fill k ds))).
Proof.
  intros N A. unfold parse_number.
  destruct D as [|c D']; [congruence|].
  assert (isdigit c = true) as Hc by (cbn [forallb] in A; apply andb_prop in A; tauto).
  cbn [peek]. rewrite Hc. cbn [negb].
  rewrite (parse_significant_digits (c :: D') 0 A).
  cbn [peek tl].
  change (Ascii.eqb Ascii.zero ".") with false.
  change (Ascii.eqb Ascii.zero "e") with false.
  change (Ascii.eqb Ascii.zero "E") with false.
  cbn [orb]. cbv zeta. cbn [peek].
  change (Ascii.eqb Ascii.zero "e") with false.
  change (Ascii.eqb Ascii.zero "E") with false.
  cbn [orb].
  change (0 <? 0) with false. cbv iota.
  change (0 - 0) with 0. change (Z.to_nat 0) with O. cbn [Nat.iter].
  change (length (@nil ascii)) with O.
  rewrite Nat.sub_0_r, firstn_all, Z.add_0_l, !Z.add_0_r.
  reflexivity.
Qed.

(** The chunk loop on a printed number: it fills every digit, and the
    digits hold the number the characters write. *)
Lemma parse_chunks_numeral (neg : bool) (D : list ascii) :
  D <> [] -> forallb isdigit D = true ->
  let s := (if neg then ["-"%char] else []) ++ D in
  let n := Z.of_nat (length D) in
  let count := Z.to_nat (Z.quot (n + (LOG_BASE - 1)) LOG_BASE) in
  let chunk := if Z.rem n LOG_BASE =? 0 then LOG_BASE else Z.rem n LOG_BASE in
  exists ds,
    parse_chunks (length s) s (Z.to_nat chunk) count (repeat 0 count) = (0%nat, ds)
    /\ length ds = count /\ digits_ok ds /\ eval ds = decimal D
    /\ (Ascii.eqb (peek D) "0" = false -> trimmed ds).
Proof.
  intros N A. cbv zeta.
  assert (1 <= length D)%nat as L1 by (destruct D; [congruence | cbn [length]; lia]).
  destruct (chunk_count_split (length D) L1) as (c0 & m & Ec & Hc & Em & El).
  rewrite Ec, Em.
  rewrite <- (firstn_skipn (S c0) D) in A |- *.
  set (A0 := firstn (S c0) D) in *. set (P := skipn (S c0) D) in *.
  assert (length A0 = S c0) as LA by (unfold A0; rewrite length_firstn; lia).
  assert (length P = (9 * m)%nat) as LP by (unfold P; rewrite length_skipn; lia).
  rewrite forallb_app in A. apply andb_prop in A. destruct A as [HA HP].
  pose proof (decimal_digit_bound A0 HA ltac:(lia)) as BA.
  set (s := (if neg then ["-"%char] else []) ++ A0 ++ P).
  assert (exists f, length s = S f /\ (m <= f)%nat) as (f & Ef & Hf).
  { exists (length s - 1)%nat. unfold s. rewrite !length_app, LA, LP.
    destruct neg; cbn [length]; lia. }
  assert (exists c r, s = c :: r
                      /\ read_chunk (c :: r) (S c0) 0 = (decimal A0, P))
    as (c & r & Es & Er).
  { unfold s. destruct neg.
    - exists "-"%char, (A0 ++ P). split; [reflexivity|].
      rewrite read_chunk_skip by reflexivity.
      apply (read_chunk_digits A0 P (S c0) 0 HA LA).
    - destruct A0 as [|a A0']; [discriminate|].
      exists a, (A0' ++ P). split; [reflexivity|].
      apply (read_chunk_digits (a :: A0') P (S c0) 0 HA LA). }
  rewrite Ef, Es, parse_chunks_step, Er.
  cbn [Nat.ltb Nat.leb pred repeat]. rewrite repeat_cons.
  replace (set_digit (repeat 0 m ++ [0]) m (decimal A0))
    with (repeat 0 m ++ [decimal A0])
    by (rewrite <- (repeat_length 0 m) at 3; symmetry; apply set_digit_middle).
  destruct (parse_chunks_full m f P (repeat 0 m) [decimal A0] Hf LP HP
              (repeat_length 0 m)) as (lo' & E & L' & O' & V').
  exists (lo' ++ [decimal A0]). repeat split.
  - exact E.
  - rewrite length_app. cbn [length]. lia.
  - apply digits_ok_app. split; [exact O'|]. apply digits_ok_cons.
    split; [exact BA | apply digits_ok_nil].
  - rewrite eval_app, V', L', decimal_app, LP, Dpow_Bpow. cbn [eval]. ring.
  - intros P0. unfold trimmed. rewrite last_app_single.
    destruct A0 as [|a A0']; [discriminate|]. cbn [app peek] in P0.
    cbn [forallb] in HA. apply andb_prop in HA. destruct HA as [Ha HA'].
    pose proof (digit_val_range a Ha) as Ra.
    assert (digit_val a <> 0) as Na.
    { intros Z0. unfold digit_val in Z0.
      assert (a = "0"%char) as ->; [|rewrite Ascii.eqb_refl in P0; discriminate].
      rewrite <- (ascii_N_embedding a), <- (ascii_N_embedding "0").
      f_equal. unfold char_code in Z0. change (N_of_ascii "0") with 48%N. lia. }
    change (a :: A0') with ([a] ++ A0'). rewrite decimal_app.
    change (decimal [a]) with (10 * 0 + digit_val a).
    pose proof (decimal_bound A0' HA') as BA'. pose proof (Dpow_pos (length A0')).
    nia.
Qed.

(** Reading back a sign and a run of digits. *)
Lemma integer_parse_numeral (neg : bool) (D : list ascii) :
  D <> [] -> forallb isdigit D = true ->
  exists y,
    integer_parse (string_of_list_ascii ((if neg then ["-"%char] else []) ++ D))
    = Integer y
    /\ integer_value y = (if neg then - decimal D else decimal D)
    /\ (Ascii.eqb (peek D) "0" = false -> integer_wf y).
Proof.
  intros N A. unfold integer_parse. rewrite (c_str_signed neg D A).
  set (s := (if neg then ["-"%char] else []) ++ D).
  assert (parse_small s 0 = decimal D) as Ps.
  { unfold s. destruct neg; cbn [app]; [cbn [parse_small];
      change (isdigit "-") with false; cbv iota|];
      apply (parse_small_digits D 0 A). }
  assert (exists y, parse_number s D neg = Integer y
                    /\ integer_value y = (if neg then - decimal D else decimal D)
                    /\ (Ascii.eqb (peek D) "0" = false -> integer_wf y))
    as (y & Ey & Vy & Wy).
  { rewrite (parse_number_plain s D neg N A). cbv zeta.
    destruct (Z.of_nat (length D) <? LOG_BASE).
    - eexists. split; [reflexivity|]. rewrite integer_from_int_value, Ps.
      split; [reflexivity|]. intros _. apply integer_from_int_wf.
    - destruct (parse_chunks_numeral neg D N A) as (ds & E & _ & O & V & T).
      fold s in E. rewrite E. eexists. split; [reflexivity|].
      cbn [zero_fill]. rewrite integer_bigint_value, bigint_value_flag, V.
      split; [reflexivity|]. intros P0. apply integer_bigint_wf.
      split; [exact O | left; exact (T P0)]. }
  exists y. split; [|split; [exact Vy | exact Wy]]. rewrite <- Ey. unfold s. destruct neg.
  - reflexivity.
  - destruct D as [|c D']; [congruence|]. cbn [app peek].
    assert (isdigit c = true) as Hc
      by (cbn [forallb] in A; apply andb_prop in A; tauto).
    destruct (isdigit_not_sign c Hc) as [E1 E2]. rewrite E1, E2. reflexivity.
Qed.

End ParseNumeral.

Section ToString.
Context {range : smallint_range}.

(** What [integer_to_string] returns for an integer whose small values
    fit the 63 characters [int_to_string] can write: a minus sign when the
    value is negative, and the decimal numeral of the magnitude. *)
Lemma integer_to_string_spec (x : integer_t) :
  - Dpow 63 < SMALLINT_MIN -> SMALLINT_MAX < Dpow 63 -> integer_ok x ->
  exists D,
    integer_to_string x
    = string_of_list_ascii
        ((if integer_value x <? 0 then ["-"%char] else []) ++ D)
    /\ plain_numeral D /\ decimal D = Z.abs (integer_value x).
Proof.
  intros Hmin Hmax Hok. destruct x as [i|b]; cbn [integer_ok] in Hok.
  - cbn [integer_to_string integer_value]. apply int_to_string_spec. lia.
  - cbn [integer_to_string integer_value]. unfold bigint_to_string.
    destruct (bigint_to_buf_spec b Hok) as (D & E & N & A & P & V).
    destruct Hok as ((Hd & Ht) & Hne).
    pose proof (eval_trimmed_pos _ Hd Ht Hne) as Pos.
    exists D. rewrite E, bigint_value_flag'.
    assert (((if is_neg b then - eval (digits b) else eval (digits b)) <? 0)
            = is_neg b) as Es.
    { destruct (is_neg b); [apply Z.ltb_lt | apply Z.ltb_ge]; lia. }
    rewrite Es. repeat split; try assumption.
    + intros Z0. rewrite Z0 in P. discriminate.
    + rewrite V. destruct (is_neg b); lia.
Qed.

End ToString.

(** ** Comparing integers of one value *)

Lemma integer_cmp_generic_same `{smallint_range} (x y : integer_t) :
  integer_wf x -> integer_wf y ->
  integer_value x = integer_value y -> integer_value x <> 0 ->
  integer_cmp_generic x y = 0.
Proof.
  intros [Ox Tx] [Oy Ty] E N. unfold integer_cmp_generic.
  pose proof (integer_to_bigint_value x) as Vx.
  pose proof (integer_to_bigint_value y) as Vy.
  rewrite bigint_value_flag' in Vx, Vy.
  set (bx := integer_to_bigint x) in *. set (by_ := integer_to_bigint y) in *.
  pose proof (eval_nonneg _ Ox) as Px. pose proof (eval_nonneg _ Oy) as Py.
  assert (trimmed (digits bx)) as Tx'.
  { destruct Tx as [T|T]; [exact T|]. rewrite T in Vx. cbn [eval] in Vx.
    destruct (is_neg bx); lia. }
  assert (trimmed (digits by_)) as Ty'.
  { destruct Ty as [T|T]; [exact T|]. rewrite T in Vy. cbn [eval] in Vy.
    destruct (is_neg by_); lia. }
  assert (bx = by_) as ->.
  { apply bigint_eq; [split; assumption | split; assumption | |];
      destruct (is_neg bx), (is_neg by_); try reflexivity; lia. }
  apply bigint_compare_refl.
Qed.

(** ** Signum *)

Lemma from_int_digits_count fuel i : (1 <= length (from_int_digits fuel i))%nat.
Proof. destruct fuel; simpl; lia. Qed.

Lemma bigint_from_int_count i : (1 <= count (bigint_from_int i))%nat.
Proof. unfold bigint_from_int, count. simpl. apply from_int_digits_count. Qed.

Lemma bigint_from_int_is_neg i : is_neg (bigint_from_int i) = (i <? 0).
Proof. reflexivity. Qed.

(** On a small integer the zero test of [integer_signum_generic] never
    succeeds: the result is [-1] below zero and [1] from zero on. *)
Lemma integer_signum_generic_small i :
  integer_signum_generic (Small i) = if i <? 0 then -1 else 1.
Proof.
  unfold integer_signum_generic. simpl integer_to_bigint.
  rewrite bigint_from_int_is_neg. destruct (i <? 0); [reflexivity|].
  pose proof (bigint_from_int_count i) as H.
  destruct (count (bigint_from_int i)) eqn:E; [lia|]. reflexivity.
Qed.

(** C9, at the failing input: [integer_signum_generic] answers [1] for the
    integer zero (for the small integer [0] and for a bigint with the one
    digit [0] alike), where the claim has [0]: the zero test asks for
    [count == 0], and zero converted by [bigint_from_int] has one digit. *)
Theorem integer_signum_generic_zero :
  integer_signum_generic (Small 0) = 1
  /\ integer_signum_generic (Big (mk_bigint false [0])) = 1.
Proof. split; reflexivity. Qed.

(** ** Decimal scaling by a big exponent *)

(** C7, at the failing inputs: with a Big exponent [integer_mul_pow10] and
    [integer_div_pow10] return the small integer [0], an integer value and
    no error, whatever [x] is. *)
Theorem pow10_big_exponent_returns_zero `{smallint_range} :
  forall (x : integer_t) (b : bigint_t),
    integer_mul_pow10 x (Big b) = Some (Integer (Small 0))
    /\ integer_div_pow10 x (Big b) = Some (Integer (Small 0)).
Proof.
  intros x b. unfold integer_mul_pow10, integer_div_pow10. simpl.
  destruct (integer_eqb_small x 0); split; reflexivity.
Qed.

(** ** Division by zero *)

Lemma bigint_value_canonical_nonzero b : canonical b -> bigint_value b <> 0.
Proof.
  intros [[Hok Ht] Hne]. unfold bigint_value, bigint_sign_, bigint_is_neg_.
  pose proof (eval_trimmed_pos _ Hok Ht Hne).
  destruct (is_neg b); lia.
Qed.

(** A well-formed integer of value zero is the small integer [0]. *)
Lemma integer_zero_is_small `{smallint_range} (y : integer_t) :
  integer_ok y -> integer_value y = 0 -> y = Small 0.
Proof.
  destruct y as [i|b]; simpl; intros Hok Hv.
  - congruence.
  - exfalso. exact (bigint_value_canonical_nonzero b Hok Hv).
Qed.

Lemma integer_div_mod_generic_zero `{smallint_range} (x : integer_t) (m : bool) :
  integer_div_mod_generic x (Small 0) m = Some (Word_0, None).
Proof. reflexivity. Qed.

(** C8: with a divisor of value zero, [integer_div_mod_generic],
    [integer_div_generic] and [integer_mod_generic] return the word [0],
    which is not an integer, and store no remainder. *)
Theorem division_by_zero_reported `{smallint_range} :
  forall (x y : integer_t),
    integer_ok y -> integer_value y = 0 ->
    (forall want_mod, integer_div_mod_generic x y want_mod = Some (Word_0, None))
    /\ integer_div_generic x y = Some Word_0
    /\ integer_mod_generic x y = Some Word_0
    /\ is_integer Word_0 = false.
Proof.
  intros x y Hok Hv. rewrite (integer_zero_is_small y Hok Hv).
  repeat split.
Qed.

Lemma division_by_zero_reported_witness :
  (forall want_mod,
      integer_div_mod_generic (range := small_range 29)
        (Big (mk_bigint false [5; 7])) (Small 0) want_mod = Some (Word_0, None))
  /\ integer_div_generic (range := small_range 29)
       (Big (mk_bigint false [5; 7])) (Small 0) = Some Word_0
  /\ integer_mod_generic (range := small_range 29)
       (Big (mk_bigint false [5; 7])) (Small 0) = Some Word_0
  /\ is_integer Word_0 = false.
Proof.
  apply (@division_by_zero_reported (small_range 29)
           (Big (mk_bigint false [5; 7])) (Small 0)).
  - simpl. lia.
  - reflexivity.
Defined.

(** ** Parsing: the scenarios of section 8.4 *)

(** C5 fails at its third string: ["1.5e1"] is parsed to the integer
    fifteen. *)
Lemma parse_1_5e1_is_15 :
  integer_parse (range := small_range 29) "1.5e1" = Integer (Small 15).
Proof. vm_compute. reflexivity. Qed.

(** C5, amended: ["1.5e3"] is parsed to 1500, ["1.5e2"] to 150 and
    ["1.5e1"] to 15; none of them is an error. *)
Theorem parse_scenarios `{smallint_range} :
  integer_parse "1.5e3" = Integer (integer_from_int 1500)
  /\ integer_parse "1.5e2" = Integer (integer_from_int 150)
  /\ integer_parse "1.5e1" = Integer (integer_from_int 15)
  /\ integer_value (integer_from_int 1500) = 1500
  /\ integer_value (integer_from_int 150) = 150
  /\ integer_value (integer_from_int 15) = 15.
Proof.
  repeat split; try reflexivity; apply integer_from_int_value.
Qed.

(** ** Normalisation of results *)

Lemma sub_abs_digits_self xs : sub_abs_digits xs xs 0 = repeat 0 (length xs).
Proof.
  induction xs as [|x r IH]; [reflexivity|].
  cbn [sub_abs_digits length repeat].
  replace (x - 0 - x) with 0 by ring.
  cbn [Z.ltb Z.compare]. rewrite IH. reflexivity.
Qed.

Lemma bigint_sub_abs_self x : bigint_sub_abs x x = mk_bigint (is_neg x) [].
Proof.
  unfold bigint_sub_abs. rewrite sub_abs_digits_self.
  unfold bigint_trim, bigint_trim_to, count. cbn [digits is_neg].
  rewrite trim_count_repeat_0. reflexivity.
Qed.

(** C2, at the failing inputs: the difference of a Big integer and itself
    is returned as a Big integer with no digit at all; its value is zero,
    which fits in a Small, and [integer_bigint] leaves it Big because it
    only looks at results of exactly one digit. *)
Theorem sub_big_self_stays_big `{smallint_range} :
  forall b : bigint_t,
    integer_sub_generic (Big b) (Big b) = Big (mk_bigint (is_neg b) [])
    /\ integer_value (integer_sub_generic (Big b) (Big b)) = 0.
Proof.
  intros b.
  assert (integer_sub_generic (Big b) (Big b) = Big (mk_bigint (is_neg b) [])) as E.
  { unfold integer_sub_generic, integer_to_bigint, bigint_sub, bigint_is_neg_.
    rewrite Bool.eqb_reflx. cbn [negb].
    unfold bigint_sub_same. rewrite bigint_compare_abs_refl.
    cbn [Z.geb Z.compare]. rewrite bigint_sub_abs_self. reflexivity. }
  split; [exact E|]. rewrite E.
  unfold integer_value, bigint_value. cbn [digits eval]. lia.
Qed.

(** What [integer_bigint] does achieve: a result of one digit that is at
    most [SMALLINT_MAX] becomes Small, with its sign. *)
Lemma integer_bigint_one_digit `{smallint_range} (neg : bool) (d : Z) :
  d <= SMALLINT_MAX ->
  integer_bigint (mk_bigint neg [d]) = Small (if neg then - d else d).
Proof.
  intros Hd. unfold integer_bigint, count, digit_at. cbn [digits length nth is_neg].
  rewrite Nat.eqb_refl. apply Z.leb_le in Hd. rewrite Hd. reflexivity.
Qed.

Lemma bigint_from_int_small i :
  0 <= i < BASE -> bigint_from_int i = mk_bigint false [i].
Proof.
  intros Hi. unfold bigint_from_int.
  destruct (i <? 0) eqn:E; [apply Z.ltb_lt in E; lia|].
  rewrite from_int_digits_small by exact Hi. reflexivity.
Qed.

(** The boundary case of section 8.3, on a host whose small integers stay
    below [BASE]: [SMALLINT_MAX + 1] is Big, and subtracting one from it
    gives the Small [SMALLINT_MAX]. *)
Lemma succ_max_minus_one `{smallint_range} :
  1 <= SMALLINT_MAX -> SMALLINT_MAX + 1 < BASE ->
  integer_from_int (SMALLINT_MAX + 1) = Big (mk_bigint false [SMALLINT_MAX + 1])
  /\ integer_sub_generic (integer_from_int (SMALLINT_MAX + 1)) (Small 1)
     = Small SMALLINT_MAX.
Proof.
  intros H1 H2.
  assert (integer_from_int (SMALLINT_MAX + 1)
          = Big (mk_bigint false [SMALLINT_MAX + 1])) as E.
  { unfold integer_from_int.
    replace (SMALLINT_MAX + 1 <=? SMALLINT_MAX) with false
      by (symmetry; apply Z.leb_gt; lia).
    rewrite andb_false_r. unfold integer_from_big.
    rewrite bigint_from_int_small by lia. reflexivity. }
  split; [exact E|]. rewrite E.
  unfold integer_sub_generic, integer_to_bigint.
  rewrite (bigint_from_int_small 1) by (rewrite BASE_eq; lia).
  unfold bigint_sub, bigint_is_neg_. cbn [is_neg Bool.eqb negb].
  unfold bigint_sub_same, bigint_compare_abs_, count.
  cbn [digits length Nat.ltb Nat.leb compare_digits digit_at nth].
  assert (bigint_sub_abs (mk_bigint false [SMALLINT_MAX + 1]) (mk_bigint false [1])
          = mk_bigint false [SMALLINT_MAX]) as S.
  { unfold bigint_sub_abs. cbn [digits is_neg sub_abs_digits sub_abs_borrow].
    replace (SMALLINT_MAX + 1 - 0 - 1) with SMALLINT_MAX by ring.
    replace (SMALLINT_MAX <? 0) with false by (symmetry; apply Z.ltb_ge; lia).
    apply bigint_trim_id. unfold trimmed. cbn [digits last]. lia. }
  destruct (negb (SMALLINT_MAX + 1 =? 1)) eqn:N.
  - replace (SMALLINT_MAX + 1 >? 1) with true by (symmetry; apply Z.gtb_lt; lia).
    cbn [Z.geb Z.compare]. rewrite S.
    rewrite integer_bigint_one_digit by lia. reflexivity.
  - cbn [Z.geb Z.compare]. rewrite S.
    rewrite integer_bigint_one_digit by lia. reflexivity.
Qed.

(** ** Bounds of [bigint_sub_abs] *)

Module BufFacts.
Import Buf.
Import BufData.

Lemma avail_kept_refl s : avail_kept s s.
Proof. repeat split. Qed.

Lemma avail_kept_trans s1 s2 s3 :
  avail_kept s1 s2 -> avail_kept s2 s3 -> avail_kept s1 s3.
Proof. unfold avail_kept. intros (A & B & C) (D & E & F). repeat split; congruence. Qed.

Lemma load_ok w b i :
  (i < bigint_available_ b)%nat -> load w b i = inr (nth i (digits b) 0).
Proof. intros H. unfold load. apply Nat.ltb_lt in H. rewrite H. reflexivity. Qed.

Lemma load_fault w b i :
  (bigint_available_ b <= i)%nat ->
  load w b i = inl (Out_of_bounds w i (bigint_available_ b)).
Proof. intros H. unfold load. apply Nat.ltb_ge in H. rewrite H. reflexivity. Qed.

Lemma store_z_ok s i d :
  (i < bigint_available_ (st_z s))%nat -> st_same s = false ->
  exists s', store_z s i d = inr s' /\ avail_kept s s'.
Proof.
  intros H Hs. unfold store_z, store. apply Nat.ltb_lt in H. rewrite H.
  cbn [bind ret]. rewrite Hs. eexists. split; [reflexivity|].
  repeat split. cbn. congruence.
Qed.

Lemma store_z_fault s i d :
  (bigint_available_ (st_z s) <= i)%nat ->
  store_z s i d = inl (Out_of_bounds buf_z i (bigint_available_ (st_z s))).
Proof.
  intros H. unfold store_z, store. apply Nat.ltb_ge in H. rewrite H. reflexivity.
Qed.

Lemma sub_digits_run n : forall i y borrow s,
  (i + n <= bigint_available_ (st_x s))%nat ->
  (i + n <= bigint_available_ (st_z s))%nat ->
  (i + n <= bigint_available_ y)%nat ->
  st_same s = false ->
  exists b' s', sub_digits n i y borrow s = inr ((i + n)%nat, b', s')
                /\ avail_kept s s'.
Proof.
  induction n as [|n IH]; intros i y borrow s Hx Hz Hy Hs.
  - exists borrow, s. rewrite Nat.add_0_r. split; [reflexivity|apply avail_kept_refl].
  - cbn [sub_digits]. rewrite load_ok by lia. cbn [bind].
    rewrite load_ok by lia. cbn [bind].
    match goal with |- context [if ?c then _ else _] => destruct c end.
    + destruct (store_z_ok s i (nth i (digits (st_x s)) 0 - borrow
                                 - nth i (digits y) 0 + BASE) ltac:(lia) Hs)
        as (s1 & E1 & K1).
      rewrite E1. cbn [bind]. destruct K1 as (A & B & C).
      destruct (IH (S i) y 1 s1) as (b' & s' & E & K); try lia; try congruence.
      exists b', s'. rewrite E. replace (S i + n)%nat with (i + S n)%nat by lia.
      split; [reflexivity|].
      apply (avail_kept_trans s s1 s'); [repeat split; assumption | exact K].
    + destruct (store_z_ok s i (nth i (digits (st_x s)) 0 - borrow
                                 - nth i (digits y) 0) ltac:(lia) Hs)
        as (s1 & E1 & K1).
      rewrite E1. cbn [bind]. destruct K1 as (A & B & C).
      destruct (IH (S i) y 0 s1) as (b' & s' & E & K); try lia; try congruence.
      exists b', s'. rewrite E. replace (S i + n)%nat with (i + S n)%nat by lia.
      split; [reflexivity|].
      apply (avail_kept_trans s s1 s'); [repeat split; assumption | exact K].
Qed.

Lemma sub_borrow_run n : forall i borrow s,
  (i + n <= bigint_available_ (st_x s))%nat ->
  (i + n <= bigint_available_ (st_z s))%nat ->
  st_same s = false ->
  exists i' b' s', sub_borrow n i borrow s = inr (i', b', s')
                   /\ (i <= i' <= i + n)%nat /\ avail_kept s s'.
Proof.
  induction n as [|n IH]; intros i borrow s Hx Hz Hs.
  - exists i, borrow, s. split; [reflexivity|]. split; [lia|apply avail_kept_refl].
  - cbn [sub_borrow]. destruct (borrow =? 0).
    + exists i, borrow, s. split; [reflexivity|]. split; [lia|apply avail_kept_refl].
    + rewrite load_ok by lia. cbn [bind].
      match goal with |- context [if ?c then _ else _] => destruct c end.
      * destruct (store_z_ok s i (nth i (digits (st_x s)) 0 - borrow + BASE)
                    ltac:(lia) Hs) as (s1 & E1 & K1).
        rewrite E1. cbn [bind]. destruct K1 as (A & B & C).
        destruct (IH (S i) borrow s1) as (i' & b' & s' & E & R & K);
          try lia; try congruence.
        exists i', b', s'. rewrite E. split; [reflexivity|]. split; [lia|].
        apply (avail_kept_trans s s1 s'); [repeat split; assumption | exact K].
      * destruct (store_z_ok s i (nth i (digits (st_x s)) 0 - borrow)
                    ltac:(lia) Hs) as (s1 & E1 & K1).
        rewrite E1. cbn [bind]. destruct K1 as (A & B & C).
        destruct (IH (S i) 0 s1) as (i' & b' & s' & E & R & K);
          try lia; try congruence.
        exists i', b', s'. rewrite E. split; [reflexivity|]. split; [lia|].
        apply (avail_kept_trans s s1 s'); [repeat split; assumption | exact K].
Qed.

(** The copy of the tail runs up to index [cx] included, and the result
    has [cx] slots: the run ends there, on the read of [x] or on the write
    to [z]. *)
Lemma sub_copy_tail_fault n : forall i s cx,
  (i + n = cx + 1)%nat -> (1 <= n)%nat ->
  bigint_available_ (st_z s) = cx ->
  (cx <= bigint_available_ (st_x s))%nat ->
  st_same s = false ->
  exists w a, sub_copy_tail n i s = inl (Out_of_bounds w cx a) /\ (a <= cx)%nat.
Proof.
  induction n as [|n IH]; intros i s cx Hn H1 Hz Hx Hs; [lia|].
  cbn [sub_copy_tail].
  destruct (Nat.eq_dec i cx) as [->|Hne].
  - destruct (Nat.lt_ge_cases cx (bigint_available_ (st_x s))) as [L|G].
    + rewrite load_ok by exact L. cbn [bind].
      rewrite store_z_fault by lia. cbn [bind].
      exists buf_z, (bigint_available_ (st_z s)). split; [reflexivity|lia].
    + rewrite load_fault by exact G. cbn [bind].
      exists buf_x, (bigint_available_ (st_x s)). split; [reflexivity|lia].
  - rewrite load_ok by lia. cbn [bind].
    destruct (store_z_ok s i (nth i (digits (st_x s)) 0) ltac:(lia) Hs)
      as (s1 & E1 & (A & B & C)).
    rewrite E1. cbn [bind].
    apply (IH (S i) s1 cx); try lia; congruence.
Qed.

Lemma bigint_roundup_count_even n :
  (4 <= n)%nat -> Nat.even n = true -> bigint_roundup_count n = n.
Proof.
  intros H4 He. unfold bigint_roundup_count.
  replace (n <? 4)%nat with false by (symmetry; apply Nat.ltb_ge; lia).
  rewrite <- Nat.negb_even, He. reflexivity.
Qed.

(** Whenever the result is a fresh buffer and [x] has an even number of
    digits, four or more, [bigint_sub_abs] steps outside a buffer at index
    [count x]. *)
Lemma bigint_sub_abs_shared_fault (x y : bigint_s) :
  (4 <= count x)%nat -> Nat.even (count x) = true ->
  (count y <= count x)%nat ->
  exists w a, bigint_sub_abs false x y = inl (Out_of_bounds w (count x) a)
              /\ (a <= count x)%nat.
Proof.
  intros H4 He Hy. unfold bigint_sub_abs, bigint_alloc_reuse_, bigint_count_.
  rewrite andb_false_r.
  set (z := bigint_alloc (count x) (is_neg x)).
  assert (bigint_available_ z = count x) as Az.
  { unfold z, bigint_alloc, bigint_available_. cbn [count extra].
    rewrite bigint_roundup_count_even by assumption. lia. }
  set (s := mk_state x z false).
  destruct (sub_digits_run (count y) 0 y 0 s) as (b1 & s1 & E1 & (A1 & B1 & C1)).
  { cbn [st_x s]. unfold bigint_available_. lia. }
  { cbn [st_z s]. lia. }
  { unfold bigint_available_. lia. }
  { reflexivity. }
  rewrite E1. cbn [bind].
  destruct (sub_borrow_run (count x - (0 + count y)) (0 + count y) b1 s1)
    as (i2 & b2 & s2 & E2 & R2 & (A2 & B2 & C2)).
  { rewrite A1. cbn [st_x s]. unfold bigint_available_. lia. }
  { rewrite B1. cbn [st_z s]. lia. }
  { rewrite C1. reflexivity. }
  rewrite E2. cbn [bind].
  assert (st_same s2 = false) as S2 by (rewrite C2, C1; reflexivity).
  rewrite S2. cbn [negb].
  destruct (sub_copy_tail_fault (count x + 1 - i2) i2 s2 (count x))
    as (w & a & E3 & La); try lia.
  { rewrite B2, B1. exact Az. }
  { rewrite A2, A1. cbn [st_x s]. unfold bigint_available_. lia. }
  { exact S2. }
  rewrite E3. cbn [bind]. exists w, a. split; [reflexivity|exact La].
Qed.

End BufFacts.

(** C10, at the failing input: [x] has four digits in a buffer of four
    slots and is shared, so the result is a fresh buffer of four slots;
    the loop that copies the tail runs while [i <= cx] and reads
    [x->digits[4]].  With spare slots in [x] the read is inside and it is
    the write [z->digits[4]] that is outside. *)
Theorem bigint_sub_abs_tail_copy_out_of_bounds :
  Buf.bigint_sub_abs false BufData.x4 BufData.y1
    = inl (Buf.Out_of_bounds Buf.buf_x 4 4)
  /\ Buf.bigint_sub_abs false BufData.x4' BufData.y1
    = inl (Buf.Out_of_bounds Buf.buf_z 4 4).
Proof. split; vm_compute; reflexivity. Qed.

(** ** Karatsuba against schoolbook multiplication *)

Lemma digits_ok_repeat d n : 0 <= d < BASE -> digits_ok (repeat d n).
Proof.
  intros Hd. unfold digits_ok. apply Forall_forall. intros x Hx.
  apply repeat_spec in Hx. subst. exact Hd.
Qed.

(** C4, at the failing input: [x] of 53 digits and [y] of 27 digits, all
    of them [1].  At the cut [n = 27] the upper slice of [y] is the one
    digit [0].  The product of the two upper slices, of 26 digits and of
    one, is taken by [bigint_mul_karatsuba] again, and there the partial
    product [ac] is a zero that [bigint_mul] has trimmed to no digits;
    [bigint_add(ac, p1, ...)] passes it to [bigint_add_abs], which reads
    [digits[count-1]].  [bigint_mul] returns the product of the two. *)
Theorem karatsuba_reads_before_digits :
  let x := mk_bigint false (repeat 1 53) in
  let y := mk_bigint false (repeat 1 27) in
  Checked.bigint_mul_karatsuba x y = inl Checked.Read_before_digits
  /\ bigint_value (bigint_mul x y) = bigint_value x * bigint_value y.
Proof. split; vm_compute; reflexivity. Qed.

(** ** Division: quotient and remainder *)

Lemma integer_div_mod_generic_quotient `{smallint_range} (x y : integer_t) :
  option_map fst (integer_div_mod_generic x y false)
  = option_map fst (integer_div_mod_generic x y true).
Proof.
  unfold integer_div_mod_generic, integer_div_mod_full.
  destruct y as [yi|yb];
    repeat match goal with
           | |- context [if ?c then _ else _] => destruct c
           | |- context [bigint_div_mod_small ?a ?b] =>
               destruct (bigint_div_mod_small a b)
           | |- context [bigint_div_mod ?a ?b] => destruct (bigint_div_mod a b) as [[? ?]|]
           end; reflexivity.
Qed.

(** For [x = 1000000005] and [y = -2000000007], of opposite signs, the
    quotient returned is [0], which is not negative (and the remainder is
    [x]). *)
Lemma quotient_zero_not_negative :
  let x := Big (mk_bigint false [5; 1]) in
  let y := Big (mk_bigint true [7; 2]) in
  integer_value x = 1000000005 /\ integer_value y = -2000000007
  /\ exists q,
       integer_div_mod_generic (range := small_range 29) x y true
         = Some (Integer q, Some x)
       /\ Z.sgn (integer_value x) * Z.sgn (integer_value y) < 0
       /\ ~ integer_value q < 0.
Proof.
  cbv zeta. split; [reflexivity|]. split; [reflexivity|].
  exists (Small 0). split; [reflexivity|]. split; [reflexivity|].
  cbn [integer_value]. lia.
Qed.

(** For well-formed [x] and [y] with [y] not zero,
    [integer_div_mod_generic], [integer_div_generic] and
    [integer_mod_generic] return a quotient [q] and a remainder [r] whose
    values are those of truncated division: [x = q * y + r] as numbers,
    [|r| < |y|], the sign of [r] zero or that of [x], and [q] negative
    exactly when [x] and [y] have opposite signs and [|x| >= |y|]. *)
Lemma integer_div_mod_generic_values `{smallint_range} :
  forall x y : integer_t,
    integer_ok x -> integer_ok y -> integer_value y <> 0 ->
    exists q r : integer_t,
      integer_div_mod_generic x y true = Some (Integer q, Some r)
      /\ integer_div_generic x y = Some (Integer q)
      /\ integer_mod_generic x y = Some (Integer r)
      /\ integer_value q = Z.quot (integer_value x) (integer_value y)
      /\ integer_value r = Z.rem (integer_value x) (integer_value y)
      /\ integer_value x = integer_value q * integer_value y + integer_value r
      /\ Z.abs (integer_value r) < Z.abs (integer_value y)
      /\ (Z.sgn (integer_value r) = 0
          \/ Z.sgn (integer_value r) = Z.sgn (integer_value x))
      /\ (integer_value q < 0 <->
          Z.sgn (integer_value x) * Z.sgn (integer_value y) < 0
          /\ Z.abs (integer_value y) <= Z.abs (integer_value x)).
Proof.
  intros x y Hx Hy Hv.
  destruct (integer_div_mod_generic_spec x y true Hx Hy Hv)
    as (q & r & E & Wq & Wr & Vq & Vr).
  exists q, r. split; [exact E|].
  split.
  { unfold integer_div_generic. rewrite integer_div_mod_generic_quotient, E.
    reflexivity. }
  split.
  { unfold integer_mod_generic. rewrite E. reflexivity. }
  split; [exact Vq|]. split; [exact Vr|].
  assert (integer_value x = integer_value q * integer_value y + integer_value r)
    as Id.
  { rewrite Vq, Vr. pose proof (Z.quot_rem' (integer_value x) (integer_value y)). lia. }
  split; [exact Id|].
  clear Id. rewrite Vq, Vr.
  set (a := integer_value x) in *. set (b := integer_value y) in *.
  split.
  { apply Z.rem_bound_abs. exact Hv. }
  split.
  { destruct (Z.eq_dec (Z.rem a b) 0) as [Z0|NZ].
    - left. rewrite Z0. reflexivity.
    - right. apply Z.rem_sign_nz; assumption. }
  rewrite (Z.quot_div a b Hv).
  assert (0 < Z.abs b) as Pb by lia.
  pose proof (Z.abs_nonneg a) as Pa.
  assert (0 <= Z.abs a / Z.abs b) as Pd by (apply Z.div_pos; lia).
  split.
  - intros Hneg.
    assert (Z.sgn a * Z.sgn b < 0) as Hs by nia.
    split; [exact Hs|].
    destruct (Z_le_gt_dec (Z.abs b) (Z.abs a)) as [|G]; [assumption|].
    rewrite Z.div_small in Hneg by lia. lia.
  - intros [Hs Hle].
    assert (0 < Z.abs a / Z.abs b) as Hd by (apply Z.div_str_pos; lia).
    nia.
Qed.

(** C1, at the failing input: [x = 1000000005] and [y = 2000000007], two
    big integers.  The quotient is the small integer [0] and the
    remainder is [x], so the numbers satisfy [x = q * y + r]; but the
    product [mul(q, y)] is a zero that [bigint_mul] has trimmed to no
    digits and [integer_bigint] has left big, and [integer_add_generic],
    adding it to the remainder, reads [digits[count-1]] of it in
    [bigint_add_abs]. *)
Theorem division_identity_reads_before_digits `{smallint_range} :
  let x := Big (mk_bigint false [5; 1]) in
  let y := Big (mk_bigint false [7; 2]) in
  let p := Big (mk_bigint false []) in
  integer_div_generic x y = Some (Integer (Small 0))
  /\ integer_mod_generic x y = Some (Integer x)
  /\ integer_value x = integer_value (Small 0) * integer_value y + integer_value x
  /\ Checked.integer_mul_generic (Small 0) y = inr p
  /\ Checked.integer_add_generic p x = inl Checked.Read_before_digits.
Proof. repeat split. Qed.

(* ---------------------------------------------------------------------- *)
(** ** The literals [integer_parse] accepts *)




(* ---------------------------------------------------------------------- *)
(** ** Printing and reading back *)

(** C3: for every well-formed integer [x] -- on a host whose small
    integers are written by [int_to_string] within its 63 characters --
    [integer_parse (integer_to_string x)] is an integer of the same value
    as [x], and equal to [x] for [integer_cmp_generic]; and [integer_to_string x] is a minus sign exactly when [x] is
    negative, followed by a numeral of decimal digits only (so no ['+'] and
    no second ['-']) that has no leading zero: its first digit is ['0']
    only when the numeral is ["0"]. *)
Theorem to_string_parse_round_trip `{smallint_range} (x : integer_t) :
  - Dpow 63 < SMALLINT_MIN -> SMALLINT_MAX < Dpow 63 -> integer_ok x ->
  (exists y, integer_parse (integer_to_string x) = Integer y
             /\ integer_value y = integer_value x
             /\ integer_cmp_generic y x = 0)
  /\ exists D,
       integer_to_string x
       = string_of_list_ascii
           ((if integer_value x <? 0 then ["-"%char] else []) ++ D)
       /\ plain_numeral D.
Proof.
  intros Hmin Hmax Hok.
  destruct (integer_to_string_spec x Hmin Hmax Hok) as (D & E & Hp & V).
  split; [|exists D; split; assumption].
  destruct (Z.eq_dec (integer_value x) 0) as [Z0|NZ].
  - (* zero is the small integer 0, printed "0" *)
    rewrite (integer_zero_is_small x Hok Z0).
    exists (integer_from_int 0). split; [reflexivity|].
    split; [apply integer_from_int_value|].
    unfold integer_cmp_generic, integer_from_int.
    destruct ((SMALLINT_MIN <=? 0) && (0 <=? SMALLINT_MAX)); reflexivity.
  - destruct Hp as (N & A & Z1).
    assert (Ascii.eqb (peek D) "0" = false) as P0.
    { destruct (Ascii.eqb (peek D) "0") eqn:P; [|reflexivity].
      rewrite (Z1 eq_refl) in V. change (decimal ["0"%char]) with 0 in V. lia. }
    destruct (integer_parse_numeral (integer_value x <? 0) D N A)
      as (y & Ey & Vy & Wy).
    assert (integer_value y = integer_value x) as Vyx.
    { rewrite Vy, V. destruct (integer_value x <? 0) eqn:L;
        [apply Z.ltb_lt in L | apply Z.ltb_ge in L]; lia. }
    exists y. rewrite E. split; [exact Ey|]. split; [exact Vyx|].
    apply integer_cmp_generic_same;
      [exact (Wy P0) | apply integer_ok_wf; exact Hok | exact Vyx | lia].
Qed.

Lemma to_string_parse_round_trip_witness :
  let x := Big (mk_bigint true [123456789; 987654321; 42]) in
  (exists y, integer_parse (range := small_range 29)
               (integer_to_string x) = Integer y
             /\ integer_value y = integer_value x
             /\ integer_cmp_generic y x = 0)
  /\ exists D,
       integer_to_string x
       = string_of_list_ascii
           ((if integer_value x <? 0 then ["-"%char] else []) ++ D)
       /\ plain_numeral D.
Proof.
  intros x.
  apply (@to_string_parse_round_trip (small_range 29) x).
  - vm_compute. reflexivity.
  - vm_compute. reflexivity.
  - cbn [integer_ok x]. unfold canonical, bigint_ok, trimmed. cbn [digits last].
    repeat split; try lia; try discriminate.
    repeat (apply digits_ok_cons; split; [rewrite BASE_eq; lia|]). apply digits_ok_nil.
Defined.

(* ====================================================================== *)
(** * Part IV: further properties of the code *)
(* ====================================================================== *)

(* ---------------------------------------------------------------------- *)
(** ** More on addition, subtraction and comparison *)

Lemma add_abs_carry_zero xs : add_abs_carry xs 0 = xs.
Proof. destruct xs; reflexivity. Qed.

Lemma add_abs_carry_nonempty xs c :
  xs <> [] -> add_abs_carry xs c <> [].
Proof.
  destruct xs as [|x r]; [congruence|]. intros _. cbn [add_abs_carry].
  destruct (c =? 0); [discriminate|]. destruct (BASE <=? x + c); discriminate.
Qed.

Lemma add_abs_carry_trimmed xs : forall c,
  digits_ok xs -> 0 <= c <= 1 -> trimmed xs -> trimmed (add_abs_carry xs c).
Proof.
  induction xs as [|x r IH]; intros c Hx Hc Ht.
  - cbn [add_abs_carry]. destruct (c =? 0) eqn:E; cbn [negb].
    + apply trimmed_nil.
    + apply Z.eqb_neq in E. unfold trimmed. cbn [last]. exact E.
  - cbn [add_abs_carry]. destruct (c =? 0) eqn:E; [exact Ht|].
    apply Z.eqb_neq in E. assert (c = 1) by lia. subst c.
    apply digits_ok_cons in Hx. destruct Hx as [Hd Hr].
    destruct r as [|y r'].
    + destruct (BASE <=? x + 1); cbn [add_abs_carry Z.eqb negb];
        unfold trimmed; cbn [last]; lia.
    + assert (trimmed (y :: r')) as Tr
        by (apply (trimmed_cons x (y :: r')); [discriminate | exact Ht]).
      destruct (BASE <=? x + 1).
      * apply trimmed_cons; [apply add_abs_carry_nonempty; discriminate|].
        apply IH; [exact Hr | lia | exact Tr].
      * rewrite add_abs_carry_zero. apply trimmed_cons; [discriminate | exact Tr].
Qed.

Lemma add_abs_digits_nonempty xs ys c :
  xs <> [] -> add_abs_digits xs ys c <> [].
Proof.
  destruct xs as [|x r]; [congruence|]. intros _.
  destruct ys as [|y ys'].
  - apply add_abs_carry_nonempty. discriminate.
  - cbn [add_abs_digits]. destruct (BASE <=? x + y + c); discriminate.
Qed.

(** Adding to a trimmed number gives a trimmed number. *)
Lemma add_abs_digits_trimmed xs : forall ys c,
  digits_ok xs -> digits_ok ys -> (length ys <= length xs)%nat ->
  0 <= c <= 1 -> trimmed xs -> trimmed (add_abs_digits xs ys c).
Proof.
  induction xs as [|x r IH]; intros ys c Hx Hy Hl Hc Ht.
  - destruct ys as [|y ys']; [|cbn [length] in Hl; lia].
    cbn [add_abs_digits]. apply add_abs_carry_trimmed; assumption.
  - destruct ys as [|y ys'].
    + cbn [add_abs_digits]. apply add_abs_carry_trimmed; assumption.
    + cbn [add_abs_digits]. cbn [length] in Hl.
      apply digits_ok_cons in Hx. destruct Hx as [Hd Hr].
      apply digits_ok_cons in Hy. destruct Hy as [Hd' Hr'].
      destruct r as [|x' r'].
      * destruct ys' as [|? ?]; [|cbn [length] in Hl; lia].
        unfold trimmed in Ht. cbn [last] in Ht.
        destruct (BASE <=? x + y + c) eqn:E; cbn [add_abs_digits add_abs_carry];
          cbn [Z.eqb negb]; unfold trimmed; cbn [last]; [lia|].
        lia.
      * assert (trimmed (x' :: r')) as Tr
          by (apply (trimmed_cons x (x' :: r')); [discriminate | exact Ht]).
        destruct (BASE <=? x + y + c);
          (apply trimmed_cons; [apply add_abs_digits_nonempty; discriminate|]);
          apply IH; try assumption; cbn [length] in *; lia.
Qed.

Lemma bigint_add_same_wf x y yneg :
  bigint_wf x -> bigint_wf y -> bigint_wf (bigint_add_same x y yneg).
Proof.
  intros [Ox Tx] [Oy Ty].
  destruct (bigint_add_same_spec x y yneg Ox Oy) as (_ & O & _ & _).
  split; [exact O|]. clear O.
  unfold bigint_add_same, bigint_add_abs, count. cbn [digits is_neg].
  assert (forall a b, digits_ok a -> digits_ok b ->
            (trimmed a \/ a = [0]) -> (trimmed b \/ b = [0]) ->
            (length b <= length a)%nat ->
            trimmed (add_abs_digits a b 0) \/ add_abs_digits a b 0 = [0]) as Step.
  { intros a b Oa Ob [Ta|Ea] Tb Hl.
    - left. apply add_abs_digits_trimmed; auto. lia.
    - subst a. cbn [length] in Hl.
      destruct b as [|d [|d' r]]; [right; reflexivity | | cbn [length] in Hl; lia].
      apply digits_ok_cons in Ob. destruct Ob as [Hd _].
      cbn [add_abs_digits]. replace (0 + d + 0) with d by lia.
      replace (BASE <=? d) with false by (symmetry; apply Z.leb_gt; lia).
      cbn [add_abs_digits add_abs_carry Z.eqb negb].
      destruct (Z.eq_dec d 0) as [->|N]; [right; reflexivity|].
      left. unfold trimmed. cbn [last]. exact N. }
  destruct (length (digits x) <? length (digits y))%nat eqn:E; cbn [digits].
  - apply Nat.ltb_lt in E. apply Step; auto. lia.
  - apply Nat.ltb_ge in E. apply Step; auto.
Qed.

Lemma bigint_sub_same_value x y yneg :
  bigint_wf x -> bigint_wf y ->
  bigint_ok (bigint_sub_same x y yneg)
  /\ bigint_value (bigint_sub_same x y yneg)
     = if bigint_compare_abs_ x y >=? 0
       then (if is_neg x then -1 else 1) * (eval (digits x) - eval (digits y))
       else (if negb yneg then -1 else 1) * (eval (digits y) - eval (digits x)).
Proof.
  intros Wx Wy. pose proof (bigint_compare_abs_order x y Wx Wy) as Hc.
  destruct Wx as [Ox Tx]. destruct Wy as [Oy Ty].
  unfold bigint_sub_same.
  destruct (bigint_compare_abs_ x y >=? 0).
  - destruct Hc as [Hle Hcnt].
    destruct (bigint_sub_abs_spec x y Ox Oy Hcnt Hle) as (E & O & N).
    split; [exact O|]. rewrite bigint_value_flag', E, N.
    destruct (is_neg x); lia.
  - destruct Hc as [Hle Hcnt].
    destruct (bigint_sub_abs_spec y x Oy Ox Hcnt Hle) as (E & O & N).
    split; [exact O|]. rewrite bigint_value_flag. cbn [digits]. rewrite E.
    destruct (negb yneg); lia.
Qed.

Lemma bigint_add_wf x y :
  bigint_wf x -> bigint_wf y -> bigint_wf (bigint_add x y (is_neg y)).
Proof.
  intros Wx Wy. unfold bigint_add.
  destruct (negb (Bool.eqb (bigint_is_neg_ x) (is_neg y))).
  - apply bigint_ok_wf. apply (bigint_sub_same_value x y _ Wx Wy).
  - apply bigint_add_same_wf; assumption.
Qed.

Lemma bigint_sub_value x y :
  bigint_wf x -> bigint_wf y ->
  bigint_value (bigint_sub x y (is_neg y)) = bigint_value x - bigint_value y
  /\ bigint_wf (bigint_sub x y (is_neg y)).
Proof.
  intros Wx Wy. unfold bigint_sub, bigint_is_neg_.
  rewrite (bigint_value_flag' x), (bigint_value_flag' y).
  destruct (Bool.eqb (is_neg x) (is_neg y)) eqn:S; cbn [negb].
  - destruct (bigint_sub_same_value x y (is_neg y) Wx Wy) as [O V].
    split; [|apply bigint_ok_wf; exact O]. rewrite V.
    apply Bool.eqb_prop in S.
    destruct (bigint_compare_abs_ x y >=? 0); rewrite <- ?S;
      destruct (is_neg x); cbn [negb]; lia.
  - split; [|apply bigint_add_same_wf; assumption].
    destruct Wx as [Ox _]. destruct Wy as [Oy _].
    destruct (bigint_add_same_spec x y (negb (is_neg y)) Ox Oy) as (E & _ & N & _).
    rewrite bigint_value_flag', E, N.
    destruct (is_neg x), (is_neg y); try discriminate; cbn [negb]; lia.
Qed.

(** For operands that are not written with no digit at all, the comparison
    of magnitudes is exact. *)
Lemma bigint_compare_abs_wf x y :
  bigint_wf x -> bigint_wf y -> digits x <> [] -> digits y <> [] ->
  bigint_compare_abs_ x y = Z.sgn (eval (digits x) - eval (digits y)).
Proof.
  intros [Ox Tx] [Oy Ty] Nx Ny.
  destruct Ty as [Ty|Ey].
  - apply bigint_compare_abs_spec; auto. intros C. contradiction.
  - destruct Tx as [Tx|Ex].
    + unfold bigint_compare_abs_, count. rewrite Ey. cbn [eval length].
      pose proof (eval_trimmed_pos _ Ox Tx Nx) as Pos.
      rewrite Z.sgn_pos by lia.
      destruct (digits x) as [|d [|d' r]] eqn:Dx; [congruence| |reflexivity].
      cbn [length Nat.ltb Nat.leb compare_digits digit_at nth].
      apply digits_ok_cons in Ox. destruct Ox as [Hd _].
      unfold trimmed in Tx. cbn [last] in Tx.
      replace (d =? 0) with false by (symmetry; apply Z.eqb_neq; exact Tx).
      cbn [negb]. replace (d >? 0) with true by (symmetry; apply Z.gtb_lt; lia).
      reflexivity.
    + unfold bigint_compare_abs_, count. rewrite Ex, Ey. reflexivity.
Qed.

Section IntegerArithMore.
Context {range : smallint_range}.

(** The bigint behind a well-formed integer has at least one digit, and
    its sign flag is set exactly when the value is negative. *)
Lemma integer_to_bigint_sign (x : integer_t) :
  integer_ok x ->
  digits (integer_to_bigint x) <> []
  /\ is_neg (integer_to_bigint x) = (integer_value x <? 0).
Proof.
  destruct x as [i|b]; cbn [integer_ok integer_to_bigint integer_value].
  - intros _. split; [|apply bigint_from_int_is_neg].
    pose proof (bigint_from_int_count i) as C. unfold count in C.
    intros E. rewrite E in C. cbn [length] in C. lia.
  - intros [[O T] N]. split; [exact N|].
    pose proof (eval_trimmed_pos _ O T N) as P.
    rewrite bigint_value_flag'.
    destruct (is_neg b); symmetry; [apply Z.ltb_lt | apply Z.ltb_ge]; lia.
Qed.

Lemma integer_cmp_generic_spec (x y : integer_t) :
  integer_ok x -> integer_ok y ->
  integer_cmp_generic x y = Z.sgn (integer_value x - integer_value y).
Proof.
  intros Hx Hy. unfold integer_cmp_generic, bigint_compare_, bigint_sign_, bigint_is_neg_.
  destruct (integer_to_bigint_sign x Hx) as [Nx Sx].
  destruct (integer_to_bigint_sign y Hy) as [Ny Sy].
  pose proof (integer_ok_wf x Hx) as Wx. pose proof (integer_ok_wf y Hy) as Wy.
  unfold integer_wf in Wx, Wy.
  pose proof (integer_to_bigint_value x) as Vx.
  pose proof (integer_to_bigint_value y) as Vy.
  rewrite bigint_value_flag' in Vx, Vy.
  rewrite (bigint_compare_abs_wf _ _ Wx Wy Nx Ny).
  set (bx := integer_to_bigint x) in *. set (by_ := integer_to_bigint y) in *.
  destruct Wx as [Ox _]. destruct Wy as [Oy _].
  pose proof (eval_nonneg _ Ox) as Px. pose proof (eval_nonneg _ Oy) as Py.
  rewrite <- Vx, <- Vy. rewrite <- Vx in Sx. rewrite <- Vy in Sy.
  destruct (is_neg bx) eqn:Bx, (is_neg by_) eqn:By; cbn [Bool.eqb negb];
    symmetry in Sx, Sy;
    [apply Z.ltb_lt in Sx | apply Z.ltb_lt in Sx | apply Z.ltb_ge in Sx
     | apply Z.ltb_ge in Sx];
    [apply Z.ltb_lt in Sy | apply Z.ltb_ge in Sy | apply Z.ltb_lt in Sy
     | apply Z.ltb_ge in Sy].
  - replace (- eval (digits bx) - - eval (digits by_))
      with (- (eval (digits bx) - eval (digits by_))) by lia.
    rewrite Z.sgn_opp. lia.
  - symmetry. apply Z.sgn_neg. lia.
  - symmetry. apply Z.sgn_pos. lia.
  - lia.
Qed.

Lemma integer_sub_generic_value (x y : integer_t) :
  integer_wf x -> integer_wf y ->
  integer_value (integer_sub_generic x y) = integer_value x - integer_value y
  /\ integer_wf (integer_sub_generic x y).
Proof.
  intros Wx Wy. unfold integer_sub_generic.
  destruct (bigint_sub_value _ _ Wx Wy) as [V W].
  rewrite integer_bigint_value, V, !integer_to_bigint_value.
  split; [reflexivity | apply integer_bigint_wf; exact W].
Qed.

Lemma integer_add_generic_wf (x y : integer_t) :
  integer_wf x -> integer_wf y -> integer_wf (integer_add_generic x y).
Proof.
  intros Wx Wy. unfold integer_add_generic.
  apply integer_bigint_wf, bigint_add_wf; assumption.
Qed.

Lemma integer_neg_generic_value (x : integer_t) :
  integer_wf x ->
  integer_value (integer_neg_generic x) = - integer_value x
  /\ integer_wf (integer_neg_generic x).
Proof.
  intros Wx. unfold integer_neg_generic.
  rewrite integer_bigint_value. unfold bigint_neg. rewrite bigint_value_flag.
  rewrite <- (integer_to_bigint_value x), (bigint_value_flag' (integer_to_bigint x)).
  split; [destruct (is_neg (integer_to_bigint x)); cbn [negb]; lia|].
  apply integer_bigint_wf. exact Wx.
Qed.

End IntegerArithMore.

(* ---------------------------------------------------------------------- *)
(** ** Trailing zeros *)

(** The loop of [int_ctz] on a number that is not zero: it ends, having
    counted the largest power of ten that divides the number. *)
Lemma int_ctz_loop_spec fuel : forall x count,
  x <> 0 -> Z.log2 (Z.abs x) <= Z.of_nat fuel ->
  exists c, int_ctz_loop fuel x count = Some (count + c)
            /\ 0 <= c /\ (10 ^ c | x) /\ ~ (10 ^ (c + 1) | x).
Proof.
  induction fuel as [|f IH]; intros x count Hx Hl.
  - (* |x| = 1 *)
    assert (Z.abs x = 1) as E1.
    { destruct (Z_le_gt_dec 2 (Z.abs x)) as [G|G]; [|lia].
      pose proof (Z.log2_le_mono _ _ G) as M. change (Z.log2 2) with 1 in M. lia. }
    assert (Z.rem x 10 <> 0) as R.
    { intros R. pose proof (Z.quot_rem' x 10). lia. }
    cbn [int_ctz_loop].
    replace (Z.rem x 10 =? 0) with false by (symmetry; apply Z.eqb_neq; exact R).
    rewrite andb_false_r. exists 0. rewrite Z.add_0_r.
    repeat split; [lia | apply Z.divide_1_l |].
    intros D. apply R. apply Z.rem_divide; [lia | exact D].
  - cbn [int_ctz_loop].
    replace (x =? 0) with false by (symmetry; apply Z.eqb_neq; exact Hx).
    cbn [negb andb]. destruct (Z.rem x 10 =? 0) eqn:R.
    + apply Z.eqb_eq in R.
      pose proof (Z.quot_rem' x 10) as Q. rewrite R, Z.add_0_r in Q.
      set (q := Z.quot x 10) in *.
      assert (q <> 0) as Hq by lia.
      assert (Z.log2 (Z.abs q) <= Z.of_nat f) as Hl'.
      { assert (0 < Z.abs q) as Pq by lia.
        pose proof (Z.log2_double (Z.abs q) Pq) as Dq.
        assert (2 * Z.abs q <= Z.abs x) as H2 by lia.
        pose proof (Z.log2_le_mono _ _ H2). lia. }
      destruct (IH q (count + 1) Hq Hl') as (c & E & Hc & D1 & D2).
      exists (c + 1). rewrite E. repeat split; [f_equal; lia | lia | |].
      * rewrite Q, Z.pow_add_r, Z.pow_1_r, (Z.mul_comm (10 ^ c)) by lia.
        apply Z.mul_divide_mono_l. exact D1.
      * intros D. apply D2. rewrite Q in D.
        rewrite (Z.pow_add_r 10 (c + 1) 1), Z.pow_1_r, (Z.mul_comm (10 ^ (c + 1))) in D by lia.
        exact (proj1 (Z.mul_divide_cancel_l (10 ^ (c + 1)) q 10 ltac:(lia)) D).
    + apply Z.eqb_neq in R. exists 0. rewrite Z.add_0_r.
      repeat split; [lia | apply Z.divide_1_l |].
      intros D. apply R. apply Z.rem_divide; [lia | exact D].
Qed.

Lemma int_ctz_spec x :
  x <> 0 ->
  exists c, int_ctz x = Some c /\ 0 <= c /\ (10 ^ c | x) /\ ~ (10 ^ (c + 1) | x).
Proof.
  intros Hx. unfold int_ctz.
  destruct (int_ctz_loop_spec (Z.to_nat (Z.log2 (Z.abs x))) x 0 Hx) as (c & E & H).
  { pose proof (Z.log2_nonneg (Z.abs x)). lia. }
  exists c. rewrite E. split; [reflexivity | exact H].
Qed.

Lemma skipn_digit ds i :
  (i < length ds)%nat -> skipn i ds = digit_at ds i :: skipn (S i) ds.
Proof.
  revert i. induction ds as [|d r IH]; intros i H; cbn [length] in H; [lia|].
  destruct i; [reflexivity|]. cbn [skipn]. apply IH. lia.
Qed.

(** The scan of [bigint_ctz] stops at the first digit that is not zero, or
    at the last digit: the digits it passed are zero. *)
Lemma ctz_scan_spec ds : forall n i,
  (i + n < length ds)%nat ->
  let j := ctz_scan ds i n in
  (i <= j <= i + n)%nat
  /\ eval (skipn i ds) = Bpow (j - i) * eval (skipn j ds)
  /\ (digit_at ds j <> 0 \/ j = (i + n)%nat).
Proof.
  induction n as [|n IH]; intros i H; cbn [ctz_scan]; cbv zeta.
  - rewrite Nat.sub_diag, Bpow_0. split; [lia|]. split; [lia | right; lia].
  - destruct (digit_at ds i =? 0) eqn:E; cbn [negb].
    + apply Z.eqb_eq in E. destruct (IH (S i) ltac:(lia)) as (B & V & D).
      cbv zeta in B, V, D.
      split; [lia|]. split; [|destruct D as [D|D]; [left; exact D | right; lia]].
      rewrite (skipn_digit ds i) by lia. rewrite eval_cons, E, V.
      replace (ctz_scan ds (S i) n - i)%nat
        with (S (ctz_scan ds (S i) n - S i)) by lia.
      rewrite Bpow_S. ring.
    + apply Z.eqb_neq in E. rewrite Nat.sub_diag, Bpow_0.
      split; [lia|]. split; [lia | left; exact E].
Qed.

Lemma digit_at_last ds d :
  ds <> [] -> digit_at ds (length ds - 1) = last ds d.
Proof.
  intros N. destruct (list_last_exists ds N) as (pre & t & E). subst ds.
  rewrite last_app_single, length_app. cbn [length].
  replace (length pre + 1 - 1)%nat with (length pre) by lia.
  apply digit_at_middle.
Qed.

Lemma pow10_divides_BASE c : 0 <= c <= 9 -> (10 ^ c | BASE).
Proof.
  intros H. exists (10 ^ (9 - c)). rewrite <- Z.pow_add_r by lia.
  replace (9 - c + c) with 9 by lia. rewrite BASE_eq. reflexivity.
Qed.

Lemma Bpow_pow10 n : Bpow n = 10 ^ (9 * Z.of_nat n).
Proof.
  rewrite <- Dpow_Bpow. unfold Dpow. f_equal. lia.
Qed.

(** [bigint_ctz] on a bigint without leading zero digit that is not zero. *)
Lemma bigint_ctz_spec (b : bigint_t) :
  bigint_ok b -> digits b <> [] ->
  exists c, bigint_ctz b = Some c /\ 0 <= c
            /\ (10 ^ c | eval (digits b)) /\ ~ (10 ^ (c + 1) | eval (digits b)).
Proof.
  intros [O T] N. unfold bigint_ctz, count.
  destruct (length (digits b)) as [|top] eqn:L;
    [destruct (digits b); [congruence | discriminate]|].
  destruct (ctz_scan_spec (digits b) top 0%nat ltac:(lia)) as (B & V & D).
  cbv zeta in B, V, D. set (j := ctz_scan (digits b) 0 top) in *.
  rewrite Nat.sub_0_r in V. cbn [skipn] in V.
  rewrite (skipn_digit (digits b) j) in V by lia. rewrite eval_cons in V.
  set (d := digit_at (digits b) j) in *.
  set (R := eval (skipn (S j) (digits b))) in *.
  pose proof (digit_at_ok (digits b) j O) as Hd. fold d in Hd.
  assert (d <> 0) as Nd.
  { destruct D as [D|D]; [exact D|]. unfold d. rewrite D.
    replace (0 + top)%nat with (length (digits b) - 1)%nat by lia.
    rewrite (digit_at_last _ 1 N). exact T. }
  destruct (int_ctz_spec d Nd) as (c & E & Hc & D1 & D2).
  assert (c < 9) as Hc9.
  { apply Z.divide_pos_le in D1; [|lia].
    destruct (Z_lt_ge_dec c 9) as [|G]; [assumption|].
    assert (10 ^ 9 <= 10 ^ c) as M by (apply Z.pow_le_mono_r; lia).
    rewrite BASE_eq in Hd. change (10 ^ 9) with 1000000000 in M. lia. }
  exists (c + LOG_BASE * Z.of_nat j). rewrite E. cbn [option_map].
  unfold LOG_BASE. split; [reflexivity|]. split; [lia|].
  rewrite V, Bpow_pow10. split.
  - rewrite Z.pow_add_r, Z.mul_comm by lia.
    apply Z.mul_divide_mono_l. apply Z.divide_add_r; [exact D1|].
    apply Z.divide_mul_l. apply pow10_divides_BASE. lia.
  - intros Dv.
    replace (c + 9 * Z.of_nat j + 1) with (9 * Z.of_nat j + (c + 1)) in Dv by lia.
    rewrite Z.pow_add_r in Dv by lia.
    apply (proj1 (Z.mul_divide_cancel_l (10 ^ (c + 1)) (d + BASE * R)
                    (10 ^ (9 * Z.of_nat j)) ltac:(apply Z.pow_nonzero; lia))) in Dv.
    apply D2.
    replace d with ((d + BASE * R) - BASE * R) by ring.
    apply Z.divide_sub_r; [exact Dv|].
    apply Z.divide_mul_l. apply pow10_divides_BASE. lia.
Qed.

(** ** Counting digits *)

Ltac pow10_values :=
  repeat match goal with
         | |- context [10 ^ ?e] =>
             let v := eval vm_compute in (10 ^ e) in change (10 ^ e) with v
         end.

(** [count_digits32 x] is the number of decimal digits of [x] (one for
    zero). *)
Lemma count_digits32_spec x :
  0 <= x < 10 ^ 10 ->
  1 <= count_digits32 x <= 10
  /\ 10 ^ (count_digits32 x - 1) <= Z.max 1 x < 10 ^ count_digits32 x.
Proof.
  change (10 ^ 10) with 10000000000. intros H. unfold count_digits32.
  repeat match goal with
         | |- context [?a <? ?b] =>
             let E := fresh "E" in
             destruct (a <? b) eqn:E;
             [apply Z.ltb_lt in E | apply Z.ltb_ge in E]
         end; pow10_values; lia.
Qed.

(** The number of decimal digits is determined by the two powers of ten
    around the number. *)
Lemma pow10_bounds_unique v a b :
  1 <= a -> 1 <= b ->
  10 ^ (a - 1) <= v < 10 ^ a -> 10 ^ (b - 1) <= v < 10 ^ b -> a = b.
Proof.
  intros Ha Hb [La Ua] [Lb Ub].
  destruct (Z.lt_trichotomy a b) as [L|[E|G]]; [|exact E|].
  - assert (10 ^ a <= 10 ^ (b - 1)) by (apply Z.pow_le_mono_r; lia). lia.
  - assert (10 ^ b <= 10 ^ (a - 1)) by (apply Z.pow_le_mono_r; lia). lia.
Qed.

(** [bigint_count_digits] on a bigint without leading zero digit that is
    not zero. *)
Lemma bigint_count_digits_spec (b : bigint_t) :
  bigint_ok b -> digits b <> [] ->
  exists n, bigint_count_digits b = Some n /\ 1 <= n
            /\ 10 ^ (n - 1) <= eval (digits b) < 10 ^ n.
Proof.
  intros [Ok T] N. unfold bigint_count_digits, count.
  destruct (list_last_exists (digits b) N) as (pre & t & E).
  rewrite E in *. rewrite length_app. cbn [length]. rewrite Nat.add_1_r.
  rewrite digit_at_middle.
  unfold trimmed in T. rewrite last_app_single in T.
  apply digits_ok_app in Ok. destruct Ok as [Opre Ot].
  apply digits_ok_cons in Ot. destruct Ot as [Ht _].
  pose proof (eval_bound pre Opre) as Bp.
  destruct (count_digits32_spec t) as (R & Lo & Up).
  { rewrite BASE_eq in Ht. change (10 ^ 10) with 10000000000. lia. }
  set (k := count_digits32 t) in *.
  replace (Z.max 1 t) with t in Lo, Up by lia.
  eexists. split; [reflexivity|]. unfold LOG_BASE. split; [lia|].
  rewrite eval_app. cbn [eval]. rewrite Z.mul_0_r, Z.add_0_r.
  rewrite Bpow_pow10 in *.
  set (P := 10 ^ (9 * Z.of_nat (length pre))) in *.
  assert (0 < P) as PP by (apply Z.pow_pos_nonneg; lia).
  replace (k + 9 * Z.of_nat (length pre) - 1)
    with (9 * Z.of_nat (length pre) + (k - 1)) by lia.
  replace (k + 9 * Z.of_nat (length pre))
    with (9 * Z.of_nat (length pre) + k) by lia.
  rewrite !Z.pow_add_r by lia. fold P. split; nia.
Qed.

Lemma count_digits_loop_small fuel u count :
  0 <= u < BASE ->
  count_digits_loop fuel u count = Some (count + count_digits32 u).
Proof.
  intros H. pose proof BASE_pos.
  destruct fuel; cbn [count_digits_loop];
    rewrite Z.rem_small, Z.quot_small by lia; reflexivity.
Qed.

(** [int_count_digits] on a machine integer below [BASE] in magnitude. *)
Lemma int_count_digits_spec (INTPTR_MAX x : Z) :
  BASE <= INTPTR_MAX -> - BASE < x < BASE ->
  exists n, int_count_digits INTPTR_MAX x = Some n /\ 1 <= n
            /\ 10 ^ (n - 1) <= Z.max 1 (Z.abs x) < 10 ^ n.
Proof.
  intros HM Hx. unfold int_count_digits.
  set (u := if x <? 0 then (if x =? - INTPTR_MAX - 1 then INTPTR_MAX else - x) else x).
  assert (u = Z.abs x) as Eu.
  { unfold u. destruct (x <? 0) eqn:L;
      [apply Z.ltb_lt in L | apply Z.ltb_ge in L]; [|lia].
    replace (x =? - INTPTR_MAX - 1) with false by (symmetry; apply Z.eqb_neq; lia).
    lia. }
  rewrite count_digits_loop_small by lia. rewrite Eu.
  destruct (count_digits32_spec (Z.abs x)) as (R & B).
  { rewrite BASE_eq in Hx. change (10 ^ 10) with 10000000000. lia. }
  eexists. split; [reflexivity|]. rewrite Z.add_0_l. split; [lia | exact B].
Qed.

(** ** The length of the printed number *)

Lemma digit_val_pos c :
  isdigit c = true -> Ascii.eqb c "0" = false -> 1 <= digit_val c.
Proof.
  intros D P. pose proof (digit_val_range c D) as R.
  destruct (Z.eq_dec (digit_val c) 0) as [Z0|]; [|lia].
  assert (c = "0"%char) as ->; [|rewrite Ascii.eqb_refl in P; discriminate].
  rewrite <- (ascii_N_embedding c), <- (ascii_N_embedding "0").
  f_equal. unfold digit_val, char_code in Z0. change (N_of_ascii "0") with 48%N. lia.
Qed.

(** A numeral without leading zero lies between the powers of ten that
    its length gives. *)
Lemma numeral_bounds D :
  D <> [] -> forallb isdigit D = true -> Ascii.eqb (peek D) "0" = false ->
  10 ^ (Z.of_nat (length D) - 1) <= decimal D < 10 ^ Z.of_nat (length D).
Proof.
  intros N A P. split; [|apply (decimal_bound D A)].
  destruct D as [|c D']; [congruence|]. cbn [peek] in P.
  cbn [forallb] in A. apply andb_prop in A. destruct A as [Hc HD].
  pose proof (digit_val_pos c Hc P) as Pc.
  change (c :: D') with ([c] ++ D'). rewrite decimal_app.
  change (decimal [c]) with (10 * 0 + digit_val c).
  pose proof (decimal_bound D' HD) as B. unfold Dpow in *.
  cbn [app length]. replace (Z.of_nat (S (length D')) - 1) with (Z.of_nat (length D')) by lia.
  set (Pw := 10 ^ Z.of_nat (length D')) in *.
  assert (Pw <= digit_val c * Pw) by nia. lia.
Qed.

Lemma length_string_of_list l :
  String.length (string_of_list_ascii l) = length l.
Proof. induction l as [|c l IH]; [reflexivity|]. cbn. rewrite IH. reflexivity. Qed.

(* ---------------------------------------------------------------------- *)
(** ** The value [integer_parse] builds *)

Lemma iter_pad n : forall d,
  Nat.iter n (fun d => 10 * d + digit_val "0") d = d * Dpow n.
Proof.
  induction n as [|n IH]; intros d.
  - change (Nat.iter 0 (fun d => 10 * d + digit_val "0") d) with d.
    rewrite Dpow_0. lia.
  - change (Nat.iter (S n) (fun d => 10 * d + digit_val "0") d)
      with (10 * Nat.iter n (fun d => 10 * d + digit_val "0") d + digit_val "0").
    rewrite IH, Dpow_S. change (digit_val "0") with 0. ring.
Qed.

Lemma ends_with_digit_tail c p : ends_with_digit (c :: p) -> ends_with_digit p.
Proof.
  unfold ends_with_digit. intros H N. specialize (H ltac:(discriminate)).
  destruct p as [|c' p']; [congruence|]. exact H.
Qed.

Lemma ends_with_digit_filter p :
  ends_with_digit p -> p <> [] -> filter isdigit p <> [].
Proof.
  induction p as [|c p IH]; intros E N; [congruence|].
  cbn [filter]. destruct (isdigit c) eqn:D; [discriminate|].
  destruct p as [|c' p'].
  - specialize (E ltac:(discriminate)). cbn [last] in E. congruence.
  - apply IH; [apply (ends_with_digit_tail c); exact E | discriminate].
Qed.

Lemma forallb_filter_isdigit p : forallb isdigit (filter isdigit p) = true.
Proof.
  induction p as [|c p IH]; [reflexivity|]. cbn [filter].
  destruct (isdigit c) eqn:D; [cbn [forallb]; rewrite D, IH; reflexivity | exact IH].
Qed.

(** One chunk read from a run that ends with a digit: the next [n] digits,
    or all the digits that are left, filled out with zeros. *)
Lemma read_chunk_shaped p : forall n d,
  ends_with_digit p ->
  let g := filter isdigit p in
  if (length g <=? n)%nat
  then read_chunk p n d = (decimal_from d g * Dpow (n - length g), [])
  else exists p', read_chunk p n d = (decimal_from d (firstn n g), p')
                  /\ ends_with_digit p' /\ filter isdigit p' = skipn n g.
Proof.
  induction p as [|c p IH]; intros n d E; cbv zeta.
  - cbn [filter length Nat.leb]. rewrite Nat.sub_0_r.
    change (decimal_from d []) with d.
    destruct n; [cbn [read_chunk]; rewrite Dpow_0, Z.mul_1_r; reflexivity|].
    cbn [read_chunk]. rewrite iter_pad. reflexivity.
  - pose proof (ends_with_digit_tail c p E) as E'.
    pose proof (ends_with_digit_filter (c :: p) E ltac:(discriminate)) as NG.
    destruct n as [|n].
    + (* nothing more is wanted *)
      destruct (filter isdigit (c :: p)) as [|g0 g] eqn:G; [congruence|].
      cbn [length Nat.leb]. exists (c :: p). cbn [read_chunk firstn skipn].
      repeat split; [exact E | exact G].
    + cbn [read_chunk filter]. destruct (isdigit c) eqn:D.
      * cbn [length Nat.leb Nat.sub]. specialize (IH n (10 * d + digit_val c) E').
        cbv zeta in IH. destruct (length (filter isdigit p) <=? n)%nat.
        -- rewrite IH. reflexivity.
        -- destruct IH as (p' & R & Ep & Fp). exists p'. cbn [firstn skipn].
           repeat split; assumption.
      * specialize (IH (S n) d E'). cbv zeta in IH. exact IH.
Qed.

Lemma zero_fill_length k : forall ds, length (zero_fill k ds) = length ds.
Proof.
  induction k as [|k IH]; intros ds; cbn [zero_fill]; [reflexivity|].
  rewrite set_digit_length. apply IH.
Qed.

(** [zero_fill] clears the lowest [k] digits. *)
Lemma zero_fill_spec k : forall ds,
  (k <= length ds)%nat -> zero_fill k ds = repeat 0 k ++ skipn k ds.
Proof.
  induction k as [|k IH]; intros ds H; [reflexivity|].
  cbn [zero_fill]. rewrite IH by lia.
  rewrite (skipn_digit ds k) by lia.
  pose proof (set_digit_middle (repeat 0 k) (digit_at ds k) (skipn (S k) ds) 0) as M.
  rewrite repeat_length in M. rewrite M.
  change (repeat 0 (S k)) with (0 :: repeat 0 k).
  rewrite repeat_cons, <- app_assoc. reflexivity.
Qed.

Lemma parse_chunks_nil fuel chunk k ds : parse_chunks fuel [] chunk k ds = (k, ds).
Proof. destruct fuel; reflexivity. Qed.

Lemma decimal_pad_bound g n :
  forallb isdigit g = true -> (length g <= n)%nat -> (n <= 9)%nat ->
  0 <= decimal g * Dpow (n - length g) < BASE.
Proof.
  intros A L N. pose proof (decimal_bound g A) as B.
  pose proof (Dpow_pos (n - length g)) as P.
  pose proof (Dpow_add (length g) (n - length g)) as S.
  replace (length g + (n - length g))%nat with n in S by lia.
  pose proof (Dpow_le n 9 N) as M. rewrite Dpow_9 in M. nia.
Qed.

Lemma ceil_9 n : exists m : nat, (n <= 9 * m)%nat /\ (9 * m < n + 9)%nat.
Proof.
  exists ((n + 8) / 9)%nat.
  pose proof (Nat.div_mod_eq (n + 8) 9). pose proof (Nat.mod_upper_bound (n + 8) 9). lia.
Qed.

(** The rounds of the chunk loop after the first one, on a run that ends
    with a digit: [m] rounds fill [m] digits, the last of them filled out
    with zeros, and leave the [k0] digits below them for [zero_fill]. *)
Lemma parse_chunks_rounds m : forall fuel p k0 lo hi,
  ends_with_digit p ->
  (length (filter isdigit p) <= 9 * m)%nat ->
  (9 * m < length (filter isdigit p) + 9)%nat ->
  (m <= fuel)%nat -> length lo = (k0 + m)%nat ->
  exists lo',
    parse_chunks fuel p (Z.to_nat LOG_BASE) (k0 + m) (lo ++ hi)
    = (k0, firstn k0 lo ++ lo' ++ hi)
    /\ length lo' = m /\ digits_ok lo'
    /\ eval lo' = decimal (filter isdigit p)
                  * Dpow (9 * m - length (filter isdigit p)).
Proof.
  induction m as [|m IH]; intros fuel p k0 lo hi Ep L1 L2 Hf Ll.
  - assert (p = []) as ->.
    { destruct p as [|c r]; [reflexivity|].
      pose proof (ends_with_digit_filter _ Ep ltac:(discriminate)) as NG.
      destruct (filter isdigit (c :: r)); [congruence | cbn [length] in L1; lia]. }
    rewrite parse_chunks_nil, Nat.add_0_r in *.
    exists []. rewrite firstn_all2 by lia. cbn [app length filter].
    split; [reflexivity|]. split; [reflexivity|]. split; [apply digits_ok_nil|].
    reflexivity.
  - destruct fuel as [|f]; [lia|].
    destruct p as [|c r]; [cbn [filter length] in L2; lia|].
    set (g := filter isdigit (c :: r)) in *.
    pose proof (forallb_filter_isdigit (c :: r)) as Ag. fold g in Ag.
    destruct (list_last_exists lo ltac:(intros ->; cbn [length] in Ll; lia))
      as (lo1 & x & El). subst lo.
    rewrite length_app in Ll. cbn [length] in Ll.
    assert (length lo1 = (k0 + m)%nat) as Ll1 by lia.
    rewrite parse_chunks_step.
    change (Z.to_nat LOG_BASE) with 9%nat.
    pose proof (read_chunk_shaped (c :: r) 9 0 Ep) as RC. cbv zeta in RC. fold g in RC.
    replace (0 <? k0 + S m)%nat with true by (symmetry; apply Nat.ltb_lt; lia).
    replace (pred (k0 + S m)) with (k0 + m)%nat by lia.
    assert (forall v, set_digit ((lo1 ++ [x]) ++ hi) (k0 + m) v = lo1 ++ v :: hi) as SD.
    { intros v. rewrite <- app_assoc. cbn [app]. rewrite <- Ll1. apply set_digit_middle. }
    assert (firstn k0 (lo1 ++ [x]) = firstn k0 lo1) as F0.
    { rewrite firstn_app. replace (k0 - length lo1)%nat with 0%nat by lia.
      cbn [firstn]. apply app_nil_r. }
    destruct (length g <=? 9)%nat eqn:Lg.
    + apply Nat.leb_le in Lg. assert (m = 0%nat) by lia. subst m.
      rewrite RC, SD, parse_chunks_nil. fold (decimal g).
      exists [decimal g * Dpow (9 - length g)].
      rewrite F0, Nat.add_0_r in *. rewrite firstn_all2 by lia.
      cbn [app length]. split; [reflexivity|]. split; [reflexivity|]. split.
      * apply digits_ok_cons. split; [|apply digits_ok_nil].
        apply decimal_pad_bound; [exact Ag | lia | lia].
      * cbn [eval]. replace (9 * 1 - length g)%nat with (9 - length g)%nat by lia. lia.
    + apply Nat.leb_gt in Lg. destruct RC as (p' & R & Ep' & Fp').
      rewrite R, SD. fold (decimal (firstn 9 g)).
      assert (length (skipn 9 g) = (length g - 9)%nat) as Ls by apply length_skipn.
      destruct (IH f p' k0 lo1 (decimal (firstn 9 g) :: hi) Ep')
        as (lo' & E & L' & O' & V'); try (rewrite Fp', Ls; lia); try lia.
      change (Z.to_nat LOG_BASE) with 9%nat in E. rewrite E. exists (lo' ++ [decimal (firstn 9 g)]).
      rewrite F0, <- !app_assoc. cbn [app]. split; [reflexivity|].
      assert (forallb isdigit (firstn 9 g) = true /\ forallb isdigit (skipn 9 g) = true)
        as [A1 A2].
      { rewrite <- (firstn_skipn 9 g) in Ag. rewrite forallb_app in Ag.
        apply andb_prop in Ag. exact Ag. }
      assert (length (firstn 9 g) = 9%nat) as L9 by (rewrite length_firstn; lia).
      pose proof (decimal_digit_bound (firstn 9 g) A1 ltac:(lia)) as B9.
      split; [rewrite length_app; cbn [length]; lia|]. split.
      * apply digits_ok_app. split; [exact O'|]. apply digits_ok_cons.
        split; [exact B9 | apply digits_ok_nil].
      * assert (decimal g = decimal (firstn 9 g) * Dpow (length g - 9)
                              + decimal (skipn 9 g)) as Dg.
        { rewrite <- (firstn_skipn 9 g) at 1. rewrite decimal_app, Ls. reflexivity. }
        rewrite eval_app, V', L', Fp', Ls. cbn [eval]. rewrite Dg.
        replace (9 * S m - length g)%nat with (9 * m - (length g - 9))%nat by lia.
        rewrite <- Dpow_Bpow.
        replace (9 * m)%nat with ((length g - 9) + (9 * m - (length g - 9)))%nat at 2 by lia.
        rewrite Dpow_add. ring.
Qed.

Lemma filter_length_le {A} (f : A -> bool) (l : list A) :
  (length (filter f l) <= length l)%nat.
Proof.
  induction l as [|a l IH]; [reflexivity|]. cbn [filter].
  destruct (f a); cbn [length]; lia.
Qed.

(** The chunk loop and [zero_fill] on the characters in front of the
    exponent, for a number of [dec_digits] decimal digits of which the
    last [z] are zeros that the exponent asks for: the digits hold the
    number written by the digit characters, times [10^z]. *)
Lemma parse_chunks_body (p0 : list ascii) (z : nat) :
  ends_with_digit p0 -> p0 <> [] ->
  let g := filter isdigit p0 in
  let dec_digits := Z.of_nat (length g + z) in
  let count := Z.to_nat (Z.quot (dec_digits + (LOG_BASE - 1)) LOG_BASE) in
  let chunk := if Z.rem dec_digits LOG_BASE =? 0 then LOG_BASE
               else Z.rem dec_digits LOG_BASE in
  exists k ds,
    parse_chunks (length p0) p0 (Z.to_nat chunk) count (repeat 0 count) = (k, ds)
    /\ digits_ok (zero_fill k ds)
    /\ eval (zero_fill k ds) = decimal g * Dpow z.
Proof.
  intros Ep Np. cbv zeta.
  destruct p0 as [|c r]; [congruence|].
  pose proof (ends_with_digit_filter _ Ep Np) as NG.
  pose proof (forallb_filter_isdigit (c :: r)) as Ag.
  pose proof (filter_length_le isdigit (c :: r)) as Lg.
  set (g := filter isdigit (c :: r)) in *.
  assert (1 <= length g)%nat as L1 by (destruct g; [congruence | cbn [length]; lia]).
  destruct (chunk_count_split (length g + z) ltac:(lia)) as (c0 & M & Ec & Hc & Em & ET).
  rewrite Ec, Em.
  change (length (c :: r)) with (S (length r)).
  rewrite parse_chunks_step.
  set (p0 := c :: r) in *.
  pose proof (read_chunk_shaped p0 (S c0) 0 Ep) as RC. cbv zeta in RC. fold g in RC.
  cbn [Nat.ltb Nat.leb pred].
  assert (forall v, set_digit (repeat 0 (S M)) M v = repeat 0 M ++ [v]) as SD.
  { intros v. cbn [repeat]. rewrite repeat_cons.
    pose proof (set_digit_middle (repeat 0 M) 0 [] v) as S1.
    rewrite repeat_length in S1. exact S1. }
  destruct (length g <=? S c0)%nat eqn:Lc.
  - apply Nat.leb_le in Lc.
    rewrite RC, SD, parse_chunks_nil. fold (decimal g).
    set (v := decimal g * Dpow (S c0 - length g)).
    pose proof (decimal_pad_bound g (S c0) Ag Lc ltac:(lia)) as Bv. fold v in Bv.
    exists M, (repeat 0 M ++ [v]).
    split; [reflexivity|].
    rewrite zero_fill_spec by (rewrite length_app, repeat_length; lia).
    rewrite skipn_app, repeat_length, Nat.sub_diag, skipn_all2 by (rewrite repeat_length; lia).
    cbn [skipn app]. split.
    + apply digits_ok_app. split; [apply digits_ok_repeat_0|].
      apply digits_ok_cons. split; [exact Bv | apply digits_ok_nil].
    + rewrite eval_app, eval_repeat_0, repeat_length. cbn [eval]. unfold v.
      assert (Dpow z = Dpow (S c0 - length g) * Dpow (9 * M)) as Dz
        by (rewrite <- Dpow_add; f_equal; lia).
      rewrite Dz, <- Dpow_Bpow. ring.
  - apply Nat.leb_gt in Lc. destruct RC as (p' & R & Ep' & Fp').
    rewrite R, SD. fold (decimal (firstn (S c0) g)).
    set (v0 := decimal (firstn (S c0) g)).
    assert (length (skipn (S c0) g) = (length g - S c0)%nat) as Ls by apply length_skipn.
    destruct (ceil_9 (length g - S c0)) as (m & C1 & C2).
    assert (forallb isdigit (firstn (S c0) g) = true) as A1.
    { rewrite <- (firstn_skipn (S c0) g) in Ag. rewrite forallb_app in Ag.
      apply andb_prop in Ag. apply Ag. }
    assert (length (firstn (S c0) g) = S c0) as Lf by (rewrite length_firstn; lia).
    pose proof (decimal_digit_bound _ A1 ltac:(lia)) as B0. fold v0 in B0.
    assert (m <= M)%nat as HmM by lia.
    destruct (parse_chunks_rounds m (length r) p' (M - m) (repeat 0 M) [v0] Ep')
      as (lo' & E & L' & O' & V'); try (rewrite Fp', Ls; lia).
    { unfold p0 in Lg. cbn [length] in Lg. lia. }
    { rewrite repeat_length. lia. }
    replace (M - m + m)%nat with M in E by lia.
    rewrite E. exists (M - m)%nat. eexists. split; [reflexivity|].
    rewrite zero_fill_spec
      by (rewrite !length_app, length_firstn, repeat_length; lia).
    rewrite skipn_app, length_firstn, repeat_length.
    replace (Nat.min (M - m) M) with (M - m)%nat by lia.
    rewrite Nat.sub_diag, skipn_all2 by (rewrite length_firstn, repeat_length; lia).
    cbn [skipn app]. split.
    + apply digits_ok_app. split; [apply digits_ok_repeat_0|].
      apply digits_ok_app. split; [exact O'|].
      apply digits_ok_cons. split; [exact B0 | apply digits_ok_nil].
    + assert (decimal g = v0 * Dpow (length g - S c0) + decimal (skipn (S c0) g)) as Dg.
      { rewrite <- (firstn_skipn (S c0) g) at 1. rewrite decimal_app, Ls. reflexivity. }
      rewrite eval_app, eval_repeat_0, repeat_length, eval_app, V', L', Fp', Ls.
      cbn [eval].
      assert (Dpow z = Dpow (9 * m - (length g - S c0)) * Dpow (9 * (M - m))) as Dz
        by (rewrite <- Dpow_add; f_equal; lia).
      assert (Dpow (9 * m) = Dpow (length g - S c0) * Dpow (9 * m - (length g - S c0)))
        as Dm by (rewrite <- Dpow_add; f_equal; lia).
      rewrite Dg, Dz, <- !Dpow_Bpow, Dm. ring.
Qed.

Lemma last_default_any {A} (l : list A) d d' : l <> [] -> last l d = last l d'.
Proof.
  induction l as [|x r IH]; [congruence|]. intros _.
  destruct r as [|y r]; [reflexivity|]. cbn [last] in *. apply IH. discriminate.
Qed.

Lemma last_cons_default {A} (c : A) r d : last (c :: r) d = last r c.
Proof.
  destruct r as [|x r]; [reflexivity|].
  cbn [last]. apply (last_default_any (x :: r)). discriminate.
Qed.

Lemma last_app_nonempty {A} (a b : list A) d : b <> [] -> last (a ++ b) d = last b d.
Proof.
  intros N. induction a as [|x a IH]; [reflexivity|].
  cbn [app]. rewrite last_cons_default, <- IH.
  apply last_default_any. intros E. apply app_eq_nil in E. tauto.
Qed.

(** A run of digits and separators ends with a digit. *)
Lemma digit_run_last l : forall prev,
  digit_run prev l = true ->
  isdigit prev = true \/ isdigit (peek l) = true ->
  isdigit (last l prev) = true.
Proof.
  induction l as [|c r IH]; intros prev R Hinv.
  - destruct Hinv as [D|D]; [exact D | discriminate].
  - rewrite last_cons_default. cbn [digit_run] in R.
    destruct (isdigit c) eqn:Dc.
    + apply IH; [exact R | left; exact Dc].
    + destruct (Ascii.eqb c "_") eqn:U; [|discriminate].
      apply andb_prop in R. destruct R as [R R2].
      apply andb_prop in R. destruct R as [_ Dn].
      apply IH; [exact R2 | right; exact Dn].
Qed.

Lemma count_digit_chars_filter l :
  count_digit_chars l = Z.of_nat (length (filter isdigit l)).
Proof.
  induction l as [|c l IH]; [reflexivity|].
  cbn [count_digit_chars filter]. rewrite IH.
  destruct (isdigit c); cbn [length]; lia.
Qed.

Lemma parse_small_filter p : forall d,
  parse_small p d = decimal_from d (filter isdigit p).
Proof.
  induction p as [|c p IH]; intros d; [reflexivity|].
  cbn [parse_small filter]. destruct (isdigit c); [|apply IH].
  rewrite decimal_from_cons. apply IH.
Qed.

Lemma iter_times_10 n : forall d, Nat.iter n (fun d => d * 10) d = d * Dpow n.
Proof.
  induction n as [|n IH]; intros d.
  - change (Nat.iter 0 (fun d => d * 10) d) with d. rewrite Dpow_0. lia.
  - change (Nat.iter (S n) (fun d => d * 10) d)
      with (Nat.iter n (fun d => d * 10) d * 10).
    rewrite IH, Dpow_S. ring.
Qed.

(** What the scanning loops of [integer_parse] find on a literal of the
    grammar. *)
Lemma literal_parse_trace (l : literal) :
  accepted_literal l = true ->
  let E := match lit_exp l with None => [] | Some (e, ds) => e :: ds end in
  let F := match lit_frac l with None => [] | Some f => "."%char :: f end in
  isdigit (peek (lit_int l ++ F ++ E)) = true
  /\ parse_significant (lit_int l ++ F ++ E) 0
     = Some (count_digit_chars (lit_int l), F ++ E)
  /\ (if Ascii.eqb (peek (F ++ E)) "." then parse_fraction (tl (F ++ E)) 0
      else Some (0, F ++ E)) = Some (frac_digits_of l, E)
  /\ (if Ascii.eqb (peek E) "e" || Ascii.eqb (peek E) "E"
      then parse_exponent (tl E) 0 else Some 0) = Some (exp_of l)
  /\ frac_digits_of l <= exp_of l
  /\ ends_with_digit (lit_int l ++ F) /\ lit_int l <> []
  /\ filter isdigit (lit_int l ++ F) = filter isdigit (lit_int l ++ lit_frac_chars l).
Proof.
  destruct l as [sign int fr ex].
  unfold accepted_literal, spec_literal, exp_starts_nonzero, frac_digits_of, exp_of,
    lit_frac_chars.
  cbn [lit_sign lit_int lit_frac lit_exp]. intros H. cbv zeta.
  apply andb_prop in H. destruct H as [H Hnz].
  apply andb_prop in H. destruct H as [H Hle]. apply Z.leb_le in Hle.
  apply andb_prop in H. destruct H as [H Hex].
  apply andb_prop in H. destruct H as [H Hfr].
  apply andb_prop in H. destruct H as [_ Hint].
  destruct (digit_group_cons int Hint) as (c & pre & -> & D0 & R1).
  set (E := match ex with None => [] | Some (e, ds) => e :: ds end).
  assert ((if Ascii.eqb (peek E) "e" || Ascii.eqb (peek E) "E"
           then parse_exponent (tl E) 0 else Some 0)
          = Some (match ex with None => 0 | Some (_, ds) => decimal ds end)
          /\ sig_stop E = true /\ Ascii.eqb (peek E) "." = false
          /\ (fr <> None -> frac_stop E = true)) as (PE & SE & DE & FE).
  { unfold E. destruct ex as [[e ds]|]; [|repeat split].
    cbn [exp_ok] in Hex.
    apply andb_prop in Hex. destruct Hex as [Hex Hb].
    apply andb_prop in Hex. destruct Hex as [Hex Hd].
    apply andb_prop in Hex. destruct Hex as [He Hn].
    destruct ds as [|d ds]; [discriminate|].
    cbn [peek tl sig_stop frac_stop]. rewrite He.
    pose proof Hd as Hd'. cbn [forallb] in Hd'. apply andb_prop in Hd'.
    destruct Hd' as [Dd _]. rewrite Dd.
    rewrite parse_exponent_spec by (pose proof BASE_pos; lia).
    unfold decimal in *. rewrite Hd, Hb. cbn [andb].
    assert (Ascii.eqb e "." = false) as Ne.
    { apply orb_prop in He. destruct He as [A|A]; apply Ascii.eqb_eq in A; subst;
        reflexivity. }
    assert (Ascii.eqb e "." || Ascii.eqb e "e" || Ascii.eqb e "E" = true) as He3.
    { rewrite Ne. exact He. }
    rewrite He3. repeat split; auto.
    intros Nf. destruct fr; [|congruence]. rewrite Hnz. reflexivity. }
  assert (isdigit (last (c :: pre) Ascii.zero) = true) as Lint.
  { rewrite last_cons_default. apply digit_run_last; [exact R1 | left; exact D0]. }
  cbn [app peek]. split; [exact D0|].
  cbn [parse_significant]. rewrite D0.
  destruct fr as [f|].
  - cbn [frac_ok] in Hfr.
    destruct (digit_group_cons f Hfr) as (d & pre2 & -> & Dd & R2).
    assert (sig_stop (("."%char :: d :: pre2) ++ E) = true) as S1.
    { cbn [app sig_stop peek]. rewrite Dd. reflexivity. }
    rewrite (parse_significant_complete pre c _ (0 + 1) R1 S1).
    cbn [app peek tl count_digit_chars]. rewrite D0, Ascii.eqb_refl.
    cbn [parse_fraction]. rewrite Dd.
    rewrite (parse_fraction_complete pre2 d E (0 + 1) R2 (FE ltac:(discriminate))).
    rewrite PE. cbn [count_digit_chars] in Hle. rewrite Dd in Hle.
    split; [do 2 f_equal; lia|]. split; [do 2 f_equal; lia|].
    split; [reflexivity|]. split; [exact Hle|].
    split; [|split; [discriminate|]].
    + intros _. change (c :: pre ++ "."%char :: d :: pre2)
        with ((c :: pre) ++ "."%char :: d :: pre2).
      rewrite last_app_nonempty by discriminate.
      rewrite !last_cons_default.
      apply digit_run_last; [exact R2 | left; exact Dd].
    + change (c :: pre ++ "."%char :: d :: pre2)
        with ((c :: pre) ++ ["."%char] ++ d :: pre2).
      change (c :: pre ++ d :: pre2) with ((c :: pre) ++ d :: pre2).
      rewrite !filter_app. reflexivity.
  - cbn [app]. rewrite (parse_significant_complete pre c E (0 + 1) R1 SE).
    rewrite DE, PE. cbn [count_digit_chars]. rewrite D0.
    split; [do 2 f_equal; lia|]. split; [reflexivity|].
    split; [reflexivity|]. split; [exact Hle|].
    rewrite !app_nil_r. split; [intros _; exact Lint|]. split; [discriminate|reflexivity].
Qed.

Lemma firstn_app_exact {A} (a b : list A) :
  firstn (length (a ++ b) - length b) (a ++ b) = a.
Proof.
  rewrite length_app. replace (length a + length b - length b)%nat with (length a) by lia.
  rewrite firstn_app, Nat.sub_diag, firstn_all. cbn [firstn]. apply app_nil_r.
Qed.

Section ParseValue.
Context {range : smallint_range}.

(** [parse_number] on a literal of the grammar, entered behind the sign. *)
Lemma parse_number_literal (sign : list ascii) (l : literal) (neg : bool) :
  accepted_literal l = true -> filter isdigit sign = [] ->
  let E := match lit_exp l with None => [] | Some (e, ds) => e :: ds end in
  let F := match lit_frac l with None => [] | Some f => "."%char :: f end in
  let p := lit_int l ++ F ++ E in
  let m := decimal (filter isdigit (lit_int l ++ lit_frac_chars l))
           * 10 ^ (exp_of l - frac_digits_of l) in
  exists y, parse_number (sign ++ p) p neg = Integer y
            /\ integer_value y = (if neg then - m else m).
Proof.
  intros Hl Hs. pose proof (literal_parse_trace l Hl) as T. cbv zeta in T |- *.
  set (E := match lit_exp l with None => [] | Some (e, ds) => e :: ds end) in *.
  set (F := match lit_frac l with None => [] | Some f => "."%char :: f end) in *.
  destruct T as (D0 & PS & PF & PE & Hle & Ew & Ni & Fg).
  set (body := sign ++ lit_int l ++ F).
  assert (sign ++ lit_int l ++ F ++ E = body ++ E) as Es
    by (unfold body; rewrite <- !app_assoc; reflexivity).
  assert (filter isdigit body = filter isdigit (lit_int l ++ lit_frac_chars l)) as Fb.
  { unfold body. rewrite filter_app, Hs. cbn [app]. exact Fg. }
  assert (ends_with_digit body /\ body <> []) as [Eb Nb].
  { assert (lit_int l ++ F <> []) as N2
      by (intros C; apply app_eq_nil in C; tauto).
    split.
    - intros _. unfold body. rewrite last_app_nonempty by exact N2. exact (Ew N2).
    - unfold body. intros C. apply app_eq_nil in C. tauto. }
  set (g := filter isdigit (lit_int l ++ lit_frac_chars l)) in *.
  set (z := Z.to_nat (exp_of l - frac_digits_of l)).
  assert (count_digit_chars (lit_int l) + frac_digits_of l + (exp_of l - frac_digits_of l)
          = Z.of_nat (length g + z)) as Ed.
  { assert (count_digit_chars (lit_int l) + frac_digits_of l = Z.of_nat (length g)) as C.
    { unfold g, frac_digits_of, lit_frac_chars. rewrite filter_app, length_app.
      destruct (lit_frac l); rewrite !count_digit_chars_filter; cbn [filter length]; lia. }
    unfold z. lia. }
  assert (10 ^ (exp_of l - frac_digits_of l) = Dpow z) as Ez
    by (unfold Dpow, z; f_equal; lia).
  unfold parse_number. rewrite D0. cbn [negb]. rewrite PS, PF. cbv zeta. rewrite PE.
  replace (exp_of l <? frac_digits_of l) with false by (symmetry; apply Z.ltb_ge; lia).
  rewrite Es, firstn_app_exact, Ed. fold z.
  destruct (Z.of_nat (length g + z) <? LOG_BASE).
  - eexists. split; [reflexivity|]. rewrite integer_from_int_value.
    rewrite parse_small_filter, Fb, iter_times_10, Ez. fold g. fold (decimal g).
    reflexivity.
  - destruct (parse_chunks_body body z Eb Nb) as (k & ds & Ec & Oc & Vc).
    cbv zeta in Ec. rewrite Fb in Ec, Vc. fold g in Ec, Vc. rewrite Ec.
    eexists. split; [reflexivity|].
    rewrite integer_bigint_value, bigint_value_flag, Vc, Ez. reflexivity.
Qed.

End ParseValue.

(* ---------------------------------------------------------------------- *)
(** ** Decimal scaling *)

Lemma power_of_10_spec i : 0 <= i <= 9 -> power_of_10 i = 10 ^ i.
Proof.
  intros H.
  assert (i = 0 \/ i = 1 \/ i = 2 \/ i = 3 \/ i = 4 \/ i = 5 \/ i = 6 \/ i = 7
          \/ i = 8 \/ i = 9) as C by lia.
  repeat (destruct C as [->|C]; [reflexivity|]). subst. reflexivity.
Qed.

Lemma pow10_split i :
  0 <= i -> 10 ^ i = 10 ^ (Z.rem i LOG_BASE) * Bpow (Z.to_nat (Z.quot i LOG_BASE)).
Proof.
  intros H. unfold LOG_BASE. rewrite Z.rem_mod_nonneg, Z.quot_div_nonneg by lia.
  pose proof (Z.div_mod i 9 ltac:(lia)) as D.
  pose proof (Z.mod_pos_bound i 9 ltac:(lia)) as B.
  assert (0 <= i / 9) as Q by (apply Z.div_pos; lia).
  rewrite Bpow_pow10, Z2Nat.id by lia. rewrite <- Z.pow_add_r by lia.
  f_equal. lia.
Qed.

Section Scaling.
Context {range : smallint_range}.

(** [integer_mul_pow10] past its tests on the operands, on the path that
    multiplies a bigint. *)
Lemma mul_pow10_from_value (x : integer_t) (i : Z) :
  digits_ok (digits (integer_to_bigint x)) -> 0 <= i ->
  is_smallint x && (i <? LOG_BASE) = false ->
  exists y, mul_pow10_from x i = Some (Integer y)
            /\ integer_value y = integer_value x * 10 ^ i
            /\ digits_ok (digits (integer_to_bigint y)).
Proof.
  intros Ox Hi Hp. unfold mul_pow10_from. rewrite Hp. cbv zeta.
  pose proof (integer_to_bigint_value x) as Vx. rewrite bigint_value_flag' in Vx.
  set (b := integer_to_bigint x) in *.
  assert (0 <= Z.rem i LOG_BASE < 9) as Rs.
  { unfold LOG_BASE. rewrite Z.rem_mod_nonneg by lia. apply Z.mod_pos_bound. lia. }
  assert (0 <= Z.quot i LOG_BASE) as Rl by (apply Z.quot_pos; unfold LOG_BASE; lia).
  set (small := Z.rem i LOG_BASE) in *. set (large := Z.quot i LOG_BASE) in *.
  (* the small multiply *)
  set (b1 := if 0 <? small then bigint_mul_small b (power_of_10 small) else b).
  assert (eval (digits b1) = eval (digits b) * 10 ^ small
          /\ digits_ok (digits b1) /\ is_neg b1 = is_neg b) as (E1 & O1 & N1).
  { unfold b1. destruct (0 <? small) eqn:S0.
    - rewrite power_of_10_spec by lia.
      assert (0 <= 10 ^ small < BASE) as Bp.
      { split; [apply Z.pow_nonneg; lia|].
        rewrite BASE_eq. change 1000000000 with (10 ^ 9).
        apply Z.pow_lt_mono_r; lia. }
      destruct (bigint_mul_small_spec b (10 ^ small) Ox Bp) as (E & O & N & _).
      repeat split; assumption.
    - apply Z.ltb_ge in S0. assert (small = 0) as -> by lia.
      rewrite Z.pow_0_r, Z.mul_1_r. repeat split. exact Ox. }
  (* the shift *)
  set (b2 := if 0 <? large
             then mk_bigint (is_neg b1) (repeat 0 (Z.to_nat large) ++ digits b1)
             else b1).
  assert (eval (digits b2) = eval (digits b1) * Bpow (Z.to_nat large)
          /\ digits_ok (digits b2) /\ is_neg b2 = is_neg b1) as (E2 & O2 & N2).
  { unfold b2. destruct (0 <? large) eqn:L0.
    - cbn [digits is_neg]. rewrite eval_app, eval_repeat_0, repeat_length.
      repeat split; [ring|]. apply digits_ok_app. split; [apply digits_ok_repeat_0 | exact O1].
    - apply Z.ltb_ge in L0. assert (large = 0) as -> by lia.
      change (Z.to_nat 0) with 0%nat. rewrite Bpow_0, Z.mul_1_r. repeat split. exact O1. }
  exists (integer_bigint b2). split; [reflexivity|]. split.
  - rewrite integer_bigint_value, bigint_value_flag', E2, E1, N2, N1, <- Vx.
    rewrite (pow10_split i Hi). fold small large.
    destruct (is_neg b); ring.
  - unfold integer_bigint.
    destruct ((count b2 =? 1)%nat && (digit_at (digits b2) 0 <=? SMALLINT_MAX));
      [apply bigint_from_int_wf | exact O2].
Qed.

Lemma skipn_eval_div ds n :
  digits_ok ds -> eval (skipn n ds) = eval ds / Bpow n.
Proof.
  intros O. pose proof (eval_firstn_skipn n ds) as E.
  pose proof (eval_bound (firstn n ds) (digits_ok_firstn _ _ O)) as B.
  pose proof (Bpow_pos n) as P.
  assert (Bpow (length (firstn n ds)) <= Bpow n) as M
    by (apply Bpow_le; rewrite length_firstn; lia).
  apply (Z.div_unique _ _ _ (eval (firstn n ds))); [left; lia | lia].
Qed.

(** [integer_div_pow10] past its tests on the operands, on the path that
    divides a bigint. *)
Lemma div_pow10_from_value (x : integer_t) (i : Z) :
  digits_ok (digits (integer_to_bigint x)) -> 0 <= i ->
  is_smallint x && (i <? LOG_BASE) = false ->
  exists y, div_pow10_from x i = Some (Integer y)
            /\ integer_value y = Z.quot (integer_value x) (10 ^ i).
Proof.
  intros Ox Hi Hp. unfold div_pow10_from, bigint_count_. rewrite Hp. cbv zeta.
  pose proof (integer_to_bigint_value x) as Vx. rewrite bigint_value_flag' in Vx.
  set (b := integer_to_bigint x) in *.
  assert (0 <= Z.rem i LOG_BASE < 9) as Rs.
  { unfold LOG_BASE. rewrite Z.rem_mod_nonneg by lia. apply Z.mod_pos_bound. lia. }
  assert (0 <= Z.quot i LOG_BASE) as Rl by (apply Z.quot_pos; unfold LOG_BASE; lia).
  pose proof (pow10_split i Hi) as Sp.
  set (small := Z.rem i LOG_BASE) in *. set (large := Z.quot i LOG_BASE) in *.
  pose proof (eval_bound _ Ox) as Bx.
  assert (0 < 10 ^ small) as Ps by (apply Z.pow_pos_nonneg; lia).
  pose proof (Bpow_pos (Z.to_nat large)) as Pl.
  assert (forall q, q = eval (digits b) / 10 ^ i ->
            (if is_neg b then - q else q) = Z.quot (integer_value x) (10 ^ i)) as Sg.
  { intros q ->. rewrite <- Vx.
    assert (0 < 10 ^ i) by (apply Z.pow_pos_nonneg; lia).
    destruct (is_neg b).
    - rewrite Z.quot_opp_l, Z.quot_div_nonneg by lia. reflexivity.
    - rewrite Z.quot_div_nonneg by lia. reflexivity. }
  destruct ((0 <? large) && (Z.of_nat (count b) <=? large)) eqn:Big.
  - apply andb_prop in Big. destruct Big as [L0 Lc].
    apply Z.ltb_lt in L0. apply Z.leb_le in Lc.
    exists (Small 0). split; [reflexivity|]. cbn [integer_value].
    rewrite <- (Sg 0); [destruct (is_neg b); reflexivity|].
    symmetry. apply Z.div_small. split; [lia|].
    assert (Bpow (count b) <= Bpow (Z.to_nat large)) by (apply Bpow_le; lia).
    unfold count in *. nia.
  - set (b1 := if 0 <? large
               then mk_bigint (is_neg b) (skipn (Z.to_nat large) (digits b))
               else b).
    assert (eval (digits b1) = eval (digits b) / Bpow (Z.to_nat large)
            /\ digits_ok (digits b1) /\ is_neg b1 = is_neg b) as (E1 & O1 & N1).
    { unfold b1. destruct (0 <? large) eqn:L0.
      - cbn [digits is_neg]. rewrite skipn_eval_div by exact Ox.
        repeat split. apply digits_ok_skipn. exact Ox.
      - apply Z.ltb_ge in L0. assert (large = 0) as -> by lia.
        change (Z.to_nat 0) with 0%nat. rewrite Bpow_0, Z.div_1_r. repeat split. exact Ox. }
    set (b2 := if 0 <? small then fst (bigint_div_mod_small b1 (power_of_10 small))
               else b1).
    assert (eval (digits b2) = eval (digits b1) / 10 ^ small
            /\ is_neg b2 = is_neg b1) as (E2 & N2).
    { unfold b2. destruct (0 <? small) eqn:S0.
      - rewrite power_of_10_spec by lia.
        destruct (bigint_div_mod_small_spec b1 (10 ^ small) O1 ltac:(lia))
          as (E & M & _ & N).
        split; [|exact N].
        apply (Z.div_unique _ _ _ (snd (bigint_div_mod_small b1 (10 ^ small))));
          [left; exact M | lia].
      - apply Z.ltb_ge in S0. assert (small = 0) as -> by lia.
        rewrite Z.pow_0_r, Z.div_1_r. split; reflexivity. }
    exists (integer_bigint b2). split; [reflexivity|].
    rewrite integer_bigint_value, bigint_value_flag', N2, N1.
    apply Sg. rewrite E2, E1, Z.div_div by lia. rewrite Sp. f_equal. ring.
Qed.

End Scaling.

(* ---------------------------------------------------------------------- *)
(** ** Buffers: segments and single writes *)

Lemma seg_nil ds i n : (n <= i)%nat -> seg ds i n = [].
Proof. intros H. unfold seg. replace (n - i)%nat with 0%nat by lia. reflexivity. Qed.

Lemma seg_cons ds i n :
  (i < n)%nat -> (i < length ds)%nat ->
  seg ds i n = digit_at ds i :: seg ds (S i) n.
Proof.
  intros Hn Hl. unfold seg, digit_at.
  replace (n - i)%nat with (S (n - S i)) by lia.
  revert i n Hn Hl. induction ds as [|d r IH]; intros i n Hn Hl; cbn [length] in Hl; [lia|].
  destruct i as [|i].
  - reflexivity.
  - cbn [skipn nth]. destruct n as [|n]; [lia|].
    specialize (IH i n ltac:(lia) ltac:(lia)).
    replace (S n - S (S i))%nat with (n - S i)%nat by lia. exact IH.
Qed.

Lemma seg_full ds n : seg ds 0 n = firstn n ds.
Proof. unfold seg. rewrite Nat.sub_0_r. reflexivity. Qed.

Lemma firstn_seg ds i n : (i <= n)%nat -> firstn n ds = firstn i ds ++ seg ds i n.
Proof.
  unfold seg. revert i n. induction ds as [|d r IH]; intros i n H.
  - rewrite skipn_nil, !firstn_nil. reflexivity.
  - destruct i as [|i].
    + cbn [firstn skipn app]. rewrite Nat.sub_0_r. reflexivity.
    + destruct n as [|n]; [lia|]. cbn [firstn skipn app].
      f_equal. replace (S n - S i)%nat with (n - i)%nat by lia. apply IH. lia.
Qed.

Lemma firstn_set_digit_below ds i n d :
  (n <= i)%nat -> firstn n (set_digit ds i d) = firstn n ds.
Proof.
  revert i n. induction ds as [|x r IH]; intros [|i] [|n] H; cbn; try reflexivity; try lia.
  f_equal. apply IH. lia.
Qed.

Lemma firstn_set_digit_at ds i d :
  (i < length ds)%nat -> firstn (S i) (set_digit ds i d) = firstn i ds ++ [d].
Proof.
  intros H. rewrite firstn_S_digit by (rewrite set_digit_length; exact H).
  rewrite set_digit_same by exact H. rewrite firstn_set_digit_below by lia. reflexivity.
Qed.

Lemma skipn_set_digit_above ds i n d :
  (i < n)%nat -> skipn n (set_digit ds i d) = skipn n ds.
Proof.
  revert i n. induction ds as [|x r IH]; intros [|i] [|n] H; cbn; try reflexivity; try lia.
  apply IH. lia.
Qed.

Lemma seg_set_digit_above ds i j n d :
  (j < i)%nat -> seg (set_digit ds j d) i n = seg ds i n.
Proof. intros H. unfold seg. rewrite skipn_set_digit_above by exact H. reflexivity. Qed.

Lemma sub_abs_borrow_0 xs : sub_abs_borrow xs 0 = xs.
Proof. destruct xs; reflexivity. Qed.

Lemma sub_abs_digits_nil_r xs borrow : sub_abs_digits xs [] borrow = sub_abs_borrow xs borrow.
Proof. destruct xs; reflexivity. Qed.

Lemma trim_count_firstn ds c i :
  (i <= c)%nat -> trim_count (firstn c ds) i = trim_count ds i.
Proof.
  induction i as [|i IH]; intros H; [reflexivity|].
  cbn [trim_count]. unfold digit_at. rewrite nth_firstn.
  replace (i <? c)%nat with true by (symmetry; apply Nat.ltb_lt; lia).
  rewrite IH by lia. reflexivity.
Qed.

(** ** Buffers: the loops of [bigint_sub_abs] *)

Module BufRun.
Import Buf.

Lemma same_shape_refl b : same_shape b b.
Proof. repeat split. Qed.

Lemma same_shape_trans a b c : same_shape a b -> same_shape b c -> same_shape a c.
Proof.
  unfold same_shape. intros (A1 & A2 & A3 & A4) (B1 & B2 & B3 & B4).
  repeat split; congruence.
Qed.

Lemma same_shape_available b b' :
  same_shape b b' -> bigint_available_ b' = bigint_available_ b.
Proof. intros (_ & E & C & _). unfold bigint_available_. rewrite E, C. reflexivity. Qed.

Lemma same_shape_ok b b' : same_shape b b' -> buf_ok b -> buf_ok b'.
Proof.
  intros S O. unfold buf_ok in *. rewrite (same_shape_available _ _ S).
  destruct S as (_ & _ & _ & L). rewrite L. exact O.
Qed.

Lemma read_ok w b i :
  (i < bigint_available_ b)%nat -> load w b i = inr (digit_at (digits b) i).
Proof. intros H. unfold load. apply Nat.ltb_lt in H. rewrite H. reflexivity. Qed.

(** One write to [z], which is a write to [x] when they are one buffer. *)
Lemma store_z_run s i d :
  (i < bigint_available_ (st_z s))%nat ->
  (st_same s = true -> st_x s = st_z s) ->
  exists s', store_z s i d = inr s'
    /\ digits (st_z s') = set_digit (digits (st_z s)) i d
    /\ same_shape (st_z s) (st_z s')
    /\ st_same s' = st_same s
    /\ digits (st_x s') = (if st_same s then set_digit (digits (st_x s)) i d
                           else digits (st_x s))
    /\ same_shape (st_x s) (st_x s')
    /\ (st_same s = true -> st_x s' = st_z s').
Proof.
  intros H A. unfold store_z, store. apply Nat.ltb_lt in H. rewrite H.
  cbn [bind ret]. eexists. split; [reflexivity|]. cbn [st_z st_x st_same digits].
  split; [reflexivity|]. split.
  { unfold same_shape. cbn [is_neg extra count digits].
    rewrite set_digit_length. repeat split. }
  split; [reflexivity|].
  destruct (st_same s) eqn:Sm.
  - rewrite (A eq_refl). cbn [digits]. split; [reflexivity|]. split; [|reflexivity].
    unfold same_shape. cbn [is_neg extra count digits].
    rewrite set_digit_length. repeat split.
  - split; [reflexivity|]. split; [apply same_shape_refl | discriminate].
Qed.

Section Loops.
Variables (x0 z0 y : bigint_s) (same : bool) (r : list Z).
Hypothesis Ox : buf_ok x0.
Hypothesis Oz : buf_ok z0.
Hypothesis Oy : buf_ok y.
Hypothesis Room : (count x0 <= bigint_available_ z0)%nat.
Hypothesis Cyx : (count y <= count x0)%nat.

Lemma sub_inv_step i borrow borrow' d s :
  (i < count x0)%nat ->
  sub_inv x0 z0 y same r i borrow s ->
  sub_abs_digits (seg (digits (st_x s)) i (count x0))
                 (seg (digits y) i (count y)) borrow
  = d :: sub_abs_digits (seg (digits (st_x s)) (S i) (count x0))
                        (seg (digits y) (S i) (count y)) borrow' ->
  exists s', store_z s i d = inr s' /\ sub_inv x0 z0 y same r (S i) borrow' s'.
Proof.
  intros Hi (Sx & Sz & Sm & Al & E) Step.
  pose proof (same_shape_available _ _ Sz) as Az.
  destruct (store_z_run s i d) as (s' & R & Dz & Sz' & Sm' & Dx & Sx' & Al').
  { lia. }
  { rewrite Sm. exact Al. }
  exists s'. split; [exact R|].
  split; [exact (same_shape_trans _ _ _ Sx Sx')|].
  split; [exact (same_shape_trans _ _ _ Sz Sz')|].
  split; [congruence|].
  split; [intros T; apply Al'; congruence|].
  assert (i < length (digits (st_z s)))%nat as Lz.
  { destruct Sz as (_ & _ & _ & L). rewrite L. unfold buf_ok in Oz. lia. }
  rewrite Dz, firstn_set_digit_at by exact Lz.
  assert (seg (digits (st_x s')) (S i) (count x0)
          = seg (digits (st_x s)) (S i) (count x0)) as Keep.
  { rewrite Dx. destruct (st_same s); [|reflexivity].
    apply seg_set_digit_above. lia. }
  rewrite Keep, <- app_assoc. cbn [app]. rewrite <- Step. exact E.
Qed.

Lemma sub_digits_inv n : forall i borrow s,
  (i + n <= count y)%nat ->
  sub_inv x0 z0 y same r i borrow s ->
  exists b' s', sub_digits n i y borrow s = inr ((i + n)%nat, b', s')
                /\ sub_inv x0 z0 y same r (i + n) b' s'.
Proof.
  induction n as [|n IH]; intros i borrow s Hn Inv.
  - exists borrow, s. rewrite Nat.add_0_r. split; [reflexivity | exact Inv].
  - cbn [sub_digits].
    pose proof Inv as (Sx & Sz & Sm & Al & E).
    pose proof (same_shape_available _ _ Sx) as Ax.
    assert (count x0 <= bigint_available_ x0)%nat as Cx by (unfold bigint_available_; lia).
    assert (count y <= bigint_available_ y)%nat as Cy by (unfold bigint_available_; lia).
    rewrite read_ok by lia. cbn [bind].
    rewrite read_ok by lia. cbn [bind].
    assert (i < length (digits (st_x s)))%nat as Lx.
    { destruct Sx as (_ & _ & _ & L). rewrite L. unfold buf_ok in Ox. lia. }
    assert (i < length (digits y))%nat as Ly by (unfold buf_ok in Oy; lia).
    set (diff := digit_at (digits (st_x s)) i - borrow - digit_at (digits y) i).
    assert (forall b' d,
      (if diff <? 0 then (diff + BASE, 1) else (diff, 0)) = (d, b') ->
      exists b2 s2, (s1 <- store_z s i d ;; sub_digits n (S i) y b' s1)
                    = inr ((i + S n)%nat, b2, s2)
                    /\ sub_inv x0 z0 y same r (i + S n) b2 s2) as K.
    { intros b' d Hd.
      destruct (sub_inv_step i borrow b' d s ltac:(lia) Inv) as (s1 & R1 & I1).
      { rewrite (seg_cons _ i (count x0)) by lia.
        rewrite (seg_cons _ i (count y)) by lia.
        cbn [sub_abs_digits]. fold diff.
        destruct (diff <? 0); inversion Hd; reflexivity. }
      rewrite R1. cbn [bind].
      destruct (IH (S i) b' s1 ltac:(lia) I1) as (b2 & s2 & R2 & I2).
      exists b2, s2. replace (i + S n)%nat with (S i + n)%nat by lia.
      split; assumption. }
    destruct (diff <? 0); eapply K; reflexivity.
Qed.

Lemma sub_borrow_inv n : forall i borrow s,
  (count y <= i)%nat -> (i + n <= count x0)%nat ->
  sub_inv x0 z0 y same r i borrow s ->
  exists i' b' s', sub_borrow n i borrow s = inr (i', b', s')
                   /\ (i <= i' <= i + n)%nat
                   /\ ((i' < i + n)%nat -> b' = 0)
                   /\ sub_inv x0 z0 y same r i' b' s'.
Proof.
  induction n as [|n IH]; intros i borrow s Hy Hn Inv.
  - exists i, borrow, s. split; [reflexivity|]. split; [lia|]. split; [lia | exact Inv].
  - cbn [sub_borrow]. destruct (borrow =? 0) eqn:B0.
    + apply Z.eqb_eq in B0. exists i, borrow, s.
      split; [reflexivity|]. split; [lia|]. split; [intros _; exact B0 | exact Inv].
    + pose proof Inv as (Sx & Sz & Sm & Al & E).
      pose proof (same_shape_available _ _ Sx) as Ax.
      assert (count x0 <= bigint_available_ x0)%nat as Cx
        by (unfold bigint_available_; lia).
      rewrite read_ok by lia. cbn [bind].
      assert (i < length (digits (st_x s)))%nat as Lx.
      { destruct Sx as (_ & _ & _ & L). rewrite L. unfold buf_ok in Ox. lia. }
      set (diff := digit_at (digits (st_x s)) i - borrow).
      assert (forall b' d,
        (if diff <? 0 then (diff + BASE, borrow) else (diff, 0)) = (d, b') ->
        exists i' b2 s2, (s1 <- store_z s i d ;; sub_borrow n (S i) b' s1)
                         = inr (i', b2, s2)
                         /\ (i <= i' <= i + S n)%nat
                         /\ ((i' < i + S n)%nat -> b2 = 0)
                         /\ sub_inv x0 z0 y same r i' b2 s2) as K.
      { intros b' d Hd.
        destruct (sub_inv_step i borrow b' d s ltac:(lia) Inv) as (s1 & R1 & I1).
        { rewrite (seg_cons _ i (count x0)) by lia.
          rewrite !(seg_nil (digits y)) by lia.
          rewrite !sub_abs_digits_nil_r. cbn [sub_abs_borrow]. rewrite B0. fold diff.
          destruct (diff <? 0); inversion Hd; reflexivity. }
        rewrite R1. cbn [bind].
        destruct (IH (S i) b' s1 ltac:(lia) ltac:(lia) I1)
          as (i' & b2 & s2 & R2 & Ri & Bz & I2).
        exists i', b2, s2. split; [exact R2|]. split; [lia|].
        split; [intros L; apply Bz; lia | exact I2]. }
      destruct (diff <? 0); eapply K; reflexivity.
Qed.

(** The copy of the tail, when slot [count x0] exists in both buffers. *)
Lemma sub_copy_tail_inv n : forall i s,
  (i + n = count x0 + 1)%nat ->
  (count x0 < bigint_available_ x0)%nat ->
  (count x0 < bigint_available_ z0)%nat ->
  same_shape x0 (st_x s) -> same_shape z0 (st_z s) -> st_same s = false ->
  firstn (Nat.min i (count x0)) (digits (st_z s))
    ++ seg (digits (st_x s)) i (count x0) = r ->
  exists s', sub_copy_tail n i s = inr s'
             /\ same_shape z0 (st_z s')
             /\ firstn (count x0) (digits (st_z s')) = r.
Proof.
  induction n as [|n IH]; intros i s Hn Hx Hz Sx Sz Sm E.
  - exists s. split; [reflexivity|]. split; [exact Sz|].
    rewrite Nat.min_r, seg_nil, app_nil_r in E by lia. exact E.
  - cbn [sub_copy_tail].
    pose proof (same_shape_available _ _ Sx) as Ax.
    pose proof (same_shape_available _ _ Sz) as Az.
    rewrite read_ok by lia. cbn [bind].
    destruct (store_z_run s i (digit_at (digits (st_x s)) i))
      as (s1 & R & Dz & Sz' & Sm' & Dx & Sx' & _).
    { lia. } { rewrite Sm. discriminate. }
    rewrite R. cbn [bind]. rewrite Sm in Dx.
    apply (IH (S i) s1); try lia.
    + exact (same_shape_trans _ _ _ Sx Sx').
    + exact (same_shape_trans _ _ _ Sz Sz').
    + congruence.
    + rewrite Dz, Dx. destruct (Nat.eq_dec i (count x0)) as [->|Ne].
      * rewrite Nat.min_r by lia. rewrite firstn_set_digit_below by lia.
        rewrite Nat.min_id, seg_nil in E by lia. rewrite seg_nil by lia. exact E.
      * assert (i < count x0)%nat as Li by lia.
        rewrite Nat.min_l in E by lia. rewrite Nat.min_l by lia.
        assert (i < length (digits (st_z s)))%nat as Lz.
        { destruct Sz as (_ & _ & _ & L). rewrite L. unfold buf_ok in Oz. lia. }
        assert (i < length (digits (st_x s)))%nat as Lx.
        { destruct Sx as (_ & _ & _ & L). rewrite L. unfold buf_ok in Ox. lia. }
        rewrite firstn_set_digit_at by exact Lz.
        rewrite (seg_cons _ i) in E by lia.
        rewrite <- app_assoc. exact E.
Qed.

(** The copy of the tail, when slot [count x0] is missing in one of the
    buffers. *)
Lemma sub_copy_tail_stops n : forall i s,
  (i + n = count x0 + 1)%nat -> (1 <= n)%nat ->
  (bigint_available_ x0 <= count x0 \/ bigint_available_ z0 <= count x0)%nat ->
  same_shape x0 (st_x s) -> same_shape z0 (st_z s) -> st_same s = false ->
  exists f, sub_copy_tail n i s = inl f.
Proof.
  induction n as [|n IH]; intros i s Hn H1 Miss Sx Sz Sm; [lia|].
  cbn [sub_copy_tail].
  pose proof (same_shape_available _ _ Sx) as Ax.
  pose proof (same_shape_available _ _ Sz) as Az.
  assert (count x0 <= bigint_available_ x0)%nat as Cx by (unfold bigint_available_; lia).
  destruct (Nat.eq_dec i (count x0)) as [->|Ne].
  - destruct (Nat.lt_ge_cases (count x0) (bigint_available_ x0)) as [L|G].
    + rewrite read_ok by lia. cbn [bind]. unfold store_z, store.
      replace (count x0 <? bigint_available_ (st_z s))%nat with false
        by (symmetry; apply Nat.ltb_ge; lia).
      cbn [bind]. eexists. reflexivity.
    + unfold load.
      replace (count x0 <? bigint_available_ (st_x s))%nat with false
        by (symmetry; apply Nat.ltb_ge; lia).
      cbn [bind]. eexists. reflexivity.
  - rewrite read_ok by lia. cbn [bind].
    destruct (store_z_run s i (digit_at (digits (st_x s)) i))
      as (s1 & R & Dz & Sz' & Sm' & Dx & Sx' & _).
    { lia. } { rewrite Sm. discriminate. }
    rewrite R. cbn [bind].
    apply (IH (S i) s1); try lia.
    + exact (same_shape_trans _ _ _ Sx Sx').
    + exact (same_shape_trans _ _ _ Sz Sz').
    + congruence.
Qed.

(** After the two loops nothing is left to subtract. *)
Lemma sub_inv_done i b s :
  (count y <= i <= count x0)%nat -> ((i < count x0)%nat -> b = 0) ->
  sub_inv x0 z0 y same r i b s ->
  firstn i (digits (st_z s)) ++ seg (digits (st_x s)) i (count x0) = r.
Proof.
  intros Hi Hb (_ & _ & _ & _ & E).
  rewrite (seg_nil (digits y)), sub_abs_digits_nil_r in E by lia.
  destruct (Nat.eq_dec i (count x0)) as [->|Ne].
  - rewrite seg_nil in * by lia. exact E.
  - rewrite Hb, sub_abs_borrow_0 in E by lia. exact E.
Qed.

End Loops.

(** *** Allocation and trimming *)

Lemma roundup_ge n : (n <= bigint_roundup_count n)%nat.
Proof.
  unfold bigint_roundup_count. destruct (n <? 4)%nat eqn:E.
  - apply Nat.ltb_lt in E. lia.
  - destruct (Nat.odd n); lia.
Qed.

Lemma roundup_le n : (bigint_roundup_count n <= Nat.max 4 (n + 1))%nat.
Proof.
  unfold bigint_roundup_count. destruct (n <? 4)%nat; [lia|].
  destruct (Nat.odd n); lia.
Qed.

Lemma alloc_shape n neg :
  count (bigint_alloc n neg) = n /\ is_neg (bigint_alloc n neg) = neg
  /\ bigint_available_ (bigint_alloc n neg) = bigint_roundup_count n
  /\ length (digits (bigint_alloc n neg)) = bigint_roundup_count n.
Proof.
  pose proof (roundup_ge n). unfold bigint_alloc, bigint_available_.
  cbn [count is_neg extra digits]. rewrite repeat_length. repeat split. lia.
Qed.

Lemma alloc_ok n neg : buf_ok (bigint_alloc n neg).
Proof.
  destruct (alloc_shape n neg) as (_ & _ & A & L). unfold buf_ok. rewrite A, L. lia.
Qed.

Lemma resize_length ds n : length (resize ds n) = n.
Proof. unfold resize. rewrite length_app, length_firstn, repeat_length. lia. Qed.

Lemma resize_firstn ds n m :
  (m <= n)%nat -> (m <= length ds)%nat -> firstn m (resize ds n) = firstn m ds.
Proof.
  intros H1 H2. unfold resize. rewrite firstn_app, length_firstn.
  replace (m - Nat.min n (length ds))%nat with 0%nat by lia.
  rewrite firstn_firstn, Nat.min_l by lia. cbn [firstn]. apply app_nil_r.
Qed.

Lemma trim_realloc_shape x n :
  buf_ok x -> (n <= bigint_available_ x)%nat ->
  count (bigint_trim_realloc_ x n) = n
  /\ is_neg (bigint_trim_realloc_ x n) = is_neg x
  /\ firstn n (digits (bigint_trim_realloc_ x n)) = firstn n (digits x)
  /\ buf_ok (bigint_trim_realloc_ x n)
  /\ (MAX_EXTRA < bigint_available_ x - n ->
      extra (bigint_trim_realloc_ x n) <= 4)%nat.
Proof.
  intros O Hn. unfold bigint_trim_realloc_, buf_ok in *.
  pose proof (roundup_ge n) as G. pose proof (roundup_le n) as L.
  destruct ((bigint_roundup_count n <=? bigint_available_ x)%nat
            && (bigint_available_ x - bigint_roundup_count n <? 4)%nat) eqn:K.
  - apply andb_prop in K. destruct K as [K1 K2].
    apply Nat.leb_le in K1. apply Nat.ltb_lt in K2.
    unfold bigint_available_ in *. cbn [count is_neg extra digits].
    repeat split; try lia. unfold MAX_EXTRA. lia.
  - unfold bigint_available_ in *. cbn [count is_neg extra digits].
    rewrite resize_length. repeat split; try lia.
    apply resize_firstn; lia.
Qed.

(** [bigint_trim_to] to a count the buffer has room for. *)
Lemma trim_to_shape x n a :
  buf_ok x -> (n <= bigint_available_ x)%nat ->
  count (bigint_trim_to x n a) = n
  /\ is_neg (bigint_trim_to x n a) = is_neg x
  /\ firstn n (digits (bigint_trim_to x n a)) = firstn n (digits x)
  /\ buf_ok (bigint_trim_to x n a)
  /\ (extra (bigint_trim_to x n a) <= MAX_EXTRA)%nat.
Proof.
  intros O Hn. unfold bigint_trim_to.
  replace (bigint_available_ x <? n)%nat with false by (symmetry; apply Nat.ltb_ge; lia).
  destruct (MAX_EXTRA <? bigint_available_ x - n)%nat eqn:D.
  - apply Nat.ltb_lt in D. destruct a.
    + destruct (trim_realloc_shape x n O Hn) as (C & N & F & B & E).
      repeat split; try assumption. specialize (E D). unfold MAX_EXTRA in *. lia.
    + unfold buf_ok, bigint_available_ in *. cbn [count is_neg extra digits].
      repeat split; lia.
  - apply Nat.ltb_ge in D.
    unfold buf_ok, bigint_available_ in *. cbn [count is_neg extra digits].
    repeat split; lia.
Qed.

(** When [bigint_alloc_reuse_] hands back [x] itself. *)
Lemma alloc_reuse_same unique x n :
  buf_ok x ->
  (n <=? bigint_available_ x)%nat && (bigint_available_ x - n <=? MAX_EXTRA)%nat
    && unique = true ->
  bigint_alloc_reuse_ unique x n
  = (mk_bigint_s (is_neg x) (bigint_available_ x - n) n (digits x), true).
Proof.
  intros O K. unfold bigint_alloc_reuse_. rewrite K.
  apply andb_prop in K. destruct K as [K _]. apply andb_prop in K. destruct K as [K1 K2].
  apply Nat.leb_le in K1. apply Nat.leb_le in K2.
  unfold bigint_trim_to.
  replace (bigint_available_ x <? n)%nat with false by (symmetry; apply Nat.ltb_ge; lia).
  replace (MAX_EXTRA <? bigint_available_ x - n)%nat with false
    by (symmetry; apply Nat.ltb_ge; lia).
  reflexivity.
Qed.

End BufRun.

Lemma live_length b : buf_ok b -> length (live b) = Buf.count b.
Proof.
  intros O. unfold live, buf_ok, Buf.bigint_available_ in *. rewrite length_firstn. lia.
Qed.

(** [bigint_trim] on a buffer is [bigint_trim] on the bigint it holds. *)
Lemma trim_abstract x a :
  buf_ok x ->
  abstract (Buf.bigint_trim x a) = bigint_trim (abstract x)
  /\ buf_ok (Buf.bigint_trim x a)
  /\ (Buf.extra (Buf.bigint_trim x a) <= Buf.MAX_EXTRA)%nat.
Proof.
  intros O. unfold Buf.bigint_trim, Buf.bigint_count_.
  pose proof (trim_count_le (Buf.digits x) (Buf.count x)) as Le.
  destruct (BufRun.trim_to_shape x (trim_count (Buf.digits x) (Buf.count x)) a O)
    as (C & N & F & B & E).
  { unfold Buf.bigint_available_. lia. }
  split; [|split; assumption].
  unfold abstract, live. rewrite C, N, F.
  unfold bigint_trim, bigint_trim_to, count. cbn [digits is_neg].
  pose proof (live_length x O) as Ll. unfold live in Ll. rewrite Ll.
  rewrite trim_count_firstn by lia.
  rewrite firstn_firstn, Nat.min_l by lia. reflexivity.
Qed.

(** ** Buffers: block copies *)

Lemma seg_length ds i n : (n <= length ds)%nat -> length (seg ds i n) = (n - i)%nat.
Proof. intros H. unfold seg. rewrite length_firstn, length_skipn. lia. Qed.

Lemma seg_live ds i n : seg ds i n = skipn i (firstn n ds).
Proof. unfold seg. symmetry. apply skipn_firstn_comm. Qed.

Lemma seg_firstn ds i n m :
  (m <= n - i)%nat -> firstn m (seg ds i n) = seg ds i (i + m).
Proof.
  intros H. unfold seg. rewrite firstn_firstn, Nat.min_l by lia.
  replace (i + m - i)%nat with m by lia. reflexivity.
Qed.

Module BufBlocks.
Import Buf.

Lemma read_block_ok w b n : forall from,
  buf_ok b -> (from + n <= bigint_available_ b)%nat ->
  BufOps.read_block w b from n = inr (seg (digits b) from (from + n)).
Proof.
  induction n as [|n IH]; intros from O H.
  - rewrite seg_nil by lia. reflexivity.
  - cbn [BufOps.read_block]. rewrite BufRun.read_ok by lia. cbn [bind].
    rewrite IH by (assumption || lia). cbn [bind ret].
    unfold buf_ok in O. rewrite (seg_cons _ from) by lia.
    replace (S from + n)%nat with (from + S n)%nat by lia. reflexivity.
Qed.

Lemma read_block_fault w b n : forall from,
  (1 <= n)%nat -> (bigint_available_ b < from + n)%nat ->
  exists f, BufOps.read_block w b from n = inl f.
Proof.
  induction n as [|n IH]; intros from H1 H; [lia|].
  cbn [BufOps.read_block]. unfold load.
  destruct (from <? bigint_available_ b)%nat eqn:E.
  - apply Nat.ltb_lt in E.
    cbn [bind ret]. destruct (IH (S from) ltac:(lia) ltac:(lia)) as (f & Ef).
    fold (load w b from). rewrite Ef. cbn [bind]. exists f. reflexivity.
  - cbn [bind]. eexists. reflexivity.
Qed.

Lemma store_ok w b i d :
  (i < bigint_available_ b)%nat ->
  store w b i d = inr (mk_bigint_s (is_neg b) (extra b) (count b)
                                   (set_digit (digits b) i d)).
Proof. intros H. unfold store. apply Nat.ltb_lt in H. rewrite H. reflexivity. Qed.

Lemma write_block_ok w ds : forall b to,
  buf_ok b -> (to + length ds <= bigint_available_ b)%nat ->
  exists b', BufOps.write_block w b to ds = inr b'
             /\ same_shape b b'
             /\ digits b' = firstn to (digits b) ++ ds
                            ++ skipn (to + length ds) (digits b).
Proof.
  induction ds as [|d r IH]; intros b to O H.
  - exists b. split; [reflexivity|]. split; [apply BufRun.same_shape_refl|].
    cbn [app length]. rewrite Nat.add_0_r. symmetry. apply firstn_skipn.
  - cbn [length] in H. cbn [BufOps.write_block]. rewrite store_ok by lia. cbn [bind].
    set (b1 := mk_bigint_s _ _ _ _).
    assert (same_shape b b1) as S1.
    { unfold same_shape, b1. cbn [is_neg extra count digits].
      rewrite set_digit_length. repeat split. }
    destruct (IH b1 (S to) (BufRun.same_shape_ok _ _ S1 O)) as (b' & R & S' & D).
    { rewrite (BufRun.same_shape_available _ _ S1). lia. }
    exists b'. split; [exact R|]. split; [exact (BufRun.same_shape_trans _ _ _ S1 S')|].
    rewrite D. unfold b1. cbn [digits length].
    unfold buf_ok in O.
    rewrite firstn_set_digit_at by lia. rewrite skipn_set_digit_above by lia.
    rewrite <- app_assoc. cbn [app].
    replace (S to + length r)%nat with (to + S (length r))%nat by lia. reflexivity.
Qed.

Lemma write_block_fault w ds : forall b to,
  (1 <= length ds)%nat -> (bigint_available_ b < to + length ds)%nat ->
  exists f, BufOps.write_block w b to ds = inl f.
Proof.
  induction ds as [|d r IH]; intros b to H1 H; cbn [length] in *; [lia|].
  cbn [BufOps.write_block]. unfold store.
  destruct (to <? bigint_available_ b)%nat eqn:E.
  - apply Nat.ltb_lt in E. cbn [bind ret].
    apply IH; unfold bigint_available_ in *; cbn [count extra]; lia.
  - cbn [bind]. eexists. reflexivity.
Qed.

(** [bigint_trim_to] without reallocation keeps the slots and caps
    [extra]. *)
Lemma trim_to_keep x n :
  (n <= bigint_available_ x)%nat ->
  digits (bigint_trim_to x n false) = digits x
  /\ extra (bigint_trim_to x n false) = Nat.min (bigint_available_ x - n) MAX_EXTRA.
Proof.
  intros H. unfold bigint_trim_to.
  replace (bigint_available_ x <? n)%nat with false by (symmetry; apply Nat.ltb_ge; lia).
  destruct (MAX_EXTRA <? bigint_available_ x - n)%nat eqn:D.
  - apply Nat.ltb_lt in D. cbn [digits extra]. split; [reflexivity | lia].
  - apply Nat.ltb_ge in D. cbn [digits extra]. split; [reflexivity | lia].
Qed.

End BufBlocks.

Lemma firstn_app_length (a b : list Z) n : length a = n -> firstn n (a ++ b) = a.
Proof.
  intros <-. rewrite firstn_app, Nat.sub_diag, firstn_all. cbn [firstn]. apply app_nil_r.
Qed.

Lemma abstract_eq b neg ds :
  Buf.is_neg b = neg -> live b = ds -> abstract b = mk_bigint neg ds.
Proof. intros <- <-. reflexivity. Qed.

(** [bigint_copy]: a buffer of its own with the same digits and the spare
    slots asked for. *)
Lemma bigint_copy_spec x e :
  buf_ok x ->
  exists z, BufOps.bigint_copy x e = inr z
            /\ abstract z = abstract x /\ buf_ok z
            /\ (Nat.min e Buf.MAX_EXTRA <= Buf.extra z <= Buf.MAX_EXTRA)%nat.
Proof.
  intros O. unfold BufOps.bigint_copy.
  set (e' := if (Buf.MAX_EXTRA <? e)%nat then Buf.MAX_EXTRA else e).
  assert (e' = Nat.min e Buf.MAX_EXTRA) as Ee.
  { unfold e'. destruct (Buf.MAX_EXTRA <? e)%nat eqn:K.
    - apply Nat.ltb_lt in K. lia.
    - apply Nat.ltb_ge in K. lia. }
  set (z0 := Buf.bigint_alloc (Buf.count x + e') (Buf.is_neg x)).
  destruct (BufRun.alloc_shape (Buf.count x + e') (Buf.is_neg x)) as (C0 & N0 & A0 & L0).
  fold z0 in C0, N0, A0, L0.
  pose proof (BufRun.roundup_ge (Buf.count x + e')) as G.
  pose proof (BufRun.alloc_ok (Buf.count x + e') (Buf.is_neg x)) as O0. fold z0 in O0.
  destruct (BufRun.trim_to_shape z0 (Buf.count x) false O0 ltac:(lia))
    as (C1 & N1 & _ & O1 & E1).
  destruct (BufBlocks.trim_to_keep z0 (Buf.count x) ltac:(lia)) as (_ & X1).
  set (z1 := Buf.bigint_trim_to z0 (Buf.count x) false) in *.
  rewrite (BufBlocks.read_block_ok Buf.buf_x x (Buf.count x) 0 O)
    by (unfold Buf.bigint_available_; lia).
  cbn [Buf.bind]. rewrite Nat.add_0_l, seg_full. fold (live x).
  pose proof (live_length x O) as Ll.
  destruct (BufBlocks.write_block_ok Buf.buf_z (live x) z1 0 O1) as (z & R & S & D).
  { unfold Buf.bigint_available_. lia. }
  exists z. split; [exact R|].
  pose proof S as (Nz & Ez & Cz & _).
  split; [|split; [exact (BufRun.same_shape_ok _ _ S O1) | lia]].
  apply abstract_eq; [congruence|].
  unfold live at 1. rewrite D, Cz, C1. cbn [firstn app].
  apply firstn_app_length. exact Ll.
Qed.

(** [bigint_push] appends one digit, in [x] when it has a spare slot and
    in a copy with [MAX_EXTRA] spare slots when it has none. *)
Lemma bigint_push_spec x d :
  buf_ok x ->
  exists z, BufOps.bigint_push x d = inr z
            /\ abstract z = bigint_push (abstract x) d /\ buf_ok z
            /\ ((0 < Buf.extra x)%nat ->
                Buf.extra z = (Buf.extra x - 1)%nat
                /\ Buf.digits z = set_digit (Buf.digits x) (Buf.count x) d).
Proof.
  intros O. unfold BufOps.bigint_push.
  assert (exists x1, (if (Buf.extra x =? 0)%nat
                      then BufOps.bigint_copy x Buf.MAX_EXTRA else Buf.ret x) = inr x1
                     /\ abstract x1 = abstract x /\ buf_ok x1
                     /\ (1 <= Buf.extra x1)%nat
                     /\ ((0 < Buf.extra x)%nat -> x1 = x)) as (x1 & R1 & A1 & O1 & E1 & K1).
  { destruct (Buf.extra x =? 0)%nat eqn:E0.
    - apply Nat.eqb_eq in E0.
      destruct (bigint_copy_spec x Buf.MAX_EXTRA O) as (z & R & A & Oz & Ez).
      exists z. repeat split; try assumption; [|lia].
      rewrite Nat.min_id in Ez. unfold Buf.MAX_EXTRA in *. lia.
    - apply Nat.eqb_neq in E0. exists x. repeat split; try assumption. lia. }
  rewrite R1. cbn [Buf.bind].
  rewrite BufBlocks.store_ok by (unfold Buf.bigint_available_; lia).
  cbn [Buf.bind Buf.ret Buf.is_neg Buf.extra Buf.count Buf.digits].
  eexists. split; [reflexivity|].
  assert (Buf.count x1 < length (Buf.digits x1))%nat as Lc
    by (unfold buf_ok, Buf.bigint_available_ in O1; lia).
  split; [|split].
  - unfold abstract, live, bigint_push in *.
    cbn [Buf.is_neg Buf.count Buf.digits digits is_neg].
    injection A1 as N1 D1. rewrite Nat.add_1_r, firstn_set_digit_at by exact Lc.
    rewrite N1, D1. reflexivity.
  - unfold buf_ok, Buf.bigint_available_ in *.
    cbn [Buf.extra Buf.count Buf.digits]. rewrite set_digit_length. lia.
  - intros P. rewrite (K1 P). split; reflexivity.
Qed.

(** The two block operations of a shift by [k] digits: the digits of
    [src] go to [z0] from slot [k] on, and the slots below are zeroed. *)
Lemma shift_blocks src z0 k cx :
  buf_ok src -> buf_ok z0 ->
  (cx <= Buf.bigint_available_ src)%nat -> Buf.count z0 = (cx + k)%nat ->
  exists z,
    Buf.bind (BufOps.read_block Buf.buf_x src 0 cx)
      (fun ds => Buf.bind (BufOps.write_block Buf.buf_z z0 k ds)
         (fun z => BufOps.write_block Buf.buf_z z 0 (repeat 0 k))) = inr z
    /\ same_shape z0 z
    /\ live z = repeat 0 k ++ firstn cx (Buf.digits src).
Proof.
  intros Os Oz Hs Cz.
  rewrite (BufBlocks.read_block_ok Buf.buf_x src cx 0 Os) by lia.
  cbn [Buf.bind]. rewrite Nat.add_0_l, seg_full.
  set (ds := firstn cx (Buf.digits src)).
  assert (length ds = cx) as Ld.
  { unfold ds. rewrite length_firstn. unfold buf_ok in Os. lia. }
  assert (cx + k <= Buf.bigint_available_ z0)%nat as Az
    by (unfold Buf.bigint_available_; lia).
  destruct (BufBlocks.write_block_ok Buf.buf_z ds z0 k Oz ltac:(lia)) as (z1 & R1 & S1 & D1).
  rewrite R1. cbn [Buf.bind].
  pose proof (BufRun.same_shape_ok _ _ S1 Oz) as O1.
  pose proof (BufRun.same_shape_available _ _ S1) as A1.
  destruct (BufBlocks.write_block_ok Buf.buf_z (repeat 0 k) z1 0 O1) as (z & R & S & D).
  { rewrite repeat_length. lia. }
  exists z. split; [exact R|].
  pose proof (BufRun.same_shape_trans _ _ _ S1 S) as S2.
  split; [exact S2|].
  unfold live. destruct S2 as (_ & _ & C & _). rewrite C, Cz, D, D1.
  rewrite repeat_length. cbn [firstn app Nat.add].
  assert (length (firstn k (Buf.digits z0)) = k) as Lk.
  { rewrite length_firstn. unfold buf_ok in Oz. lia. }
  rewrite skipn_app, Lk, Nat.sub_diag. cbn [skipn].
  rewrite skipn_all2 by lia. cbn [app].
  rewrite app_assoc. apply firstn_app_length.
  rewrite length_app, repeat_length. lia.
Qed.

(** ** Buffers: [bigint_add_abs] *)

(** With top digits that leave room for a carry, the sum has no more
    digits than [xs]. *)
Lemma add_abs_carry_keeps_length xs : forall c,
  digits_ok xs -> 0 <= c <= 1 -> xs <> [] -> last xs 0 + 1 < BASE ->
  length (add_abs_carry xs c) = length xs.
Proof.
  induction xs as [|x r IH]; intros c O Hc Ne Top; [congruence|].
  apply digits_ok_cons in O. destruct O as [Hx Hr].
  cbn [add_abs_carry]. destruct (c =? 0); [reflexivity|].
  destruct r as [|x' r'].
  - cbn [last] in Top.
    replace (BASE <=? x + c) with false by (symmetry; apply Z.leb_gt; lia).
    reflexivity.
  - rewrite last_cons_cons in Top.
    destruct (BASE <=? x + c); cbn [length]; f_equal;
      apply IH; try assumption; try lia; discriminate.
Qed.

Lemma last_digit_nonneg ys : digits_ok ys -> 0 <= last ys 0.
Proof.
  induction ys as [|y r IH]; intros O; [cbn; lia|].
  apply digits_ok_cons in O. destruct O as [Hy Hr].
  destruct r as [|y' r']; [cbn; lia|].
  rewrite last_cons_cons. apply IH. exact Hr.
Qed.

Lemma add_abs_digits_keeps_length xs : forall ys c,
  digits_ok xs -> digits_ok ys -> 0 <= c <= 1 ->
  (length ys <= length xs)%nat -> xs <> [] ->
  last xs 0 + last ys 0 + 1 < BASE ->
  length (add_abs_digits xs ys c) = length xs.
Proof.
  induction xs as [|x r IH]; intros ys c Ox Oy Hc Hl Ne Top; [congruence|].
  pose proof (last_digit_nonneg ys Oy) as Ly.
  destruct ys as [|y ys].
  - cbn [add_abs_digits]. apply add_abs_carry_keeps_length; try assumption.
    change (last (@nil Z) 0) with 0 in Top. lia.
  - pose proof Ox as Ox'. pose proof Oy as Oy'.
    apply digits_ok_cons in Ox'. destruct Ox' as [Hx Hr].
    apply digits_ok_cons in Oy'. destruct Oy' as [Hy Hys].
    cbn [length] in Hl. cbn [add_abs_digits].
    destruct r as [|x' r'].
    + destruct ys as [|y' ys']; [|cbn [length] in Hl; lia].
      cbn [last] in Top.
      replace (BASE <=? x + y + c) with false by (symmetry; apply Z.leb_gt; lia).
      reflexivity.
    + rewrite last_cons_cons in Top.
      assert (last (x' :: r') 0 + last ys 0 + 1 < BASE) as Top'.
      { destruct ys as [|y' ys']; [cbn [last] in *; lia|].
        rewrite last_cons_cons in Top. exact Top. }
      destruct (BASE <=? x + y + c); cbn [length]; f_equal;
        apply IH; try assumption; try lia; discriminate.
Qed.

Lemma add_abs_digits_nil_r xs c : add_abs_digits xs [] c = add_abs_carry xs c.
Proof. destruct xs; reflexivity. Qed.

Lemma last_firstn_digit ds n :
  (n < length ds)%nat -> last (firstn (S n) ds) 0 = digit_at ds n.
Proof.
  intros H. rewrite firstn_S_digit by exact H. apply last_app_single.
Qed.

Module BufAdd.
Import Buf.

Section Loops.
Variables (x0 z0 y : bigint_s) (cx : nat) (same : bool) (r : list Z).
Hypothesis Ox : buf_ok x0.
Hypothesis Oz : buf_ok z0.
Hypothesis Oy : buf_ok y.
Hypothesis Hcx : (cx <= bigint_available_ x0)%nat.
Hypothesis Room : (cx <= bigint_available_ z0)%nat.
Hypothesis Cyx : (count y <= cx)%nat.

Lemma add_inv_step i carry carry' d s :
  (i < cx)%nat ->
  add_inv x0 z0 y cx same r i carry s ->
  add_abs_digits (seg (digits (st_x s)) i cx) (seg (digits y) i (count y)) carry
  = d :: add_abs_digits (seg (digits (st_x s)) (S i) cx)
                        (seg (digits y) (S i) (count y)) carry' ->
  exists s', store_z s i d = inr s' /\ add_inv x0 z0 y cx same r (S i) carry' s'.
Proof.
  intros Hi (Sx & Sz & Sm & Al & E) Step.
  pose proof (BufRun.same_shape_available _ _ Sz) as Az.
  destruct (BufRun.store_z_run s i d) as (s' & R & Dz & Sz' & Sm' & Dx & Sx' & Al').
  { lia. }
  { rewrite Sm. exact Al. }
  exists s'. split; [exact R|].
  split; [exact (BufRun.same_shape_trans _ _ _ Sx Sx')|].
  split; [exact (BufRun.same_shape_trans _ _ _ Sz Sz')|].
  split; [congruence|].
  split; [intros T; apply Al'; congruence|].
  assert (i < length (digits (st_z s)))%nat as Lz.
  { destruct Sz as (_ & _ & _ & L). rewrite L. unfold buf_ok in Oz. lia. }
  rewrite Dz, firstn_set_digit_at by exact Lz.
  assert (seg (digits (st_x s')) (S i) cx = seg (digits (st_x s)) (S i) cx) as Keep.
  { rewrite Dx. destruct (st_same s); [|reflexivity].
    apply seg_set_digit_above. lia. }
  rewrite Keep, <- app_assoc. cbn [app]. rewrite <- Step. exact E.
Qed.

Lemma x_slot i s :
  (i < cx)%nat -> same_shape x0 (st_x s) ->
  (i < bigint_available_ (st_x s))%nat /\ (i < length (digits (st_x s)))%nat.
Proof.
  intros Hi Sx. rewrite (BufRun.same_shape_available _ _ Sx).
  destruct Sx as (_ & _ & _ & L). rewrite L. unfold buf_ok in Ox. lia.
Qed.

Lemma add_digits_inv n : forall i carry s,
  (i + n <= count y)%nat ->
  add_inv x0 z0 y cx same r i carry s ->
  exists c' s', BufOps.add_digits n i y carry s = inr ((i + n)%nat, c', s')
                /\ add_inv x0 z0 y cx same r (i + n) c' s'.
Proof.
  induction n as [|n IH]; intros i carry s Hn Inv.
  - exists carry, s. rewrite Nat.add_0_r. split; [reflexivity | exact Inv].
  - cbn [BufOps.add_digits].
    pose proof Inv as (Sx & _).
    destruct (x_slot i s ltac:(lia) Sx) as [Ax Lx].
    assert (count y <= bigint_available_ y)%nat as Cy by (unfold bigint_available_; lia).
    rewrite BufRun.read_ok by exact Ax. cbn [bind].
    rewrite BufRun.read_ok by lia. cbn [bind].
    assert (i < length (digits y))%nat as Ly by (unfold buf_ok in Oy; lia).
    set (sum := digit_at (digits (st_x s)) i + digit_at (digits y) i + carry).
    assert (forall c' d,
      (if BASE <=? sum then (sum - BASE, 1) else (sum, 0)) = (d, c') ->
      exists c2 s2, (s1 <- store_z s i d ;; BufOps.add_digits n (S i) y c' s1)
                    = inr ((i + S n)%nat, c2, s2)
                    /\ add_inv x0 z0 y cx same r (i + S n) c2 s2) as K.
    { intros c' d Hd.
      destruct (add_inv_step i carry c' d s ltac:(lia) Inv) as (s1 & R1 & I1).
      { rewrite (seg_cons _ i cx) by lia.
        rewrite (seg_cons _ i (count y)) by lia.
        cbn [add_abs_digits]. fold sum.
        destruct (BASE <=? sum); inversion Hd; reflexivity. }
      rewrite R1. cbn [bind].
      destruct (IH (S i) c' s1 ltac:(lia) I1) as (c2 & s2 & R2 & I2).
      exists c2, s2. replace (i + S n)%nat with (S i + n)%nat by lia.
      split; assumption. }
    destruct (BASE <=? sum); eapply K; reflexivity.
Qed.

Lemma add_carry_inv n : forall i carry s,
  (count y <= i)%nat -> (i + n <= cx)%nat ->
  add_inv x0 z0 y cx same r i carry s ->
  exists i' c' s', BufOps.add_carry n i carry s = inr (i', c', s')
                   /\ (i <= i' <= i + n)%nat
                   /\ ((i' < i + n)%nat -> c' = 0)
                   /\ add_inv x0 z0 y cx same r i' c' s'.
Proof.
  induction n as [|n IH]; intros i carry s Hy Hn Inv.
  - exists i, carry, s. split; [reflexivity|]. split; [lia|]. split; [lia | exact Inv].
  - cbn [BufOps.add_carry]. destruct (carry =? 0) eqn:C0.
    + apply Z.eqb_eq in C0. exists i, carry, s.
      split; [reflexivity|]. split; [lia|]. split; [intros _; exact C0 | exact Inv].
    + pose proof Inv as (Sx & _).
      destruct (x_slot i s ltac:(lia) Sx) as [Ax Lx].
      rewrite BufRun.read_ok by exact Ax. cbn [bind].
      set (sum := digit_at (digits (st_x s)) i + carry).
      assert (forall c' d,
        (if BASE <=? sum then (sum - BASE, carry) else (sum, 0)) = (d, c') ->
        exists i' c2 s2, (s1 <- store_z s i d ;; BufOps.add_carry n (S i) c' s1)
                         = inr (i', c2, s2)
                         /\ (i <= i' <= i + S n)%nat
                         /\ ((i' < i + S n)%nat -> c2 = 0)
                         /\ add_inv x0 z0 y cx same r i' c2 s2) as K.
      { intros c' d Hd.
        destruct (add_inv_step i carry c' d s ltac:(lia) Inv) as (s1 & R1 & I1).
        { rewrite (seg_cons _ i cx) by lia.
          rewrite !(seg_nil (digits y)) by lia.
          rewrite !add_abs_digits_nil_r. cbn [add_abs_carry]. rewrite C0. fold sum.
          destruct (BASE <=? sum); inversion Hd; reflexivity. }
        rewrite R1. cbn [bind].
        destruct (IH (S i) c' s1 ltac:(lia) ltac:(lia) I1)
          as (i' & c2 & s2 & R2 & Ri & Cz & I2).
        exists i', c2, s2. split; [exact R2|]. split; [lia|].
        split; [intros L; apply Cz; lia | exact I2]. }
      destruct (BASE <=? sum); eapply K; reflexivity.
Qed.

(** The copy of the tail into a fresh buffer. *)
Lemma add_copy_tail_inv n : forall i s q,
  (i + n = cx)%nat ->
  same_shape x0 (st_x s) -> same_shape z0 (st_z s) -> st_same s = false ->
  firstn i (digits (st_z s)) ++ seg (digits (st_x s)) i cx = q ->
  exists s', BufOps.add_copy_tail n i s = inr s'
             /\ same_shape z0 (st_z s') /\ st_same s' = false
             /\ firstn cx (digits (st_z s')) = q.
Proof.
  induction n as [|n IH]; intros i s q Hn Sx Sz Sm E.
  - exists s. split; [reflexivity|]. split; [exact Sz|]. split; [exact Sm|].
    rewrite seg_nil, app_nil_r in E by lia. replace cx with i by lia. exact E.
  - cbn [BufOps.add_copy_tail].
    destruct (x_slot i s ltac:(lia) Sx) as [Ax Lx].
    pose proof (BufRun.same_shape_available _ _ Sz) as Az.
    rewrite BufRun.read_ok by exact Ax. cbn [bind].
    destruct (BufRun.store_z_run s i (digit_at (digits (st_x s)) i))
      as (s1 & R & Dz & Sz' & Sm' & Dx & Sx' & _).
    { lia. } { rewrite Sm. discriminate. }
    rewrite R. cbn [bind]. rewrite Sm in Dx.
    apply (IH (S i) s1 q); try lia.
    + exact (BufRun.same_shape_trans _ _ _ Sx Sx').
    + exact (BufRun.same_shape_trans _ _ _ Sz Sz').
    + congruence.
    + assert (i < length (digits (st_z s)))%nat as Lz.
      { destruct Sz as (_ & _ & _ & L). rewrite L. unfold buf_ok in Oz. lia. }
      rewrite Dz, Dx, firstn_set_digit_at by exact Lz.
      rewrite (seg_cons _ i) in E by lia.
      rewrite <- app_assoc. exact E.
Qed.

End Loops.

End BufAdd.

(** ** Machine arithmetic of [bigint_mul] *)

Lemma fits_ok max v : - max - 1 <= v <= max -> Machine.fits max v = Some v.
Proof.
  intros H. unfold Machine.fits.
  replace (- max - 1 <=? v) with true by (symmetry; apply Z.leb_le; lia).
  replace (v <=? max) with true by (symmetry; apply Z.leb_le; lia).
  reflexivity.
Qed.

Lemma machine_load_ok z k : (k < length z)%nat -> Machine.load z k = Some (digit_at z k).
Proof. intros H. unfold Machine.load. apply Nat.ltb_lt in H. rewrite H. reflexivity. Qed.

Lemma machine_store_ok z k v :
  (k < length z)%nat -> Machine.store z k v = Some (set_digit z k v).
Proof. intros H. unfold Machine.store. apply Nat.ltb_lt in H. rewrite H. reflexivity. Qed.

(** Along a row every product fits [int64_t], every digit written fits
    [int32_t], and every index is below the count. *)
Lemma machine_mul_row dx ys : forall k z,
  0 <= dx < BASE -> digits_ok ys ->
  (forall j, j <> k -> 0 <= digit_at z j < BASE) ->
  (forall j, (k + length ys <= j)%nat -> j <> k -> digit_at z j = 0) ->
  0 <= digit_at z k <= 2 * BASE - 2 ->
  (ys = [] -> digit_at z k < BASE) ->
  (k + length ys < length z)%nat ->
  Machine.mul_row dx ys k z = Some (mul_row dx ys k z).
Proof.
  induction ys as [|dy ys IH]; intros k z Hdx Hys Hj Hz Hk Hk0 Hlen; [reflexivity|].
  apply digits_ok_cons in Hys. destruct Hys as [Hdy Hys].
  cbn [length] in *. cbn [Machine.mul_row mul_row].
  assert (0 < BASE /\ BASE * BASE <= Machine.INT64_MAX
          /\ 2 * BASE <= Machine.INT32_MAX) as (B0 & B64 & B32)
    by (rewrite BASE_eq; unfold Machine.INT64_MAX, Machine.INT32_MAX; lia).
  rewrite machine_load_ok by lia. cbn [Machine.bind].
  assert (0 <= dx * dy <= (BASE - 1) * (BASE - 1)) as Hp0 by nia.
  rewrite fits_ok by lia.
  cbn [Machine.bind].
  set (prod := dx * dy + digit_at z k).
  assert (0 <= prod <= BASE * BASE - 1) as Hp by (unfold prod; nia).
  rewrite fits_ok by lia.
  cbn [Machine.bind].
  rewrite (quot_BASE_nonneg prod) by lia.
  assert (0 <= prod / BASE <= BASE - 1) as Hc.
  { split; [apply Z.div_pos; lia|].
    assert (prod / BASE < BASE); [|lia].
    apply Z.div_lt_upper_bound; lia. }
  assert (0 <= prod - prod / BASE * BASE < BASE) as Hlo.
  { pose proof (Z.div_mod prod BASE ltac:(lia)).
    pose proof (Z.mod_pos_bound prod BASE ltac:(lia)). lia. }
  assert (0 <= prod / BASE * BASE <= prod) as Hcb by lia.
  rewrite fits_ok by lia.
  cbn [Machine.bind].
  rewrite fits_ok by lia.
  cbn [Machine.bind].
  rewrite fits_ok by lia.
  cbn [Machine.bind].
  rewrite machine_store_ok by lia. cbn [Machine.bind].
  rewrite fits_ok by lia.
  cbn [Machine.bind].
  set (z1 := set_digit z k (prod - prod / BASE * BASE)).
  rewrite machine_load_ok by (unfold z1; rewrite set_digit_length; lia).
  cbn [Machine.bind].
  assert (digit_at z1 (S k) = digit_at z (S k)) as E1
    by (unfold z1; apply set_digit_other; lia).
  pose proof (Hj (S k) ltac:(lia)) as HSk.
  rewrite fits_ok by (rewrite E1; lia).
  cbn [Machine.bind].
  rewrite machine_store_ok by (unfold z1; rewrite set_digit_length; lia).
  cbn [Machine.bind].
  set (z2 := set_digit z1 (S k) (digit_at z1 (S k) + prod / BASE)).
  assert (digit_at z2 (S k) = digit_at z (S k) + prod / BASE) as E2.
  { unfold z2. rewrite set_digit_same, E1; [reflexivity|].
    unfold z1. rewrite set_digit_length. lia. }
  assert (forall j, j <> S k -> j <> k -> digit_at z2 j = digit_at z j) as E3.
  { intros j N1 N2. unfold z2, z1. rewrite !set_digit_other by lia. reflexivity. }
  assert (digit_at z2 k = prod - prod / BASE * BASE) as E4.
  { unfold z2. rewrite set_digit_other by lia. unfold z1.
    apply set_digit_same. lia. }
  apply IH; auto.
  - intros j N. destruct (Nat.eq_dec j k) as [->|N2].
    + rewrite E4. exact Hlo.
    + rewrite E3 by assumption. apply Hj. exact N2.
  - intros j G N. rewrite E3 by lia. apply Hz; lia.
  - rewrite E2. lia.
  - intros ->. rewrite E2. cbn [length] in Hz.
    rewrite (Hz (S k)) by lia. lia.
  - unfold z2, z1. rewrite !set_digit_length. lia.
Qed.

Lemma machine_mul_rows xs ys : forall i z,
  digits_ok xs -> digits_ok ys ->
  (forall j, 0 <= digit_at z j < BASE) ->
  (forall j, (i + length ys <= j)%nat -> digit_at z j = 0) ->
  (i + length xs + length ys <= length z)%nat ->
  Machine.mul_rows xs ys i z = Some (mul_rows xs ys i z).
Proof.
  induction xs as [|dx xs IH]; intros i z Hx Hy Hr Hz Hlen; [reflexivity|].
  apply digits_ok_cons in Hx. destruct Hx as [Hdx Hx].
  cbn [length] in Hlen. cbn [Machine.mul_rows mul_rows].
  assert (forall j, j <> i -> 0 <= digit_at z j < BASE) as H1
    by (intros j _; apply Hr).
  assert (forall j, (i + length ys <= j)%nat -> j <> i -> digit_at z j = 0) as H2
    by (intros j G _; apply Hz; exact G).
  assert (0 <= digit_at z i <= 2 * BASE - 2) as H3
    by (pose proof (Hr i); lia).
  assert (ys = [] -> digit_at z i < BASE) as H4 by (intros _; apply Hr).
  rewrite (machine_mul_row dx ys i z Hdx Hy H1 H2 H3 H4 ltac:(lia)).
  cbn [Machine.bind].
  destruct (mul_row_range dx ys i z Hdx Hy H1 H2 H3 H4 ltac:(lia)) as [R Z0].
  apply IH; try assumption.
  rewrite mul_row_length. lia.
Qed.

(* ---------------------------------------------------------------------- *)
(** ** Runs with the reads of the top digits *)

Lemma checked_add_abs x y :
  Checked.bigint_add_abs x y
  = if (count x =? 0)%nat || (count y =? 0)%nat
    then inl Checked.Read_before_digits
    else inr (bigint_add_abs x y).
Proof.
  unfold Checked.bigint_add_abs, Checked.bigint_last_digit_.
  destruct (count x); [reflexivity|]. destruct (count y); reflexivity.
Qed.

Lemma checked_add_same x y yneg :
  Checked.bigint_add_same x y yneg
  = if (count x =? 0)%nat || (count y =? 0)%nat
    then inl Checked.Read_before_digits
    else inr (bigint_add_same x y yneg).
Proof.
  unfold Checked.bigint_add_same, bigint_add_same. rewrite !checked_add_abs.
  destruct (count x <? count y)%nat;
    destruct (count x =? 0)%nat, (count y =? 0)%nat; reflexivity.
Qed.

Lemma checked_add x y yneg :
  Checked.bigint_add x y yneg
  = if Bool.eqb (is_neg x) yneg && ((count x =? 0)%nat || (count y =? 0)%nat)
    then inl Checked.Read_before_digits
    else inr (bigint_add x y yneg).
Proof.
  unfold Checked.bigint_add, bigint_add, bigint_is_neg_. rewrite checked_add_same.
  destruct (Bool.eqb (is_neg x) yneg); reflexivity.
Qed.

Lemma checked_sub x y yneg :
  Checked.bigint_sub x y yneg
  = if negb (Bool.eqb (is_neg x) yneg) && ((count x =? 0)%nat || (count y =? 0)%nat)
    then inl Checked.Read_before_digits
    else inr (bigint_sub x y yneg).
Proof.
  unfold Checked.bigint_sub, bigint_sub, bigint_is_neg_. rewrite checked_add_same.
  destruct (Bool.eqb (is_neg x) yneg); reflexivity.
Qed.

Lemma checked_add_returns x y yneg z :
  Checked.bigint_add x y yneg = inr z -> bigint_add x y yneg = z.
Proof.
  rewrite checked_add.
  destruct (Bool.eqb (is_neg x) yneg && ((count x =? 0)%nat || (count y =? 0)%nat));
    [discriminate | congruence].
Qed.

Lemma checked_sub_returns x y yneg z :
  Checked.bigint_sub x y yneg = inr z -> bigint_sub x y yneg = z.
Proof.
  rewrite checked_sub.
  destruct (negb (Bool.eqb (is_neg x) yneg)
            && ((count x =? 0)%nat || (count y =? 0)%nat));
    [discriminate | congruence].
Qed.

(** With no operand above 25 digits [bigint_mul_karatsuba] is
    [bigint_mul], whatever the depth allowed. *)
Lemma checked_karatsuba_defers fuel x y :
  (Nat.max (count x) (count y) <= 25)%nat ->
  Checked.mul_karatsuba fuel x y = inr (bigint_mul x y).
Proof.
  intros Hm. destruct fuel; cbn [Checked.mul_karatsuba]; cbv zeta;
    replace ((if (count y <=? count x)%nat then count x else count y) <=? 25)%nat
      with true; try reflexivity;
    symmetry; apply Nat.leb_le; destruct (count y <=? count x)%nat; lia.
Qed.

(** A run of [bigint_mul_karatsuba] that returns, returns what the
    function above returns. *)
Lemma checked_karatsuba_returns fuel : forall x y z,
  Checked.mul_karatsuba fuel x y = inr z -> mul_karatsuba fuel x y = Some z.
Proof.
  induction fuel as [|fuel IH]; intros x y z.
  - cbn [Checked.mul_karatsuba mul_karatsuba]. cbv zeta.
    destruct ((if (count y <=? count x)%nat then count x else count y) <=? 25)%nat;
      [intros E; inversion E; reflexivity | discriminate].
  - cbn [Checked.mul_karatsuba mul_karatsuba]. cbv zeta.
    destruct ((if (count y <=? count x)%nat then count x else count y) <=? 25)%nat;
      [intros E; inversion E; reflexivity|].
    set (n := (((if (count y <=? count x)%nat then count x else count y) + 1) / 2)%nat).
    set (b := bigint_slice false x n (count x)).
    set (a := bigint_slice false x 0 n).
    set (d := bigint_slice false y n (count y)).
    set (c := bigint_slice false y 0 n).
    destruct (Checked.mul_karatsuba fuel a c) as [e|ac] eqn:Eac; [discriminate|].
    cbn [Checked.bind].
    destruct (Checked.mul_karatsuba fuel b d) as [e|bd] eqn:Ebd; [discriminate|].
    cbn [Checked.bind].
    destruct (Checked.bigint_add a b (is_neg b)) as [e|ab] eqn:Eab; [discriminate|].
    cbn [Checked.bind].
    destruct (Checked.bigint_add c d (is_neg d)) as [e|cd] eqn:Ecd; [discriminate|].
    cbn [Checked.bind].
    destruct (Checked.mul_karatsuba fuel ab cd) as [e|abcd] eqn:Eabcd; [discriminate|].
    cbn [Checked.bind].
    destruct (Checked.bigint_sub abcd ac (is_neg ac)) as [e|s1] eqn:Es1; [discriminate|].
    cbn [Checked.bind].
    destruct (Checked.bigint_sub s1 bd (is_neg bd)) as [e|s2] eqn:Es2; [discriminate|].
    cbn [Checked.bind].
    destruct (Checked.bigint_add ac (bigint_shift_left s2 (Z.of_nat n))
                (is_neg (bigint_shift_left s2 (Z.of_nat n)))) as [e|t] eqn:Et;
      [discriminate|].
    cbn [Checked.bind].
    destruct (Checked.bigint_add t (bigint_shift_left bd (2 * Z.of_nat n))
                (is_neg (bigint_shift_left bd (2 * Z.of_nat n)))) as [e|p] eqn:Ep;
      [discriminate|].
    cbn [Checked.bind Checked.ret]. intros E. inversion E. subst z.
    apply checked_add_returns in Eab, Ecd, Et, Ep.
    apply checked_sub_returns in Es1, Es2.
    rewrite (IH _ _ _ Eac), (IH _ _ _ Ebd), Eab, Ecd, (IH _ _ _ Eabcd).
    rewrite Es1, Es2, Et, Ep. reflexivity.
Qed.

Lemma checked_karatsuba_agrees x y z :
  digits_ok (digits x) -> digits_ok (digits y) ->
  Checked.bigint_mul_karatsuba x y = inr z -> z = bigint_mul x y.
Proof.
  intros Hx Hy E. unfold Checked.bigint_mul_karatsuba in E.
  apply checked_karatsuba_returns in E.
  rewrite mul_karatsuba_spec in E by (auto; lia). congruence.
Qed.

Section CheckedGeneric.
Context {range : smallint_range}.

Lemma checked_integer_add x y :
  Checked.integer_add_generic x y
  = if Bool.eqb (is_neg (integer_to_bigint x)) (is_neg (integer_to_bigint y))
       && ((count (integer_to_bigint x) =? 0)%nat
           || (count (integer_to_bigint y) =? 0)%nat)
    then inl Checked.Read_before_digits
    else inr (integer_add_generic x y).
Proof.
  unfold Checked.integer_add_generic, integer_add_generic. rewrite checked_add.
  destruct (Bool.eqb _ _ && _); reflexivity.
Qed.

Lemma checked_integer_sub x y :
  Checked.integer_sub_generic x y
  = if negb (Bool.eqb (is_neg (integer_to_bigint x)) (is_neg (integer_to_bigint y)))
       && ((count (integer_to_bigint x) =? 0)%nat
           || (count (integer_to_bigint y) =? 0)%nat)
    then inl Checked.Read_before_digits
    else inr (integer_sub_generic x y).
Proof.
  unfold Checked.integer_sub_generic, integer_sub_generic. rewrite checked_sub.
  destruct (negb _ && _); reflexivity.
Qed.

End CheckedGeneric.

(** [bigint_from_int] within the range of [intptr_t]. *)
Lemma checked_from_int INTPTR_MAX i :
  - INTPTR_MAX - 1 <= i <= INTPTR_MAX ->
  Checked.bigint_from_int INTPTR_MAX i
  = if i =? - INTPTR_MAX - 1 then inl Checked.Signed_overflow
    else inr (bigint_from_int i).
Proof.
  intros H. unfold Checked.bigint_from_int, bigint_from_int.
  destruct (i =? - INTPTR_MAX - 1) eqn:E.
  - apply Z.eqb_eq in E.
    replace (i <? 0) with true by (symmetry; apply Z.ltb_lt; lia).
    replace (- i <=? INTPTR_MAX) with false by (symmetry; apply Z.leb_gt; lia).
    reflexivity.
  - apply Z.eqb_neq in E. destruct (i <? 0) eqn:N; [|reflexivity].
    replace (- i <=? INTPTR_MAX) with true by (symmetry; apply Z.leb_le; lia).
    reflexivity.
Qed.

(** ** Conversion, comparison and the ring operations *)

(** X1: [bigint_from_int] writes every [intptr_t] but the smallest with
    at least one digit, all digits in range and the top one not zero --
    except for zero, which is the one digit [0] with the sign flag clear
    --, sets the sign flag exactly below zero, and the bigint has the
    integer's value.  At the smallest [intptr_t] its negation [i = -i]
    overflows. *)
Theorem bigint_from_int_canonical :
  forall INTPTR_MAX i : Z,
    - INTPTR_MAX - 1 <= i <= INTPTR_MAX ->
    if i =? - INTPTR_MAX - 1
    then Checked.bigint_from_int INTPTR_MAX i = inl Checked.Signed_overflow
    else exists b,
           Checked.bigint_from_int INTPTR_MAX i = inr b
           /\ bigint_value b = i
           /\ digits_ok (digits b)
           /\ (1 <= count b)%nat
           /\ is_neg b = (i <? 0)
           /\ (if i =? 0 then digits b = [0] else trimmed (digits b)).
Proof.
  intros M i Hi. rewrite (checked_from_int M i Hi).
  destruct (i =? - M - 1); [reflexivity|].
  exists (bigint_from_int i). split; [reflexivity|].
  destruct (bigint_from_int_spec i) as (N & O & _ & T & Z0).
  split; [apply bigint_from_int_value|]. split; [exact O|].
  split; [apply bigint_from_int_count|]. split; [exact N|].
  destruct (i =? 0) eqn:E.
  - apply Z.eqb_eq in E. apply Z0. exact E.
  - apply Z.eqb_neq in E. apply T. exact E.
Qed.

Lemma bigint_from_int_canonical_witness :
  exists b,
    Checked.bigint_from_int 9223372036854775807 (-5000000007) = inr b
    /\ bigint_value b = -5000000007
    /\ digits_ok (digits b)
    /\ (1 <= count b)%nat
    /\ is_neg b = (-5000000007 <? 0)
    /\ (if -5000000007 =? 0 then digits b = [0] else trimmed (digits b)).
Proof.
  refine (bigint_from_int_canonical 9223372036854775807 (-5000000007) _). lia.
Defined.

(** X2: on well-formed integers [integer_cmp_generic] returns the sign of
    the difference of the values: [-1], [0] or [1] as [x] is below, equal
    to or above [y]. *)
Theorem integer_cmp_generic_sign `{smallint_range} :
  forall x y : integer_t,
    integer_ok x -> integer_ok y ->
    integer_cmp_generic x y = Z.sgn (integer_value x - integer_value y).
Proof. intros x y Hx Hy. apply integer_cmp_generic_spec; assumption. Qed.

Lemma integer_cmp_generic_sign_witness :
  integer_cmp_generic (Big (mk_bigint true [5; 7])) (Small 12)
  = Z.sgn (integer_value (Big (mk_bigint true [5; 7])) - integer_value (Small 12)).
Proof.
  apply (@integer_cmp_generic_sign (small_range 29)).
  - cbn [integer_ok]. unfold canonical, bigint_ok, trimmed. cbn [digits last].
    repeat split; try lia; try discriminate.
    repeat (apply digits_ok_cons; split; [rewrite BASE_eq; lia|]). apply digits_ok_nil.
  - cbn. lia.
Defined.

(** X3: [integer_add_generic] adds.  For operands whose bigints have
    digits in range and no leading zero digit it returns an integer of
    value [x + y], again of that kind -- unless the sign flags of the two
    bigints agree and one of them has no digits: then [bigint_add_abs]
    reads [digits[count-1]] before the digits.  This is about the digits
    computed; the accesses to the buffers are treated with the storage of
    [BufOps.bigint_add_abs] and [Buf.bigint_sub_abs]. *)
Theorem integer_add_generic_sum `{smallint_range} :
  forall x y : integer_t,
    integer_wf x -> integer_wf y ->
    let bx := integer_to_bigint x in
    let by_ := integer_to_bigint y in
    if Bool.eqb (is_neg bx) (is_neg by_)
       && ((count bx =? 0)%nat || (count by_ =? 0)%nat)
    then Checked.integer_add_generic x y = inl Checked.Read_before_digits
    else exists z, Checked.integer_add_generic x y = inr z
                   /\ integer_value z = integer_value x + integer_value y
                   /\ integer_wf z.
Proof.
  intros x y Wx Wy bx by_. unfold bx, by_. rewrite checked_integer_add.
  destruct (Bool.eqb _ _ && _); [reflexivity|].
  exists (integer_add_generic x y). split; [reflexivity|]. split.
  - apply integer_add_generic_value; assumption.
  - apply integer_add_generic_wf; assumption.
Qed.

Lemma integer_add_generic_sum_witness :
  let x := Big (mk_bigint true [5; 7]) in
  let y := Small 999999999 in
  exists z, Checked.integer_add_generic (range := small_range 29) x y = inr z
            /\ integer_value z = integer_value x + integer_value y
            /\ integer_wf z.
Proof.
  intros x y. refine (@integer_add_generic_sum (small_range 29) x y _ _).
  - split; [|left; unfold trimmed; cbn; lia].
    cbn [x integer_to_bigint digits].
    repeat (apply digits_ok_cons; split; [rewrite BASE_eq; lia|]). apply digits_ok_nil.
  - apply integer_small_wf.
Defined.

(** X4: [integer_sub_generic] subtracts, under the same condition on the
    operands, which its result satisfies again -- unless the sign flags
    of the two bigints differ and one of them has no digits: then it is
    [bigint_add_abs] that runs, and reads [digits[count-1]] before the
    digits.  This is about the digits computed; the accesses to the
    buffers are treated with the storage of [BufOps.bigint_add_abs] and
    [Buf.bigint_sub_abs]. *)
Theorem integer_sub_generic_difference `{smallint_range} :
  forall x y : integer_t,
    integer_wf x -> integer_wf y ->
    let bx := integer_to_bigint x in
    let by_ := integer_to_bigint y in
    if negb (Bool.eqb (is_neg bx) (is_neg by_))
       && ((count bx =? 0)%nat || (count by_ =? 0)%nat)
    then Checked.integer_sub_generic x y = inl Checked.Read_before_digits
    else exists z, Checked.integer_sub_generic x y = inr z
                   /\ integer_value z = integer_value x - integer_value y
                   /\ integer_wf z.
Proof.
  intros x y Wx Wy bx by_. unfold bx, by_. rewrite checked_integer_sub.
  destruct (negb _ && _); [reflexivity|].
  exists (integer_sub_generic x y). split; [reflexivity|].
  apply integer_sub_generic_value; assumption.
Qed.

Lemma integer_sub_generic_difference_witness :
  let x := Small 12 in
  let y := Big (mk_bigint false [5; 7]) in
  exists z, Checked.integer_sub_generic (range := small_range 29) x y = inr z
            /\ integer_value z = integer_value x - integer_value y
            /\ integer_wf z.
Proof.
  intros x y. refine (@integer_sub_generic_difference (small_range 29) x y _ _).
  - apply integer_small_wf.
  - split; [|left; unfold trimmed; cbn; lia].
    cbn [y integer_to_bigint digits].
    repeat (apply digits_ok_cons; split; [rewrite BASE_eq; lia|]). apply digits_ok_nil.
Defined.

(** X5: where [use_karatsuba] selects [bigint_mul],
    [integer_mul_generic] returns the product; [integer_sqr_generic],
    which always multiplies with [bigint_mul], returns the square.  The
    results have digits in range and no leading zero digit. *)
Theorem integer_mul_generic_product `{smallint_range} :
  forall x y : integer_t,
    integer_wf x -> integer_wf y ->
    use_karatsuba (count (integer_to_bigint x)) (count (integer_to_bigint y))
      = false ->
    (exists p, Checked.integer_mul_generic x y = inr p
               /\ integer_value p = integer_value x * integer_value y
               /\ integer_wf p)
    /\ integer_value (integer_sqr_generic x) = integer_value x * integer_value x
    /\ integer_wf (integer_sqr_generic x).
Proof.
  intros x y Wx Wy Hk. split.
  - destruct (integer_mul_generic_spec x y Wx Wy) as (p & Ep & Vp & Wp).
    exists p. split; [|split; assumption].
    unfold integer_mul_generic in Ep. unfold Checked.integer_mul_generic.
    cbv zeta in *. rewrite Hk in Ep. rewrite Hk.
    cbn [option_map] in Ep. injection Ep as <-. reflexivity.
  - unfold integer_sqr_generic, bigint_sqr.
    destruct Wx as [Ox _].
    destruct (bigint_mul_spec _ _ Ox Ox) as (E & O & N).
    split; [|apply integer_bigint_wf, bigint_ok_wf, O].
    rewrite integer_bigint_value, bigint_value_flag', E, N.
    rewrite <- (integer_to_bigint_value x), (bigint_value_flag' (integer_to_bigint x)).
    rewrite Bool.eqb_reflx. cbn [negb].
    destruct (is_neg (integer_to_bigint x)); ring.
Qed.

Lemma integer_mul_generic_product_witness :
  let x := Big (mk_bigint true [5; 7]) in
  let y := Small 999999999 in
  (exists p, Checked.integer_mul_generic (range := small_range 29) x y = inr p
             /\ integer_value p = integer_value x * integer_value y
             /\ integer_wf p)
  /\ integer_value (integer_sqr_generic (range := small_range 29) x)
     = integer_value x * integer_value x
  /\ integer_wf (integer_sqr_generic (range := small_range 29) x).
Proof.
  intros x y. apply (@integer_mul_generic_product (small_range 29) x y).
  - split; [|left; unfold trimmed; cbn; lia].
    cbn [x integer_to_bigint digits].
    repeat (apply digits_ok_cons; split; [rewrite BASE_eq; lia|]). apply digits_ok_nil.
  - apply integer_small_wf.
  - reflexivity.
Defined.

(** X6: [integer_neg_generic] negates the value, and negating twice gives
    back an integer of the value one started from. *)
Theorem integer_neg_generic_negates `{smallint_range} :
  forall x : integer_t,
    integer_wf x ->
    integer_value (integer_neg_generic x) = - integer_value x
    /\ integer_wf (integer_neg_generic x)
    /\ integer_value (integer_neg_generic (integer_neg_generic x)) = integer_value x.
Proof.
  intros x Wx. destruct (integer_neg_generic_value x Wx) as [V W].
  split; [exact V|]. split; [exact W|].
  destruct (integer_neg_generic_value _ W) as [V' _]. rewrite V', V. lia.
Qed.

Lemma integer_neg_generic_negates_witness :
  let x := Small (-7) in
  integer_value (integer_neg_generic (range := small_range 29) x) = - integer_value x
  /\ integer_wf (integer_neg_generic (range := small_range 29) x)
  /\ integer_value (integer_neg_generic (range := small_range 29)
                      (integer_neg_generic (range := small_range 29) x))
     = integer_value x.
Proof.
  intros x. apply (@integer_neg_generic_negates (small_range 29) x).
  apply integer_small_wf.
Defined.

(** ** The bigint routines *)

Lemma bigint_mul_small_negative x y :
  y < 0 -> bigint_mul_small x y = bigint_mul_small x (- y).
Proof.
  intros Hy. unfold bigint_mul_small, bigint_is_neg_, bigint_neg.
  replace (y <? 0) with true by (symmetry; apply Z.ltb_lt; lia).
  replace (- y <? 0) with false by (symmetry; apply Z.ltb_ge; lia).
  cbn [is_neg digits]. rewrite andb_true_r, andb_false_r.
  destruct (is_neg x); reflexivity.
Qed.

(** X7: [bigint_mul_small] multiplies the magnitude of [x] by the
    magnitude of [y] and leaves the sign flag of [x] as it is, also when
    [y] is negative; the digits of the result are in range, and it has as
    many digits as [x] or one more. *)
Theorem bigint_mul_small_magnitude :
  forall (x : bigint_t) (y : Z),
    digits_ok (digits x) -> - BASE < y < BASE ->
    eval (digits (bigint_mul_small x y)) = eval (digits x) * Z.abs y
    /\ digits_ok (digits (bigint_mul_small x y))
    /\ is_neg (bigint_mul_small x y) = is_neg x
    /\ (count x <= count (bigint_mul_small x y) <= count x + 1)%nat.
Proof.
  intros x y Hx Hy. destruct (Z_lt_ge_dec y 0) as [L|G].
  - rewrite (bigint_mul_small_negative x y L).
    replace (Z.abs y) with (- y) by lia.
    apply bigint_mul_small_spec; [exact Hx | lia].
  - replace (Z.abs y) with y by lia.
    apply bigint_mul_small_spec; [exact Hx | lia].
Qed.

Lemma bigint_mul_small_magnitude_witness :
  let x := mk_bigint true [999999999; 3] in
  eval (digits (bigint_mul_small x (-7))) = eval (digits x) * Z.abs (-7)
  /\ digits_ok (digits (bigint_mul_small x (-7)))
  /\ is_neg (bigint_mul_small x (-7)) = is_neg x
  /\ (count x <= count (bigint_mul_small x (-7)) <= count x + 1)%nat.
Proof.
  intros x. apply (bigint_mul_small_magnitude x (-7)).
  - cbn [x digits].
    repeat (apply digits_ok_cons; split; [rewrite BASE_eq; lia|]). apply digits_ok_nil.
  - rewrite BASE_eq. lia.
Defined.

(** X8: [bigint_div_mod_small] divides the magnitude of [x] by a positive
    [y] below [BASE]: the quotient has no leading zero digit and the sign
    flag of [x], and the [mod] it stores is the remainder, in [[0, y)]. *)
Theorem bigint_div_mod_small_correct :
  forall (x : bigint_t) (y : Z),
    digits_ok (digits x) -> 1 <= y < BASE ->
    eval (digits (fst (bigint_div_mod_small x y))) = eval (digits x) / y
    /\ snd (bigint_div_mod_small x y) = eval (digits x) mod y
    /\ bigint_ok (fst (bigint_div_mod_small x y))
    /\ is_neg (fst (bigint_div_mod_small x y)) = is_neg x.
Proof.
  intros x y Hx Hy.
  destruct (bigint_div_mod_small_spec x y Hx ltac:(lia)) as (E & M & O & N).
  assert (eval (digits (fst (bigint_div_mod_small x y))) = eval (digits x) / y
          /\ snd (bigint_div_mod_small x y) = eval (digits x) mod y) as [Q R].
  { rewrite Z.mul_comm in E.
    apply (Z.div_mod_unique y); [left; exact M | | ].
    - left. apply Z.mod_pos_bound. lia.
    - rewrite <- E. apply Z.div_mod. lia. }
  repeat split; try assumption; apply O.
Qed.

Lemma bigint_div_mod_small_correct_witness :
  let x := mk_bigint true [5; 7] in
  eval (digits (fst (bigint_div_mod_small x 1000))) = eval (digits x) / 1000
  /\ snd (bigint_div_mod_small x 1000) = eval (digits x) mod 1000
  /\ bigint_ok (fst (bigint_div_mod_small x 1000))
  /\ is_neg (fst (bigint_div_mod_small x 1000)) = is_neg x.
Proof.
  intros x. apply (bigint_div_mod_small_correct x 1000).
  - cbn [x digits].
    repeat (apply digits_ok_cons; split; [rewrite BASE_eq; lia|]). apply digits_ok_nil.
  - rewrite BASE_eq. lia.
Defined.

(** X9: the long division [bigint_div_mod], for a dividend with digits in
    range and a divisor without leading zero digit that is not zero and
    has no more digits than the dividend: it returns (no quotient digit
    needs more than two rounds of the correction loop), the quotient and
    the remainder have no leading zero digit, [|x| = q * |y| + r] with
    [0 <= r < |y|], the sign flag of the quotient is set when those of [x]
    and [y] differ and the remainder has the sign flag of [x]. *)
Theorem bigint_div_mod_correct :
  forall x y : bigint_t,
    digits_ok (digits x) -> bigint_ok y -> digits y <> [] ->
    (count y <= count x)%nat ->
    exists q r,
      bigint_div_mod x y = Some (q, r)
      /\ bigint_ok q /\ bigint_ok r
      /\ eval (digits q) = eval (digits x) / eval (digits y)
      /\ eval (digits r) = eval (digits x) mod eval (digits y)
      /\ is_neg q = negb (Bool.eqb (is_neg x) (is_neg y))
      /\ is_neg r = is_neg x.
Proof.
  intros x y Hx Hy Ny Hc.
  destruct (bigint_div_mod_spec x y Hx Hy Ny Hc)
    as (q & r & E & Oq & Or & Nq & Nr & V & B).
  exists q, r. split; [exact E|]. split; [exact Oq|]. split; [exact Or|].
  assert (eval (digits q) = eval (digits x) / eval (digits y)
          /\ eval (digits r) = eval (digits x) mod eval (digits y)) as [Q R].
  { rewrite Z.mul_comm in V.
    apply (Z.div_mod_unique (eval (digits y))); [left; exact B | | ].
    - left. apply Z.mod_pos_bound. lia.
    - rewrite <- V. apply Z.div_mod. lia. }
  repeat split; assumption.
Qed.

Lemma bigint_div_mod_correct_witness :
  let x := mk_bigint false [1; 2; 3; 999999999] in
  let y := mk_bigint true [999999999; 5] in
  exists q r,
    bigint_div_mod x y = Some (q, r)
    /\ bigint_ok q /\ bigint_ok r
    /\ eval (digits q) = eval (digits x) / eval (digits y)
    /\ eval (digits r) = eval (digits x) mod eval (digits y)
    /\ is_neg q = negb (Bool.eqb (is_neg x) (is_neg y))
    /\ is_neg r = is_neg x.
Proof.
  intros x y. apply (bigint_div_mod_correct x y).
  - cbn [x digits].
    repeat (apply digits_ok_cons; split; [rewrite BASE_eq; lia|]). apply digits_ok_nil.
  - split; [|unfold trimmed; cbn; lia]. cbn [y digits].
    repeat (apply digits_ok_cons; split; [rewrite BASE_eq; lia|]). apply digits_ok_nil.
  - discriminate.
  - cbn. lia.
Defined.

(** X10: [bigint_trim] drops the zero digits at the top and nothing else:
    the result has no leading zero digit, the same value and sign flag,
    and no more digits than before; trimming again changes nothing. *)
Theorem bigint_trim_canonical :
  forall x : bigint_t,
    trimmed (digits (bigint_trim x))
    /\ eval (digits (bigint_trim x)) = eval (digits x)
    /\ is_neg (bigint_trim x) = is_neg x
    /\ (count (bigint_trim x) <= count x)%nat
    /\ bigint_trim (bigint_trim x) = bigint_trim x.
Proof.
  intros x. split; [apply bigint_trim_trimmed|]. split; [apply bigint_trim_eval|].
  split; [reflexivity|]. split.
  - unfold bigint_trim, bigint_trim_to, count. cbn [digits].
    rewrite length_firstn. lia.
  - apply bigint_trim_id, bigint_trim_trimmed.
Qed.

(** X11: cutting a bigint at digit [n] with [bigint_slice] and putting the
    upper part back in place with [bigint_shift_left] loses nothing: the
    lower slice and the shifted upper slice add up to [x]; the slices keep
    the sign flag and have digits in range; and for [n] within the digits
    of [x] the slice taken in place (when [x] has one owner) has the value
    of the copied one. *)
Theorem bigint_slice_shift_recombine :
  forall (x : bigint_t) (n : nat),
    digits_ok (digits x) -> (1 <= n)%nat ->
    let a := bigint_slice false x 0 n in
    let b := bigint_slice false x n (count x) in
    eval (digits x)
      = eval (digits a) + eval (digits (bigint_shift_left b (Z.of_nat n)))
    /\ eval (digits (bigint_shift_left b (Z.of_nat n))) = Bpow n * eval (digits b)
    /\ ((n <= count x)%nat ->
        eval (digits (bigint_slice true x 0 n)) = eval (digits a))
    /\ digits_ok (digits a) /\ digits_ok (digits b)
    /\ is_neg a = is_neg x /\ is_neg b = is_neg x.
Proof.
  intros x n Hx Hn a b.
  destruct (bigint_slice_low x n Hn Hx) as (Ea & Oa & Na & _).
  destruct (bigint_slice_high x n Hn Hx) as (Eb & Ob & Nb & _).
  destruct (bigint_shift_left_spec b n Hn Ob) as (Es & _ & _).
  fold a in Ea, Oa, Na. fold b in Eb, Ob, Nb.
  split; [rewrite Es, Ea, Eb; apply eval_firstn_skipn|].
  split; [exact Es|]. split; [intros _; rewrite Ea; reflexivity|].
  repeat split; assumption.
Qed.

Lemma bigint_slice_shift_recombine_witness :
  let x := mk_bigint true [1; 2; 3; 4; 5] in
  let a := bigint_slice false x 0 2 in
  let b := bigint_slice false x 2 (count x) in
  eval (digits x)
    = eval (digits a) + eval (digits (bigint_shift_left b (Z.of_nat 2)))
  /\ eval (digits (bigint_shift_left b (Z.of_nat 2))) = Bpow 2 * eval (digits b)
  /\ ((2 <= count x)%nat ->
      eval (digits (bigint_slice true x 0 2)) = eval (digits a))
  /\ digits_ok (digits a) /\ digits_ok (digits b)
  /\ is_neg a = is_neg x /\ is_neg b = is_neg x.
Proof.
  intros x. apply (bigint_slice_shift_recombine x 2).
  - cbn [x digits].
    repeat (apply digits_ok_cons; split; [rewrite BASE_eq; lia|]). apply digits_ok_nil.
  - lia.
Defined.

(** ** Small or big *)

(** X12: [integer_bigint] keeps the value, and on a host whose small
    integers stay below [BASE] it decides by the magnitude: a bigint
    without leading zero digit that is not zero becomes the small integer
    of its value when its magnitude is at most [SMALLINT_MAX], and stays
    big otherwise. *)
Theorem integer_bigint_normalises `{smallint_range} :
  forall b : bigint_t,
    bigint_ok b -> digits b <> [] -> SMALLINT_MAX < BASE ->
    integer_value (integer_bigint b) = bigint_value b
    /\ integer_bigint b
       = if eval (digits b) <=? SMALLINT_MAX then Small (bigint_value b) else Big b.
Proof.
  intros b [O T] N HM. split; [apply integer_bigint_value|].
  unfold integer_bigint, count.
  pose proof (eval_trimmed_lower _ O T N) as L.
  destruct (digits b) as [|d [|d' r]] eqn:Db; [congruence| |].
  - cbn [length Nat.eqb andb digit_at nth eval].
    replace (d + BASE * 0) with d by lia.
    destruct (d <=? SMALLINT_MAX); [|reflexivity].
    f_equal. rewrite bigint_value_flag', Db. cbn [eval]. destruct (is_neg b); lia.
  - cbn [length Nat.eqb andb].
    replace (eval (d :: d' :: r) <=? SMALLINT_MAX) with false; [reflexivity|].
    symmetry. apply Z.leb_gt.
    cbn [length] in L. replace (S (S (length r)) - 1)%nat with (S (length r)) in L by lia.
    rewrite Bpow_S in L. pose proof (Bpow_pos (length r)). pose proof BASE_pos. nia.
Qed.

Lemma integer_bigint_normalises_witness :
  let b := mk_bigint true [536870911] in
  integer_value (integer_bigint (range := small_range 29) b) = bigint_value b
  /\ integer_bigint (range := small_range 29) b
     = if eval (digits b) <=? SMALLINT_MAX (smallint_range := small_range 29)
       then Small (bigint_value b) else Big b.
Proof.
  intros b. apply (@integer_bigint_normalises (small_range 29) b).
  - split; [|unfold trimmed; cbn; lia]. cbn [b digits].
    repeat (apply digits_ok_cons; split; [rewrite BASE_eq; lia|]). apply digits_ok_nil.
  - discriminate.
  - rewrite BASE_eq. cbn. lia.
Defined.

(** X13: on a well-formed integer that is not zero,
    [integer_signum_generic] is the sign of the value. *)
Theorem integer_signum_generic_nonzero `{smallint_range} :
  forall x : integer_t,
    integer_ok x -> integer_value x <> 0 ->
    integer_signum_generic x = Z.sgn (integer_value x).
Proof.
  intros x Hx Hv. destruct x as [i|b].
  - rewrite integer_signum_generic_small. cbn [integer_value] in *.
    destruct (i <? 0) eqn:L; [apply Z.ltb_lt in L | apply Z.ltb_ge in L].
    + symmetry. apply Z.sgn_neg. exact L.
    + symmetry. apply Z.sgn_pos. lia.
  - cbn [integer_ok] in Hx. destruct Hx as [[O T] N].
    pose proof (eval_trimmed_pos _ O T N) as P.
    unfold integer_signum_generic. cbn [integer_to_bigint integer_value].
    rewrite bigint_value_flag'. destruct (is_neg b).
    + symmetry. apply Z.sgn_neg. lia.
    + unfold count. destruct (digits b); [congruence|].
      cbn [length Nat.eqb andb]. symmetry. apply Z.sgn_pos. lia.
Qed.

Lemma integer_signum_generic_nonzero_witness :
  integer_signum_generic (Small (-3)) = Z.sgn (integer_value (Small (-3))).
Proof.
  apply (@integer_signum_generic_nonzero (small_range 29) (Small (-3))).
  - cbn. lia.
  - cbn. lia.
Defined.

(** ** Trailing zeros and digit counts *)

(** X14: for a well-formed integer that is not zero, [integer_ctz] returns
    the number of trailing decimal zeros: the exponent of the largest
    power of ten that divides the value.  For zero it returns zero. *)
Theorem integer_ctz_largest_power `{smallint_range} :
  forall x : integer_t,
    integer_ok x -> integer_value x <> 0 ->
    (exists r, integer_ctz x = Some r
               /\ 0 <= integer_value r
               /\ (10 ^ integer_value r | integer_value x)
               /\ ~ (10 ^ (integer_value r + 1) | integer_value x))
    /\ integer_ctz (Small 0) = Some (Small 0).
Proof.
  intros x Hx Hv. split; [|reflexivity].
  destruct x as [i|b]; cbn [integer_ok integer_value integer_ctz] in *.
  - destruct (int_ctz_spec i Hv) as (c & E & Hc & D1 & D2).
    exists (Small c). rewrite E. repeat split; assumption.
  - destruct Hx as [Ok N].
    destruct (bigint_ctz_spec b Ok N) as (c & E & Hc & D1 & D2).
    exists (integer_from_int c). rewrite E. cbn [option_map].
    rewrite integer_from_int_value, bigint_value_flag'.
    split; [reflexivity|]. split; [exact Hc|].
    destruct (is_neg b); [|split; assumption].
    split; [apply Z.divide_opp_r; exact D1|].
    intros D. apply D2. apply Z.divide_opp_r in D. rewrite Z.opp_involutive in D.
    exact D.
Qed.

Lemma integer_ctz_largest_power_witness :
  let x := Big (mk_bigint true [0; 0; 120000]) in
  (exists r, integer_ctz (range := small_range 29) x = Some r
             /\ 0 <= integer_value r
             /\ (10 ^ integer_value r | integer_value x)
             /\ ~ (10 ^ (integer_value r + 1) | integer_value x))
  /\ integer_ctz (range := small_range 29) (Small 0) = Some (Small 0).
Proof.
  intros x. apply (@integer_ctz_largest_power (small_range 29) x).
  - cbn [integer_ok x]. unfold canonical, bigint_ok, trimmed. cbn [digits last].
    repeat split; try lia; try discriminate.
    repeat (apply digits_ok_cons; split; [rewrite BASE_eq; lia|]). apply digits_ok_nil.
  - vm_compute. discriminate.
Defined.

(** X15: on a host whose small integers are below [BASE] in magnitude,
    [integer_count_digits] returns the number of decimal digits of a
    well-formed integer (one for zero), which is the number of digit
    characters [integer_to_string] writes for it. *)
Theorem integer_count_digits_length `{smallint_range} :
  forall (INTPTR_MAX : Z) (x : integer_t),
    BASE <= INTPTR_MAX -> - BASE < SMALLINT_MIN -> SMALLINT_MAX < BASE ->
    integer_ok x ->
    exists r, integer_count_digits INTPTR_MAX x = Some r
              /\ 10 ^ (integer_value r - 1) <= Z.max 1 (Z.abs (integer_value x))
                 < 10 ^ integer_value r
              /\ Z.of_nat (String.length (integer_to_string x))
                 = integer_value r + (if integer_value x <? 0 then 1 else 0).
Proof.
  intros IM x HM Hmin Hmax Hx.
  assert (exists r, integer_count_digits IM x = Some r /\ 1 <= integer_value r
                    /\ 10 ^ (integer_value r - 1) <= Z.max 1 (Z.abs (integer_value x))
                       < 10 ^ integer_value r) as (r & E & R1 & B).
  { destruct x as [i|b]; cbn [integer_ok integer_value integer_count_digits] in *.
    - destruct (int_count_digits_spec IM i HM ltac:(lia)) as (n & E & R1 & B).
      exists (Small n). rewrite E. repeat split; try assumption; apply B.
    - destruct Hx as [[Ok T] N].
      destruct (bigint_count_digits_spec b (conj Ok T) N) as (n & E & R1 & B).
      pose proof (eval_trimmed_pos _ Ok T N) as P.
      exists (integer_from_int n). rewrite E. cbn [option_map].
      rewrite integer_from_int_value, bigint_value_flag'.
      replace (Z.max 1 (Z.abs (if is_neg b then - eval (digits b) else eval (digits b))))
        with (eval (digits b)) by (destruct (is_neg b); lia).
      repeat split; try assumption; apply B. }
  exists r. split; [exact E|]. split; [exact B|].
  pose proof (Dpow_le 9 63 ltac:(lia)) as P63. rewrite Dpow_9 in P63.
  assert (- Dpow 63 < SMALLINT_MIN) as Lo63 by lia.
  assert (SMALLINT_MAX < Dpow 63) as Hi63 by lia.
  destruct (integer_to_string_spec x Lo63 Hi63 Hx) as (D & Es & (N & A & Z1) & V).
  rewrite Es, length_string_of_list, length_app, Nat2Z.inj_add.
  assert (Z.of_nat (length D) = integer_value r) as L.
  { destruct (Ascii.eqb (peek D) "0") eqn:P0.
    - rewrite (Z1 eq_refl) in V |- *. change (decimal ["0"%char]) with 0 in V.
      cbn [length]. rewrite <- V in B.
      apply (pow10_bounds_unique 1); [lia | lia | pow10_values; lia | exact B].
    - pose proof (numeral_bounds D N A P0) as NB. rewrite V in NB.
      assert (1 <= Z.of_nat (length D))
        by (destruct D; [congruence | cbn [length]; lia]).
      assert (1 <= Z.abs (integer_value x)).
      { destruct NB as [NB _].
        pose proof (Z.pow_pos_nonneg 10 (Z.of_nat (length D) - 1)). lia. }
      replace (Z.max 1 (Z.abs (integer_value x))) with (Z.abs (integer_value x)) in B by lia.
      apply (pow10_bounds_unique (Z.abs (integer_value x))); assumption. }
  rewrite L. destruct (integer_value x <? 0); cbn [length]; lia.
Qed.

Lemma integer_count_digits_length_witness :
  let x := Big (mk_bigint true [123456789; 987654321; 42]) in
  exists r, integer_count_digits (range := small_range 29) (2 ^ 63 - 1) x = Some r
            /\ 10 ^ (integer_value r - 1) <= Z.max 1 (Z.abs (integer_value x))
               < 10 ^ integer_value r
            /\ Z.of_nat (String.length (integer_to_string x))
               = integer_value r + (if integer_value x <? 0 then 1 else 0).
Proof.
  intros x. apply (@integer_count_digits_length (small_range 29) (2 ^ 63 - 1) x).
  - rewrite BASE_eq. vm_compute. discriminate.
  - rewrite BASE_eq. vm_compute. reflexivity.
  - rewrite BASE_eq. vm_compute. reflexivity.
  - cbn [integer_ok x]. unfold canonical, bigint_ok, trimmed. cbn [digits last].
    repeat split; try lia; try discriminate.
    repeat (apply digits_ok_cons; split; [rewrite BASE_eq; lia|]). apply digits_ok_nil.
Defined.

(** ** Parsing *)

(** X16: on every literal of the grammar it accepts, [integer_parse]
    returns the integer the literal stands for: the number written by its
    digits -- separators and decimal point left out -- times ten to the
    power of the exponent less the number of fraction digits, negated
    behind a minus sign. *)
Theorem integer_parse_value `{smallint_range} :
  forall (s : string) (l : literal),
    accepted_literal l = true -> literal_chars l = c_str s ->
    exists y, integer_parse s = Integer y /\ integer_value y = literal_value l.
Proof.
  intros s l Hl Hc. unfold integer_parse. rewrite <- Hc. unfold literal_chars.
  assert (sign_ok (lit_sign l) = true) as Hs.
  { unfold accepted_literal, spec_literal in Hl.
    repeat (apply andb_prop in Hl; destruct Hl as [Hl _]). exact Hl. }
  pose proof (literal_parse_trace l Hl) as T. cbv zeta in T. destruct T as (D0 & _).
  unfold literal_value.
  set (p := lit_int l
            ++ match lit_frac l with None => [] | Some f => "."%char :: f end
            ++ match lit_exp l with None => [] | Some (e, ds) => e :: ds end) in *.
  destruct (lit_sign l) as [|c [|c' r]] eqn:Sg; [| |discriminate].
  - cbn [app peek]. destruct (isdigit_not_sign _ D0) as [A B]. rewrite A, B.
    change (Ascii.eqb Ascii.zero "-") with false. cbv iota.
    apply (parse_number_literal [] l false Hl eq_refl).
  - cbn [sign_ok] in Hs. cbn [app peek tl].
    apply orb_prop in Hs. destruct Hs as [A|A]; apply Ascii.eqb_eq in A; subst c.
    + change (Ascii.eqb "+" "+") with true. change (Ascii.eqb "+" "-") with false.
      cbv iota.
      apply (parse_number_literal ["+"%char] l false Hl eq_refl).
    + change (Ascii.eqb "-" "+") with false. change (Ascii.eqb "-" "-") with true.
      cbv iota.
      apply (parse_number_literal ["-"%char] l true Hl eq_refl).
Qed.

Lemma integer_parse_value_witness :
  let l := mk_literal ["-"%char]
             ["1"%char; "_"%char; "0"%char; "0"%char; "0"%char]
             (Some ["5"%char; "0"%char])
             (Some ("e"%char, ["2"%char])) in
  exists y, integer_parse (range := small_range 29) "-1_000.50e2" = Integer y
            /\ integer_value y = literal_value l.
Proof.
  intros l. apply (@integer_parse_value (small_range 29) "-1_000.50e2" l).
  - vm_compute. reflexivity.
  - reflexivity.
Defined.

(** ** Decimal scaling *)

(** X17: for an exponent [i >= 0], on the path decided in this file (the
    operand is a bigint, or the exponent is at least [LOG_BASE]),
    [integer_mul_pow10] returns an integer of value [x * 10^i]. *)
Theorem integer_mul_pow10_value `{smallint_range} :
  forall (x : integer_t) (i : Z),
    integer_wf x -> 0 <= i ->
    is_smallint x && (i <? LOG_BASE) = false ->
    exists y, integer_mul_pow10 x (Small i) = Some (Integer y)
              /\ integer_value y = integer_value x * 10 ^ i.
Proof.
  intros x i [Ox _] Hi Hp. unfold integer_mul_pow10. cbn [integer_eqb_small].
  destruct (i =? 0) eqn:I0.
  { apply Z.eqb_eq in I0. subst i. exists x. split; [reflexivity|].
    rewrite Z.pow_0_r. ring. }
  destruct (integer_eqb_small x 0) eqn:X0.
  { destruct x as [j|b]; [|discriminate]. cbn [integer_eqb_small] in X0.
    apply Z.eqb_eq in X0. subst j. exists (Small 0). split; reflexivity. }
  replace (i <? 0) with false by (symmetry; apply Z.ltb_ge; lia).
  destruct (mul_pow10_from_value x i Ox Hi Hp) as (y & E & V & _).
  exists y. split; assumption.
Qed.

Lemma integer_mul_pow10_value_witness :
  let x := Big (mk_bigint true [5; 7]) in
  exists y, integer_mul_pow10 (range := small_range 29) x (Small 13)
            = Some (Integer y)
            /\ integer_value y = integer_value x * 10 ^ 13.
Proof.
  intros x. apply (@integer_mul_pow10_value (small_range 29) x 13).
  - split; [|left; unfold trimmed; cbn; lia].
    cbn [x integer_to_bigint digits].
    repeat (apply digits_ok_cons; split; [rewrite BASE_eq; lia|]). apply digits_ok_nil.
  - lia.
  - reflexivity.
Defined.

(** X18: for an exponent [i >= 0], on the path decided in this file,
    [integer_div_pow10] returns an integer whose value is that of [x]
    divided by [10^i] and truncated towards zero; the digit values are
    those of the branch that shifts the digits of [x] in place. *)
Theorem integer_div_pow10_value `{smallint_range} :
  forall (x : integer_t) (i : Z),
    integer_wf x -> 0 <= i ->
    is_smallint x && (i <? LOG_BASE) = false ->
    exists y, integer_div_pow10 x (Small i) = Some (Integer y)
              /\ integer_value y = Z.quot (integer_value x) (10 ^ i).
Proof.
  intros x i [Ox _] Hi Hp. unfold integer_div_pow10. cbn [integer_eqb_small].
  destruct (i =? 0) eqn:I0.
  { apply Z.eqb_eq in I0. subst i. exists x. split; [reflexivity|].
    rewrite Z.pow_0_r, Z.quot_1_r. reflexivity. }
  destruct (integer_eqb_small x 0) eqn:X0.
  { destruct x as [j|b]; [|discriminate]. cbn [integer_eqb_small] in X0.
    apply Z.eqb_eq in X0. subst j. exists (Small 0). split; [reflexivity|].
    cbn [integer_value]. rewrite Z.quot_0_l; [reflexivity|].
    apply Z.pow_nonzero; lia. }
  replace (i <? 0) with false by (symmetry; apply Z.ltb_ge; lia).
  apply div_pow10_from_value; assumption.
Qed.

Lemma integer_div_pow10_value_witness :
  let x := Big (mk_bigint true [5; 7; 3]) in
  exists y, integer_div_pow10 (range := small_range 29) x (Small 13)
            = Some (Integer y)
            /\ integer_value y = Z.quot (integer_value x) (10 ^ 13).
Proof.
  intros x. apply (@integer_div_pow10_value (small_range 29) x 13).
  - split; [|left; unfold trimmed; cbn; lia].
    cbn [x integer_to_bigint digits].
    repeat (apply digits_ok_cons; split; [rewrite BASE_eq; lia|]). apply digits_ok_nil.
  - lia.
  - reflexivity.
Defined.

(** X19: scaling up by [10^i] and down again by [10^i], for
    [i >= LOG_BASE], gives back an integer of the value one started
    from. *)
Theorem integer_div_pow10_undoes_mul `{smallint_range} :
  forall (x : integer_t) (i : Z),
    integer_wf x -> LOG_BASE <= i ->
    exists y z, integer_mul_pow10 x (Small i) = Some (Integer y)
                /\ integer_div_pow10 y (Small i) = Some (Integer z)
                /\ integer_value z = integer_value x.
Proof.
  intros x i [Ox _] Hi. unfold LOG_BASE in Hi.
  assert (is_smallint x && (i <? LOG_BASE) = false) as Hp.
  { replace (i <? LOG_BASE) with false by (symmetry; apply Z.ltb_ge; unfold LOG_BASE; lia).
    apply andb_false_r. }
  assert (10 ^ i <> 0) as P by (apply Z.pow_nonzero; lia).
  unfold integer_mul_pow10, integer_div_pow10. cbn [integer_eqb_small].
  replace (i =? 0) with false by (symmetry; apply Z.eqb_neq; lia).
  replace (i <? 0) with false by (symmetry; apply Z.ltb_ge; lia).
  destruct (integer_eqb_small x 0) eqn:X0.
  { destruct x as [j|b]; [|discriminate]. cbn [integer_eqb_small] in X0.
    apply Z.eqb_eq in X0. subst j. exists (Small 0), (Small 0).
    repeat split. }
  destruct (mul_pow10_from_value x i Ox ltac:(lia) Hp) as (y & E & V & Oy).
  exists y. destruct (integer_eqb_small y 0) eqn:Y0.
  - destruct y as [j|b]; [|discriminate]. cbn [integer_eqb_small] in Y0.
    apply Z.eqb_eq in Y0. subst j. exists (Small 0).
    split; [exact E|]. split; [reflexivity|].
    cbn [integer_value] in *. symmetry in V. apply Z.mul_eq_0_l in V; [lia | exact P].
  - assert (is_smallint y && (i <? LOG_BASE) = false) as Hq.
    { replace (i <? LOG_BASE) with false
        by (symmetry; apply Z.ltb_ge; unfold LOG_BASE; lia).
      apply andb_false_r. }
    destruct (div_pow10_from_value y i Oy ltac:(lia) Hq) as (z & E' & V').
    exists z. split; [exact E|]. split; [exact E'|].
    rewrite V', V. apply Z.quot_mul. exact P.
Qed.

Lemma integer_div_pow10_undoes_mul_witness :
  let x := Small (-42) in
  exists y z, integer_mul_pow10 (range := small_range 29) x (Small 20)
              = Some (Integer y)
              /\ integer_div_pow10 (range := small_range 29) y (Small 20)
                 = Some (Integer z)
              /\ integer_value z = integer_value x.
Proof.
  intros x. apply (@integer_div_pow10_undoes_mul (small_range 29) x 20).
  - apply integer_small_wf.
  - unfold LOG_BASE. lia.
Defined.

(** ** Storage *)

(** X20: [Buf.bigint_sub_abs] stays inside its buffers in exactly two
    cases: when it works in place ([x] is unique, with [extra] within
    [MAX_EXTRA]), and when it writes to a fresh buffer while both [x] and
    that buffer have a spare slot behind the digits of [x].  It then
    returns a buffer that holds the bigint computed by [bigint_sub_abs]
    on the bigints that [x] and [y] hold.  In every other case it steps
    outside a buffer. *)
Theorem bigint_sub_abs_storage :
  forall (unique : bool) (x y : Buf.bigint_s),
    buf_ok x -> buf_ok y -> (Buf.count y <= Buf.count x)%nat ->
    if (unique && (Buf.extra x <=? Buf.MAX_EXTRA)%nat)
       || ((0 <? Buf.extra x)%nat
           && (Buf.count x <? Buf.bigint_roundup_count (Buf.count x))%nat)
    then exists z, Buf.bigint_sub_abs unique x y = inr z
                   /\ abstract z = bigint_sub_abs (abstract x) (abstract y)
                   /\ buf_ok z
    else exists f, Buf.bigint_sub_abs unique x y = inl f.
Proof.
  intros unique x y Ox Oy Cyx.
  set (r := sub_abs_digits (live x) (live y) 0).
  assert (forall z, buf_ok z -> Buf.is_neg z = Buf.is_neg x ->
            live z = r ->
            abstract (Buf.bigint_trim z true)
            = bigint_sub_abs (abstract x) (abstract y)
            /\ buf_ok (Buf.bigint_trim z true)) as Fin.
  { intros z Oz Nz Lz. destruct (trim_abstract z true Oz) as (A & B & _).
    split; [|exact B]. rewrite A. unfold abstract, bigint_sub_abs.
    cbn [digits is_neg]. rewrite Nz, Lz. reflexivity. }
  unfold Buf.bigint_sub_abs, Buf.bigint_count_.
  destruct (unique && (Buf.extra x <=? Buf.MAX_EXTRA)%nat) eqn:Reuse.
  - (* in place *)
    apply andb_prop in Reuse. destruct Reuse as [-> Ex]. apply Nat.leb_le in Ex.
    cbn [orb]. rewrite (BufRun.alloc_reuse_same true x (Buf.count x) Ox).
    2:{ unfold Buf.bigint_available_.
        replace (Buf.count x <=? Buf.count x + Buf.extra x)%nat with true
          by (symmetry; apply Nat.leb_le; lia).
        replace (Buf.count x + Buf.extra x - Buf.count x <=? Buf.MAX_EXTRA)%nat
          with true by (symmetry; apply Nat.leb_le; lia).
        reflexivity. }
    set (z0 := Buf.mk_bigint_s _ _ _ _). cbv beta iota.
    assert (buf_ok z0) as Oz.
    { unfold buf_ok, Buf.bigint_available_ in *. cbn [z0 Buf.count Buf.extra Buf.digits].
      lia. }
    set (s0 := Buf.mk_state z0 z0 true).
    assert (sub_inv z0 z0 y true r 0 0 s0) as I0.
    { split; [apply BufRun.same_shape_refl|]. split; [apply BufRun.same_shape_refl|].
      split; [reflexivity|]. split; [reflexivity|].
      cbn [firstn app s0 Buf.st_x Buf.st_z]. rewrite !seg_full. reflexivity. }
    assert (Buf.count z0 <= Buf.bigint_available_ z0)%nat as Room
      by (unfold Buf.bigint_available_; lia).
    assert (Buf.count y <= Buf.count z0)%nat as Cyz by exact Cyx.
    destruct (BufRun.sub_digits_inv z0 z0 y true r Oz Oz Oy Room Cyz
                (Buf.count y) 0 0 s0 ltac:(lia) I0) as (b1 & s1 & R1 & I1).
    rewrite R1. cbn [Buf.bind].
    destruct (BufRun.sub_borrow_inv z0 z0 y true r Oz Oz Room Cyz
                (Buf.count x - (0 + Buf.count y)) (0 + Buf.count y) b1 s1
                ltac:(lia) ltac:(cbn [z0 Buf.count]; lia) I1)
      as (i2 & b2 & s2 & R2 & Ri & Bz & I2).
    rewrite R2. cbn [Buf.bind].
    pose proof I2 as (Sx & Sz & Sm & Al & _).
    rewrite Sm. cbn [negb Buf.bind Buf.ret].
    pose proof (BufRun.sub_inv_done z0 z0 y true r Room Cyz i2 b2 s2) as D.
    cbn [z0 Buf.count] in D, Ri, Bz. specialize (D ltac:(lia) ltac:(intros; apply Bz; lia) I2).
    rewrite (Al eq_refl) in D.
    rewrite <- firstn_seg in D by lia.
    destruct (Fin (Buf.st_z s2)) as (A & B).
    + exact (BufRun.same_shape_ok _ _ Sz Oz).
    + destruct Sz as (N & _). exact N.
    + unfold live. destruct Sz as (_ & _ & C & _). rewrite C. exact D.
    + eexists. split; [reflexivity|]. split; assumption.
  - (* a fresh buffer *)
    cbn [orb]. unfold Buf.bigint_alloc_reuse_.
    replace ((Buf.count x <=? Buf.bigint_available_ x)%nat
             && (Buf.bigint_available_ x - Buf.count x <=? Buf.MAX_EXTRA)%nat
             && unique) with false.
    2:{ symmetry. destruct unique; [|apply andb_false_r].
        cbn [andb] in Reuse. rewrite andb_true_r.
        replace (Buf.bigint_available_ x - Buf.count x)%nat with (Buf.extra x)
          by (unfold Buf.bigint_available_; lia).
        rewrite Reuse. apply andb_false_r. }
    set (z0 := Buf.bigint_alloc (Buf.count x) (Buf.is_neg x)).
    pose proof (BufRun.alloc_ok (Buf.count x) (Buf.is_neg x)) as Oz. fold z0 in Oz.
    destruct (BufRun.alloc_shape (Buf.count x) (Buf.is_neg x)) as (Cz & Nz & Az & Lz).
    fold z0 in Cz, Nz, Az, Lz.
    pose proof (BufRun.roundup_ge (Buf.count x)) as Rg.
    set (s0 := Buf.mk_state x z0 false).
    assert (sub_inv x z0 y false r 0 0 s0) as I0.
    { split; [apply BufRun.same_shape_refl|]. split; [apply BufRun.same_shape_refl|].
      split; [reflexivity|]. split; [discriminate|].
      cbn [firstn app s0 Buf.st_x Buf.st_z]. rewrite !seg_full. reflexivity. }
    assert (Buf.count x <= Buf.bigint_available_ z0)%nat as Room by lia.
    destruct (BufRun.sub_digits_inv x z0 y false r Ox Oz Oy Room Cyx
                (Buf.count y) 0 0 s0 ltac:(lia) I0) as (b1 & s1 & R1 & I1).
    rewrite R1. cbn [Buf.bind].
    destruct (BufRun.sub_borrow_inv x z0 y false r Ox Oz Room Cyx
                (Buf.count x - (0 + Buf.count y)) (0 + Buf.count y) b1 s1
                ltac:(lia) ltac:(lia) I1)
      as (i2 & b2 & s2 & R2 & Ri & Bz & I2).
    rewrite R2. cbn [Buf.bind].
    pose proof I2 as (Sx & Sz & Sm & _ & _).
    rewrite Sm. cbn [negb].
    pose proof (BufRun.sub_inv_done x z0 y false r Room Cyx i2 b2 s2
                  ltac:(lia) ltac:(intros; apply Bz; lia) I2) as D.
    destruct ((0 <? Buf.extra x)%nat
              && (Buf.count x <? Buf.bigint_roundup_count (Buf.count x))%nat) eqn:Spare.
    + apply andb_prop in Spare. destruct Spare as [S1 S2].
      apply Nat.ltb_lt in S1. apply Nat.ltb_lt in S2.
      destruct (BufRun.sub_copy_tail_inv x z0 y r Ox Oz Room Cyx
                  (Buf.count x + 1 - i2) i2 s2) as (s3 & R3 & Sz3 & F3);
        try assumption; try lia.
      { unfold Buf.bigint_available_. lia. }
      { rewrite Nat.min_l by lia. exact D. }
      rewrite R3. cbn [Buf.bind Buf.ret].
      destruct (Fin (Buf.st_z s3)) as (A & B).
      * exact (BufRun.same_shape_ok _ _ Sz3 Oz).
      * destruct Sz3 as (N & _). rewrite N. exact Nz.
      * unfold live. destruct Sz3 as (_ & _ & C & _). rewrite C, Cz. exact F3.
      * eexists. split; [reflexivity|]. split; assumption.
    + destruct (BufRun.sub_copy_tail_stops x z0 y Room Cyx
                  (Buf.count x + 1 - i2) i2 s2) as (f & R3);
        try assumption; try lia.
      { apply andb_false_iff in Spare. destruct Spare as [S1|S2].
        - apply Nat.ltb_ge in S1. left. unfold Buf.bigint_available_. lia.
        - apply Nat.ltb_ge in S2. right. lia. }
      rewrite R3. cbn [Buf.bind]. exists f. reflexivity.
Qed.

Lemma bigint_sub_abs_storage_witness :
  exists z, Buf.bigint_sub_abs true BufData.x4 BufData.y1 = inr z
            /\ abstract z = bigint_sub_abs (abstract BufData.x4) (abstract BufData.y1)
            /\ buf_ok z.
Proof.
  refine (bigint_sub_abs_storage true BufData.x4 BufData.y1 _ _ _).
  - unfold buf_ok. cbn. lia.
  - unfold buf_ok. cbn. lia.
  - cbn. lia.
Defined.

(** X21: trimming and reuse keep the header of a buffer truthful.
    [Buf.bigint_trim_to] to a count within the slots of [x] sets that
    count, keeps the sign flag and the digits below it, and leaves
    [count + extra] within the allocation with [extra] at most
    [MAX_EXTRA], whether it only rewrites the header, gives up spare
    slots or reallocates; [Buf.bigint_trim] is [bigint_trim] on the
    bigint held; and [Buf.bigint_alloc_reuse_] returns a buffer with room
    for the count asked, which is [x] itself only when [x] is unique and
    has that room. *)
Theorem buffer_trim_reuse_storage :
  forall (x : Buf.bigint_s) (n : nat) (allow_realloc unique : bool),
    buf_ok x ->
    ((n <= Buf.bigint_available_ x)%nat ->
     let z := Buf.bigint_trim_to x n allow_realloc in
     Buf.count z = n /\ Buf.is_neg z = Buf.is_neg x
     /\ firstn n (Buf.digits z) = firstn n (Buf.digits x)
     /\ buf_ok z /\ (Buf.extra z <= Buf.MAX_EXTRA)%nat)
    /\ ((Buf.bigint_available_ x < n)%nat ->
        Buf.bigint_trim_to x n allow_realloc = x)
    /\ (abstract (Buf.bigint_trim x allow_realloc) = bigint_trim (abstract x)
        /\ buf_ok (Buf.bigint_trim x allow_realloc))
    /\ (let (z, same) := Buf.bigint_alloc_reuse_ unique x n in
        Buf.count z = n /\ Buf.is_neg z = Buf.is_neg x /\ buf_ok z
        /\ (Buf.extra z <= Buf.MAX_EXTRA)%nat
        /\ (same = true ->
            unique = true /\ (n <= Buf.bigint_available_ x)%nat
            /\ Buf.digits z = Buf.digits x)).
Proof.
  intros x n a unique O. split; [|split; [|split]].
  - intros Hn. apply BufRun.trim_to_shape; assumption.
  - intros Hn. unfold Buf.bigint_trim_to. apply Nat.ltb_lt in Hn. rewrite Hn. reflexivity.
  - destruct (trim_abstract x a O) as (A & B & _). split; assumption.
  - unfold Buf.bigint_alloc_reuse_.
    destruct ((n <=? Buf.bigint_available_ x)%nat
              && (Buf.bigint_available_ x - n <=? Buf.MAX_EXTRA)%nat && unique) eqn:K.
    + apply andb_prop in K. destruct K as [K ->]. apply andb_prop in K.
      destruct K as [K1 K2]. apply Nat.leb_le in K1. apply Nat.leb_le in K2.
      destruct (BufRun.trim_to_shape x n false O K1) as (C & N & F & B & E).
      repeat split; try assumption.
      unfold Buf.bigint_trim_to.
      replace (Buf.bigint_available_ x <? n)%nat with false
        by (symmetry; apply Nat.ltb_ge; lia).
      replace (Buf.MAX_EXTRA <? Buf.bigint_available_ x - n)%nat with false
        by (symmetry; apply Nat.ltb_ge; lia).
      reflexivity.
    + destruct (BufRun.alloc_shape n (Buf.is_neg x)) as (C & N & A & L).
      pose proof (BufRun.roundup_le n) as Le. pose proof (BufRun.roundup_ge n) as Ge.
      split; [exact C|]. split; [exact N|]. split; [apply BufRun.alloc_ok|].
      split; [|discriminate].
      unfold Buf.bigint_available_ in A. unfold Buf.MAX_EXTRA. lia.
Qed.

Lemma buffer_trim_reuse_storage_witness :
  let x := Buf.mk_bigint_s true 2 4 [7; 0; 3; 0; 0; 0] in
  ((3 <= Buf.bigint_available_ x)%nat ->
   let z := Buf.bigint_trim_to x 3 true in
   Buf.count z = 3%nat /\ Buf.is_neg z = Buf.is_neg x
   /\ firstn 3 (Buf.digits z) = firstn 3 (Buf.digits x)
   /\ buf_ok z /\ (Buf.extra z <= Buf.MAX_EXTRA)%nat)
  /\ ((Buf.bigint_available_ x < 3)%nat -> Buf.bigint_trim_to x 3 true = x)
  /\ (abstract (Buf.bigint_trim x true) = bigint_trim (abstract x)
      /\ buf_ok (Buf.bigint_trim x true))
  /\ (let (z, same) := Buf.bigint_alloc_reuse_ true x 3 in
      Buf.count z = 3%nat /\ Buf.is_neg z = Buf.is_neg x /\ buf_ok z
      /\ (Buf.extra z <= Buf.MAX_EXTRA)%nat
      /\ (same = true ->
          true = true /\ (3 <= Buf.bigint_available_ x)%nat
          /\ Buf.digits z = Buf.digits x)).
Proof.
  intros x. apply (buffer_trim_reuse_storage x 3 true true).
  unfold buf_ok. cbn. lia.
Defined.

(** X22: [bigint_push] writes inside the buffer and appends exactly one
    digit: in place when [x] has a spare slot, and otherwise in the copy
    that [bigint_copy] makes with [MAX_EXTRA] spare slots; [bigint_copy]
    itself returns a buffer holding the same bigint, with at least the
    spare slots asked for (at most [MAX_EXTRA]). *)
Theorem bigint_push_storage :
  forall (x : Buf.bigint_s) (d : Z) (e : nat),
    buf_ok x ->
    (exists z, BufOps.bigint_push x d = inr z
               /\ abstract z = bigint_push (abstract x) d /\ buf_ok z
               /\ ((0 < Buf.extra x)%nat ->
                   Buf.extra z = (Buf.extra x - 1)%nat
                   /\ Buf.digits z = set_digit (Buf.digits x) (Buf.count x) d))
    /\ (exists z, BufOps.bigint_copy x e = inr z
                  /\ abstract z = abstract x /\ buf_ok z
                  /\ (Nat.min e Buf.MAX_EXTRA <= Buf.extra z <= Buf.MAX_EXTRA)%nat).
Proof.
  intros x d e O. split; [apply bigint_push_spec | apply bigint_copy_spec]; exact O.
Qed.

Lemma bigint_push_storage_witness :
  let x := Buf.mk_bigint_s false 0 4 [1; 2; 3; 4] in
  (exists z, BufOps.bigint_push x 5 = inr z
             /\ abstract z = bigint_push (abstract x) 5 /\ buf_ok z
             /\ ((0 < Buf.extra x)%nat ->
                 Buf.extra z = (Buf.extra x - 1)%nat
                 /\ Buf.digits z = set_digit (Buf.digits x) (Buf.count x) 5))
  /\ (exists z, BufOps.bigint_copy x 2 = inr z
                /\ abstract z = abstract x /\ buf_ok z
                /\ (Nat.min 2 Buf.MAX_EXTRA <= Buf.extra z <= Buf.MAX_EXTRA)%nat).
Proof.
  intros x. apply (bigint_push_storage x 5 2).
  unfold buf_ok. cbn. lia.
Defined.

(** X23: [bigint_shift_left], and with it the shift at the end of
    [integer_mul_pow10], stays inside its buffers whether it reuses [x]
    or takes a fresh buffer, and the buffer returned holds the digits of
    [x] above [n] zero digits. *)
Theorem bigint_shift_left_storage :
  forall (unique : bool) (x : Buf.bigint_s) (n : Z),
    buf_ok x ->
    exists z, BufOps.bigint_shift_left unique x n = inr z
              /\ abstract z = bigint_shift_left (abstract x) n
              /\ buf_ok z.
Proof.
  intros unique x n O. unfold BufOps.bigint_shift_left, bigint_shift_left.
  destruct (n <=? 0); [exists x; repeat split; exact O|].
  set (k := Z.to_nat n). set (cx := Buf.count x).
  assert (cx <= Buf.bigint_available_ x)%nat as Hx
    by (unfold cx, Buf.bigint_available_; lia).
  assert (forall src z0, buf_ok src -> buf_ok z0 ->
            (cx <= Buf.bigint_available_ src)%nat -> Buf.count z0 = (cx + k)%nat ->
            Buf.is_neg z0 = Buf.is_neg x ->
            firstn cx (Buf.digits src) = live x ->
            exists z,
              Buf.bind (BufOps.read_block Buf.buf_x src 0 cx)
                (fun ds => Buf.bind (BufOps.write_block Buf.buf_z z0 k ds)
                   (fun z => BufOps.write_block Buf.buf_z z 0 (repeat 0 k))) = inr z
              /\ abstract z = mk_bigint (is_neg (abstract x))
                                        (repeat 0 k ++ digits (abstract x))
              /\ buf_ok z) as K.
  { intros src z0 Os Oz Hs Cz Nz Fs.
    destruct (shift_blocks src z0 k cx Os Oz Hs Cz) as (z & R & S & L).
    exists z. split; [exact R|]. split; [|exact (BufRun.same_shape_ok _ _ S Oz)].
    apply abstract_eq; [destruct S as (N & _); cbn [abstract is_neg]; congruence|].
    rewrite L, Fs. reflexivity. }
  destruct ((cx + k <=? Buf.bigint_available_ x)%nat
            && (Buf.bigint_available_ x - (cx + k) <=? Buf.MAX_EXTRA)%nat
            && unique) eqn:Reuse.
  - rewrite (BufRun.alloc_reuse_same unique x (cx + k) O Reuse). cbv beta iota.
    apply andb_prop in Reuse. destruct Reuse as [Reuse _].
    apply andb_prop in Reuse. destruct Reuse as [R1 _]. apply Nat.leb_le in R1.
    set (z0 := Buf.mk_bigint_s _ _ _ _).
    assert (buf_ok z0) as Oz.
    { unfold buf_ok, Buf.bigint_available_ in *.
      cbn [z0 Buf.count Buf.extra Buf.digits]. lia. }
    apply K; try assumption; try reflexivity.
    unfold Buf.bigint_available_ in *. cbn [z0 Buf.count Buf.extra]. lia.
  - unfold Buf.bigint_alloc_reuse_. rewrite Reuse.
    destruct (BufRun.alloc_shape (cx + k) (Buf.is_neg x)) as (C & N & _ & _).
    apply K; try assumption; try reflexivity. apply BufRun.alloc_ok.
Qed.

Lemma bigint_shift_left_storage_witness :
  let x := Buf.mk_bigint_s true 3 1 [7; 0; 0; 0] in
  exists z, BufOps.bigint_shift_left true x 2 = inr z
            /\ abstract z = bigint_shift_left (abstract x) 2
            /\ buf_ok z.
Proof.
  intros x. apply (bigint_shift_left_storage true x 2).
  unfold buf_ok. cbn. lia.
Defined.

(** X24: the block of [integer_div_pow10] that shifts [large] digits out
    of a bigint with more than [large] digits.  On a unique operand it
    moves the upper digits down in place and stays inside the buffer.  On
    a shared operand it copies [bcount] digits, not the [ccount] it keeps,
    from slot [large] of [b] into a fresh buffer for [ccount] digits: the
    copy stays inside the buffers only when [b] has [large] spare slots
    and the rounded-up size of the fresh buffer reaches [bcount], and
    steps outside one of them otherwise.  Whenever it stays inside, the
    buffer returned holds the digits of [b] from [large] on. *)
Theorem div_pow10_shift_storage :
  forall (unique : bool) (b : Buf.bigint_s) (large : Z),
    buf_ok b -> 0 < large < Z.of_nat (Buf.count b) ->
    if unique
       || ((Z.to_nat large <=? Buf.extra b)%nat
           && (Buf.count b
               <=? Buf.bigint_roundup_count (Buf.count b - Z.to_nat large))%nat)
    then exists c, BufOps.div_pow10_shift unique b large = inr (Some c)
                   /\ abstract c
                      = mk_bigint (is_neg (abstract b))
                                  (skipn (Z.to_nat large) (digits (abstract b)))
                   /\ buf_ok c
    else exists f, BufOps.div_pow10_shift unique b large = inl f.
Proof.
  intros unique b large O [L0 L1]. unfold BufOps.div_pow10_shift.
  replace (0 <? large) with true by (symmetry; apply Z.ltb_lt; lia).
  replace (Z.of_nat (Buf.count b) <=? large) with false
    by (symmetry; apply Z.leb_gt; lia).
  set (k := Z.to_nat large). set (bcount := Buf.count b).
  assert (0 < k < bcount)%nat as Hk by (unfold k, bcount; lia).
  set (ccount := (bcount - k)%nat).
  assert (bcount <= Buf.bigint_available_ b)%nat as Hb
    by (unfold bcount, Buf.bigint_available_; lia).
  pose proof O as Lb. unfold buf_ok in Lb.
  cbn [abstract is_neg digits]. unfold live at 1. fold bcount.
  rewrite <- seg_live.
  destruct unique.
  - cbn [orb].
    rewrite (BufBlocks.read_block_ok Buf.buf_x b ccount k O) by (unfold ccount; lia).
    cbn [Buf.bind]. replace (k + ccount)%nat with bcount by (unfold ccount; lia).
    set (ds := seg (Buf.digits b) k bcount).
    assert (length ds = ccount) as Ld by (unfold ds; rewrite seg_length; [reflexivity | lia]).
    destruct (BufBlocks.write_block_ok Buf.buf_x ds b 0 O ltac:(lia)) as (b1 & R & S & D).
    rewrite R. cbn [Buf.bind Buf.ret].
    pose proof (BufRun.same_shape_ok _ _ S O) as O1.
    pose proof (BufRun.same_shape_available _ _ S) as A1.
    destruct (BufRun.trim_to_shape b1 ccount true O1 ltac:(lia)) as (C & N & F & B & _).
    eexists. split; [reflexivity|]. split; [|exact B].
    apply abstract_eq; [destruct S as (Ns & _); congruence|].
    unfold live. rewrite C, F, D. cbn [firstn app].
    apply firstn_app_length. exact Ld.
  - cbn [orb].
    set (c0 := Buf.bigint_alloc ccount (Buf.is_neg b)).
    destruct (BufRun.alloc_shape ccount (Buf.is_neg b)) as (C0 & N0 & A0 & _).
    fold c0 in C0, N0, A0.
    pose proof (BufRun.alloc_ok ccount (Buf.is_neg b)) as O0. fold c0 in O0.
    destruct ((k <=? Buf.extra b)%nat
              && (bcount <=? Buf.bigint_roundup_count ccount)%nat) eqn:Fit.
    + apply andb_prop in Fit. destruct Fit as [F1 F2].
      apply Nat.leb_le in F1. apply Nat.leb_le in F2.
      assert (k + bcount <= Buf.bigint_available_ b)%nat as Hr
        by (unfold bcount, Buf.bigint_available_; lia).
      rewrite (BufBlocks.read_block_ok Buf.buf_x b bcount k O Hr).
      cbn [Buf.bind].
      set (ds := seg (Buf.digits b) k (k + bcount)).
      assert (length ds = bcount) as Ld by (unfold ds; rewrite seg_length; lia).
      destruct (BufBlocks.write_block_ok Buf.buf_z ds c0 0 O0 ltac:(lia))
        as (c & R & S & D).
      rewrite R. cbn [Buf.bind Buf.ret].
      exists c. split; [reflexivity|].
      split; [|exact (BufRun.same_shape_ok _ _ S O0)].
      apply abstract_eq; [destruct S as (Ns & _); congruence|].
      unfold live. destruct S as (_ & _ & Cc & _). rewrite Cc, C0, D.
      cbn [firstn app]. rewrite firstn_app, Ld.
      replace (ccount - bcount)%nat with 0%nat by (unfold ccount; lia).
      cbn [firstn]. rewrite app_nil_r. unfold ds.
      rewrite seg_firstn by (unfold ccount; lia).
      replace (k + ccount)%nat with bcount by (unfold ccount; lia). reflexivity.
    + apply andb_false_iff in Fit. destruct Fit as [F1|F2].
      * apply Nat.leb_gt in F1.
        destruct (BufBlocks.read_block_fault Buf.buf_x b bcount k) as (f & R).
        { lia. } { unfold bcount, Buf.bigint_available_. lia. }
        rewrite R. cbn [Buf.bind]. exists f. reflexivity.
      * apply Nat.leb_gt in F2.
        destruct (Nat.le_gt_cases (k + bcount) (Buf.bigint_available_ b)) as [Hr|Hr].
        -- rewrite (BufBlocks.read_block_ok Buf.buf_x b bcount k O Hr).
           cbn [Buf.bind].
           destruct (BufBlocks.write_block_fault Buf.buf_z
                       (seg (Buf.digits b) k (k + bcount)) c0 0) as (f & R).
           { rewrite seg_length by lia. lia. }
           { rewrite seg_length by lia. lia. }
           rewrite R. cbn [Buf.bind]. exists f. reflexivity.
        -- destruct (BufBlocks.read_block_fault Buf.buf_x b bcount k) as (f & R).
           { lia. } { lia. }
           rewrite R. cbn [Buf.bind]. exists f. reflexivity.
Qed.

Lemma div_pow10_shift_storage_witness :
  let b := Buf.mk_bigint_s false 0 6 [1; 2; 3; 4; 5; 6] in
  exists f, BufOps.div_pow10_shift false b 2 = inl f.
Proof.
  intros b. refine (div_pow10_shift_storage false b 2 _ _).
  - unfold buf_ok. cbn. lia.
  - cbn. lia.
Defined.

(** X25: [bigint_add_abs] never leaves its buffers.  For operands with
    digits in range and [1 <= count y <= count x], the count [cz] it asks
    of [bigint_alloc_reuse_] ([cx + 1] only when the two top digits and a
    carry could reach [BASE]) is enough for every write, the final carry
    included, whether the result is [x] itself or a fresh buffer; the
    buffer returned holds the bigint that [bigint_add_abs] computes on
    the bigints of [x] and [y]. *)
Theorem bigint_add_abs_storage :
  forall (unique : bool) (x y : Buf.bigint_s),
    buf_ok x -> buf_ok y ->
    digits_ok (live x) -> digits_ok (live y) ->
    (1 <= Buf.count y <= Buf.count x)%nat ->
    exists z, BufOps.bigint_add_abs unique x y = inr z
              /\ abstract z = bigint_add_abs (abstract x) (abstract y)
              /\ buf_ok z.
Proof.
  intros unique x y Ox Oy Dx Dy Hc.
  unfold BufOps.bigint_add_abs, Buf.bigint_count_, BufOps.last_digit.
  pose proof Ox as Lx. pose proof Oy as Ly. unfold buf_ok, Buf.bigint_available_ in Lx, Ly.
  destruct (Buf.count x) as [|tx] eqn:Cx; [lia|].
  destruct (Buf.count y) as [|ty] eqn:Cy; [lia|].
  rewrite !BufRun.read_ok by (unfold Buf.bigint_available_; lia).
  cbn [Buf.bind]. rewrite <- Cx, <- Cy.
  set (cx := Buf.count x) in *. set (cy := Buf.count y) in *.
  set (lx := digit_at (Buf.digits x) tx). set (ly := digit_at (Buf.digits y) ty).
  set (r := add_abs_digits (live x) (live y) 0).
  set (cz := if BASE <=? lx + ly + 1 then (cx + 1)%nat else cx).
  assert (cx <= cz <= cx + 1)%nat as Hz by (unfold cz; destruct (BASE <=? lx + ly + 1); lia).
  assert (cz = cx -> length r = cx) as NoGrow.
  { intros E. unfold cz in E. destruct (BASE <=? lx + ly + 1) eqn:B; [lia|].
    apply Z.leb_gt in B. unfold r.
    rewrite add_abs_digits_keeps_length; try assumption; try lia.
    - apply live_length. exact Ox.
    - rewrite !live_length by assumption. fold cx cy. lia.
    - intros N. pose proof (live_length x Ox) as L. rewrite N in L. cbn in L. fold cx in L. lia.
    - unfold live. fold cx cy. rewrite Cx, Cy.
      rewrite !last_firstn_digit by lia. fold lx ly. lia. }
  assert (forall z, buf_ok z -> Buf.is_neg z = Buf.is_neg x -> live z = r ->
            abstract z = bigint_add_abs (abstract x) (abstract y)) as Fin.
  { intros z _ N L. apply abstract_eq; assumption. }
  assert (forall x0 z0 same,
            buf_ok x0 -> buf_ok z0 -> (cx <= Buf.bigint_available_ x0)%nat ->
            Buf.count z0 = cz -> Buf.is_neg z0 = Buf.is_neg x ->
            firstn cx (Buf.digits x0) = live x -> (same = true -> x0 = z0) ->
            exists z,
              Buf.bind (BufOps.add_digits cy 0 y 0 (Buf.mk_state x0 z0 same))
                (fun r1 => let '(i, carry, s) := r1 in
                 Buf.bind (BufOps.add_carry (cx - i) i carry s)
                   (fun r2 => let '(i, carry, s) := r2 in
                    Buf.bind (if (i <? cx)%nat && negb (Buf.st_same s)
                              then BufOps.add_copy_tail (cx - i) i s else Buf.ret s)
                      (fun s => let i := cx in
                       Buf.bind (if negb (carry =? 0)
                                 then Buf.bind (Buf.store_z s i carry)
                                        (fun s => Buf.ret ((i + 1)%nat, s))
                                 else Buf.ret (i, s))
                         (fun r3 => let '(i, s) := r3 in
                          Buf.ret (Buf.bigint_trim_to (Buf.st_z s) i true)))))
              = inr z
              /\ abstract z = bigint_add_abs (abstract x) (abstract y)
              /\ buf_ok z) as K.
  { intros x0 z0 same Ox0 Oz0 Hx0 Cz0 Nz0 Fx0 Al0.
    assert (cx <= Buf.bigint_available_ z0)%nat as Room
      by (unfold Buf.bigint_available_; lia).
    assert (cy <= cx)%nat as Cyx by lia.
    set (s0 := Buf.mk_state x0 z0 same).
    assert (add_inv x0 z0 y cx same r 0 0 s0) as I0.
    { split; [apply BufRun.same_shape_refl|]. split; [apply BufRun.same_shape_refl|].
      split; [reflexivity|]. split; [exact Al0|].
      cbn [firstn app s0 Buf.st_x Buf.st_z]. rewrite !seg_full, Fx0. reflexivity. }
    destruct (BufAdd.add_digits_inv x0 z0 y cx same r Ox0 Oz0 Oy Hx0 Room Cyx
                cy 0 0 s0 ltac:(lia) I0) as (c1 & s1 & R1 & I1).
    rewrite R1. cbn [Buf.bind].
    destruct (BufAdd.add_carry_inv x0 z0 y cx same r Ox0 Oz0 Hx0 Room Cyx
                (cx - (0 + cy)) (0 + cy) c1 s1 ltac:(lia) ltac:(lia) I1)
      as (i2 & c2 & s2 & R2 & Ri & Cz2 & I2).
    rewrite R2. cbn [Buf.bind].
    pose proof I2 as (Sx2 & Sz2 & Sm2 & Al2 & E2).
    rewrite (seg_nil (Buf.digits y)), add_abs_digits_nil_r in E2 by (fold cy; lia).
    assert (exists s3,
              (if (i2 <? cx)%nat && negb (Buf.st_same s2)
               then BufOps.add_copy_tail (cx - i2) i2 s2 else Buf.ret s2) = inr s3
              /\ same_shape z0 (Buf.st_z s3)
              /\ (Buf.st_same s3 = true -> Buf.st_x s3 = Buf.st_z s3)
              /\ firstn cx (Buf.digits (Buf.st_z s3)) ++ add_abs_carry [] c2 = r)
      as (s3 & R3 & Sz3 & Al3 & F3).
    { destruct ((i2 <? cx)%nat && negb (Buf.st_same s2)) eqn:T.
      - apply andb_prop in T. destruct T as [T1 T2]. apply Nat.ltb_lt in T1.
        apply negb_true_iff in T2.
        rewrite (Cz2 ltac:(lia)), add_abs_carry_zero in *.
        destruct (BufAdd.add_copy_tail_inv x0 z0 y cx Ox0 Oz0 Hx0 Room Cyx
                    (cx - i2) i2 s2 r ltac:(lia) Sx2 Sz2 T2 E2)
          as (s3 & R3 & Sz3 & Sm3 & F3).
        exists s3. split; [exact R3|]. split; [exact Sz3|].
        split; [rewrite Sm3; discriminate|].
        cbn [add_abs_carry]. rewrite app_nil_r. exact F3.
      - exists s2. split; [reflexivity|]. split; [exact Sz2|].
        split; [intros T'; apply Al2; congruence|].
        destruct (Nat.eq_dec i2 cx) as [->|Ne].
        + rewrite seg_nil in E2 by lia. exact E2.
        + assert (i2 < cx)%nat as Li by lia.
          apply andb_false_iff in T. destruct T as [T|T];
            [apply Nat.ltb_ge in T; lia|].
          apply negb_false_iff in T.
          rewrite (Cz2 ltac:(lia)), add_abs_carry_zero in *.
          cbn [add_abs_carry]. rewrite app_nil_r.
          rewrite (Al2 ltac:(congruence)) in E2.
          rewrite <- firstn_seg in E2 by lia. exact E2. }
    rewrite R3. cbn [Buf.bind]. cbv zeta.
    pose proof (BufRun.same_shape_ok _ _ Sz3 Oz0) as O3.
    pose proof (BufRun.same_shape_available _ _ Sz3) as A3.
    destruct (c2 =? 0) eqn:C0.
    - cbn [negb Buf.bind Buf.ret]. cbn [add_abs_carry negb] in F3.
      rewrite C0 in F3. cbn [negb] in F3. rewrite app_nil_r in F3.
      destruct (BufRun.trim_to_shape (Buf.st_z s3) cx true O3 ltac:(lia))
        as (C & N & F & B & _).
      eexists. split; [reflexivity|]. split; [|exact B].
      apply Fin; [exact B | destruct Sz3 as (N3 & _); congruence|].
      unfold live. rewrite C, F. exact F3.
    - cbn [negb]. cbn [add_abs_carry] in F3. rewrite C0 in F3. cbn [negb] in F3.
      assert (cx <= length (Buf.digits (Buf.st_z s3)))%nat as L3
        by (unfold buf_ok in O3; lia).
      assert (cz = (cx + 1)%nat) as Ez.
      { destruct (Nat.eq_dec cz cx) as [E|E]; [|lia].
        specialize (NoGrow E). rewrite <- F3, length_app, length_firstn in NoGrow.
        cbn [length] in NoGrow. lia. }
      destruct (BufRun.store_z_run s3 cx c2) as (s4 & R4 & Dz4 & Sz4 & _).
      { unfold Buf.bigint_available_ in *. lia. }
      { exact Al3. }
      rewrite R4. cbn [Buf.bind Buf.ret].
      pose proof (BufRun.same_shape_ok _ _ Sz4 O3) as O4.
      pose proof (BufRun.same_shape_available _ _ Sz4) as A4.
      destruct (BufRun.trim_to_shape (Buf.st_z s4) (cx + 1) true O4)
        as (C & N & F & B & _).
      { unfold Buf.bigint_available_ in *. lia. }
      eexists. split; [reflexivity|]. split; [|exact B].
      apply Fin; [exact B | destruct Sz3 as (N3 & _), Sz4 as (N4 & _); congruence|].
      unfold live. rewrite C, F, Dz4, Nat.add_1_r.
      rewrite firstn_set_digit_at by (unfold buf_ok, Buf.bigint_available_ in *; lia).
      exact F3. }
  destruct ((cz <=? Buf.bigint_available_ x)%nat
            && (Buf.bigint_available_ x - cz <=? Buf.MAX_EXTRA)%nat
            && unique) eqn:Reuse.
  - rewrite (BufRun.alloc_reuse_same unique x cz Ox Reuse). cbv beta iota.
    apply andb_prop in Reuse. destruct Reuse as [Reuse _].
    apply andb_prop in Reuse. destruct Reuse as [R1 _]. apply Nat.leb_le in R1.
    set (z0 := Buf.mk_bigint_s _ _ _ _).
    assert (buf_ok z0) as Oz.
    { unfold buf_ok, Buf.bigint_available_ in *.
      cbn [z0 Buf.count Buf.extra Buf.digits]. lia. }
    apply K; try assumption; try reflexivity.
    unfold Buf.bigint_available_ in *. cbn [z0 Buf.count Buf.extra]. lia.
  - unfold Buf.bigint_alloc_reuse_. rewrite Reuse.
    destruct (BufRun.alloc_shape cz (Buf.is_neg x)) as (C & N & _ & _).
    apply K; try assumption; try reflexivity; try discriminate.
    + apply BufRun.alloc_ok.
    + unfold Buf.bigint_available_. lia.
Qed.

Lemma bigint_add_abs_storage_witness :
  let x := Buf.mk_bigint_s false 0 4 [999999999; 999999999; 999999999; 999999999] in
  let y := Buf.mk_bigint_s false 3 1 [1; 0; 0; 0] in
  exists z, BufOps.bigint_add_abs false x y = inr z
            /\ abstract z = bigint_add_abs (abstract x) (abstract y)
            /\ buf_ok z.
Proof.
  intros x y. apply (bigint_add_abs_storage false x y).
  - unfold buf_ok. cbn. lia.
  - unfold buf_ok. cbn. lia.
  - cbn. repeat (apply digits_ok_cons; split; [rewrite BASE_eq; lia|]). apply digits_ok_nil.
  - cbn. repeat (apply digits_ok_cons; split; [rewrite BASE_eq; lia|]). apply digits_ok_nil.
  - cbn. lia.
Defined.

(** ** Machine arithmetic *)

(** X26: in [bigint_mul], for operands with digits in range, no signed
    operation overflows: every product and sum fits [int64_t], every
    value converted to [digit_t] and every digit incremented by a carry
    fits [int32_t] (a digit under the cursor may exceed [BASE], up to
    [2 * BASE - 2]), and every digit accessed lies below the count
    [cx + cy] of the result.  The run with these checks gives the bigint
    of [bigint_mul], whose value is the product. *)
Theorem bigint_mul_machine :
  forall x y : bigint_t,
    digits_ok (digits x) -> digits_ok (digits y) ->
    Machine.bigint_mul x y = Some (bigint_mul x y)
    /\ eval (digits (bigint_mul x y)) = eval (digits x) * eval (digits y).
Proof.
  intros x y Hx Hy. split; [|apply bigint_mul_spec; assumption].
  unfold Machine.bigint_mul, bigint_mul, bigint_alloc_zero, count.
  cbn [digits is_neg].
  rewrite machine_mul_rows; try assumption.
  - reflexivity.
  - intros j. rewrite digit_at_repeat_0. pose proof BASE_pos. lia.
  - intros j _. apply digit_at_repeat_0.
  - rewrite repeat_length. lia.
Qed.

Lemma bigint_mul_machine_witness :
  let x := mk_bigint false [999999999; 999999999] in
  let y := mk_bigint true [999999999; 999999999; 999999999] in
  Machine.bigint_mul x y = Some (bigint_mul x y)
  /\ eval (digits (bigint_mul x y)) = eval (digits x) * eval (digits y).
Proof.
  intros x y. apply (bigint_mul_machine x y).
  - cbn [x digits].
    repeat (apply digits_ok_cons; split; [rewrite BASE_eq; lia|]). apply digits_ok_nil.
  - cbn [y digits].
    repeat (apply digits_ok_cons; split; [rewrite BASE_eq; lia|]). apply digits_ok_nil.
Defined.

(** ** Parity *)


